(** * Advanced IK/FK rigging system: kinematics core

A shallow embedding of the numerical core of the rigging system:
the math utilities ([Vector2], [Matrix3], [MathUtils]), the joint tree
([Joint], [JointChain]) and the multi-chain solver ([AdvancedIKSolver]).

JavaScript numbers are idealised as real numbers: [+ - * /] are exact,
there is no NaN and no infinity, and a division by zero follows the
Standard Library's convention [/ 0 = 0].  Every "exactly equal" below is
therefore an identity of real arithmetic; the rounding of binary64 is
outside the model.  [Math.random] is an injected stream.

The tables of the skeleton are object literals.  The read of a chain by
its id follows the prototype chain ([JS.get]).  Joints are read by id
as from a finite map, which is what the code does for every joint name
but the twelve that an object inherits from [Object.prototype] (such as
["constructor"]): for a joint of such a name the read of its limits or
of its rotation gives a function, and the arithmetic on it is no
number. *)

From Stdlib Require Import Reals Lra Lia ZArith String.
From stdpp Require Import gmap strings list.

Open Scope R_scope.

(** ** Outcomes of a call

A call returns, throws, or does not come back (the fuel of a loop or of
a recursion ran out). *)

Inductive exn : Type :=
| TypeError
| Error (msg : string).

Inductive outcome (A : Type) : Type :=
| Ret (a : A)
| Throw (e : exn)
| Diverge.

Arguments Ret {A} a.
Arguments Throw {A} e.
Arguments Diverge {A}.

#[global] Instance outcome_ret : MRet outcome := fun A a => Ret a.

#[global] Instance outcome_bind : MBind outcome := fun A B k m =>
  match m with
  | Ret a => k a
  | Throw e => Throw e
  | Diverge => Diverge
  end.

(** Left-to-right monadic fold: a [for] loop over [l] with state [s]. *)
Fixpoint foldM {A S : Type} (f : S -> A -> outcome S) (l : list A) (s : S)
  : outcome S :=
  match l with
  | [] => Ret s
  | a :: l' => s' ← f s a; foldM f l' s'
  end.

(** ** JavaScript number primitives over the reals *)

Module JS.

(** Comparisons, as booleans. *)
Definition ltb (a b : R) : bool := if Rlt_dec a b then true else false.
Definition gtb (a b : R) : bool := ltb b a.
Definition eqb (a b : R) : bool := if Req_dec_T a b then true else false.

(** [x || d] on a possibly missing number: [undefined] and [0] are falsy. *)
Definition or_default (x : option R) (d : R) : R :=
  match x with
  | Some v => if eqb v 0 then d else v
  | None => d
  end.

(** Rounding toward zero, and the remainder operator [%], whose result
    has the sign of the dividend. *)
Definition trunc (r : R) : Z :=
  if Rle_dec 0 r then Int_part r else (- Int_part (- r))%Z.

Definition rem (a b : R) : R := a - b * IZR (trunc (a / b)).

(** [Math.hypot], [Math.atan2], [Math.sign]. *)
Definition hypot (a b : R) : R := sqrt (a * a + b * b).

Definition atan2 (y x : R) : R :=
  if Rlt_dec 0 x then atan (y / x)
  else if Rlt_dec x 0 then
         (if Rle_dec 0 y then atan (y / x) + PI else atan (y / x) - PI)
       else if Rlt_dec 0 y then PI / 2
            else if Rlt_dec y 0 then - (PI / 2)
                 else 0.

Definition sign (a : R) : R :=
  if Rlt_dec 0 a then 1 else if Rlt_dec a 0 then -1 else 0.

(** Reading [obj[key]] from an object used as a table.  The tables of the
    skeleton are object literals, so a key that is not one of their own
    is looked up in [Object.prototype], and the read gives a function (for
    [__proto__], the prototype itself): a truthy value without any of the
    fields of an entry. *)
Definition objectPrototype : list string :=
  ["constructor"; "__defineGetter__"; "__defineSetter__"; "hasOwnProperty";
   "__lookupGetter__"; "__lookupSetter__"; "isPrototypeOf";
   "propertyIsEnumerable"; "toString"; "valueOf"; "__proto__";
   "toLocaleString"].

Inductive property (A : Type) : Type :=
| Own (a : A)          (* an entry of the table *)
| Inherited            (* a member of [Object.prototype] *)
| Missing.             (* [undefined] *)

Arguments Own {A} a.
Arguments Inherited {A}.
Arguments Missing {A}.

Definition get {A : Type} (obj : gmap string A) (key : string) : property A :=
  match obj !! key with
  | Some a => Own a
  | None => if bool_decide (key ∈ objectPrototype) then Inherited else Missing
  end.

End JS.

(** ** math.js *)

Module Vector2.

Record t : Type := mk { x : R; y : R }.

Definition add (a v : t) : t := mk (x a + x v) (y a + y v).
Definition subtract (a v : t) : t := mk (x a - x v) (y a - y v).
Definition multiply (a : t) (scalar : R) : t := mk (x a * scalar) (y a * scalar).
Definition divide (a : t) (scalar : R) : t := mk (x a / scalar) (y a / scalar).
Definition magnitude (a : t) : R := sqrt (x a * x a + y a * y a).

Definition normalize (a : t) : t :=
  let mag := magnitude a in
  if JS.eqb mag 0 then mk 0 0 else divide a mag.

Definition dot (a v : t) : R := x a * x v + y a * y v.
Definition cross (a v : t) : R := x a * y v - y a * x v.
Definition angle (a : t) : R := JS.atan2 (y a) (x a).
Definition clone (a : t) : t := mk (x a) (y a).
Definition distance (a b : t) : R := magnitude (subtract a b).

Definition angleTo (a v : t) : R := JS.atan2 (cross a v) (dot a v).

Definition rotate (a : t) (angle : R) : t :=
  let cos := cos angle in
  let sin := sin angle in
  mk (x a * cos - y a * sin) (x a * sin + y a * cos).

Definition lerp (a v : t) (s : R) : t := add a (multiply (subtract v a) s).

Definition fromAngle (angle magnitude : R) : t :=
  mk (cos angle * magnitude) (sin angle * magnitude).

End Vector2.

Module Matrix3.

(** The nine [elements], row by row. *)
Record t : Type := mk {
  e0 : R; e1 : R; e2 : R;
  e3 : R; e4 : R; e5 : R;
  e6 : R; e7 : R; e8 : R
}.

Definition get (m : t) (i : nat) : R :=
  match i with
  | 0%nat => e0 m | 1%nat => e1 m | 2%nat => e2 m
  | 3%nat => e3 m | 4%nat => e4 m | 5%nat => e5 m
  | 6%nat => e6 m | 7%nat => e7 m | _ => e8 m
  end.

Definition init (f : nat -> R) : t :=
  mk (f 0%nat) (f 1%nat) (f 2%nat) (f 3%nat) (f 4%nat) (f 5%nat)
     (f 6%nat) (f 7%nat) (f 8%nat).

Definition identity : t := mk 1 0 0 0 1 0 0 0 1.

Definition translation (x y : R) : t := mk 1 0 0 0 1 0 x y 1.

Definition rotation (angle : R) : t :=
  let c := cos angle in
  let s := sin angle in
  mk c s 0 (- s) c 0 0 0 1.

(** [result[i*3+j]] starts at 0 and accumulates over [k = 0, 1, 2]. *)
Definition multiply (a b : t) : t :=
  init (fun n =>
    let i := (n / 3)%nat in
    let j := (n mod 3)%nat in
    fold_left (fun acc k => acc + get a (i * 3 + k) * get b (k * 3 + j))
              [0%nat; 1%nat; 2%nat] 0).

Definition transformPoint (m : t) (point : Vector2.t) : Vector2.t :=
  let w := Vector2.x point * e2 m + Vector2.y point * e5 m + e8 m in
  Vector2.mk
    ((Vector2.x point * e0 m + Vector2.y point * e3 m + e6 m) / w)
    ((Vector2.x point * e1 m + Vector2.y point * e4 m + e7 m) / w).

Definition transformVector (m : t) (vector : Vector2.t) : Vector2.t :=
  Vector2.mk
    (Vector2.x vector * e0 m + Vector2.y vector * e3 m)
    (Vector2.x vector * e1 m + Vector2.y vector * e4 m).

Definition determinant (m : t) : R :=
  e0 m * (e4 m * e8 m - e5 m * e7 m) -
  e1 m * (e3 m * e8 m - e5 m * e6 m) +
  e2 m * (e3 m * e7 m - e4 m * e6 m).

(** [1e-10] *)
Definition epsilon : R := / 10000000000.

Definition inverse (m : t) : outcome t :=
  let det := determinant m in
  if JS.ltb (Rabs det) epsilon then Throw (Error "Matrix is not invertible")
  else
    let invDet := 1 / det in
    Ret (mk
      ((e4 m * e8 m - e5 m * e7 m) * invDet)
      ((e2 m * e7 m - e1 m * e8 m) * invDet)
      ((e1 m * e5 m - e2 m * e4 m) * invDet)
      ((e5 m * e6 m - e3 m * e8 m) * invDet)
      ((e0 m * e8 m - e2 m * e6 m) * invDet)
      ((e2 m * e3 m - e0 m * e5 m) * invDet)
      ((e3 m * e7 m - e4 m * e6 m) * invDet)
      ((e1 m * e6 m - e0 m * e7 m) * invDet)
      ((e0 m * e4 m - e1 m * e3 m) * invDet)).

Definition scale (x y : R) : t := mk x 0 0 0 y 0 0 0 1.

Definition transpose (m : t) : t :=
  mk (e0 m) (e3 m) (e6 m) (e1 m) (e4 m) (e7 m) (e2 m) (e5 m) (e8 m).

(** The homogeneous coordinate [transformPoint] divides by, and the
    matrices whose last column is (0, 0, 1), for which it is 1: the
    matrices [translation], [rotation] and [scale] build. *)
Definition weight (m : t) (p : Vector2.t) : R :=
  Vector2.x p * e2 m + Vector2.y p * e5 m + e8 m.

Definition affine (m : t) : Prop := e2 m = 0 /\ e5 m = 0 /\ e8 m = 1.

End Matrix3.

Module MathUtils.

Definition clamp (value min max : R) : R := Rmax min (Rmin max value).

Definition lerp (a b t : R) : R := a + (b - a) * t.

Definition degToRad (degrees : R) : R := degrees * PI / 180.
Definition radToDeg (radians : R) : R := radians * 180 / PI.

(** [while (angle > PI) angle -= 2 * PI; while (angle < -PI) angle += 2 * PI].
    Each loop is run for as many rounds as the distance to the interval
    needs, which is where the source's loop stops. *)
Fixpoint while_above (fuel : nat) (angle : R) : R :=
  match fuel with
  | O => angle
  | S fuel' =>
      if JS.gtb angle PI then while_above fuel' (angle - 2 * PI) else angle
  end.

Fixpoint while_below (fuel : nat) (angle : R) : R :=
  match fuel with
  | O => angle
  | S fuel' =>
      if JS.ltb angle (- PI) then while_below fuel' (angle + 2 * PI) else angle
  end.

Definition rounds (excess : R) : nat := Z.to_nat (up (excess / (2 * PI))).

Definition normalizeAngle (angle : R) : R :=
  let a1 := while_above (rounds (angle - PI)) angle in
  while_below (rounds (- PI - a1)) a1.

Definition wrapAngle (angle : R) : R :=
  JS.rem (JS.rem angle (2 * PI) + 2 * PI) (2 * PI).

Definition smoothstep (edge0 edge1 x : R) : R :=
  let t := clamp ((x - edge0) / (edge1 - edge0)) 0 1 in
  t * t * (3 - 2 * t).

Definition angleDifference (a b : R) : R :=
  let diff := b - a in
  normalizeAngle diff.

Definition map (value inMin inMax outMin outMax : R) : R :=
  (value - inMin) * (outMax - outMin) / (inMax - inMin) + outMin.

End MathUtils.

(** ** skeleton-data.js: the shape of [BITRUVIUS_DATA] *)

Module Skeleton.

Record JointDef : Type := mkJointDef {
  parent : option string;      (* [null] for the hierarchy root *)
  pivot : R * R
}.

Record ChainDef : Type := mkChainDef {
  joints : list string;
  stretchRatio : option R;
  curveStrength : option R
}.

Record Limit : Type := mkLimit { min : R; max : R }.

Record Data : Type := mkData {
  JOINT_DEFS : gmap string JointDef;
  IK_CHAINS : gmap string ChainDef;
  JOINT_LIMITS : gmap string Limit
}.

(** The skeleton the application ships with. *)
Definition l_arm_chain : ChainDef :=
  mkChainDef ["l_shoulder"; "l_elbow"; "l_wrist"] (Some (11 / 10)) (Some (5 / 10)).

Definition BITRUVIUS_DATA : Data :=
  mkData
    (list_to_map [
       ("root", mkJointDef None (0, 0));
       ("torso", mkJointDef (Some "root") (0, -58));
       ("waist", mkJointDef (Some "torso") (0, 58));
       ("neck", mkJointDef (Some "torso") (0, -58));
       ("head", mkJointDef (Some "neck") (0, -24));
       ("nose", mkJointDef (Some "head") (0, -8));
       ("l_collar", mkJointDef (Some "torso") (-32, -13));
       ("r_collar", mkJointDef (Some "torso") (32, -13));
       ("l_shoulder", mkJointDef (Some "l_collar") (-22, 0));
       ("r_shoulder", mkJointDef (Some "r_collar") (22, 0));
       ("l_elbow", mkJointDef (Some "l_shoulder") (-30, 0));
       ("r_elbow", mkJointDef (Some "r_shoulder") (30, 0));
       ("l_wrist", mkJointDef (Some "l_elbow") (-25, 0));
       ("r_wrist", mkJointDef (Some "r_elbow") (25, 0));
       ("l_hip", mkJointDef (Some "waist") (-20, 0));
       ("r_hip", mkJointDef (Some "waist") (20, 0));
       ("l_knee", mkJointDef (Some "l_hip") (0, 40));
       ("r_knee", mkJointDef (Some "r_hip") (0, 40));
       ("l_ankle", mkJointDef (Some "l_knee") (0, 35));
       ("r_ankle", mkJointDef (Some "r_knee") (0, 35));
       ("l_toe", mkJointDef (Some "l_ankle") (0, 12));
       ("r_toe", mkJointDef (Some "r_ankle") (0, 12))
     ])
    (list_to_map [
       ("l_arm_chain", l_arm_chain);
       ("r_arm_chain",
        mkChainDef ["r_shoulder"; "r_elbow"; "r_wrist"] (Some (11 / 10)) (Some (5 / 10)));
       ("l_leg_chain",
        mkChainDef ["l_hip"; "l_knee"; "l_ankle"] (Some (105 / 100)) (Some (3 / 10)));
       ("r_leg_chain",
        mkChainDef ["r_hip"; "r_knee"; "r_ankle"] (Some (105 / 100)) (Some (3 / 10)))
     ])
    (list_to_map [
       ("neck", mkLimit (-45) 45);
       ("head", mkLimit (-30) 30);
       ("l_shoulder", mkLimit (-180) 180);
       ("r_shoulder", mkLimit (-180) 180);
       ("l_elbow", mkLimit 0 150);
       ("r_elbow", mkLimit 0 150);
       ("l_wrist", mkLimit (-90) 90);
       ("r_wrist", mkLimit (-90) 90);
       ("l_hip", mkLimit (-30) 30);
       ("r_hip", mkLimit (-30) 30);
       ("l_knee", mkLimit 0 150);
       ("r_knee", mkLimit 0 150);
       ("l_ankle", mkLimit (-45) 45);
       ("r_ankle", mkLimit (-45) 45)
     ]).

(** A chain of one segment of length 100 from the hierarchy root, with a
    stretch ratio below the soft margin of 0.12. *)
Definition tightChain : ChainDef :=
  mkChainDef ["root"; "hand"] (Some (1 / 100)) None.

Definition tightData : Data :=
  mkData
    (list_to_map [
       ("root", mkJointDef None (0, 0));
       ("hand", mkJointDef (Some "root") (100, 0))
     ])
    (list_to_map [("reach", tightChain)])
    ∅.

(** A chain that lists its last joint a second time, as its first. *)
Definition loopChain : ChainDef := mkChainDef ["a"; "b"; "a"] None None.

Definition loopData : Data :=
  mkData
    (list_to_map [
       ("a", mkJointDef None (10, 0));
       ("b", mkJointDef (Some "a") (10, 0))
     ])
    (list_to_map [("loop", loopChain)])
    ∅.

Definition initialRotations : gmap string R :=
  list_to_map [
    ("torso", 0); ("waist", 0); ("neck", 0); ("head", 0); ("nose", 0);
    ("l_collar", 0); ("r_collar", 0); ("l_shoulder", 45); ("r_shoulder", -45);
    ("l_elbow", 30); ("r_elbow", 30); ("l_wrist", 0); ("r_wrist", 0);
    ("l_hip", 10); ("r_hip", -10); ("l_knee", 5); ("r_knee", 5);
    ("l_ankle", 0); ("r_ankle", 0); ("l_toe", 0); ("r_toe", 0)
  ].

End Skeleton.

(** ** advanced-ik-solver.js *)

Module AdvancedIKSolver.
  Import Skeleton.

Record Point : Type := mkPoint { x : R; y : R }.

(** What [computeWorld] returns; [wx] and [wy] are its [x] and [y]. *)
Record World : Type := mkWorld {
  wx : R; wy : R; angle : R; parentAngle : R
}.

(** A string is truthy unless it is empty; [null] is falsy. *)
Definition truthy (s : option string) : option string :=
  match s with
  | Some c => if String.eqb c "" then None else Some c
  | None => None
  end.

(** [chainId.includes(sub)] *)
Definition includes (s sub : string) : bool :=
  match String.index 0 sub s with
  | Some _ => true
  | None => false
  end.

Definition d2r (d : R) : R := d * PI / 180.
Definition r2d (r : R) : R := r * 180 / PI.
Definition normA (a : R) : R := JS.rem (JS.rem a 360 + 540) 360 - 180.
Definition clamp (v min max : R) : R := Rmax min (Rmin max v).

(** [chainPoints[i]] followed by a field read: a missing element throws. *)
Definition getP (pts : list Point) (i : nat) : outcome Point :=
  match pts !! i with
  | Some p => Ret p
  | None => Throw TypeError
  end.

(** [chainLengths[i]]; the index is in range at every use. *)
Definition getL (chainLengths : list R) (i : nat) : R :=
  default 0 (chainLengths !! i).

Definition dist (a b : Point) : R := JS.hypot (x a - x b) (y a - y b).

(** Distance of the effector, [chainPoints[numPoints - 1]], to the target;
    what the solve loop calls [currentDist]. *)
Definition effectorDist (numPoints : nat) (target : Point) (pts : list Point) : R :=
  match pts !! (numPoints - 1)%nat with
  | Some p => dist p target
  | None => 0
  end.

Section Solver.

Variable data : Data.
(** Bound on the length of the walk to the hierarchy root. *)
Variable fuel : nat.
(** The values [Math.random()] returns, in the order of the calls. *)
Variable random : nat -> R.

(** [while (cur) { path.unshift(cur); cur = JOINT_DEFS[cur]?.parent; }] *)
Fixpoint ancestors (n : nat) (cur : option string) (path : list string)
  : outcome (list string) :=
  match truthy cur with
  | None => Ret path
  | Some c =>
      match n with
      | O => Diverge
      | S n' => ancestors n' (JOINT_DEFS data !! c ≫= parent) (c :: path)
      end
  end.

Definition walk (rotations : gmap string R) (s : R * R * R * R) (j : string)
  : outcome (R * R * R * R) :=
  let '(wx, wy, wa, pa) := s in
  if String.eqb j "root" then Ret s
  else
    match JOINT_DEFS data !! j with
    | None => Throw TypeError
    | Some jDef =>
        let '(px, py) := pivot jDef in
        let c := cos wa in
        let s := sin wa in
        Ret (wx + (px * c - py * s),
             wy + (px * s + py * c),
             wa + d2r (JS.or_default (rotations !! j) 0),
             wa)
    end.

Definition computeWorld (jointId : string) (rotations : gmap string R)
    (canvasCenter : R * R) : outcome World :=
  path ← ancestors fuel (Some jointId) [];
  '(wx, wy, wa, pa) ←
    foldM (walk rotations) path (fst canvasCenter, snd canvasCenter, 0, 0);
  Ret (mkWorld wx wy (normA (r2d wa)) (normA (r2d pa))).

(** *** Step 1: chain points and segment lengths *)

Fixpoint buildPoints (jointIds : list string) (currentRots : gmap string R)
    (center : R * R) : outcome (list Point) :=
  match jointIds with
  | [] => Ret []
  | id :: rest =>
      world ← computeWorld id currentRots center;
      pts ← buildPoints rest currentRots center;
      Ret (mkPoint (wx world) (wy world) :: pts)
  end.

Fixpoint buildLengths (nextIds : list string) : outcome (list R) :=
  match nextIds with
  | [] => Ret []
  | nextJointId :: rest =>
      match JOINT_DEFS data !! nextJointId with
      | None => Throw TypeError
      | Some def =>
          ls ← buildLengths rest;
          Ret (JS.hypot (fst (pivot def)) (snd (pivot def)) :: ls)
      end
  end.

Definition totalLength (chainLengths : list R) : R :=
  fold_left (fun sum len => sum + len) chainLengths 0.

(** *** Reachability with stretch support and soft reach damping *)

Definition distToTarget (root target : Point) : R :=
  JS.hypot (x target - x root) (y target - y root).

Definition softDist (totalChainLength : R) : R := totalChainLength * (12 / 100).

Definition softThreshold (totalChainLength : R) (chainDef : ChainDef) : R :=
  let stretchLimit :=
    totalChainLength * JS.or_default (stretchRatio chainDef) (11 / 10) in
  stretchLimit - softDist totalChainLength.

Definition softTarget (root target : Point) (totalChainLength : R)
    (chainDef : ChainDef) : Point :=
  let distToTarget := distToTarget root target in
  let softDist := softDist totalChainLength in
  let softThreshold := softThreshold totalChainLength chainDef in
  if JS.gtb distToTarget softThreshold then
    let overflow := distToTarget - softThreshold in
    let dampedOverflow := softDist * (1 - exp (- overflow / softDist)) in
    let newDist := softThreshold + dampedOverflow in
    let ratio := newDist / distToTarget in
    mkPoint (x root + (x target - x root) * ratio)
            (y root + (y target - y root) * ratio)
  else target.

(** *** Natural bias for limbs *)

Definition naturalBias (chainId : string) (chainDef : ChainDef)
    (chainLengths : list R) (target : Point) (chainPoints : list Point)
  : outcome (list Point) :=
  if (3 <=? length chainPoints)%nat then
    let isLeg := includes chainId "leg" in
    let isArm := includes chainId "arm" in
    if isLeg || isArm then
      let isRight := includes chainId "r_" || includes chainId "_r" in
      let bendDirection := if isRight then 1 else -1 in
      let curveFactor := JS.or_default (curveStrength chainDef) (5 / 10) in
      shoulder ← getP chainPoints 0;
      let targetVecX := x target - x shoulder in
      let targetVecY := y target - y shoulder in
      let targetDist := JS.hypot targetVecX targetVecY in
      if JS.gtb targetDist (1 / 10) then
        let initialBendAngle := d2r (bendDirection * curveFactor * 20) in
        let rotatedTargetVecX :=
          targetVecX * cos initialBendAngle - targetVecY * sin initialBendAngle in
        let rotatedTargetVecY :=
          targetVecX * sin initialBendAngle + targetVecY * cos initialBendAngle in
        let elbowTargetX :=
          x shoulder + (rotatedTargetVecX / targetDist) * getL chainLengths 0 in
        let elbowTargetY :=
          y shoulder + (rotatedTargetVecY / targetDist) * getL chainLengths 0 in
        _ ← getP chainPoints 1;
        Ret (<[1%nat := mkPoint elbowTargetX elbowTargetY]> chainPoints)
      else Ret chainPoints
    else Ret chainPoints
  else Ret chainPoints.

(** *** Resolvable chains

What the lookups of a solve need: every joint on the way from a
chain joint to the hierarchy root has a definition, and the walk
stays within the bound. *)

Definition defined (j : string) : bool :=
  bool_decide (is_Some (JOINT_DEFS data !! j)).

Definition definedPath (jointId : string) : bool :=
  match ancestors fuel (Some jointId) [] with
  | Ret path => forallb (fun j => String.eqb j "root" || defined j) path
  | _ => false
  end.

Definition resolvable (chainDef : ChainDef) : bool :=
  forallb (fun id => defined id && definedPath id
                     && match JOINT_DEFS data !! id ≫= parent with
                        | Some pId => definedPath pId
                        | None => true
                        end)
          (joints chainDef).

(** *** The solve loop *)

Definition iterations : nat := 50.
Definition tolerance : R := 1 / 100.

Record Loop : Type := mkLoop {
  chainPoints : list Point;
  bestDist : option R;          (* [None] is [Infinity] *)
  bestPoints : list Point;
  calls : nat                   (* calls of [Math.random] so far *)
}.

Section Iterate.

Variable jointIds : list string.
Variable currentRots : gmap string R.
Variable center : R * R.
Variable chainLengths : list R.
Variable numPoints : nat.
Variable target : Point.
Variable initialBasePos : Point.

(** [currentDist < bestDist], with [bestDist] initially [Infinity]. *)
Definition improves (currentDist : R) (best : option R) : bool :=
  match best with
  | None => true
  | Some b => JS.ltb currentDist b
  end.

(** The head of the loop body: measure the effector and keep a copy of
    the points when they beat the best seen so far. *)
Definition evaluate (s : Loop) : outcome (R * Loop) :=
  effectorPos ← getP (chainPoints s) (numPoints - 1);
  let currentDist :=
    JS.hypot (x effectorPos - x target) (y effectorPos - y target) in
  Ret (currentDist,
       if improves currentDist (bestDist s)
       then mkLoop (chainPoints s) (Some currentDist) (chainPoints s) (calls s)
       else s).

(** SCEM-like perturbation of the interior points. *)
Definition nudge (temp : R) (st : list Point * nat) (i : nat)
  : outcome (list Point * nat) :=
  let '(pts, k) := st in
  p ← getP pts i;
  let px := x p + (random k - 5 / 10) * temp in
  let py := y p + (random (S k) - 5 / 10) * temp in
  Ret (<[i := mkPoint px py]> pts, S (S k)).

Definition perturb (iter : nat) (currentDist : R) (st : list Point * nat)
  : outcome (list Point * nat) :=
  if (10 <? iter)%nat && (iter mod 5 =? 0)%nat
     && JS.gtb currentDist (tolerance * 5)
  then
    let temp := 3 * (1 - INR iter / INR iterations) in
    foldM (nudge temp) (seq 1 (numPoints - 2)) st
  else Ret st.

Definition backwardStep (pts : list Point) (i : nat) : outcome (list Point) :=
  next ← getP pts (i + 1);
  curr ← getP pts i;
  let dist := JS.hypot (x curr - x next) (y curr - y next) in
  if JS.gtb dist (1 / 10000) then
    let ratio := getL chainLengths i / dist in
    Ret (<[i := mkPoint (x next + (x curr - x next) * ratio)
                        (y next + (y curr - y next) * ratio)]> pts)
  else Ret pts.

Definition backwardPass (pts : list Point) : outcome (list Point) :=
  foldM backwardStep (rev (seq 0 (numPoints - 1)))
        (<[(numPoints - 1)%nat := target]> pts).

Definition forwardStep (pts : list Point) (i : nat) : outcome (list Point) :=
  curr ← getP pts i;
  next ← getP pts (i + 1);
  let dist := JS.hypot (x next - x curr) (y next - y curr) in
  if JS.gtb dist (1 / 10000) then
    let ratio := getL chainLengths i / dist in
    let nextX := x curr + (x next - x curr) * ratio in
    let nextY := y curr + (y next - y curr) * ratio in
    '(nextX, nextY) ←
      match jointIds !! i ≫= (fun jointId =>
              (fun lim => (jointId, lim)) <$> JOINT_LIMITS data !! jointId) with
      | None => Ret (nextX, nextY)
      | Some (jointId, lim) =>
          match JOINT_DEFS data !! jointId with
          | None => Throw TypeError
          | Some def =>
              pAngle ←
                match i, truthy (parent def) with
                | O, Some pId =>
                    world ← computeWorld pId currentRots center;
                    Ret (angle world)
                | O, None => Ret 0
                | S i', _ =>
                    prev ← getP pts i';
                    Ret (r2d (JS.atan2 (y curr - y prev) (x curr - x prev)))
                end;
              let angle := r2d (JS.atan2 (nextY - y curr) (nextX - x curr)) in
              let local := normA (angle - pAngle) in
              if JS.ltb local (min lim) || JS.gtb local (max lim) then
                let local := clamp local (min lim) (max lim) in
                let clampedGlobal := d2r (pAngle + local) in
                Ret (x curr + cos clampedGlobal * getL chainLengths i,
                     y curr + sin clampedGlobal * getL chainLengths i)
              else Ret (nextX, nextY)
          end
      end;
    Ret (<[(i + 1)%nat := mkPoint nextX nextY]> pts)
  else Ret pts.

Definition forwardPass (pts : list Point) : outcome (list Point) :=
  foldM forwardStep (seq 0 (numPoints - 1)) (<[0%nat := initialBasePos]> pts).

(** Loop invariant: [bestDist], once finite, is the effector distance
    of [bestPoints]. *)
Definition coherent (s : Loop) : Prop :=
  forall b, bestDist s = Some b -> b = effectorDist numPoints target (bestPoints s).

(** The rest of the loop body, after the tolerance test. *)
Definition advance (iter : nat) (currentDist : R) (s : Loop) : outcome Loop :=
  '(pts, k) ← perturb iter currentDist (chainPoints s, calls s);
  pts ← backwardPass pts;
  pts ← forwardPass pts;
  Ret (mkLoop pts (bestDist s) (bestPoints s) k).

(** [for (let iter = 0; iter < iterations; iter++)], with [todo] rounds
    left. *)
Fixpoint iterate (todo iter : nat) (s : Loop) : outcome Loop :=
  match todo with
  | O => Ret s
  | S todo' =>
      '(currentDist, s) ← evaluate s;
      if JS.ltb currentDist tolerance then Ret s
      else
        s ← advance iter currentDist s;
        iterate todo' (S iter) s
  end.

(** The point configurations the loop measures, in order: the value of
    [chainPoints] each time the head of the body runs. *)
Fixpoint evaluated (todo iter : nat) (s : Loop) : list (list Point) :=
  match todo with
  | O => []
  | S todo' =>
      match evaluate s with
      | Ret (currentDist, s1) =>
          chainPoints s ::
            (if JS.ltb currentDist tolerance then []
             else match advance iter currentDist s1 with
                  | Ret s2 => evaluated todo' (S iter) s2
                  | _ => []
                  end)
      | _ => []
      end
  end.

End Iterate.

(** *** Converting the final chain points back to local rotations *)

Definition extractStep (jointIds : list string) (currentRots : gmap string R)
    (center : R * R) (finalPoints : list Point)
    (finalRots : gmap string R) (i : nat) : outcome (gmap string R) :=
  match jointIds !! i with
  | None => Throw TypeError
  | Some jointId =>
      match JOINT_DEFS data !! jointId with
      | None => Throw TypeError
      | Some def =>
          parentGlobalAngle ←
            match i with
            | O =>
                match truthy (parent def) with
                | Some pId =>
                    if String.eqb pId "root" then Ret 0
                    else
                      world ← computeWorld pId currentRots center;
                      Ret (angle world)
                | None => Ret 0
                end
            | S i' =>
                cur ← getP finalPoints i;
                prev ← getP finalPoints i';
                Ret (r2d (JS.atan2 (y cur - y prev) (x cur - x prev)))
            end;
          next ← getP finalPoints (i + 1);
          cur ← getP finalPoints i;
          let boneGlobalAngle :=
            r2d (JS.atan2 (y next - y cur) (x next - x cur)) in
          let localAngle := normA (boneGlobalAngle - parentGlobalAngle) in
          let localAngle :=
            match JOINT_LIMITS data !! jointId with
            | Some lim => clamp localAngle (min lim) (max lim)
            | None => localAngle
            end in
          Ret (<[jointId := localAngle]> finalRots)
      end
  end.

(** The loop breaks at the effector, [i = jointIds.length - 1]. *)
Definition extract (jointIds : list string) (currentRots : gmap string R)
    (center : R * R) (finalPoints : list Point) : outcome (gmap string R) :=
  foldM (extractStep jointIds currentRots center finalPoints)
        (seq 0 (length jointIds - 1)) currentRots.

(** *** solveIK_Advanced *)

Record Setup : Type := mkSetup {
  setupLengths : list R;
  setupTarget : Point;             (* the effective target *)
  setupBase : Point;               (* [initialBasePos] *)
  setupPoints : list Point         (* [chainPoints] entering the loop *)
}.

Definition prepare (chainId : string) (chainDef : ChainDef)
    (targetX targetY : R) (currentRots : gmap string R) (center : R * R)
  : outcome Setup :=
  let jointIds := joints chainDef in
  chainPoints ← buildPoints jointIds currentRots center;
  chainLengths ← buildLengths (tail jointIds);
  let totalChainLength := totalLength chainLengths in
  root ← getP chainPoints 0;
  let target := softTarget root (mkPoint targetX targetY) totalChainLength chainDef in
  chainPoints ← naturalBias chainId chainDef chainLengths target chainPoints;
  Ret (mkSetup chainLengths target root chainPoints).

Definition solveLoop (chainDef : ChainDef) (currentRots : gmap string R)
    (center : R * R) (su : Setup) : outcome Loop :=
  iterate (joints chainDef) currentRots center (setupLengths su)
          (length (setupPoints su)) (setupTarget su) (setupBase su)
          iterations 0
          (mkLoop (setupPoints su) None (setupPoints su) 0).

(** The object a call hands back: the very object it was given as
    [currentRots], or [finalRots], the copy it made and wrote to. *)
Inductive Returned : Type :=
| TheArgument
| Copy (finalRots : gmap string R).

Definition contents (currentRots : gmap string R) (r : Returned)
  : gmap string R :=
  match r with
  | TheArgument => currentRots
  | Copy finalRots => finalRots
  end.

(** [solveIK_Advanced], with the identity of the object it returns.
    An id that [IK_CHAINS] only inherits gives a [chainDef] without
    [joints], and [jointIds.length] throws. *)
Definition solveIK_Advanced_object (chainId : string) (targetX targetY : R)
    (currentRots : gmap string R) (center : R * R) : outcome Returned :=
  match JS.get (IK_CHAINS data) chainId with
  | JS.Missing => Ret TheArgument
  | JS.Inherited => Throw TypeError
  | JS.Own chainDef =>
      let jointIds := joints chainDef in
      if (length jointIds <? 2)%nat then Ret TheArgument
      else
        su ← prepare chainId chainDef targetX targetY currentRots center;
        s ← solveLoop chainDef currentRots center su;
        let finalPoints := bestPoints s in
        finalRots ← extract jointIds currentRots center finalPoints;
        Ret (Copy finalRots)
  end.

(** The rotation map in the object returned. *)
Definition solveIK_Advanced (chainId : string) (targetX targetY : R)
    (currentRots : gmap string R) (center : R * R) : outcome (gmap string R) :=
  r ← solveIK_Advanced_object chainId targetX targetY currentRots center;
  Ret (contents currentRots r).

(** The configurations measured during that call. *)
Definition iterates (chainDef : ChainDef) (currentRots : gmap string R)
    (center : R * R) (su : Setup) : list (list Point) :=
  evaluated (joints chainDef) currentRots center (setupLengths su)
            (length (setupPoints su)) (setupTarget su) (setupBase su)
            iterations 0
            (mkLoop (setupPoints su) None (setupPoints su) 0).

End Solver.

End AdvancedIKSolver.

(** ** joint.js

Joints are objects compared by reference, each holding its parent and
its children.  They live in an arena: a joint is its index in the store,
and a reference that is [null] is [None].  The fields kept are the ones
the kinematics reads or writes. *)

Module Joint.

Record Constraints : Type := mkConstraints {
  enabled : bool;
  minAngle : R;
  maxAngle : R
}.

Record t : Type := mk {
  position : Vector2.t;
  length : R;
  angle : R;
  targetAngle : R;
  angleWrapping : bool;
  ikEnabled : bool;
  ikWeight : R;
  damping : R;
  constraints : Constraints;
  localTransform : Matrix3.t;
  worldTransform : Matrix3.t;
  children : list nat;
  parent : option nat;
  fkAngle : R
}.

(** [new Joint(position, length)] *)
Definition new (position : Vector2.t) (length : R) : t :=
  mk (Vector2.clone position) length 0 0 true true 1 (1 / 10)
     (mkConstraints false (- PI * (75 / 100)) (PI * (75 / 100)))
     Matrix3.identity Matrix3.identity [] None 0.

#[global] Instance inhabited : Inhabited t := populate (new (Vector2.mk 0 0) 50).

Abbreviation Store := (list t).

Definition set_angle (a : R) (j : t) : t :=
  mk (position j) (length j) a (targetAngle j) (angleWrapping j) (ikEnabled j)
     (ikWeight j) (damping j) (constraints j) (localTransform j)
     (worldTransform j) (children j) (parent j) (fkAngle j).

Definition set_targetAngle (a : R) (j : t) : t :=
  mk (position j) (length j) (angle j) a (angleWrapping j) (ikEnabled j)
     (ikWeight j) (damping j) (constraints j) (localTransform j)
     (worldTransform j) (children j) (parent j) (fkAngle j).

Definition set_transforms (l w : Matrix3.t) (j : t) : t :=
  mk (position j) (length j) (angle j) (targetAngle j) (angleWrapping j)
     (ikEnabled j) (ikWeight j) (damping j) (constraints j) l w
     (children j) (parent j) (fkAngle j).

Definition set_children (c : list nat) (j : t) : t :=
  mk (position j) (length j) (angle j) (targetAngle j) (angleWrapping j)
     (ikEnabled j) (ikWeight j) (damping j) (constraints j) (localTransform j)
     (worldTransform j) c (parent j) (fkAngle j).

Definition set_parent (p : option nat) (j : t) : t :=
  mk (position j) (length j) (angle j) (targetAngle j) (angleWrapping j)
     (ikEnabled j) (ikWeight j) (damping j) (constraints j) (localTransform j)
     (worldTransform j) (children j) p (fkAngle j).

Definition set_constraints (c : Constraints) (j : t) : t :=
  mk (position j) (length j) (angle j) (targetAngle j) (angleWrapping j)
     (ikEnabled j) (ikWeight j) (damping j) c (localTransform j)
     (worldTransform j) (children j) (parent j) (fkAngle j).

Definition set_ikWeight (w : R) (j : t) : t :=
  mk (position j) (length j) (angle j) (targetAngle j) (angleWrapping j)
     (ikEnabled j) w (damping j) (constraints j) (localTransform j)
     (worldTransform j) (children j) (parent j) (fkAngle j).

Definition set_fkAngle (a : R) (j : t) : t :=
  mk (position j) (length j) (angle j) (targetAngle j) (angleWrapping j)
     (ikEnabled j) (ikWeight j) (damping j) (constraints j) (localTransform j)
     (worldTransform j) (children j) (parent j) a.

(** *** Tree edits *)

Definition addChild (this child : nat) (st : Store) : Store :=
  if bool_decide (child <> this) then
    alter (set_parent (Some this)) child
      (alter (fun j => set_children (children j ++ [child]) j) this st)
  else st.

(** [children.indexOf(child)] and [children.splice(index, 1)] *)
Fixpoint indexOf (l : list nat) (child : nat) : option nat :=
  match l with
  | [] => None
  | c :: l' => if bool_decide (c = child) then Some O
               else S <$> indexOf l' child
  end.

Definition removeChild (this child : nat) (st : Store) : Store :=
  match indexOf (children (st !!! this)) child with
  | Some index =>
      alter (set_parent None) child
        (alter (fun j => set_children (delete index (children j)) j) this st)
  | None => st
  end.

(** *** Transforms *)

Definition getWorldPosition (j : t) : Vector2.t :=
  Matrix3.transformPoint (worldTransform j) (Vector2.mk 0 0).

Definition getEndEffectorPosition (j : t) : Vector2.t :=
  Matrix3.transformPoint (worldTransform j) (Vector2.mk (length j) 0).

(** [updateTransform] recurses into the children; [fuel] bounds the depth. *)
Fixpoint updateTransform (fuel : nat) (this : nat) (st : Store) : outcome Store :=
  match fuel with
  | O => Diverge
  | S fuel' =>
      let j := st !!! this in
      let l := Matrix3.multiply (Matrix3.rotation (angle j))
                 (Matrix3.translation (Vector2.x (position j)) (Vector2.y (position j))) in
      let w := match parent j with
               | Some p => Matrix3.multiply (worldTransform (st !!! p)) l
               | None => l
               end in
      foldM (fun st child => updateTransform fuel' child st) (children j)
            (alter (set_transforms l w) this st)
  end.

(** *** Angles *)

Definition rotate (deltaAngle : R) (j : t) : t :=
  let a := targetAngle j + deltaAngle in
  set_targetAngle (if angleWrapping j then a else MathUtils.normalizeAngle a) j.

Definition setAngle (a : R) (j : t) : t :=
  set_targetAngle (if angleWrapping j then a else MathUtils.normalizeAngle a) j.

Fixpoint getJointCount (fuel : nat) (st : Store) (this : nat) : outcome nat :=
  match fuel with
  | O => Diverge
  | S fuel' =>
      foldM (fun count child => n ← getJointCount fuel' st child; Ret (count + n)%nat)
            (children (st !!! this)) 1%nat
  end.

(** *** Joint.updateIK: cyclic coordinate descent over the ancestors *)

(** One step of the sweep, on the joint [current]; [effectorWeight] is
    [this.ikWeight]. *)
Definition ikStep (effectorWeight : R) (endEffector target : Vector2.t)
    (current : t) : t :=
  let jointPos := getWorldPosition current in
  let toEnd := Vector2.subtract endEffector jointPos in
  let toTarget := Vector2.subtract target jointPos in
  if JS.gtb (Vector2.magnitude toEnd) 0 && JS.gtb (Vector2.magnitude toTarget) 0 then
    let currentAngle := Vector2.angle toEnd in
    let targetAngle' := Vector2.angle toTarget in
    let rotation := targetAngle' - currentAngle in
    let rotation :=
      if enabled (constraints current) then
        let newAngle := angle current + rotation in
        let constrainedAngle :=
          MathUtils.clamp newAngle (minAngle (constraints current))
                          (maxAngle (constraints current)) in
        constrainedAngle - angle current
      else rotation in
    let rotation := rotation * (ikWeight current * effectorWeight) in
    let current := set_targetAngle (angle current + rotation) current in
    set_angle (MathUtils.lerp (angle current) (targetAngle current)
                              (1 - damping current)) current
  else current.

(** [while (current) { ...; current = current.parent; }] *)
Fixpoint sweep (fuel : nat) (this : nat) (endEffector target : Vector2.t)
    (current : option nat) (st : Store) : outcome Store :=
  match current with
  | None => Ret st
  | Some c =>
      match fuel with
      | O => Diverge
      | S fuel' =>
          let j := st !!! c in
          if negb (ikEnabled j) then
            sweep fuel' this endEffector target (parent j) st
          else
            let st := alter (ikStep (ikWeight (st !!! this)) endEffector target) c st in
            sweep fuel' this endEffector target (parent (st !!! c)) st
      end
  end.

Fixpoint ikRounds (fuel : nat) (this : nat) (endEffector target : Vector2.t)
    (threshold : R) (todo : nat) (st : Store) : outcome Store :=
  match todo with
  | O => Ret st
  | S todo' =>
      st ← sweep fuel this endEffector target (Some this) st;
      let newEndEffector := getEndEffectorPosition (st !!! this) in
      let newDistance := Vector2.distance newEndEffector target in
      if JS.ltb newDistance threshold then Ret st
      else ikRounds fuel this endEffector target threshold todo' st
  end.

Definition updateIK (fuel : nat) (this : nat) (target : Vector2.t)
    (iterations : nat) (threshold : R) (st : Store) : outcome Store :=
  let j := st !!! this in
  if negb (ikEnabled j) || negb (bool_decide (is_Some (parent j))) then Ret st
  else
    let endEffector := getEndEffectorPosition j in
    let distance := Vector2.distance endEffector target in
    if JS.ltb distance threshold then Ret st
    else ikRounds fuel this endEffector target threshold iterations st.

(** The joints the [while] loop of a sweep visits: [current], its parent,
    and so on to the top of the tree. *)
Fixpoint visited (fuel : nat) (st : Store) (current : option nat) : list nat :=
  match current with
  | None => []
  | Some c =>
      match fuel with
      | O => []
      | S fuel' => c :: visited fuel' st (parent (st !!! c))
      end
  end.

(** The walk from [current] up the parents ends within [n] steps. *)
Fixpoint rooted (n : nat) (st : Store) (current : option nat) : bool :=
  match current with
  | None => true
  | Some c =>
      match n with
      | O => false
      | S n' => rooted n' st (parent (st !!! c))
      end
  end.

(** *** The constraint invariant *)

(** A joint with its constraints enabled has its angle in the range. *)
Definition withinConstraints (j : t) : Prop :=
  enabled (constraints j) = true ->
  minAngle (constraints j) <= angle j <= maxAngle (constraints j).

(** The weights and the damping make one step move by no more than the
    clamped rotation. *)
Definition gentle (effectorWeight : R) (j : t) : Prop :=
  0 <= ikWeight j * effectorWeight * (1 - damping j) <= 1.

(** The angles and the constraint blocks of all joints. *)
Definition pose (st : Store) : list (R * Constraints) :=
  (fun j => (angle j, constraints j)) <$> st.

(** A parent and its child, fresh from the constructor; the child has its
    constraints enabled with the range [-1, 1] and its IK weight at 2,
    the top of the weight slider. *)
Definition heavyStore : Store :=
  alter (set_ikWeight 2) 1%nat
    (alter (set_constraints (mkConstraints true (-1) 1)) 1%nat
       (addChild 0 1 [new (Vector2.mk 0 0) 50; new (Vector2.mk 50 0) 50])).

(** A parent turned by half a turn and its child of length 1, both placed
    at the origin; [updateTransform] on the parent brings the transforms
    up to date. *)
Definition turnedStore : Store :=
  alter (set_angle PI) 0%nat
    (addChild 0 1 [new (Vector2.mk 0 0) 50; new (Vector2.mk 0 0) 1]).

(** *** Queries over the subtree of a joint *)

Fixpoint getChainLength (fuel : nat) (st : Store) (this : nat) : outcome R :=
  match fuel with
  | O => Diverge
  | S fuel' =>
      foldM (fun len child => l ← getChainLength fuel' st child; Ret (len + l))
            (children (st !!! this)) (length (st !!! this))
  end.

Fixpoint getChainDepth (fuel : nat) (st : Store) (this : nat) : outcome nat :=
  match fuel with
  | O => Diverge
  | S fuel' =>
      match children (st !!! this) with
      | [] => Ret 0%nat
      | cs =>
          foldM (fun maxDepth child =>
                   d ← getChainDepth fuel' st child;
                   Ret (Nat.max maxDepth (d + 1)))
                cs 0%nat
      end
  end.

(** The two calls of [getChainDepth] are calls of their own: they get the
    whole of [fuel]. *)
Fixpoint getDeepestJoint (fuel : nat) (st : Store) (this : nat) : outcome nat :=
  match fuel with
  | O => Diverge
  | S fuel' =>
      match children (st !!! this) with
      | [] => Ret this
      | cs =>
          foldM (fun deepest child =>
                   childDeepest ← getDeepestJoint fuel' st child;
                   d1 ← getChainDepth fuel st childDeepest;
                   d2 ← getChainDepth fuel st deepest;
                   Ret (if (d2 <? d1)%nat then childDeepest else deepest))
                cs this
      end
  end.

Fixpoint getAllJoints (fuel : nat) (st : Store) (this : nat) : outcome (list nat) :=
  match fuel with
  | O => Diverge
  | S fuel' =>
      foldM (fun joints child =>
               sub ← getAllJoints fuel' st child; Ret (joints ++ sub))
            (children (st !!! this)) [this]
  end.

(** The segment lengths of a list of joints, added up. *)
Definition sumLengths (st : Store) (joints : list nat) : R :=
  fold_right (fun j acc => length (st !!! j) + acc) 0 joints.

(** The subtree of [this] can be walked within [n] nested calls: it has
    fewer than [n] levels below [this], hence no cycle. *)
Fixpoint shallow (n : nat) (st : Store) (this : nat) : bool :=
  match n with
  | O => false
  | S n' => forallb (shallow n' st) (children (st !!! this))
  end.

(** *** Forward kinematics

[updateFK] reads [fkEnabled], [rotationSpeed] and the [animation]
block of the joint and writes none of them; they are handed in.
[now] is the value of [Date.now()]. *)

Module Oscillation.

Record t : Type := mk { enabled : bool; amplitude : R; frequency : R; phase : R }.

End Oscillation.

Module Rotation.

Record t : Type := mk { enabled : bool; speed : R; direction : R }.

End Rotation.

Module Animation.

Record t : Type := mk {
  enabled : bool;
  oscillation : Oscillation.t;
  rotation : Rotation.t
}.

End Animation.

Record Fk : Type := mkFk {
  fkEnabled : bool;
  rotationSpeed : R;
  animation : Animation.t
}.

(** The values the constructor gives these fields. *)
Definition newFk : Fk :=
  mkFk true (1 / 10)
       (Animation.mk false (Oscillation.mk false 0 0 0) (Rotation.mk false 0 1)).

Definition updateAnimation (fk : Fk) (now deltaTime : R) (j : t) : t :=
  let osc := Animation.oscillation (animation fk) in
  let j :=
    if Oscillation.enabled osc then
      set_targetAngle
        (Oscillation.amplitude osc
         * sin (Oscillation.frequency osc * now * (1 / 1000) + Oscillation.phase osc)) j
    else j in
  let rot := Animation.rotation (animation fk) in
  if Rotation.enabled rot then
    set_targetAngle
      (targetAngle j + Rotation.speed rot * Rotation.direction rot * deltaTime) j
  else j.

(** The part of [updateFK] between the guard and [updateTransform]: it
    touches the fields of the joint itself only. *)
Definition fkStep (fk : Fk) (now deltaTime : R) (j : t) : t :=
  (* Apply animation *)
  let j := if Animation.enabled (animation fk)
           then updateAnimation fk now deltaTime j else j in
  (* Smooth angle interpolation *)
  let j := if JS.gtb (Rabs (angle j - targetAngle j)) (1 / 1000)
           then set_angle (MathUtils.lerp (angle j) (targetAngle j) (rotationSpeed fk)) j
           else j in
  (* Apply angle wrapping for 360+ degree rotation *)
  let j := if angleWrapping j
           then set_angle (MathUtils.wrapAngle (angle j)) j
           else set_angle (MathUtils.normalizeAngle (angle j)) j in
  (* Apply constraints *)
  if enabled (constraints j)
  then set_angle (MathUtils.clamp (angle j) (minAngle (constraints j))
                                  (maxAngle (constraints j))) j
  else j.

Definition updateFK (fuel : nat) (fk : Fk) (now deltaTime : R) (this : nat)
    (st : Store) : outcome Store :=
  if negb (fkEnabled fk) then Ret st
  else updateTransform fuel this (alter (fkStep fk now deltaTime) this st).

Definition reset (fuel : nat) (this : nat) (st : Store) : outcome Store :=
  updateTransform fuel this
    (alter (fun j => set_fkAngle 0 (set_targetAngle 0 (set_angle 0 j))) this st).

End Joint.

Module JointChain.
  Import Joint.

Record t : Type := mk {
  root : nat;
  target : Vector2.t;
  ikStrength : R;
  iterations : nat;
  threshold : R
}.

(** [new JointChain()] followed by [initializeDefaultChain]: the root and
    joints 1, 2, 3 in a line. *)
Definition defaultStore : Store :=
  let st := [Joint.new (Vector2.mk 400 300) 60;
             Joint.new (Vector2.mk 60 0) 50;
             Joint.new (Vector2.mk 50 0) 40;
             Joint.new (Vector2.mk 40 0) 30] in
  let st := addChild 0 1 st in
  let st := addChild 1 2 st in
  let st := addChild 2 3 st in
  let st := alter (set_constraints
                     (mkConstraints true (- PI * (8 / 10)) (PI * (8 / 10)))) 1%nat st in
  alter (set_constraints
           (mkConstraints true (- PI * (6 / 10)) (PI * (6 / 10)))) 2%nat st.

Definition defaultChain : t := mk 0 (Vector2.mk 600 300) 1 10 (1 / 10).

(** [getAllJointsInOrder]: the joints in preorder from [joint]. *)
Fixpoint traverse (fuel : nat) (st : Store) (joint : nat) : outcome (list nat) :=
  match fuel with
  | O => Diverge
  | S fuel' =>
      rest ← foldM (fun joints child =>
                      sub ← traverse fuel' st child; Ret (joints ++ sub))
                   (children (st !!! joint)) [];
      Ret (joint :: rest)
  end.

Definition getAllJointsInOrder (fuel : nat) (this : t) (st : Store)
  : outcome (list nat) :=
  traverse fuel st (root this).

(** *** solveCCD *)

Definition ccdJoint (this : t) (endEffector : nat) (st : Store) (joint : nat)
  : Store :=
  let j := st !!! joint in
  if negb (ikEnabled j) then st
  else
    let jointPos := getWorldPosition j in
    let currentEnd := getEndEffectorPosition (st !!! endEffector) in
    let toEnd := Vector2.subtract currentEnd jointPos in
    let toTarget := Vector2.subtract (target this) jointPos in
    if JS.gtb (Vector2.magnitude toEnd) (1 / 1000)
       && JS.gtb (Vector2.magnitude toTarget) (1 / 1000) then
      let rotation := Vector2.angle toTarget - Vector2.angle toEnd in
      alter (rotate (rotation * ikStrength this)) joint st
    else st.

Fixpoint ccdRounds (this : t) (endEffector : nat) (joints : list nat)
    (todo : nat) (st : Store) : Store :=
  match todo with
  | O => st
  | S todo' =>
      let st := fold_left (ccdJoint this endEffector) (rev joints) st in
      let finalEnd := getEndEffectorPosition (st !!! endEffector) in
      if JS.ltb (Vector2.distance finalEnd (target this)) (threshold this) then st
      else ccdRounds this endEffector joints todo' st
  end.

Definition solveCCD (fuel : nat) (this : t) (endEffector : nat) (st : Store)
  : outcome Store :=
  joints ← getAllJointsInOrder fuel this st;
  Ret (ccdRounds this endEffector joints (iterations this) st).

(** *** solveFABRIK *)

(** [positions[i]] followed by a method call: a missing element throws. *)
Definition getV (positions : list Vector2.t) (i : nat) : outcome Vector2.t :=
  match positions !! i with
  | Some p => Ret p
  | None => Throw TypeError
  end.

Definition getLen (lengths : list R) (i : nat) : R := default 0 (lengths !! i).

Definition reachForward (lengths : list R) (positions : list Vector2.t) (i : nat)
  : outcome (list Vector2.t) :=
  cur ← getV positions i;
  next ← getV positions (i + 1);
  let direction := Vector2.normalize (Vector2.subtract cur next) in
  Ret (<[i := Vector2.add next (Vector2.multiply direction (getLen lengths i))]>
         positions).

Definition reachBackward (lengths : list R) (positions : list Vector2.t) (i : nat)
  : outcome (list Vector2.t) :=
  cur ← getV positions i;
  prev ← getV positions (i - 1);
  let direction := Vector2.normalize (Vector2.subtract cur prev) in
  Ret (<[i := Vector2.add prev
                (Vector2.multiply direction (getLen lengths (i - 1)))]> positions).

Definition fabrikAngle (positions : list Vector2.t) (joints : list nat)
    (st : Store) (i : nat) : outcome Store :=
  match i with
  | O => Ret st
  | S i' =>
      cur ← getV positions i;
      prev ← getV positions i';
      base ← (match i' with
              | O => Ret prev
              | S i'' => getV positions i''
              end);
      let toCurrent := Vector2.subtract cur prev in
      let toPrevious := Vector2.subtract prev base in
      let angle := Vector2.angle toCurrent - Vector2.angle toPrevious in
      match joints !! i with
      | Some joint => Ret (alter (setAngle angle) joint st)
      | None => Throw TypeError
      end
  end.

Definition solveFABRIK (fuel : nat) (this : t) (endEffector : nat) (st : Store)
  : outcome Store :=
  joints ← getAllJointsInOrder fuel this st;
  let positions := (fun j => getWorldPosition (st !!! j)) <$> joints in
  let lengths := (fun j => Joint.length (st !!! j)) <$> joints in
  let n := List.length positions in
  (* Forward reaching *)
  let positions := <[(n - 1)%nat := Vector2.clone (target this)]> positions in
  positions ← foldM (reachForward lengths) (rev (seq 0 (n - 1))) positions;
  (* Backward reaching *)
  let positions := <[0%nat := getWorldPosition (st !!! root this)]> positions in
  positions ← foldM (reachBackward lengths) (seq 1 (n - 1)) positions;
  (* Update joint angles *)
  foldM (fabrikAngle positions joints) (seq 0 (List.length joints)) st.

(** *** solveJacobian *)

Definition epsilon : R := 1 / 100.

Definition jacobianJoint (fuel : nat) (endEffector : nat)
    (currentEnd error : Vector2.t) (st : Store) (joint : nat) : outcome Store :=
  let j := st !!! joint in
  if negb (ikEnabled j) then Ret st
  else
    let originalAngle := angle j in
    let st := alter (set_angle (angle j + epsilon)) joint st in
    st ← updateTransform fuel joint st;
    let perturbedEnd := getEndEffectorPosition (st !!! endEffector) in
    let deltaEnd := Vector2.subtract perturbedEnd currentEnd in
    let st := alter (set_angle originalAngle) joint st in
    let alpha := 1 / 10 in
    let gradient :=
      Vector2.multiply deltaEnd (Vector2.dot error deltaEnd / (epsilon * epsilon)) in
    Ret (alter (rotate (Vector2.magnitude gradient * alpha
                        * JS.sign (Vector2.cross error deltaEnd))) joint st).

Fixpoint jacobianRounds (fuel : nat) (this : t) (endEffector : nat)
    (joints : list nat) (todo : nat) (st : Store) : outcome Store :=
  match todo with
  | O => Ret st
  | S todo' =>
      let currentEnd := getEndEffectorPosition (st !!! endEffector) in
      let error := Vector2.subtract (target this) currentEnd in
      if JS.ltb (Vector2.magnitude error) (threshold this) then Ret st
      else
        st ← foldM (jacobianJoint fuel endEffector currentEnd error) joints st;
        jacobianRounds fuel this endEffector joints todo' st
  end.

Definition solveJacobian (fuel : nat) (this : t) (endEffector : nat) (st : Store)
  : outcome Store :=
  joints ← getAllJointsInOrder fuel this st;
  jacobianRounds fuel this endEffector joints (iterations this) st.

(** *** solveAnalytical: closed form for a two-joint arm *)

Definition solveAnalytical (fuel : nat) (this : t) (endEffector : nat) (st : Store)
  : outcome Store :=
  joints ← getAllJointsInOrder fuel this st;
  match joints with
  | [j0; j1] =>
      let l1 := Joint.length (st !!! j0) in
      let l2 := Joint.length (st !!! j1) in
      let rootPos := getWorldPosition (st !!! root this) in
      let targetDist := Vector2.distance rootPos (target this) in
      if JS.gtb targetDist (l1 + l2) then
        (* Target too far, stretch toward it *)
        let angle := JS.atan2 (Vector2.y (target this) - Vector2.y rootPos)
                              (Vector2.x (target this) - Vector2.x rootPos) in
        Ret (alter (setAngle 0) j1 (alter (setAngle angle) j0 st))
      else if JS.ltb targetDist (Rabs (l1 - l2)) then
        (* Target too close *)
        Ret (alter (setAngle 0) j1 (alter (setAngle 0) j0 st))
      else
        (* Law of cosines *)
        let cosAngle2 :=
          (targetDist * targetDist - l1 * l1 - l2 * l2) / (2 * l1 * l2) in
        let angle2 := acos (MathUtils.clamp cosAngle2 (-1) 1) in
        let cosAngle1 :=
          (l1 * l1 + targetDist * targetDist - l2 * l2) / (2 * l1 * targetDist) in
        let angle1 := acos (MathUtils.clamp cosAngle1 (-1) 1) in
        let baseAngle := JS.atan2 (Vector2.y (target this) - Vector2.y rootPos)
                                  (Vector2.x (target this) - Vector2.x rootPos) in
        Ret (alter (setAngle angle2) j1 (alter (setAngle (baseAngle + angle1)) j0 st))
  | _ => Ret st                      (* [joints.length !== 2] *)
  end.

(** Every joint at the angle the solver asked for: what the interpolation
    of [updateFK] tends to while [targetAngle] stays put. *)
Definition settle (st : Store) : Store :=
  (fun j => set_angle (targetAngle j) j) <$> st.

(** The planar two-segment arm the closed form is derived for: the first
    segment leaves [origin] at angle [a1], the second turns by [a2]. *)
Definition twoSegmentEnd (origin : Vector2.t) (l1 l2 a1 a2 : R) : Vector2.t :=
  Vector2.add origin
    (Vector2.add (Vector2.mk (l1 * cos a1) (l1 * sin a1))
                 (Vector2.mk (l2 * cos (a1 + a2)) (l2 * sin (a1 + a2)))).

(** A chain of exactly two joints, of lengths 100 and 80, the target at
    distance 120 from the root. *)
Definition twoJointStore : Store :=
  addChild 0 1 [Joint.new (Vector2.mk 0 0) 100; Joint.new (Vector2.mk 100 0) 80].

Definition twoJointChain : t := mk 0 (Vector2.mk 120 0) 1 10 (1 / 10).

(** *** Structural edits *)

(** [joint.children.forEach(child => { joint.parent.addChild(child); })]:
    [joint.parent] is read again for every child, and calling a method on
    [null] throws.  What the joints hold when the exception leaves is
    returned with it. *)
Fixpoint reattach (joint : nat) (cs : list nat) (st : Store) : outcome unit * Store :=
  match cs with
  | [] => (Ret (), st)
  | child :: cs' =>
      match parent (st !!! joint) with
      | None => (Throw TypeError, st)
      | Some p => reattach joint cs' (addChild p child st)
      end
  end.

Definition removeJoint (this : t) (joint : nat) (st : Store) : outcome unit * Store :=
  if bool_decide (joint = root this) then (Ret (), st)
  else
    match parent (st !!! joint) with
    | Some p =>
        let st := removeChild p joint st in
        (* Reattach children to parent *)
        reattach joint (children (st !!! joint)) st
    | None => (Ret (), st)
    end.

(** *** The frame loop and the chain-level edits

[ikEnabled] and [solverType] are fields of the chain that these
methods only read; they are handed in, like the per-joint [Fk] blocks.
[clock i] is what [Date.now()] returns in the [i]-th call of
[updateFK]. *)

Definition updateIK (fuel : nat) (this : t) (solverType : string) (st : Store)
  : outcome Store :=
  endEffector ← getDeepestJoint fuel st (root this);
  if String.eqb solverType "ccd" then solveCCD fuel this endEffector st
  else if String.eqb solverType "fabrik" then solveFABRIK fuel this endEffector st
  else if String.eqb solverType "jacobian" then solveJacobian fuel this endEffector st
  else if String.eqb solverType "analytical" then solveAnalytical fuel this endEffector st
  else Ret st.

Definition update (fuel : nat) (this : t) (ikEnabled : bool) (solverType : string)
    (fk : nat -> Fk) (clock : nat -> R) (deltaTime : R) (st : Store)
  : outcome Store :=
  (* Update FK for all joints *)
  allJoints ← getAllJoints fuel st (root this);
  st ← foldM (fun st '(i, joint) =>
                updateFK fuel (fk joint) (clock i) deltaTime joint st)
             (zip (seq 0 (List.length allJoints)) allJoints) st;
  (* Update IK if enabled *)
  if ikEnabled then updateIK fuel this solverType st else Ret st.

(** The new joint is the next free place of the arena. *)
Definition addJoint (fuel : nat) (this : t) (parentJoint : option nat) (st : Store)
  : outcome (nat * Store) :=
  parent ← match parentJoint with
           | Some p => Ret p
           | None => getDeepestJoint fuel st (root this)
           end;
  let newJoint := List.length st in
  let st := st ++ [Joint.new (Vector2.mk (Joint.length (st !!! parent)) 0) 40] in
  Ret (newJoint, addChild parent newJoint st).

Definition reset (fuel : nat) (this : t) (st : Store) : outcome Store :=
  joints ← getAllJoints fuel st (root this);
  foldM (fun st joint => Joint.reset fuel joint st) joints st.

End JointChain.

(** * Verification *)

(** ** Outcomes and number primitives *)

Lemma bind_Ret_inv {A B : Type} (m : outcome A) (k : A -> outcome B) (b : B) :
  m ≫= k = Ret b -> exists a, m = Ret a /\ k a = Ret b.
Proof. destruct m as [a| |]; simpl; intros H; try discriminate. now exists a. Qed.

Lemma ltb_true a b : JS.ltb a b = true <-> a < b.
Proof. unfold JS.ltb. destruct (Rlt_dec a b); split; intros; easy. Qed.

Lemma ltb_false a b : JS.ltb a b = false <-> b <= a.
Proof. unfold JS.ltb. destruct (Rlt_dec a b); split; intros; try easy; lra. Qed.

Lemma gtb_true a b : JS.gtb a b = true <-> b < a.
Proof. apply ltb_true. Qed.

Lemma gtb_false a b : JS.gtb a b = false <-> a <= b.
Proof. apply ltb_false. Qed.

Lemma eqb_true a b : JS.eqb a b = true <-> a = b.
Proof. unfold JS.eqb. destruct (Req_dec_T a b); split; intros; easy. Qed.

Lemma hypot_nonneg a b : 0 <= JS.hypot a b.
Proof. apply sqrt_pos. Qed.

Lemma hypot_scale a b k : JS.hypot (a * k) (b * k) = JS.hypot a b * Rabs k.
Proof.
  unfold JS.hypot.
  replace (a * k * (a * k) + b * k * (b * k)) with ((a * a + b * b) * Rsqr k)
    by (unfold Rsqr; ring).
  rewrite sqrt_mult_alt by nra. now rewrite sqrt_Rsqr_abs.
Qed.

Lemma clamp_range v lo hi : lo <= hi -> lo <= MathUtils.clamp v lo hi <= hi.
Proof.
  intros H. unfold MathUtils.clamp. split; [apply Rmax_l|].
  apply Rmax_lub; [exact H | apply Rmin_l].
Qed.

Lemma clamp_id v lo hi : lo <= v <= hi -> MathUtils.clamp v lo hi = v.
Proof.
  intros [H1 H2]. unfold MathUtils.clamp.
  rewrite Rmin_right by exact H2. now rewrite Rmax_right.
Qed.

(** ** The remainder operator and [normA] *)

Lemma trunc_nonneg r : 0 <= r -> IZR (JS.trunc r) <= r < IZR (JS.trunc r) + 1.
Proof.
  intros Hr. unfold JS.trunc. destruct (Rle_dec 0 r) as [_|]; [|lra].
  destruct (base_Int_part r). lra.
Qed.

Lemma trunc_neg r : r < 0 -> r <= IZR (JS.trunc r) < r + 1.
Proof.
  intros Hr. unfold JS.trunc. destruct (Rle_dec 0 r) as [|_]; [lra|].
  destruct (base_Int_part (- r)). rewrite opp_IZR. lra.
Qed.

Lemma rem_quotient a b : b <> 0 -> a = b * (a / b).
Proof. intros Hb. field. exact Hb. Qed.

Lemma rem_nonneg a b : 0 < b -> 0 <= a -> 0 <= JS.rem a b < b.
Proof.
  intros Hb Ha. unfold JS.rem.
  assert (Hq : 0 <= a / b).
  { unfold Rdiv. apply Rmult_le_pos; [lra|]. left. now apply Rinv_0_lt_compat. }
  pose proof (trunc_nonneg _ Hq) as Ht.
  pose proof (rem_quotient a b ltac:(lra)) as Ha'.
  set (q := a / b) in *. set (k := IZR (JS.trunc q)) in *. nra.
Qed.

Lemma rem_range a b : 0 < b -> - b < JS.rem a b < b.
Proof.
  intros Hb. destruct (Rle_lt_dec 0 a) as [Ha|Ha].
  - pose proof (rem_nonneg a b Hb Ha). lra.
  - unfold JS.rem.
    assert (Hq : a / b < 0).
    { unfold Rdiv. pose proof (Rinv_0_lt_compat b Hb). nra. }
    pose proof (trunc_neg _ Hq) as Ht.
    pose proof (rem_quotient a b ltac:(lra)) as Ha'.
    set (q := a / b) in *. set (k := IZR (JS.trunc q)) in *. nra.
Qed.

Lemma rem_congr a b : exists k : Z, JS.rem a b = a - b * IZR k.
Proof. now exists (JS.trunc (a / b)). Qed.

Lemma trunc_of_floor r z : 0 <= r -> r - 1 < IZR z <= r -> JS.trunc r = z.
Proof.
  intros Hr Hz. unfold JS.trunc. destruct (Rle_dec 0 r) as [_|]; [|lra].
  symmetry. now apply Int_part_spec.
Qed.

Lemma normA_range a : -180 <= AdvancedIKSolver.normA a < 180.
Proof.
  unfold AdvancedIKSolver.normA.
  pose proof (rem_range a 360 ltac:(lra)) as H1.
  pose proof (rem_nonneg (JS.rem a 360 + 540) 360 ltac:(lra) ltac:(lra)). lra.
Qed.

Lemma normA_congr a : exists k : Z, AdvancedIKSolver.normA a = a + 360 * IZR k.
Proof.
  unfold AdvancedIKSolver.normA.
  destruct (rem_congr a 360) as [k1 H1].
  destruct (rem_congr (JS.rem a 360 + 540) 360) as [k2 H2].
  exists (1 - k1 - k2)%Z. rewrite H2, H1, !minus_IZR. lra.
Qed.

Lemma normA_180 : AdvancedIKSolver.normA 180 = -180.
Proof.
  unfold AdvancedIKSolver.normA, JS.rem.
  rewrite (trunc_of_floor (180 / 360) 0) by lra.
  rewrite (trunc_of_floor ((180 - 360 * 0 + 540) / 360) 2) by lra. lra.
Qed.

(** C8, as the code has it: [normA a] is congruent to [a] modulo 360 and lies
    in the half-open interval [-180, 180): the lower end is attained and the
    upper end is not. *)
Theorem normA_congruent_in_range (a : R) :
  (exists k : Z, AdvancedIKSolver.normA a = a + 360 * IZR k)
  /\ -180 <= AdvancedIKSolver.normA a < 180.
Proof. split; [apply normA_congr | apply normA_range]. Qed.

(** C8, as stated, fails at 180 degrees: [normA 180] is -180, which is outside
    (-180, 180]. *)
Lemma normA_180_is_minus_180 :
  AdvancedIKSolver.normA 180 = -180
  /\ ~ (-180 < AdvancedIKSolver.normA 180 <= 180).
Proof. rewrite normA_180. split; [reflexivity | lra]. Qed.

(** ** [normalizeAngle]: the rounds given to the two loops are enough *)

Lemma rounds_enough excess : excess / (2 * PI) < INR (MathUtils.rounds excess).
Proof.
  unfold MathUtils.rounds. set (q := excess / (2 * PI)).
  destruct (archimed q) as [Hup _].
  destruct (Z_lt_le_dec (up q) 0) as [Hneg | Hpos].
  - replace (Z.to_nat (up q)) with 0%nat by lia. simpl. apply IZR_lt in Hneg. lra.
  - rewrite INR_IZR_INZ, Z2Nat.id by exact Hpos. lra.
Qed.

Lemma while_above_exit fuel : forall angle,
  (angle - PI) / (2 * PI) < INR fuel -> MathUtils.while_above fuel angle <= PI.
Proof.
  pose proof PI_RGT_0 as Hpi.
  induction fuel as [|fuel IH]; intros angle H.
  - simpl in *. unfold Rdiv in H. pose proof (Rinv_0_lt_compat (2 * PI) ltac:(lra)). nra.
  - cbn [MathUtils.while_above]. destruct (JS.gtb angle PI) eqn:E.
    + apply IH. rewrite S_INR in H.
      replace ((angle - 2 * PI - PI) / (2 * PI)) with ((angle - PI) / (2 * PI) - 1)
        by (field; lra).
      lra.
    + now apply gtb_false in E.
Qed.

Lemma while_below_exit fuel : forall angle,
  angle <= PI -> (- PI - angle) / (2 * PI) < INR fuel ->
  - PI <= MathUtils.while_below fuel angle <= PI.
Proof.
  pose proof PI_RGT_0 as Hpi.
  induction fuel as [|fuel IH]; intros angle Hle H.
  - simpl in *. unfold Rdiv in H. pose proof (Rinv_0_lt_compat (2 * PI) ltac:(lra)). nra.
  - cbn [MathUtils.while_below]. destruct (JS.ltb angle (- PI)) eqn:E.
    + apply ltb_true in E. apply IH; [lra|]. rewrite S_INR in H.
      replace ((- PI - (angle + 2 * PI)) / (2 * PI))
        with ((- PI - angle) / (2 * PI) - 1) by (field; lra).
      lra.
    + apply ltb_false in E. lra.
Qed.

(** Both loop conditions of [normalizeAngle] are false at its result. *)
Lemma normalizeAngle_exit angle :
  - PI <= MathUtils.normalizeAngle angle <= PI.
Proof.
  unfold MathUtils.normalizeAngle.
  apply while_below_exit; [|apply rounds_enough].
  apply while_above_exit, rounds_enough.
Qed.

(** ** Matrix3 *)

Lemma Matrix3_eq (a b : Matrix3.t) :
  (forall i, (i < 9)%nat -> Matrix3.get a i = Matrix3.get b i) -> a = b.
Proof.
  intros H. destruct a, b.
  pose proof (H 0%nat ltac:(lia)). pose proof (H 1%nat ltac:(lia)).
  pose proof (H 2%nat ltac:(lia)). pose proof (H 3%nat ltac:(lia)).
  pose proof (H 4%nat ltac:(lia)). pose proof (H 5%nat ltac:(lia)).
  pose proof (H 6%nat ltac:(lia)). pose proof (H 7%nat ltac:(lia)).
  pose proof (H 8%nat ltac:(lia)). simpl in *. congruence.
Qed.

Lemma inverse_throws_iff (m : Matrix3.t) :
  (exists e, Matrix3.inverse m = Throw e)
  <-> Rabs (Matrix3.determinant m) < Matrix3.epsilon.
Proof.
  unfold Matrix3.inverse.
  destruct (JS.ltb (Rabs (Matrix3.determinant m)) Matrix3.epsilon) eqn:E.
  - apply ltb_true in E. split; [intros _; exact E | intros _; eauto].
  - apply ltb_false in E. split; [intros [e He]; discriminate | lra].
Qed.

Lemma inverse_is_inverse (m inv : Matrix3.t) :
  Matrix3.inverse m = Ret inv ->
  Matrix3.multiply m inv = Matrix3.identity
  /\ Matrix3.multiply inv m = Matrix3.identity.
Proof.
  unfold Matrix3.inverse.
  destruct (JS.ltb (Rabs (Matrix3.determinant m)) Matrix3.epsilon) eqn:E;
    [discriminate|].
  apply ltb_false in E. intros [= <-].
  assert (Hdet : Matrix3.determinant m <> 0).
  { intros H0. rewrite H0, Rabs_R0 in E. unfold Matrix3.epsilon in E.
    pose proof (Rinv_0_lt_compat 10000000000 ltac:(lra)). lra. }
  destruct m as [a0 a1 a2 a3 a4 a5 a6 a7 a8].
  unfold Matrix3.determinant in *. simpl in Hdet |- *.
  split; apply Matrix3_eq; intros i Hi;
    do 9 (destruct i as [|i]; [simpl; field; exact Hdet|]); lia.
Qed.

(** C9: [inverse] throws exactly when the determinant's absolute value is
    below 1e-10, the exception being [Error('Matrix is not invertible')];
    for every other matrix it returns a matrix that is a two-sided inverse. *)
Theorem Matrix3_inverse_throws_iff_singular (m : Matrix3.t) :
  ((exists e, Matrix3.inverse m = Throw e)
     <-> Rabs (Matrix3.determinant m) < Matrix3.epsilon)
  /\ (Rabs (Matrix3.determinant m) < Matrix3.epsilon ->
      Matrix3.inverse m = Throw (Error "Matrix is not invertible"))
  /\ (~ Rabs (Matrix3.determinant m) < Matrix3.epsilon ->
      exists inv, Matrix3.inverse m = Ret inv
        /\ Matrix3.multiply m inv = Matrix3.identity
        /\ Matrix3.multiply inv m = Matrix3.identity).
Proof.
  split; [apply inverse_throws_iff|]. split.
  - intros H. unfold Matrix3.inverse. apply ltb_true in H. now rewrite H.
  - intros H.
    destruct (Matrix3.inverse m) as [inv|e|] eqn:E.
    + exists inv. split; [reflexivity|]. now apply inverse_is_inverse.
    + exfalso. apply H. apply inverse_throws_iff. eauto.
    + unfold Matrix3.inverse in E.
      destruct (JS.ltb _ _) in E; discriminate.
Qed.

(** ** Soft reach damping *)

Section SoftReach.
  Import Skeleton AdvancedIKSolver.

Lemma exp_nonpos_le_1 u : u <= 0 -> exp u <= 1.
Proof.
  intros [H | ->]; [|rewrite exp_0; lra].
  left. rewrite <- exp_0. now apply exp_increasing.
Qed.

Lemma damped_overflow_nonneg softDist overflow :
  0 <= softDist -> 0 <= overflow ->
  0 <= softDist * (1 - exp (- overflow / softDist)).
Proof.
  intros [Hs | <-] Ho; [|lra].
  apply Rmult_le_pos; [lra|].
  assert (- overflow / softDist <= 0).
  { unfold Rdiv. pose proof (Rinv_0_lt_compat _ Hs). nra. }
  pose proof (exp_nonpos_le_1 _ H). lra.
Qed.

Lemma damped_overflow_le softDist overflow :
  0 <= softDist -> 0 <= overflow ->
  softDist * (1 - exp (- overflow / softDist)) <= overflow.
Proof.
  intros [Hs | <-] Ho; [|lra].
  pose proof (exp_ineq1_le (- overflow / softDist)) as He.
  assert (Hu : softDist * (- overflow / softDist) = - overflow) by (field; lra).
  nra.
Qed.

Lemma softTarget_beyond root target L chainDef :
  0 <= L ->
  12 / 100 <= JS.or_default (stretchRatio chainDef) (11 / 10) ->
  softThreshold L chainDef < distToTarget root target ->
  let d := distToTarget root target in
  let st := softThreshold L chainDef in
  let sd := softDist L in
  let eff := softTarget root target L chainDef in
  distToTarget root eff = st + sd * (1 - exp (- (d - st) / sd))
  /\ exists k, 0 <= k <= 1 /\ x eff = x root + (x target - x root) * k
               /\ y eff = y root + (y target - y root) * k.
Proof.
  intros HL Hsr Hd d st sd eff.
  assert (Hst : 0 <= st) by (unfold st, softThreshold, softDist; nra).
  assert (Hsd : 0 <= sd) by (unfold sd, softDist; nra).
  assert (Hd0 : 0 < d) by (unfold d; fold st in Hd; lra).
  assert (Hnew : 0 <= st + sd * (1 - exp (- (d - st) / sd))).
  { pose proof (damped_overflow_nonneg sd (d - st) Hsd ltac:(unfold d; fold st in Hd; lra)).
    lra. }
  assert (Heff : eff = mkPoint
            (x root + (x target - x root) * ((st + sd * (1 - exp (- (d - st) / sd))) / d))
            (y root + (y target - y root) * ((st + sd * (1 - exp (- (d - st) / sd))) / d))).
  { unfold eff, softTarget. fold (distToTarget root target). fold d.
    fold sd. fold st.
    assert (E : JS.gtb d st = true) by (apply gtb_true; unfold d; fold st in Hd; lra).
    now rewrite E. }
  set (newDist := st + sd * (1 - exp (- (d - st) / sd))) in *.
  assert (Hk : 0 <= newDist / d <= 1).
  { assert (Hd' : st < d) by exact Hd.
    pose proof (damped_overflow_le sd (d - st) Hsd ltac:(lra)) as Hle.
    assert (Hnd : newDist <= d) by (unfold newDist; lra).
    split.
    - unfold Rdiv. pose proof (Rinv_0_lt_compat _ Hd0). nra.
    - apply (Rmult_le_reg_r d); [exact Hd0|].
      replace (newDist / d * d) with newDist by (field; lra). lra. }
  split.
  - rewrite Heff. unfold distToTarget. simpl.
    replace (x root + (x target - x root) * (newDist / d) - x root)
      with ((x target - x root) * (newDist / d)) by ring.
    replace (y root + (y target - y root) * (newDist / d) - y root)
      with ((y target - y root) * (newDist / d)) by ring.
    rewrite hypot_scale. fold (distToTarget root target). fold d.
    rewrite Rabs_pos_eq by apply Hk. field. lra.
  - exists (newDist / d). rewrite Heff. simpl. auto.
Qed.

Lemma softTarget_within root target L chainDef :
  distToTarget root target <= softThreshold L chainDef ->
  softTarget root target L chainDef = target.
Proof.
  intros Hd. unfold softTarget. fold (distToTarget root target).
  assert (E : JS.gtb (distToTarget root target) (softThreshold L chainDef) = false)
    by (apply gtb_false; exact Hd).
  now rewrite E.
Qed.

End SoftReach.

(** ** Loops as monadic folds *)

Lemma foldM_returns {A S : Type} (P : S -> Prop) (Q : A -> Prop)
    (f : S -> A -> outcome S) (l : list A) (s : S) :
  P s -> Forall Q l ->
  (forall s a, P s -> Q a -> exists s', f s a = Ret s' /\ P s') ->
  exists s', foldM f l s = Ret s' /\ P s'.
Proof.
  intros Hs Hl Hf. revert s Hs.
  induction Hl as [|a l Ha Hl IH]; intros s Hs; simpl.
  - eauto.
  - destruct (Hf s a Hs Ha) as (s1 & -> & Hs1). simpl. now apply IH.
Qed.

Lemma foldM_preserves {A S : Type} (P : S -> Prop)
    (f : S -> A -> outcome S) (l : list A) (s s' : S) :
  foldM f l s = Ret s' -> P s ->
  (forall s a s', a ∈ l -> P s -> f s a = Ret s' -> P s') ->
  P s'.
Proof.
  revert s. induction l as [|a l IH]; intros s H Hs Hf; simpl in H.
  - now injection H as <-.
  - apply bind_Ret_inv in H as (s1 & H1 & H2).
    apply (IH s1 H2).
    + eapply Hf; eauto. left.
    + intros s2 b s3 Hb. apply Hf. now right.
Qed.

Lemma Forall_seq_lt (start len : nat) :
  Forall (fun i => (start <= i < start + len)%nat) (seq start len).
Proof. apply Forall_forall. intros i Hi%list_elem_of_In%in_seq. lia. Qed.

(** ** The forward-kinematics walk returns on defined paths *)

Section Returns.
  Import Skeleton AdvancedIKSolver.

Variable data : Data.
Variable fuel : nat.
Variable random : nat -> R.

Lemma walk_returns rotations (path : list string) s :
  forallb (fun j => String.eqb j "root" || defined data j) path = true ->
  exists s', foldM (walk data rotations) path s = Ret s'.
Proof.
  revert s. induction path as [|j path IH]; intros s H; simpl in *.
  - eauto.
  - apply andb_prop in H as [Hj Hp].
    assert (exists s1, walk data rotations s j = Ret s1) as [s1 ->].
    { unfold walk. destruct s as [[[wx wy] wa] pa].
      destruct (String.eqb j "root"); [eauto|]. simpl in Hj.
      unfold defined in Hj. apply bool_decide_eq_true in Hj as [def ->].
      destruct (pivot def). eauto. }
    simpl. now apply IH.
Qed.

Lemma computeWorld_returns jointId rotations center :
  definedPath data fuel jointId = true ->
  exists w, computeWorld data fuel jointId rotations center = Ret w.
Proof.
  unfold definedPath, computeWorld. intros H.
  destruct (ancestors data fuel (Some jointId) []) as [path| |]; try discriminate.
  simpl.
  destruct (walk_returns rotations path (center.1, center.2, 0, 0) H)
    as [[[[wx wy] wa] pa] ->].
  simpl. eauto.
Qed.

Lemma buildPoints_returns jointIds rotations center :
  forallb (definedPath data fuel) jointIds = true ->
  exists pts, buildPoints data fuel jointIds rotations center = Ret pts
              /\ length pts = length jointIds.
Proof.
  induction jointIds as [|id ids IH]; simpl; intros H.
  - now exists [].
  - apply andb_prop in H as [H1 H2].
    destruct (computeWorld_returns id rotations center H1) as [w ->].
    destruct (IH H2) as (pts & -> & Hlen). simpl.
    eexists. split; [reflexivity|]. simpl. now rewrite Hlen.
Qed.

Lemma buildPoints_length jointIds rotations center pts :
  buildPoints data fuel jointIds rotations center = Ret pts ->
  length pts = length jointIds.
Proof.
  revert pts. induction jointIds as [|id ids IH]; simpl; intros pts H.
  - now injection H as <-.
  - apply bind_Ret_inv in H as (w & _ & H).
    apply bind_Ret_inv in H as (pts' & H1 & H).
    injection H as <-. simpl. f_equal. now apply IH.
Qed.

Lemma buildLengths_returns nextIds :
  forallb (defined data) nextIds = true ->
  exists ls, buildLengths data nextIds = Ret ls.
Proof.
  induction nextIds as [|id ids IH]; simpl; intros H.
  - eauto.
  - apply andb_prop in H as [H1 H2].
    unfold defined in H1. apply bool_decide_eq_true in H1 as [def ->].
    destruct (IH H2) as [ls ->]. simpl. eauto.
Qed.

Lemma buildLengths_nonneg nextIds ls :
  buildLengths data nextIds = Ret ls -> Forall (fun l => 0 <= l) ls.
Proof.
  revert ls. induction nextIds as [|id ids IH]; simpl; intros ls H.
  - injection H as <-. constructor.
  - destruct (JOINT_DEFS data !! id) as [def|]; [|discriminate].
    apply bind_Ret_inv in H as (ls' & H1 & H). injection H as <-.
    constructor; [apply hypot_nonneg | now apply IH].
Qed.

Lemma totalLength_nonneg ls : Forall (fun l => 0 <= l) ls -> 0 <= totalLength ls.
Proof.
  unfold totalLength. intros H.
  assert (G : forall acc, 0 <= acc ->
            0 <= fold_left (fun sum len => sum + len) ls acc).
  { induction H as [|l ls Hl Hls IH]; simpl; intros acc Hacc; [exact Hacc|].
    apply IH. lra. }
  apply G. lra.
Qed.

Lemma getP_returns pts i :
  (i < length pts)%nat -> exists p, getP pts i = Ret p.
Proof.
  intros H. unfold getP. destruct (lookup_lt_is_Some_2 pts i H) as [p ->]. eauto.
Qed.

Lemma naturalBias_returns chainId chainDef chainLengths target pts :
  exists pts', naturalBias chainId chainDef chainLengths target pts = Ret pts'
               /\ length pts' = length pts.
Proof.
  unfold naturalBias.
  destruct (3 <=? length pts)%nat eqn:E; [|eauto].
  apply Nat.leb_le in E.
  destruct (includes chainId "leg" || includes chainId "arm"); [|eauto].
  destruct (getP_returns pts 0 ltac:(lia)) as [p0 ->]. simpl.
  destruct (JS.gtb _ _); [|eauto].
  destruct (getP_returns pts 1 ltac:(lia)) as [p1 ->]. simpl.
  eexists. split; [reflexivity|]. apply length_insert.
Qed.

Lemma resolvable_joint chainDef id :
  resolvable data fuel chainDef = true -> id ∈ joints chainDef ->
  defined data id = true /\ definedPath data fuel id = true
  /\ forall pId, JOINT_DEFS data !! id ≫= parent = Some pId ->
                 definedPath data fuel pId = true.
Proof.
  unfold resolvable. intros H Hid.
  rewrite forallb_forall in H. apply list_elem_of_In in Hid.
  specialize (H id Hid). apply andb_prop in H as [H H3].
  apply andb_prop in H as [H1 H2].
  repeat split; try assumption.
  intros pId Hp. now rewrite Hp in H3.
Qed.

Lemma prepare_returns chainId chainDef targetX targetY rotations center :
  resolvable data fuel chainDef = true ->
  (2 <= length (joints chainDef))%nat ->
  exists su, prepare data fuel chainId chainDef targetX targetY rotations center = Ret su
             /\ length (setupPoints su) = length (joints chainDef).
Proof.
  intros Hres Hlen. unfold prepare.
  destruct (buildPoints_returns (joints chainDef) rotations center) as (pts & -> & Hpts).
  { apply forallb_forall. intros id Hid%list_elem_of_In.
    destruct (resolvable_joint chainDef id Hres Hid) as (_ & H & _). exact H. }
  simpl.
  destruct (buildLengths_returns (tail (joints chainDef))) as [ls ->].
  { apply forallb_forall. intros id Hid.
    assert (Hin : id ∈ joints chainDef).
    { apply list_elem_of_In. destruct (joints chainDef); [exact Hid | now right]. }
    destruct (resolvable_joint chainDef id Hres Hin) as (H & _). exact H. }
  simpl.
  destruct (getP_returns pts 0 ltac:(lia)) as [p0 ->]. simpl.
  edestruct naturalBias_returns as (pts' & -> & Hpts'). simpl.
  eexists. split; [reflexivity|]. simpl. congruence.
Qed.

End Returns.

(** ** The solve loop *)

Section Loop.
  Import Skeleton AdvancedIKSolver.

Variable data : Data.
Variable fuel : nat.
Variable random : nat -> R.
Variable chainDef : ChainDef.
Variable currentRots : gmap string R.
Variable center : R * R.
Variable chainLengths : list R.
Variable numPoints : nat.
Variable target : Point.
Variable initialBasePos : Point.

Abbreviation jointIds := (joints chainDef).
Abbreviation E := (effectorDist numPoints target).
Abbreviation evaluate' := (evaluate numPoints target).
Abbreviation advance' :=
  (advance data fuel random jointIds currentRots center chainLengths numPoints
           target initialBasePos).
Abbreviation iterate' :=
  (iterate data fuel random jointIds currentRots center chainLengths numPoints
           target initialBasePos).
Abbreviation evaluated' :=
  (evaluated data fuel random jointIds currentRots center chainLengths numPoints
             target initialBasePos).

(** *** What one round does to the best candidate *)

Lemma evaluate_inv s currentDist s1 :
  evaluate' s = Ret (currentDist, s1) ->
  currentDist = E (chainPoints s)
  /\ chainPoints s1 = chainPoints s
  /\ calls s1 = calls s
  /\ (if improves currentDist (bestDist s)
      then bestDist s1 = Some currentDist /\ bestPoints s1 = chainPoints s
      else bestDist s1 = bestDist s /\ bestPoints s1 = bestPoints s).
Proof.
  unfold evaluate, effectorDist, getP. intros H.
  destruct (chainPoints s !! (numPoints - 1)%nat) as [p|]; [|discriminate].
  simpl in H. injection H as <- <-.
  destruct (improves _ (bestDist s)); simpl; auto.
Qed.

Lemma advance_inv iter currentDist s s' :
  advance' iter currentDist s = Ret s' ->
  bestDist s' = bestDist s /\ bestPoints s' = bestPoints s.
Proof.
  unfold advance. intros H.
  apply bind_Ret_inv in H as ([pts k] & _ & H).
  apply bind_Ret_inv in H as (pts1 & _ & H).
  apply bind_Ret_inv in H as (pts2 & _ & H).
  injection H as <-. auto.
Qed.

(** [bestDist], once finite, is the effector distance of [bestPoints]. *)
Abbreviation coherent := (coherent numPoints target).

Lemma improves_false currentDist best :
  improves currentDist best = false ->
  exists b, best = Some b /\ b <= currentDist.
Proof.
  destruct best as [b|]; simpl; [|discriminate].
  intros H%ltb_false. eauto.
Qed.

Lemma evaluate_best s currentDist s1 :
  evaluate' s = Ret (currentDist, s1) -> coherent s ->
  coherent s1
  /\ (exists b1, bestDist s1 = Some b1 /\ b1 <= E (chainPoints s)
                 /\ forall b, bestDist s = Some b -> b1 <= b).
Proof.
  intros H Hs. destruct (evaluate_inv _ _ _ H) as (Hd & _ & _ & Hbest).
  destruct (improves currentDist (bestDist s)) eqn:Ei.
  - destruct Hbest as [Hb Hp]. split.
    + intros b. rewrite Hb, Hp. intros [= <-]. exact Hd.
    + exists currentDist. split; [exact Hb|]. split; [lra|].
      intros b Hsb. rewrite Hsb in Ei. simpl in Ei.
      apply ltb_true in Ei. lra.
  - destruct Hbest as [Hb Hp]. split.
    + intros b. rewrite Hb, Hp. apply Hs.
    + destruct (improves_false _ _ Ei) as (b0 & Hb0 & Hle).
      exists b0. rewrite Hb, Hb0. split; [reflexivity|]. split; [lra|].
      intros b [= <-]. lra.
Qed.

Lemma iterate_best todo : forall iter s sf,
  iterate' todo iter s = Ret sf -> coherent s ->
  coherent sf
  /\ (forall b, bestDist s = Some b -> exists b', bestDist sf = Some b' /\ b' <= b)
  /\ (forall c, c ∈ evaluated' todo iter s ->
                exists b', bestDist sf = Some b' /\ b' <= E c).
Proof.
  induction todo as [|todo IH]; intros iter s sf H Hs; simpl in H.
  - injection H as <-. split; [exact Hs|]. split.
    + intros b Hb. exists b. split; [exact Hb | lra].
    + simpl. intros c Hc. inversion Hc.
  - apply bind_Ret_inv in H as ([currentDist s1] & Hev & H).
    destruct (evaluate_best _ _ _ Hev Hs) as (Hs1 & b1 & Hb1 & Hb1c & Hb1s).
    simpl evaluated. rewrite Hev.
    destruct (JS.ltb currentDist tolerance) eqn:Etol.
    + injection H as <-. split; [exact Hs1|]. split.
      * intros b Hb. exists b1. split; [exact Hb1 | now apply Hb1s].
      * intros c Hc. apply list_elem_of_singleton in Hc as ->.
        exists b1. auto.
    + apply bind_Ret_inv in H as (s2 & Hadv & H).
      rewrite Hadv.
      destruct (advance_inv _ _ _ _ Hadv) as [Hbd Hbp].
      assert (Hs2 : coherent s2).
      { intros b. rewrite Hbd, Hbp. apply Hs1. }
      destruct (IH _ _ _ H Hs2) as (Hsf & Hmono & Hall).
      destruct (Hmono b1 ltac:(congruence)) as (bf & Hbf & Hle).
      split; [exact Hsf|]. split.
      * intros b Hb. exists bf. split; [exact Hbf|]. specialize (Hb1s b Hb). lra.
      * intros c Hc. apply elem_of_cons in Hc as [-> | Hc].
        -- exists bf. split; [exact Hbf | lra].
        -- now apply Hall.
Qed.

(** The loop ends with the best of the configurations it measured. *)
Lemma iterate_keeps_best todo iter s sf :
  iterate' todo iter s = Ret sf -> bestDist s = None ->
  forall c, c ∈ evaluated' todo iter s -> E (bestPoints sf) <= E c.
Proof.
  intros H Hnone c Hc.
  assert (Hs : coherent s) by (intros b; rewrite Hnone; discriminate).
  destruct (iterate_best _ _ _ _ H Hs) as (Hsf & _ & Hall).
  destruct (Hall c Hc) as (b' & Hb' & Hle).
  rewrite <- (Hsf b' Hb'). exact Hle.
Qed.

(** The best candidate is itself one of the measured configurations. *)
Lemma iterate_best_evaluated todo : forall iter s sf,
  iterate' todo iter s = Ret sf ->
  bestPoints sf = bestPoints s /\ bestDist sf = bestDist s
  \/ bestPoints sf ∈ evaluated' todo iter s.
Proof.
  induction todo as [|todo IH]; intros iter s sf H; simpl in H.
  - injection H as <-. now left.
  - apply bind_Ret_inv in H as ([currentDist s1] & Hev & H).
    destruct (evaluate_inv _ _ _ Hev) as (_ & _ & _ & Hbest).
    simpl evaluated. rewrite Hev.
    assert (Hs1 : bestPoints s1 = bestPoints s /\ bestDist s1 = bestDist s
                  \/ bestPoints s1 = chainPoints s).
    { destruct (improves currentDist (bestDist s)); [right|left]; tauto. }
    destruct (JS.ltb currentDist tolerance).
    + injection H as <-.
      destruct Hs1 as [Hs1 | ->]; [now left | right; left].
    + apply bind_Ret_inv in H as (s2 & Hadv & H). rewrite Hadv.
      destruct (advance_inv _ _ _ _ Hadv) as [Hbd Hbp].
      destruct (IH _ _ _ H) as [[Hp Hd] | Hin].
      * rewrite Hp, Hbp. destruct Hs1 as [[Hs1 Hd1] | ->].
        -- left. split; congruence.
        -- right. left.
      * right. now right.
Qed.

End Loop.

(** ** The solve returns on resolvable chains *)

Section LoopReturns.
  Import Skeleton AdvancedIKSolver.

Variable data : Data.
Variable fuel : nat.
Variable random : nat -> R.
Variable chainDef : ChainDef.
Variable currentRots : gmap string R.
Variable center : R * R.
Variable chainLengths : list R.
Variable numPoints : nat.
Variable target : Point.
Variable initialBasePos : Point.

Hypothesis Hres : resolvable data fuel chainDef = true.

Abbreviation jointIds := (joints chainDef).

Lemma truthy_Some s c : truthy s = Some c -> s = Some c.
Proof.
  unfold truthy. destruct s as [c'|]; [|discriminate].
  destruct (String.eqb c' ""); [discriminate|]. now intros [= ->].
Qed.

Lemma parent_world_returns i jointId def pId :
  jointIds !! i = Some jointId ->
  JOINT_DEFS data !! jointId = Some def ->
  truthy (parent def) = Some pId ->
  exists w, computeWorld data fuel pId currentRots center = Ret w.
Proof.
  intros Hi Hdef Hp%truthy_Some.
  apply computeWorld_returns.
  destruct (resolvable_joint data fuel chainDef jointId Hres) as (_ & _ & H).
  { eapply list_elem_of_lookup_2; eauto. }
  apply H. now rewrite Hdef.
Qed.

Lemma joint_defined i jointId :
  jointIds !! i = Some jointId -> exists def, JOINT_DEFS data !! jointId = Some def.
Proof.
  intros Hi.
  destruct (resolvable_joint data fuel chainDef jointId Hres) as (H & _).
  { eapply list_elem_of_lookup_2; eauto. }
  unfold defined in H. now apply bool_decide_eq_true in H.
Qed.

Lemma perturb_returns iter currentDist pts k :
  length pts = numPoints ->
  exists pts' k', perturb random numPoints iter currentDist (pts, k) = Ret (pts', k')
                  /\ length pts' = numPoints.
Proof.
  intros Hlen. unfold perturb.
  destruct (_ && _); [|eauto].
  destruct (foldM_returns (fun st : list Point * nat => length st.1 = numPoints)
              (fun i => (1 <= i < 1 + (numPoints - 2))%nat)
              (nudge random (3 * (1 - INR iter / INR iterations)))
              (seq 1 (numPoints - 2)) (pts, k)) as ([pts' k'] & H & Hl).
  - exact Hlen.
  - apply Forall_seq_lt.
  - intros [p n] i Hp Hi. simpl in Hp. unfold nudge.
    destruct (getP_returns p i ltac:(lia)) as [q ->]. simpl.
    eexists. split; [reflexivity|]. simpl. now rewrite length_insert.
  - eauto.
Qed.

Lemma backwardPass_returns pts :
  length pts = numPoints ->
  exists pts', backwardPass chainLengths numPoints target pts = Ret pts'
               /\ length pts' = numPoints.
Proof.
  intros Hlen. unfold backwardPass.
  apply (foldM_returns (fun p : list Point => length p = numPoints)
           (fun i => (0 <= i < 0 + (numPoints - 1))%nat)).
  - now rewrite length_insert.
  - apply Forall_rev, Forall_seq_lt.
  - intros p i Hp Hi. unfold backwardStep.
    destruct (getP_returns p (i + 1) ltac:(lia)) as [q1 ->]. simpl.
    destruct (getP_returns p i ltac:(lia)) as [q2 ->]. simpl.
    destruct (JS.gtb _ _); eexists; (split; [reflexivity|]);
      [now rewrite length_insert | exact Hp].
Qed.

Lemma forwardStep_returns pts i :
  length pts = numPoints -> (i < numPoints - 1)%nat ->
  exists pts', forwardStep data fuel jointIds currentRots center chainLengths pts i
               = Ret pts'
               /\ length pts' = numPoints.
Proof.
  intros Hlen Hi. unfold forwardStep.
  destruct (getP_returns pts i ltac:(lia)) as [curr ->]. simpl.
  destruct (getP_returns pts (i + 1) ltac:(lia)) as [next ->]. simpl.
  destruct (JS.gtb _ _); [|eauto].
  destruct (jointIds !! i) as [jointId|] eqn:Ej; simpl;
    [|eexists; split; [reflexivity | now rewrite length_insert]].
  destruct (JOINT_LIMITS data !! jointId) as [lim|]; simpl;
    [|eexists; split; [reflexivity | now rewrite length_insert]].
  destruct (joint_defined i jointId Ej) as [def Hdef]. rewrite Hdef.
  assert (Hp : exists pAngle,
    match i, truthy (parent def) with
    | O, Some pId =>
        world ← computeWorld data fuel pId currentRots center; Ret (angle world)
    | O, None => Ret 0
    | S i', _ =>
        prev ← getP pts i';
        Ret (r2d (JS.atan2 (y curr - y prev) (x curr - x prev)))
    end = Ret pAngle).
  { destruct i as [|i'].
    - destruct (truthy (parent def)) as [pId|] eqn:Ep; [|eauto].
      destruct (parent_world_returns 0 jointId def pId Ej Hdef Ep) as [w ->].
      simpl. eauto.
    - destruct (getP_returns pts i' ltac:(lia)) as [prev ->]. simpl. eauto. }
  destruct Hp as [pAngle ->]. simpl.
  destruct (_ || _); simpl;
    (eexists; split; [reflexivity | now rewrite length_insert]).
Qed.

Lemma forwardPass_returns pts :
  length pts = numPoints ->
  exists pts', forwardPass data fuel jointIds currentRots center chainLengths
                 numPoints initialBasePos pts = Ret pts'
               /\ length pts' = numPoints.
Proof.
  intros Hlen. unfold forwardPass.
  apply (foldM_returns (fun p : list Point => length p = numPoints)
           (fun i => (0 <= i < 0 + (numPoints - 1))%nat)).
  - now rewrite length_insert.
  - apply Forall_seq_lt.
  - intros p i Hp Hi. apply forwardStep_returns; [exact Hp | lia].
Qed.

Lemma advance_returns iter currentDist s :
  length (chainPoints s) = numPoints ->
  exists s', advance data fuel random jointIds currentRots center chainLengths
               numPoints target initialBasePos iter currentDist s = Ret s'
             /\ length (chainPoints s') = numPoints
             /\ bestPoints s' = bestPoints s.
Proof.
  intros Hlen. unfold advance.
  destruct (perturb_returns iter currentDist (chainPoints s) (calls s) Hlen)
    as (p1 & k & -> & H1). simpl.
  destruct (backwardPass_returns p1 H1) as (p2 & -> & H2). simpl.
  destruct (forwardPass_returns p2 H2) as (p3 & -> & H3). simpl.
  eauto.
Qed.

Lemma iterate_returns todo : forall iter s,
  (0 < numPoints)%nat ->
  length (chainPoints s) = numPoints -> length (bestPoints s) = numPoints ->
  exists sf, iterate data fuel random jointIds currentRots center chainLengths
               numPoints target initialBasePos todo iter s = Ret sf
             /\ length (bestPoints sf) = numPoints.
Proof.
  induction todo as [|todo IH]; intros iter s Hn Hc Hb; simpl.
  - eauto.
  - assert (exists d s1, evaluate numPoints target s = Ret (d, s1)) as (d & s1 & Hev).
    { unfold evaluate. destruct (getP_returns (chainPoints s) (numPoints - 1) ltac:(lia))
        as [p ->]. simpl. eauto. }
    rewrite Hev. simpl.
    destruct (evaluate_inv _ _ _ _ _ Hev) as (_ & Hc1 & _ & Hbest).
    assert (Hb1 : length (bestPoints s1) = numPoints).
    { destruct (improves d (bestDist s)); destruct Hbest as [_ ->]; assumption. }
    destruct (JS.ltb d tolerance); [eauto|].
    destruct (advance_returns iter d s1 ltac:(congruence)) as (s2 & -> & Hc2 & Hb2).
    simpl. apply IH; [exact Hn | exact Hc2 | congruence].
Qed.

Lemma extractStep_returns finalPoints finalRots i :
  length finalPoints = length jointIds -> (i < length jointIds - 1)%nat ->
  exists m, extractStep data fuel jointIds currentRots center finalPoints finalRots i
            = Ret m.
Proof.
  intros Hlen Hi. unfold extractStep.
  destruct (lookup_lt_is_Some_2 jointIds i ltac:(lia)) as [jointId Ej]. rewrite Ej.
  destruct (joint_defined i jointId Ej) as [def Hdef]. rewrite Hdef.
  assert (Hp : exists a,
    match i with
    | O => match truthy (parent def) with
           | Some pId =>
               if String.eqb pId "root" then Ret 0
               else world ← computeWorld data fuel pId currentRots center;
                    Ret (angle world)
           | None => Ret 0
           end
    | S i' =>
        cur ← getP finalPoints i; prev ← getP finalPoints i';
        Ret (r2d (JS.atan2 (y cur - y prev) (x cur - x prev)))
    end = Ret a).
  { destruct i as [|i'].
    - destruct (truthy (parent def)) as [pId|] eqn:Ep; [|eauto].
      destruct (String.eqb pId "root"); [eauto|].
      destruct (parent_world_returns 0 jointId def pId Ej Hdef Ep) as [w ->].
      simpl. eauto.
    - destruct (getP_returns finalPoints (S i') ltac:(lia)) as [c ->]. simpl.
      destruct (getP_returns finalPoints i' ltac:(lia)) as [q ->]. simpl. eauto. }
  destruct Hp as [a ->]. simpl.
  destruct (getP_returns finalPoints (i + 1) ltac:(lia)) as [nx ->]. simpl.
  destruct (getP_returns finalPoints i ltac:(lia)) as [c ->]. simpl. eauto.
Qed.

Lemma extract_returns finalPoints :
  length finalPoints = length jointIds ->
  exists m, extract data fuel jointIds currentRots center finalPoints = Ret m.
Proof.
  intros Hlen. unfold extract.
  destruct (foldM_returns (fun _ : gmap string R => True)
              (fun i => (0 <= i < 0 + (length jointIds - 1))%nat)
              (extractStep data fuel jointIds currentRots center finalPoints)
              (seq 0 (length jointIds - 1)) currentRots I (Forall_seq_lt _ _))
    as (m & H & _).
  - intros m i _ Hi.
    destruct (extractStep_returns finalPoints m i Hlen ltac:(lia)) as [m' ->]. eauto.
  - eauto.
Qed.

End LoopReturns.

Section SolveReturns.
  Import Skeleton AdvancedIKSolver.

Variable data : Data.
Variable fuel : nat.
Variable random : nat -> R.

Lemma solveLoop_returns chainDef currentRots center su :
  resolvable data fuel chainDef = true ->
  (0 < length (setupPoints su))%nat ->
  exists s, solveLoop data fuel random chainDef currentRots center su = Ret s
            /\ length (bestPoints s) = length (setupPoints su).
Proof.
  intros Hres Hn. unfold solveLoop.
  apply iterate_returns; auto.
Qed.

(** *** The read of the chain *)

Lemma get_own {A : Type} (obj : gmap string A) (key : string) (a : A) :
  obj !! key = Some a -> JS.get obj key = JS.Own a.
Proof. unfold JS.get. now intros ->. Qed.

Lemma get_missing {A : Type} (obj : gmap string A) (key : string) :
  obj !! key = None -> key ∉ JS.objectPrototype -> JS.get obj key = JS.Missing.
Proof. unfold JS.get. intros -> H. now rewrite bool_decide_eq_false_2. Qed.

Lemma get_inherited {A : Type} (obj : gmap string A) (key : string) :
  obj !! key = None -> key ∈ JS.objectPrototype -> JS.get obj key = JS.Inherited.
Proof. unfold JS.get. intros -> H. now rewrite bool_decide_eq_true_2. Qed.

Lemma bind_Ret_r {A : Type} (m : outcome A) : (a ← m; Ret a) = m.
Proof. now destruct m. Qed.

(** On a chain of the table, the map returned is what the extraction
    gives, or the map handed in when the chain is too short. *)
Lemma solveIK_Advanced_known chainId chainDef targetX targetY currentRots center :
  IK_CHAINS data !! chainId = Some chainDef ->
  solveIK_Advanced data fuel random chainId targetX targetY currentRots center
  = if (length (joints chainDef) <? 2)%nat then Ret currentRots
    else
      su ← prepare data fuel chainId chainDef targetX targetY currentRots center;
      s ← solveLoop data fuel random chainDef currentRots center su;
      extract data fuel (joints chainDef) currentRots center (bestPoints s).
Proof.
  intros H. unfold solveIK_Advanced, solveIK_Advanced_object.
  rewrite (get_own _ _ _ H).
  destruct (length (joints chainDef) <? 2)%nat; [reflexivity|].
  destruct (prepare _ _ _ _ _ _ _ _) as [su| |]; [|reflexivity|reflexivity].
  cbn [mbind outcome_bind].
  destruct (solveLoop _ _ _ _ _ _ _) as [s| |]; [|reflexivity|reflexivity].
  cbn [mbind outcome_bind].
  now destruct (extract _ _ _ _ _ _).
Qed.

(** On a resolvable chain the solve comes back with a rotation map, and
    so it does for an id that the table neither has nor inherits. *)
Lemma solveIK_Advanced_returns chainId targetX targetY currentRots center :
  (forall chainDef, IK_CHAINS data !! chainId = Some chainDef ->
                    resolvable data fuel chainDef = true) ->
  (IK_CHAINS data !! chainId = None -> chainId ∉ JS.objectPrototype) ->
  exists finalRots,
    solveIK_Advanced data fuel random chainId targetX targetY currentRots center
    = Ret finalRots.
Proof.
  intros Hres Hid.
  destruct (IK_CHAINS data !! chainId) as [chainDef|] eqn:Hchain.
  - rewrite (solveIK_Advanced_known _ _ _ _ _ _ Hchain).
    specialize (Hres chainDef eq_refl).
    destruct (length (joints chainDef) <? 2)%nat eqn:E; [eauto|].
    apply Nat.ltb_ge in E.
    destruct (prepare_returns data fuel chainId chainDef targetX targetY currentRots
                center Hres E) as (su & -> & Hsu). simpl.
    destruct (solveLoop_returns chainDef currentRots center su Hres ltac:(lia))
      as (s & -> & Hs). simpl.
    apply extract_returns; [exact Hres | congruence].
  - exists currentRots. unfold solveIK_Advanced, solveIK_Advanced_object.
    now rewrite (get_missing _ _ Hchain (Hid eq_refl)).
Qed.

End SolveReturns.

(** ** solveIK_Advanced: reach, best candidate, frame *)

Section Advanced.
  Import Skeleton AdvancedIKSolver.

Variable data : Data.
Variable fuel : nat.
Variable random : nat -> R.

Lemma prepare_inv chainId chainDef targetX targetY currentRots center su :
  prepare data fuel chainId chainDef targetX targetY currentRots center = Ret su ->
  0 <= totalLength (setupLengths su)
  /\ setupTarget su
     = softTarget (setupBase su) (mkPoint targetX targetY)
                  (totalLength (setupLengths su)) chainDef
  /\ buildLengths data (tail (joints chainDef)) = Ret (setupLengths su)
  /\ exists pts, buildPoints data fuel (joints chainDef) currentRots center = Ret pts
                 /\ pts !! 0%nat = Some (setupBase su).
Proof.
  unfold prepare. intros H.
  apply bind_Ret_inv in H as (pts & Hpts & H).
  apply bind_Ret_inv in H as (ls & Hls & H).
  apply bind_Ret_inv in H as (root & Hroot & H).
  apply bind_Ret_inv in H as (pts' & _ & H).
  injection H as <-. simpl.
  split; [apply totalLength_nonneg; eapply buildLengths_nonneg; eauto|].
  split; [reflexivity|]. split; [exact Hls|].
  exists pts. split; [exact Hpts|].
  unfold getP in Hroot. destruct (pts !! 0%nat); [now injection Hroot as -> | discriminate].
Qed.

(** *** What [prepare] hands to the loop *)

Lemma totalLength_foldr ls : totalLength ls = foldr Rplus 0 ls.
Proof.
  unfold totalLength.
  assert (G : forall acc, fold_left (fun sum len => sum + len) ls acc
                          = acc + foldr Rplus 0 ls).
  { induction ls as [|l ls IH]; intros acc; simpl; [lra|]. rewrite IH. lra. }
  rewrite G. lra.
Qed.

Lemma buildLengths_pivots nextIds ls :
  buildLengths data nextIds = Ret ls ->
  Forall2 (fun id len =>
             exists def, JOINT_DEFS data !! id = Some def
                         /\ len = sqrt (fst (pivot def) * fst (pivot def)
                                        + snd (pivot def) * snd (pivot def)))
          nextIds ls.
Proof.
  revert ls. induction nextIds as [|id ids IH]; simpl; intros ls H.
  - injection H as <-. constructor.
  - destruct (JOINT_DEFS data !! id) as [def|] eqn:Hdef; [|discriminate].
    apply bind_Ret_inv in H as (ls' & H1 & H). injection H as <-.
    constructor; [eauto | now apply IH].
Qed.

Lemma prepare_root chainId chainDef targetX targetY currentRots center su :
  prepare data fuel chainId chainDef targetX targetY currentRots center = Ret su ->
  exists first w,
    joints chainDef !! 0%nat = Some first
    /\ computeWorld data fuel first currentRots center = Ret w
    /\ setupBase su = mkPoint (wx w) (wy w).
Proof.
  unfold prepare. intros H.
  apply bind_Ret_inv in H as (pts & Hpts & H).
  apply bind_Ret_inv in H as (ls & Hls & H).
  apply bind_Ret_inv in H as (root & Hroot & H).
  apply bind_Ret_inv in H as (pts' & _ & H).
  injection H as <-. cbn [setupBase].
  destruct (joints chainDef) as [|first rest]; simpl in Hpts.
  - injection Hpts as <-. discriminate.
  - apply bind_Ret_inv in Hpts as (w & Hw & Hpts).
    apply bind_Ret_inv in Hpts as (rest' & _ & Hpts). injection Hpts as <-.
    injection Hroot as <-. eauto.
Qed.

(** C1, as the code has it.  In a call of [solveIK_Advanced] on a chain of
    at least two joints, the loop runs on the effective target that
    [prepare] fixes.  The root point is the world position of the chain's
    first joint, and the segment lengths are the pivot distances of the
    joints after the first.  With [total] the sum of the segment lengths,
    [softDist = total * 0.12] and
    [softThreshold = total * stretchRatio - total * 0.12] ([stretchRatio]
    defaulting to 1.1), and provided [stretchRatio] is at least 0.12:
    a target at a distance [d] from the root point beyond [softThreshold]
    is replaced by the point of the root-to-target segment at distance
    [softThreshold + softDist * (1 - e^(-(d - softThreshold)/softDist))]
    from the root point; a target at distance at most [softThreshold] is
    used unchanged. *)
Theorem soft_reach_effective_target
    chainId chainDef targetX targetY currentRots center su :
  IK_CHAINS data !! chainId = Some chainDef ->
  (2 <= length (joints chainDef))%nat ->
  prepare data fuel chainId chainDef targetX targetY currentRots center = Ret su ->
  12 / 100 <= JS.or_default (stretchRatio chainDef) (11 / 10) ->
  let root := setupBase su in
  let effective := setupTarget su in
  let total := foldr Rplus 0 (setupLengths su) in
  let ratio := JS.or_default (stretchRatio chainDef) (11 / 10) in
  let softDist := total * (12 / 100) in
  let softThreshold := total * ratio - total * (12 / 100) in
  let d := sqrt ((targetX - x root) * (targetX - x root)
                 + (targetY - y root) * (targetY - y root)) in
  solveIK_Advanced data fuel random chainId targetX targetY currentRots center
  = (s ← iterate data fuel random (joints chainDef) currentRots center
           (setupLengths su) (length (setupPoints su)) effective root
           iterations 0 (mkLoop (setupPoints su) None (setupPoints su) 0);
     extract data fuel (joints chainDef) currentRots center (bestPoints s))
  /\ (exists first w,
        joints chainDef !! 0%nat = Some first
        /\ computeWorld data fuel first currentRots center = Ret w
        /\ root = mkPoint (wx w) (wy w))
  /\ Forall2 (fun id len =>
                exists def, JOINT_DEFS data !! id = Some def
                            /\ len = sqrt (fst (pivot def) * fst (pivot def)
                                           + snd (pivot def) * snd (pivot def)))
             (tail (joints chainDef)) (setupLengths su)
  /\ (softThreshold < d ->
      sqrt ((x effective - x root) * (x effective - x root)
            + (y effective - y root) * (y effective - y root))
      = softThreshold + softDist * (1 - exp (- (d - softThreshold) / softDist))
      /\ exists k, 0 <= k <= 1
           /\ x effective = x root + (targetX - x root) * k
           /\ y effective = y root + (targetY - y root) * k)
  /\ (d <= softThreshold -> effective = mkPoint targetX targetY).
Proof.
  intros Hchain Hlen Hprep Hsr root effective total ratio softDist' softThreshold' d.
  destruct (prepare_inv _ _ _ _ _ _ _ Hprep) as (Htot & Heff & Hls & _).
  split; [|split; [|split; [|split]]].
  - rewrite (solveIK_Advanced_known _ _ _ _ _ _ _ _ _ Hchain).
    apply Nat.ltb_ge in Hlen. rewrite Hlen, Hprep. reflexivity.
  - exact (prepare_root _ _ _ _ _ _ _ Hprep).
  - exact (buildLengths_pivots _ _ Hls).
  - intros Hd.
    assert (Hd' : softThreshold (totalLength (setupLengths su)) chainDef
                  < distToTarget root (mkPoint targetX targetY)).
    { unfold softThreshold, softDist, distToTarget, JS.hypot.
      rewrite totalLength_foldr. exact Hd. }
    pose proof (softTarget_beyond root (mkPoint targetX targetY) _ chainDef
                  Htot Hsr Hd') as H.
    cbv zeta in H. fold root in Heff. rewrite <- Heff in H.
    unfold softThreshold, softDist, distToTarget, JS.hypot in H.
    rewrite totalLength_foldr in H. exact H.
  - intros Hd. unfold effective. rewrite Heff.
    apply softTarget_within.
    unfold softThreshold, softDist, distToTarget, JS.hypot.
    rewrite totalLength_foldr. exact Hd.
Qed.

(** C2: the points handed to the angle extraction, [bestPoints] at the end
    of the loop, are one of the configurations the loop measured, and no
    measured configuration has its effector closer to the target. *)
Theorem best_candidate_is_minimal
    chainId chainDef targetX targetY currentRots center su s :
  IK_CHAINS data !! chainId = Some chainDef ->
  (2 <= length (joints chainDef))%nat ->
  prepare data fuel chainId chainDef targetX targetY currentRots center = Ret su ->
  solveLoop data fuel random chainDef currentRots center su = Ret s ->
  let numPoints := length (setupPoints su) in
  let measured := iterates data fuel random chainDef currentRots center su in
  solveIK_Advanced data fuel random chainId targetX targetY currentRots center
  = extract data fuel (joints chainDef) currentRots center (bestPoints s)
  /\ bestPoints s ∈ measured
  /\ forall c, c ∈ measured ->
       effectorDist numPoints (setupTarget su) (bestPoints s)
       <= effectorDist numPoints (setupTarget su) c.
Proof.
  intros Hchain Hlen Hprep Hloop numPoints measured.
  assert (Hmin : forall c, c ∈ measured ->
            effectorDist numPoints (setupTarget su) (bestPoints s)
            <= effectorDist numPoints (setupTarget su) c).
  { intros c Hc. unfold solveLoop in Hloop.
    eapply iterate_keeps_best; eauto. }
  split; [|split]; [| |exact Hmin].
  - rewrite (solveIK_Advanced_known _ _ _ _ _ _ _ _ _ Hchain).
    apply Nat.ltb_ge in Hlen. rewrite Hlen, Hprep. simpl. now rewrite Hloop.
  - unfold solveLoop in Hloop.
    destruct (iterate_best_evaluated _ _ _ _ _ _ _ _ _ _ _ _ _ _ Hloop)
      as [[_ Hnone] | Hin]; [|exact Hin].
    exfalso. simpl in Hnone.
    assert (Hco : coherent (length (setupPoints su)) (setupTarget su)
                    (mkLoop (setupPoints su) None (setupPoints su) 0))
      by (intros b; discriminate).
    destruct (iterate_best _ _ _ _ _ _ _ _ _ _ _ _ _ _ Hloop Hco) as (_ & _ & Hall).
    unfold iterations in Hloop, Hall. simpl in Hloop.
    apply bind_Ret_inv in Hloop as ([d s1] & Hev & _).
    destruct (Hall (setupPoints su)) as (b' & Hb' & _).
    { simpl. rewrite Hev. left. }
    congruence.
Qed.

(** *** What the extraction writes *)

Lemma extractStep_inv jointIds currentRots center finalPoints finalRots i m :
  extractStep data fuel jointIds currentRots center finalPoints finalRots i = Ret m ->
  exists jointId v,
    jointIds !! i = Some jointId /\ m = <[jointId := v]> finalRots
    /\ forall lim, JOINT_LIMITS data !! jointId = Some lim ->
                   exists a, v = clamp a (min lim) (max lim).
Proof.
  unfold extractStep. intros H.
  destruct (jointIds !! i) as [jointId|]; [|discriminate].
  destruct (JOINT_DEFS data !! jointId) as [def|]; [|discriminate].
  apply bind_Ret_inv in H as (pa & _ & H).
  apply bind_Ret_inv in H as (next & _ & H).
  apply bind_Ret_inv in H as (cur & _ & H).
  injection H as <-.
  eexists jointId, _. split; [reflexivity|]. split; [reflexivity|].
  intros lim ->. eauto.
Qed.

Lemma extract_frame jointIds currentRots center finalPoints finalRots (j : string) :
  extract data fuel jointIds currentRots center finalPoints = Ret finalRots ->
  j ∉ take (length jointIds - 1) jointIds ->
  finalRots !! j = currentRots !! j.
Proof.
  unfold extract. intros H Hj.
  apply (foldM_preserves
           (fun m : gmap string R => m !! j = currentRots !! j) _ _ _ _ H);
    [reflexivity|].
  intros m i m' Hi Hm Hstep.
  destruct (extractStep_inv _ _ _ _ _ _ _ Hstep) as (jointId & v & Hid & -> & _).
  rewrite lookup_insert_ne; [exact Hm|].
  intros ->. apply Hj.
  apply list_elem_of_In, in_seq in Hi.
  apply list_elem_of_lookup. exists i. rewrite lookup_take_lt by lia. exact Hid.
Qed.

(** *** The object returned *)

Lemma get_own_inv {A : Type} (obj : gmap string A) (key : string) (a : A) :
  JS.get obj key = JS.Own a -> obj !! key = Some a.
Proof.
  unfold JS.get. destruct (obj !! key); [now intros [= ->]|].
  now destruct (bool_decide _).
Qed.

Lemma get_missing_inv {A : Type} (obj : gmap string A) (key : string) :
  JS.get obj key = JS.Missing -> obj !! key = None /\ key ∉ JS.objectPrototype.
Proof.
  unfold JS.get. destruct (obj !! key); [discriminate|].
  destruct (bool_decide _) eqn:E; [discriminate|].
  now apply bool_decide_eq_false in E.
Qed.

Lemma solveIK_Advanced_contents chainId targetX targetY currentRots center r :
  solveIK_Advanced_object data fuel random chainId targetX targetY currentRots center
  = Ret r ->
  solveIK_Advanced data fuel random chainId targetX targetY currentRots center
  = Ret (contents currentRots r).
Proof. unfold solveIK_Advanced. now intros ->. Qed.

Lemma solveIK_Advanced_inv chainId targetX targetY currentRots center finalRots :
  solveIK_Advanced data fuel random chainId targetX targetY currentRots center
  = Ret finalRots ->
  exists r,
    solveIK_Advanced_object data fuel random chainId targetX targetY currentRots
      center = Ret r
    /\ finalRots = contents currentRots r.
Proof.
  unfold solveIK_Advanced. intros H.
  apply bind_Ret_inv in H as (r & Hr & H). injection H as <-. eauto.
Qed.

(** The early returns hand back the argument, the full run a copy. *)
Lemma solveIK_Advanced_object_inv chainId targetX targetY currentRots center r :
  solveIK_Advanced_object data fuel random chainId targetX targetY currentRots center
  = Ret r ->
  (r = TheArgument
   /\ (JS.get (IK_CHAINS data) chainId = JS.Missing
       \/ exists chainDef, IK_CHAINS data !! chainId = Some chainDef
                           /\ (length (joints chainDef) < 2)%nat))
  \/ (exists chainDef finalRots su s,
        r = Copy finalRots
        /\ IK_CHAINS data !! chainId = Some chainDef
        /\ (2 <= length (joints chainDef))%nat
        /\ prepare data fuel chainId chainDef targetX targetY currentRots center
           = Ret su
        /\ solveLoop data fuel random chainDef currentRots center su = Ret s
        /\ extract data fuel (joints chainDef) currentRots center (bestPoints s)
           = Ret finalRots).
Proof.
  unfold solveIK_Advanced_object. intros H.
  destruct (JS.get (IK_CHAINS data) chainId) as [chainDef| |] eqn:Hget;
    [|discriminate|injection H as <-; left; auto].
  apply get_own_inv in Hget.
  destruct (length (joints chainDef) <? 2)%nat eqn:E.
  - injection H as <-. left. split; [reflexivity|]. right.
    exists chainDef. split; [exact Hget|]. now apply Nat.ltb_lt.
  - apply Nat.ltb_ge in E.
    apply bind_Ret_inv in H as (su & Hsu & H).
    apply bind_Ret_inv in H as (s & Hs & H).
    apply bind_Ret_inv in H as (finalRots & Hex & H). injection H as <-.
    right. exists chainDef, finalRots, su, s. auto 10.
Qed.

(** C10, as the code has it.  The rotation map handed in is only read.
    A call that returns at one of the two early exits (no chain for the
    id in the table, or a chain of fewer than two joints) returns that
    very map, and a call that runs to the end returns a copy of it.  The
    map returned agrees with the map handed in on every joint outside the
    chain's joint list, and on the chain's last joint, the effector,
    unless the chain also lists that joint before its last place. *)
Theorem solveIK_Advanced_frame chainId targetX targetY currentRots center r :
  solveIK_Advanced_object data fuel random chainId targetX targetY currentRots center
  = Ret r ->
  solveIK_Advanced data fuel random chainId targetX targetY currentRots center
  = Ret (contents currentRots r)
  /\ (r = TheArgument <->
      JS.get (IK_CHAINS data) chainId = JS.Missing
      \/ exists chainDef, IK_CHAINS data !! chainId = Some chainDef
                          /\ (length (joints chainDef) < 2)%nat)
  /\ (IK_CHAINS data !! chainId = None -> contents currentRots r = currentRots)
  /\ forall chainDef, IK_CHAINS data !! chainId = Some chainDef ->
       forall j : string,
         j ∉ joints chainDef
         \/ (last (joints chainDef) = Some j
             /\ j ∉ take (length (joints chainDef) - 1) (joints chainDef)) ->
         contents currentRots r !! j = currentRots !! j.
Proof.
  intros H. split; [now apply solveIK_Advanced_contents|].
  destruct (solveIK_Advanced_object_inv _ _ _ _ _ _ H)
    as [[-> Hearly] | (chainDef & finalRots & su & s & -> & Hchain & Hlen & _ & _ & Hex)].
  - split; [tauto|]. split; reflexivity.
  - split; [|split].
    + split; [discriminate|].
      intros [Hmiss | (chainDef' & Hchain' & Hshort)]; exfalso.
      * apply get_missing_inv in Hmiss as [Hnone _]. congruence.
      * assert (chainDef' = chainDef) as -> by congruence. lia.
    + intros Hnone. congruence.
    + intros chainDef' Hchain' j Hj.
      assert (chainDef' = chainDef) as -> by congruence. cbn [contents].
      apply (extract_frame _ _ _ _ _ _ Hex).
      destruct Hj as [Hj | [_ Hj]]; [|exact Hj].
      intros Hin. apply Hj. apply elem_of_take in Hin as (i & Hi & _).
      eapply list_elem_of_lookup_2; eauto.
Qed.

(** *** Limits of the returned rotations *)

Lemma clamp_within v lo hi : lo <= hi -> lo <= clamp v lo hi <= hi.
Proof. apply clamp_range. Qed.

Lemma foldM_establishes {A S : Type} (P : S -> Prop)
    (f : S -> A -> outcome S) (l : list A) (s s' : S) (a : A) :
  foldM f l s = Ret s' -> a ∈ l ->
  (forall s s', f s a = Ret s' -> P s') ->
  (forall s b s', P s -> f s b = Ret s' -> P s') ->
  P s'.
Proof.
  revert s. induction l as [|b l IH]; intros s H Ha Hest Hkeep; simpl in H.
  - inversion Ha.
  - apply bind_Ret_inv in H as (s1 & H1 & H2).
    apply elem_of_cons in Ha as [-> | Ha].
    + apply (foldM_preserves P _ _ _ _ H2); [eapply Hest; eauto|].
      intros s2 c s3 _. apply Hkeep.
    + eapply IH; eauto.
Qed.

Lemma extract_within_limits jointIds currentRots center finalPoints finalRots
    i jointId lim :
  extract data fuel jointIds currentRots center finalPoints = Ret finalRots ->
  (i < length jointIds - 1)%nat -> jointIds !! i = Some jointId ->
  JOINT_LIMITS data !! jointId = Some lim -> min lim <= max lim ->
  exists v, finalRots !! jointId = Some v /\ min lim <= v <= max lim.
Proof.
  unfold extract. intros H Hi Hid Hlim Hle.
  apply (foldM_establishes
           (fun m : gmap string R =>
              exists v, m !! jointId = Some v /\ min lim <= v <= max lim)
           _ _ _ _ i H).
  - apply list_elem_of_In, in_seq. lia.
  - intros m m' Hstep.
    destruct (extractStep_inv _ _ _ _ _ _ _ Hstep) as (jid & v & Hjid & -> & Hv).
    assert (jid = jointId) as -> by congruence.
    destruct (Hv lim Hlim) as [a ->].
    eexists. rewrite lookup_insert_eq. split; [reflexivity|]. now apply clamp_within.
  - intros m b m' (v0 & Hv0 & Hr0) Hstep.
    destruct (extractStep_inv _ _ _ _ _ _ _ Hstep) as (jid & v & Hjid & -> & Hv).
    destruct (decide (jid = jointId)) as [-> | Hne].
    + destruct (Hv lim Hlim) as [a ->].
      eexists. rewrite lookup_insert_eq. split; [reflexivity|]. now apply clamp_within.
    + exists v0. rewrite lookup_insert_ne by exact Hne. auto.
Qed.

Lemma solveIK_Advanced_within_limits
    chainId chainDef targetX targetY currentRots center finalRots i jointId lim :
  solveIK_Advanced data fuel random chainId targetX targetY currentRots center
  = Ret finalRots ->
  IK_CHAINS data !! chainId = Some chainDef ->
  (i < length (joints chainDef) - 1)%nat -> joints chainDef !! i = Some jointId ->
  JOINT_LIMITS data !! jointId = Some lim -> min lim <= max lim ->
  exists v, finalRots !! jointId = Some v /\ min lim <= v <= max lim.
Proof.
  intros H Hchain Hi Hid Hlim Hle.
  rewrite (solveIK_Advanced_known _ _ _ _ _ _ _ _ _ Hchain) in H.
  destruct (length (joints chainDef) <? 2)%nat eqn:E.
  { apply Nat.ltb_lt in E. lia. }
  apply bind_Ret_inv in H as (su & _ & H).
  apply bind_Ret_inv in H as (s & _ & H).
  eapply extract_within_limits; eauto.
Qed.

(** *** Chains that cannot be solved *)

Lemma solveIK_Advanced_unknown_chain chainId targetX targetY currentRots center :
  JS.get (IK_CHAINS data) chainId = JS.Missing ->
  solveIK_Advanced data fuel random chainId targetX targetY currentRots center
  = Ret currentRots.
Proof. unfold solveIK_Advanced, solveIK_Advanced_object. now intros ->. Qed.

Lemma solveIK_Advanced_inherited_chain chainId targetX targetY currentRots center :
  JS.get (IK_CHAINS data) chainId = JS.Inherited ->
  solveIK_Advanced data fuel random chainId targetX targetY currentRots center
  = Throw TypeError.
Proof. unfold solveIK_Advanced, solveIK_Advanced_object. now intros ->. Qed.

Lemma solveIK_Advanced_short_chain chainId chainDef targetX targetY currentRots center :
  IK_CHAINS data !! chainId = Some chainDef ->
  (length (joints chainDef) < 2)%nat ->
  solveIK_Advanced data fuel random chainId targetX targetY currentRots center
  = Ret currentRots.
Proof.
  intros Hchain H%Nat.ltb_lt.
  now rewrite (solveIK_Advanced_known _ _ _ _ _ _ _ _ _ Hchain), H.
Qed.

End Advanced.

(** ** The shipped skeleton *)

Section Bitruvius.
  Import Skeleton AdvancedIKSolver.

Lemma l_arm_chain_lookup :
  IK_CHAINS BITRUVIUS_DATA !! "l_arm_chain" = Some l_arm_chain.
Proof. reflexivity. Qed.

Lemma l_arm_chain_resolvable : resolvable BITRUVIUS_DATA 8 l_arm_chain = true.
Proof. vm_compute. reflexivity. Qed.

Lemma l_arm_chain_only chainDef :
  IK_CHAINS BITRUVIUS_DATA !! "l_arm_chain" = Some chainDef ->
  resolvable BITRUVIUS_DATA 8 chainDef = true.
Proof.
  rewrite l_arm_chain_lookup. intros [= <-]. apply l_arm_chain_resolvable.
Qed.

Lemma l_arm_stretch : 12 / 100 <= JS.or_default (stretchRatio l_arm_chain) (11 / 10).
Proof. simpl. destruct (JS.eqb (11 / 10) 0); lra. Qed.

(** *** The root point of the left arm *)

Lemma l_shoulder_path :
  ancestors BITRUVIUS_DATA 8 (Some "l_shoulder") []
  = Ret ["root"; "torso"; "l_collar"; "l_shoulder"].
Proof. vm_compute. reflexivity. Qed.

(** A step of the walk below an ancestry that has not turned. *)
Lemma walk_unrotated data rotations wx wy pa j def :
  j <> "root" -> JOINT_DEFS data !! j = Some def ->
  walk data rotations (wx, wy, 0, pa) j
  = Ret (wx + fst (pivot def), wy + snd (pivot def),
         d2r (JS.or_default (rotations !! j) 0), 0).
Proof.
  intros Hj Hdef. unfold walk. apply String.eqb_neq in Hj. rewrite Hj, Hdef.
  destruct (pivot def) as [px py]. cbn [fst snd]. rewrite cos_0, sin_0.
  do 2 f_equal. f_equal; [f_equal; ring | ring].
Qed.

Lemma or_default_0 (v : option R) : v = Some 0 -> JS.or_default v 0 = 0.
Proof. intros ->. unfold JS.or_default. now destruct (JS.eqb 0 0). Qed.

Lemma or_default_Some (v d : R) : v <> 0 -> JS.or_default (Some v) d = v.
Proof.
  intros Hv. unfold JS.or_default. destruct (JS.eqb v 0) eqn:E; [|reflexivity].
  now apply eqb_true in E.
Qed.

Lemma d2r_0 : d2r 0 = 0.
Proof. unfold d2r, Rdiv. ring. Qed.

Lemma l_shoulder_world :
  exists a pa,
    computeWorld BITRUVIUS_DATA 8 "l_shoulder" initialRotations (400, 300)
    = Ret (mkWorld 346 229 a pa).
Proof.
  unfold computeWorld. rewrite l_shoulder_path.
  cbn [mbind outcome_bind foldM fst snd].
  change (walk BITRUVIUS_DATA initialRotations (400, 300, 0, 0) "root")
    with (Ret (400, 300, 0, 0) : outcome (R * R * R * R)).
  cbn [mbind outcome_bind].
  rewrite (walk_unrotated _ _ _ _ _ "torso" (mkJointDef (Some "root") (0, -58)))
    by (discriminate || reflexivity).
  cbn [mbind outcome_bind fst snd pivot].
  rewrite (or_default_0 (initialRotations !! "torso")) by reflexivity. rewrite d2r_0.
  rewrite (walk_unrotated _ _ _ _ _ "l_collar" (mkJointDef (Some "torso") (-32, -13)))
    by (discriminate || reflexivity).
  cbn [mbind outcome_bind fst snd pivot].
  rewrite (or_default_0 (initialRotations !! "l_collar")) by reflexivity. rewrite d2r_0.
  rewrite (walk_unrotated _ _ _ _ _ "l_shoulder" (mkJointDef (Some "l_collar") (-22, 0)))
    by (discriminate || reflexivity).
  cbn [mbind outcome_bind fst snd pivot].
  eexists _, _. f_equal. f_equal; lra.
Qed.

Lemma sqrt_of_square a b c : 0 <= c -> a * a + b * b = c * c -> sqrt (a * a + b * b) = c.
Proof. intros Hc ->. now apply sqrt_square. Qed.

(** Witness of C1: the left arm of the shipped skeleton in its initial
    pose.  Its root point, the shoulder, is at (346, 229) and its two
    segments are 30 and 25 long, so the soft threshold is 53.9; the
    target (646, 629) is 500 away from the shoulder, and the effective
    target ends at distance 53.9 + 6.6 (1 - e^(-446.1 / 6.6)). *)
Lemma soft_reach_effective_target_witness :
  exists su,
    prepare BITRUVIUS_DATA 8 "l_arm_chain" l_arm_chain 646 629 initialRotations (400, 300)
    = Ret su
    /\ setupBase su = mkPoint 346 229
    /\ setupLengths su = [30; 25]
    /\ sqrt ((x (setupTarget su) - 346) * (x (setupTarget su) - 346)
             + (y (setupTarget su) - 229) * (y (setupTarget su) - 229))
       = 539 / 10 + 66 / 10 * (1 - exp (- (500 - 539 / 10) / (66 / 10))).
Proof.
  destruct (prepare_returns BITRUVIUS_DATA 8 "l_arm_chain" l_arm_chain 646 629
              initialRotations (400, 300) l_arm_chain_resolvable)
    as (su & Hsu & _); [simpl; lia|].
  assert (H2 : (2 <= length (joints l_arm_chain))%nat) by (simpl; lia).
  destruct (soft_reach_effective_target BITRUVIUS_DATA 8 (fun _ => 1 / 2)
              "l_arm_chain" l_arm_chain 646 629 initialRotations (400, 300) su
              l_arm_chain_lookup H2 Hsu l_arm_stretch)
    as (_ & (first & w & Hfirst & Hw & Hroot) & Hlens & Hbeyond & _).
  assert (Hbase : setupBase su = mkPoint 346 229).
  { injection Hfirst as <-. destruct l_shoulder_world as (a & pa & Hws).
    rewrite Hws in Hw. injection Hw as <-. exact Hroot. }
  assert (Hlengths : setupLengths su = [30; 25]).
  { cbn [joints l_arm_chain tail] in Hlens.
    apply Forall2_cons_inv_l in Hlens as (l1 & ls1 & (d1 & Hd1 & Hl1) & Hlens & ->).
    apply Forall2_cons_inv_l in Hlens as (l2 & ls2 & (d2 & Hd2 & Hl2) & Hlens & ->).
    apply Forall2_nil_inv_l in Hlens as ->.
    assert (d1 = mkJointDef (Some "l_shoulder") (-30, 0)) as ->
      by (apply (inj Some); rewrite <- Hd1; reflexivity).
    assert (d2 = mkJointDef (Some "l_elbow") (-25, 0)) as ->
      by (apply (inj Some); rewrite <- Hd2; reflexivity).
    cbn [pivot fst snd] in Hl1, Hl2.
    rewrite (sqrt_of_square _ _ 30) in Hl1 by lra.
    rewrite (sqrt_of_square _ _ 25) in Hl2 by lra.
    now rewrite Hl1, Hl2. }
  exists su. split; [exact Hsu|]. split; [exact Hbase|]. split; [exact Hlengths|].
  rewrite Hbase, Hlengths in Hbeyond. cbn [foldr x y stretchRatio l_arm_chain] in Hbeyond.
  rewrite (or_default_Some (11 / 10)) in Hbeyond by lra.
  rewrite (sqrt_of_square _ _ 500) in Hbeyond by lra.
  replace ((30 + (25 + 0)) * (11 / 10) - (30 + (25 + 0)) * (12 / 100))
    with (539 / 10) in Hbeyond by lra.
  replace ((30 + (25 + 0)) * (12 / 100)) with (66 / 10) in Hbeyond by lra.
  exact (proj1 (Hbeyond ltac:(lra))).
Defined.

(** *** A stretch ratio below the soft margin *)

Lemma tight_root_world :
  exists a pa, computeWorld tightData 4 "root" ∅ (0, 0) = Ret (mkWorld 0 0 a pa).
Proof.
  unfold computeWorld.
  assert (Hpath : ancestors tightData 4 (Some "root") [] = Ret ["root"])
    by (vm_compute; reflexivity).
  rewrite Hpath. cbn. eauto.
Qed.

Lemma exp_minus_1_ge : 1 / 3 <= exp (- 1).
Proof.
  replace (- 1) with (- (1)) by lra.
  rewrite exp_Ropp. pose proof exp_le_3 as H3. pose proof (exp_pos 1) as Hp.
  apply (Rmult_le_reg_r (exp 1)); [exact Hp|].
  rewrite Rinv_l by lra. lra.
Qed.

(** C1, as stated, fails when the stretch ratio is below 0.12.  On a chain
    of one segment of length 100 with the stretch ratio 0.01, the soft
    threshold is -11; the target (1, 0) is at distance 1 from the root
    point (0, 0), beyond the threshold, and the distance the claim gives
    the effective target, [-11 + 12 (1 - e^(-1))], is negative.  The
    effective target the solve uses is at [(1 - 12 / e, 0)]: left of the
    root point, on the side away from the target, and not at the claimed
    distance. *)
Lemma soft_reach_flips_target :
  let softDist := 100 * (12 / 100) in
  let softThreshold := 100 * (1 / 100) - 100 * (12 / 100) in
  let d := sqrt ((1 - 0) * (1 - 0) + (0 - 0) * (0 - 0)) in
  let claimed := softThreshold + softDist * (1 - exp (- (d - softThreshold) / softDist)) in
  IK_CHAINS tightData !! "reach" = Some tightChain
  /\ (2 <= length (joints tightChain))%nat
  /\ exists su,
       prepare tightData 4 "reach" tightChain 1 0 ∅ (0, 0) = Ret su
       /\ setupBase su = mkPoint 0 0
       /\ foldr Rplus 0 (setupLengths su) = 100
       /\ softThreshold < d
       /\ claimed < 0
       /\ setupTarget su = mkPoint (1 - 12 * exp (- 1)) 0
       /\ x (setupTarget su) < 0
       /\ sqrt ((x (setupTarget su) - 0) * (x (setupTarget su) - 0)
                + (y (setupTarget su) - 0) * (y (setupTarget su) - 0))
          <> claimed.
Proof.
  intros softDist' softThreshold' d claimed.
  assert (Hd : d = 1) by (unfold d; apply sqrt_of_square; lra).
  assert (Hclaimed : claimed = 1 - 12 * exp (- 1)).
  { unfold claimed, softThreshold', softDist'. rewrite Hd.
    replace (- (1 - (100 * (1 / 100) - 100 * (12 / 100))) / (100 * (12 / 100)))
      with (- 1) by lra.
    lra. }
  pose proof exp_minus_1_ge as He.
  split; [reflexivity|]. split; [simpl; lia|].
  assert (Hres : resolvable tightData 4 tightChain = true) by (vm_compute; reflexivity).
  destruct (prepare_returns tightData 4 "reach" tightChain 1 0 ∅ (0, 0) Hres)
    as (su & Hsu & _); [simpl; lia|].
  destruct (prepare_inv _ _ _ _ _ _ _ _ _ Hsu) as (_ & Heff & Hls & _).
  destruct (prepare_root _ _ _ _ _ _ _ _ _ Hsu) as (first & w & Hfirst & Hw & Hroot).
  assert (Hbase : setupBase su = mkPoint 0 0).
  { injection Hfirst as <-. destruct tight_root_world as (a & pa & Hws).
    rewrite Hws in Hw. injection Hw as <-. exact Hroot. }
  assert (Hlengths : setupLengths su = [100]).
  { apply buildLengths_pivots in Hls. cbn [joints tightChain tail] in Hls.
    apply Forall2_cons_inv_l in Hls as (l1 & ls1 & (d1 & Hd1 & Hl1) & Hls & ->).
    apply Forall2_nil_inv_l in Hls as ->.
    assert (d1 = mkJointDef (Some "root") (100, 0)) as ->
      by (apply (inj Some); rewrite <- Hd1; reflexivity).
    cbn [pivot fst snd] in Hl1.
    rewrite (sqrt_of_square _ _ 100) in Hl1 by lra. now rewrite Hl1. }
  assert (Htarget : setupTarget su = mkPoint (1 - 12 * exp (- 1)) 0).
  { rewrite Heff, Hbase, Hlengths. unfold softTarget, totalLength.
    cbn [fold_left]. unfold distToTarget, softThreshold, softDist, JS.hypot.
    cbn [x y stretchRatio tightChain].
    rewrite (or_default_Some (1 / 100)) by lra.
    rewrite (sqrt_of_square _ _ 1) by lra.
    assert (E : JS.gtb 1 ((0 + 100) * (1 / 100) - (0 + 100) * (12 / 100)) = true)
      by (apply gtb_true; lra).
    rewrite E.
    replace (- (1 - ((0 + 100) * (1 / 100) - (0 + 100) * (12 / 100)))
             / ((0 + 100) * (12 / 100))) with (- 1) by lra.
    f_equal; lra. }
  exists su. split; [exact Hsu|]. split; [exact Hbase|].
  split; [rewrite Hlengths; simpl; lra|].
  split; [unfold softThreshold'; rewrite Hd; lra|].
  split; [rewrite Hclaimed; lra|].
  split; [exact Htarget|].
  rewrite Htarget. cbn [x y]. split; [lra|].
  intros Heq. pose proof (sqrt_pos ((1 - 12 * exp (- 1) - 0) * (1 - 12 * exp (- 1) - 0)
                                    + (0 - 0) * (0 - 0))) as Hpos.
  rewrite Heq, Hclaimed in Hpos. lra.
Qed.

(** Witness of C2: the same call, with [Math.random] returning 1/2. *)
Lemma best_candidate_is_minimal_witness :
  exists su s,
    prepare BITRUVIUS_DATA 8 "l_arm_chain" l_arm_chain 500 0 initialRotations (400, 300)
    = Ret su
    /\ solveLoop BITRUVIUS_DATA 8 (fun _ => 1 / 2) l_arm_chain initialRotations
         (400, 300) su = Ret s
    /\ bestPoints s
       ∈ iterates BITRUVIUS_DATA 8 (fun _ => 1 / 2) l_arm_chain initialRotations
           (400, 300) su.
Proof.
  destruct (prepare_returns BITRUVIUS_DATA 8 "l_arm_chain" l_arm_chain 500 0
              initialRotations (400, 300) l_arm_chain_resolvable)
    as (su & Hsu & Hlen); [simpl; lia|].
  destruct (solveLoop_returns BITRUVIUS_DATA 8 (fun _ => 1 / 2) l_arm_chain
              initialRotations (400, 300) su l_arm_chain_resolvable)
    as (s & Hs & _); [rewrite Hlen; simpl; lia|].
  exists su, s. split; [exact Hsu|]. split; [exact Hs|].
  assert (H2 : (2 <= length (joints l_arm_chain))%nat) by (simpl; lia).
  exact (proj1 (proj2 (best_candidate_is_minimal BITRUVIUS_DATA 8 (fun _ => 1 / 2)
                         "l_arm_chain" l_arm_chain 500 0 initialRotations (400, 300)
                         su s l_arm_chain_lookup H2 Hsu Hs))).
Defined.

Lemma l_arm_chain_known :
  IK_CHAINS BITRUVIUS_DATA !! "l_arm_chain" = None ->
  "l_arm_chain" ∉ JS.objectPrototype.
Proof. rewrite l_arm_chain_lookup. discriminate. Qed.

(** Witness of C10: the call on the left arm returns a copy, in which the
    wrist (the effector) and the head (outside the chain) have the
    rotations of the map handed in. *)
Lemma solveIK_Advanced_frame_witness :
  exists finalRots,
    solveIK_Advanced_object BITRUVIUS_DATA 8 (fun _ => 1 / 2) "l_arm_chain" 500 0
      initialRotations (400, 300) = Ret (Copy finalRots)
    /\ finalRots !! "l_wrist" = initialRotations !! "l_wrist"
    /\ finalRots !! "head" = initialRotations !! "head".
Proof.
  destruct (solveIK_Advanced_returns BITRUVIUS_DATA 8 (fun _ => 1 / 2) "l_arm_chain"
              500 0 initialRotations (400, 300) l_arm_chain_only l_arm_chain_known)
    as [finalRots H].
  destruct (solveIK_Advanced_inv _ _ _ _ _ _ _ _ _ H) as (r & Hr & ->).
  destruct (solveIK_Advanced_frame BITRUVIUS_DATA 8 (fun _ => 1 / 2) "l_arm_chain"
              500 0 initialRotations (400, 300) r Hr) as (_ & Harg & _ & F).
  specialize (F l_arm_chain l_arm_chain_lookup).
  destruct r as [|finalRots].
  - exfalso. destruct (proj1 Harg eq_refl) as [Hm | (cd & Hcd & Hshort)].
    + discriminate Hm.
    + rewrite l_arm_chain_lookup in Hcd. injection Hcd as <-. simpl in Hshort. lia.
  - exists finalRots. split; [exact Hr|]. cbn [contents] in F. split.
    + apply F. right. split; [reflexivity|]. simpl. intros Hin.
      repeat (apply elem_of_cons in Hin as [Hin | Hin]; [discriminate|]).
      inversion Hin.
    + apply F. left. simpl. intros Hin.
      repeat (apply elem_of_cons in Hin as [Hin | Hin]; [discriminate|]).
      inversion Hin.
Defined.

End Bitruvius.

(** ** Structural edits of the joint tree *)

Section Removal.
  Import Joint JointChain.

Lemma lookup_total_Some_parent (st : Store) (i p : nat) :
  parent (st !!! i) = Some p -> (i < List.length st)%nat.
Proof.
  intros H. destruct (decide (i < List.length st)%nat) as [|Hge]; [assumption|].
  rewrite list_lookup_total_alt, lookup_ge_None_2 in H by lia. discriminate.
Qed.

Lemma indexOf_elem (l : list nat) (c : nat) :
  c ∈ l -> exists i, indexOf l c = Some i.
Proof.
  induction l as [|a l IH]; intros H; [inversion H|]. simpl.
  destruct (bool_decide (a = c)) eqn:E; [eauto|].
  apply bool_decide_eq_false in E.
  apply elem_of_cons in H as [-> | H]; [congruence|].
  destruct (IH H) as [i ->]. simpl. eauto.
Qed.

(** [removeChild] clears [joint.parent], and the loop that follows reads
    it: removing a joint that has a child throws, whatever the tree. *)
Lemma removeJoint_with_child_throws (this : JointChain.t) (st : Store)
    (joint p child : nat) (rest : list nat) :
  joint <> root this ->
  parent (st !!! joint) = Some p -> p <> joint ->
  joint ∈ children (st !!! p) ->
  children (st !!! joint) = child :: rest ->
  (removeJoint this joint st).1 = Throw TypeError
  /\ children ((removeJoint this joint st).2 !!! joint) = child :: rest
  /\ (child <> joint ->
      parent ((removeJoint this joint st).2 !!! child) = parent (st !!! child)).
Proof.
  intros Hroot Hp Hne Hin Hch. unfold removeJoint.
  rewrite bool_decide_eq_false_2 by exact Hroot. rewrite Hp.
  unfold removeChild. destruct (indexOf_elem _ _ Hin) as [index ->].
  pose proof (lookup_total_Some_parent _ _ _ Hp) as Hlt.
  set (st1 := alter (set_parent None) joint
                (alter (fun j => set_children (delete index (children j)) j) p st)).
  assert (Hj : st1 !!! joint
               = set_parent None (st !!! joint)).
  { unfold st1. rewrite list_lookup_total_alter_eq by (rewrite length_alter; exact Hlt).
    now rewrite list_lookup_total_alter_ne by exact Hne. }
  assert (Hrun : reattach joint (children (st1 !!! joint)) st1 = (Throw TypeError, st1)).
  { rewrite Hj. simpl. rewrite Hch. simpl. now rewrite Hj. }
  rewrite Hrun. simpl.
  split; [reflexivity|]. split; [now rewrite Hj|].
  intros Hc. unfold st1. rewrite list_lookup_total_alter_ne by congruence.
  destruct (decide (p = child)) as [-> | Hpc].
  - destruct (decide (child < List.length st)%nat) as [Hl|Hl].
    + now rewrite list_lookup_total_alter_eq by exact Hl.
    + rewrite !list_lookup_total_alt, list_lookup_alter_eq.
      now rewrite lookup_ge_None_2 by lia.
  - now rewrite list_lookup_total_alter_ne by exact Hpc.
Qed.

(** C4 on the default chain (root, Joint_1, Joint_2, EndEffector):
    removing Joint_1, whose child is Joint_2, ends in a [TypeError];
    Joint_1 has left the root's children, Joint_2 still has Joint_1 as
    its parent, and the tree under the root has gone from four joints to
    one instead of three.  Removing the childless end effector works. *)
Theorem removeJoint_default_chain_throws :
  getJointCount 10 defaultStore (root defaultChain) = Ret 4%nat
  /\ (removeJoint defaultChain 1 defaultStore).1 = Throw TypeError
  /\ getJointCount 10 (removeJoint defaultChain 1 defaultStore).2 (root defaultChain)
     = Ret 1%nat
  /\ children ((removeJoint defaultChain 1 defaultStore).2 !!! 0%nat) = []
  /\ parent ((removeJoint defaultChain 1 defaultStore).2 !!! 2%nat) = Some 1%nat
  /\ (removeJoint defaultChain 3 defaultStore).1 = Ret ()
  /\ getJointCount 10 (removeJoint defaultChain 3 defaultStore).2 (root defaultChain)
     = Ret 3%nat.
Proof. repeat split; reflexivity. Qed.

End Removal.

(** ** Calls that change nothing *)

Section NoOp.
  Import Joint JointChain.

Lemma solveAnalytical_other_length fuel (this : JointChain.t) endEffector
    (st : Store) (joints : list nat) :
  getAllJointsInOrder fuel this st = Ret joints ->
  List.length joints <> 2%nat ->
  solveAnalytical fuel this endEffector st = Ret st.
Proof.
  intros H Hlen. unfold solveAnalytical. rewrite H. simpl.
  destruct joints as [|j0 [|j1 [|j2 rest]]]; try reflexivity.
  simpl in Hlen. lia.
Qed.

(** The calls that are no-ops: the analytical solver on a chain whose
    ordered joint list does not have exactly two joints returns with
    every joint as it was, and [solveIK_Advanced] returns the rotation
    map it was given for a chain id that the table neither has nor
    inherits and for a chain of fewer than two joints. *)
Lemma invalid_chain_shape_is_noop :
  (forall fuel (this : JointChain.t) endEffector (st : Store) (joints : list nat),
      getAllJointsInOrder fuel this st = Ret joints ->
      List.length joints <> 2%nat ->
      solveAnalytical fuel this endEffector st = Ret st)
  /\ (forall data fuel random chainId targetX targetY currentRots center,
        Skeleton.IK_CHAINS data !! chainId = None ->
        chainId ∉ JS.objectPrototype ->
        AdvancedIKSolver.solveIK_Advanced data fuel random chainId targetX targetY
          currentRots center = Ret currentRots)
  /\ (forall data fuel random chainId chainDef targetX targetY currentRots center,
        Skeleton.IK_CHAINS data !! chainId = Some chainDef ->
        (List.length (Skeleton.joints chainDef) < 2)%nat ->
        AdvancedIKSolver.solveIK_Advanced data fuel random chainId targetX targetY
          currentRots center = Ret currentRots).
Proof.
  split; [exact solveAnalytical_other_length|]. split.
  - intros. apply solveIK_Advanced_unknown_chain. now apply get_missing.
  - exact solveIK_Advanced_short_chain.
Qed.

(** The default chain has four joints; the shipped skeleton has no chain
    called tail_chain; a chain of one joint. *)
Lemma invalid_chain_shape_examples :
  solveAnalytical 10 defaultChain 3 defaultStore = Ret defaultStore
  /\ AdvancedIKSolver.solveIK_Advanced Skeleton.BITRUVIUS_DATA 8 (fun _ => 1 / 2)
       "tail_chain" 10 20 Skeleton.initialRotations (400, 300)
     = Ret Skeleton.initialRotations
  /\ AdvancedIKSolver.solveIK_Advanced
       (Skeleton.mkData ∅ {["solo" := Skeleton.mkChainDef ["torso"] None None]} ∅)
       8 (fun _ => 1 / 2) "solo" 10 20 Skeleton.initialRotations (400, 300)
     = Ret Skeleton.initialRotations.
Proof.
  destruct invalid_chain_shape_is_noop as (Ha & Hu & Hs).
  split; [|split].
  - apply (Ha 10%nat defaultChain 3%nat defaultStore [0; 1; 2; 3]%nat);
      [reflexivity | simpl; lia].
  - apply Hu; [reflexivity|]. apply (bool_decide_eq_false_1 _). reflexivity.
  - apply (Hs _ _ _ "solo" (Skeleton.mkChainDef ["torso"] None None));
      [reflexivity | simpl; lia].
Qed.

(** C6 fails at a chain id that the table only inherits.  The shipped
    skeleton has no chain called ["constructor"], yet
    [IK_CHAINS["constructor"]] is the constructor of [Object], which is
    truthy and has no [joints]: the guard [if (!chainDef)] lets it pass,
    and [jointIds.length] throws a TypeError instead of returning the
    rotation map.  So does every id that [IK_CHAINS] inherits and does
    not have. *)
Theorem inherited_chain_id_throws :
  Skeleton.IK_CHAINS Skeleton.BITRUVIUS_DATA !! "constructor" = None
  /\ (forall fuel random targetX targetY currentRots center,
        AdvancedIKSolver.solveIK_Advanced Skeleton.BITRUVIUS_DATA fuel random
          "constructor" targetX targetY currentRots center = Throw TypeError)
  /\ (forall data fuel random chainId targetX targetY currentRots center,
        Skeleton.IK_CHAINS data !! chainId = None ->
        chainId ∈ JS.objectPrototype ->
        AdvancedIKSolver.solveIK_Advanced data fuel random chainId targetX targetY
          currentRots center = Throw TypeError).
Proof.
  assert (G : forall data fuel random chainId targetX targetY currentRots center,
            Skeleton.IK_CHAINS data !! chainId = None ->
            chainId ∈ JS.objectPrototype ->
            AdvancedIKSolver.solveIK_Advanced data fuel random chainId targetX
              targetY currentRots center = Throw TypeError).
  { intros. apply solveIK_Advanced_inherited_chain. now apply get_inherited. }
  split; [reflexivity|]. split; [|exact G].
  intros. apply G; [reflexivity|]. apply (bool_decide_eq_true_1 _). reflexivity.
Qed.

End NoOp.

(** ** The analytical solver on the 100/80 arm *)

Section Analytical.
  Import Joint JointChain.

Lemma transformPoint_identity p : Matrix3.transformPoint Matrix3.identity p = p.
Proof.
  destruct p as [px py]. unfold Matrix3.transformPoint. simpl.
  f_equal; field.
Qed.

Lemma magnitude_x_axis a : 0 <= a -> Vector2.magnitude (Vector2.mk (- a) 0) = a.
Proof.
  intros Ha. unfold Vector2.magnitude. simpl.
  replace (- a * - a + 0 * 0) with (a * a) by ring. now apply sqrt_square.
Qed.

Lemma atan2_pos_x_axis a : 0 < a -> JS.atan2 0 a = 0.
Proof.
  intros Ha. unfold JS.atan2. destruct (Rlt_dec 0 a) as [_|]; [|lra].
  unfold Rdiv. rewrite Rmult_0_l. apply atan_0.
Qed.

Lemma twoJoint_targetDist :
  Vector2.distance (getWorldPosition (twoJointStore !!! 0%nat))
                   (target twoJointChain) = 120.
Proof.
  unfold Vector2.distance, getWorldPosition, Matrix3.transformPoint,
    Vector2.magnitude. simpl.
  match goal with |- sqrt ?e = _ => replace e with (120 * 120) by field end.
  apply sqrt_square. lra.
Qed.

Lemma twoJoint_baseAngle :
  JS.atan2
    (Vector2.y (target twoJointChain)
     - Vector2.y (getWorldPosition (twoJointStore !!! 0%nat)))
    (Vector2.x (target twoJointChain)
     - Vector2.x (getWorldPosition (twoJointStore !!! 0%nat))) = 0.
Proof.
  unfold getWorldPosition, Matrix3.transformPoint. simpl.
  match goal with |- JS.atan2 ?a ?b = _ =>
    replace a with 0 by field; replace b with 120 by field end.
  apply atan2_pos_x_axis. lra.
Qed.

(** What the solver leaves behind: the two target angles, the angles
    themselves untouched. *)
Lemma solveAnalytical_twoJoint :
  solveAnalytical 5 twoJointChain 1 twoJointStore
  = Ret (alter (setAngle (acos (-1 / 8))) 1%nat
           (alter (setAngle (0 + acos (3 / 4))) 0%nat twoJointStore)).
Proof.
  unfold solveAnalytical.
  change (getAllJointsInOrder 5 twoJointChain twoJointStore) with (Ret [0; 1]%nat).
  cbv beta iota delta [mbind outcome_bind].
  change (root twoJointChain) with 0%nat.
  rewrite twoJoint_targetDist, twoJoint_baseAngle.
  change (Joint.length (twoJointStore !!! 0%nat)) with 100.
  change (Joint.length (twoJointStore !!! 1%nat)) with 80.
  rewrite (proj2 (gtb_false 120 (100 + 80))) by lra.
  rewrite (proj2 (ltb_false 120 (Rabs (100 - 80))))
    by (rewrite Rabs_pos_eq; lra).
  replace ((120 * 120 - 100 * 100 - 80 * 80) / (2 * 100 * 80)) with (-1 / 8) by field.
  replace ((100 * 100 + 120 * 120 - 80 * 80) / (2 * 100 * 120)) with (3 / 4) by field.
  rewrite !clamp_id by lra. reflexivity.
Qed.

(** *** Where those angles put the end effector *)

Lemma sin_acos_3_4 : sin (acos (3 / 4)) = sqrt 7 / 4.
Proof.
  rewrite sin_acos by lra. apply sqrt_lem_1.
  - unfold Rsqr. lra.
  - pose proof (sqrt_pos 7). lra.
  - pose proof (sqrt_sqrt 7 ltac:(lra)). unfold Rsqr. nra.
Qed.

Lemma sin_acos_m1_8 : sin (acos (-1 / 8)) = 3 * sqrt 7 / 8.
Proof.
  rewrite sin_acos by lra. apply sqrt_lem_1.
  - unfold Rsqr. lra.
  - pose proof (sqrt_pos 7). lra.
  - pose proof (sqrt_sqrt 7 ltac:(lra)). unfold Rsqr. nra.
Qed.

(** The transforms as [updateTransform] composes them. *)
Lemma twoJoint_transforms a0 a1 :
  exists st',
    updateTransform 5 0
      (settle (alter (setAngle a1) 1%nat (alter (setAngle a0) 0%nat twoJointStore)))
    = Ret st'
    /\ getEndEffectorPosition (st' !!! 1%nat)
       = Vector2.mk (100 + 80 * (cos a0 * cos a1 - sin a0 * sin a1))
                    (80 * (cos a0 * sin a1 + sin a0 * cos a1)).
Proof.
  eexists. split; [simpl; reflexivity|].
  unfold getEndEffectorPosition, Matrix3.transformPoint. simpl.
  f_equal; field.
Qed.

(** C5 at its own input: lengths 100 and 80, the root at the origin, the
    target at (120, 0).  The solver asks for the angles [acos (3/4)] and
    [acos (-1/8)] and leaves [angle] of both joints at 0.  With the joints
    at the angles asked for, the end effector of the code's own transforms
    is at (40, 20 sqrt 7), and the end of the planar two-segment arm is at
    (15, 45 sqrt 7); neither is the target.  The two-segment arm is on the
    target when the first angle is [baseAngle - angle1]. *)
Theorem analytical_solver_misses_target :
  exists st st',
    solveAnalytical 5 twoJointChain 1 twoJointStore = Ret st
    /\ targetAngle (st !!! 0%nat) = 0 + acos (3 / 4)
    /\ targetAngle (st !!! 1%nat) = acos (-1 / 8)
    /\ angle (st !!! 0%nat) = 0 /\ angle (st !!! 1%nat) = 0
    /\ updateTransform 5 0 (settle st) = Ret st'
    /\ getEndEffectorPosition (st' !!! 1%nat) = Vector2.mk 40 (20 * sqrt 7)
    /\ getEndEffectorPosition (st' !!! 1%nat) <> target twoJointChain
    /\ twoSegmentEnd (Vector2.mk 0 0) 100 80 (0 + acos (3 / 4)) (acos (-1 / 8))
       = Vector2.mk 15 (45 * sqrt 7)
    /\ twoSegmentEnd (Vector2.mk 0 0) 100 80 (0 + acos (3 / 4)) (acos (-1 / 8))
       <> target twoJointChain
    /\ twoSegmentEnd (Vector2.mk 0 0) 100 80 (0 - acos (3 / 4)) (acos (-1 / 8))
       = target twoJointChain.
Proof.
  pose proof (sqrt_sqrt 7 ltac:(lra)) as H7.
  destruct (twoJoint_transforms (0 + acos (3 / 4)) (acos (-1 / 8))) as (st' & Hst' & Hend).
  eexists _, st'. split; [apply solveAnalytical_twoJoint|].
  do 4 (split; [reflexivity|]).
  split; [exact Hst'|].
  assert (Hcode : getEndEffectorPosition (st' !!! 1%nat) = Vector2.mk 40 (20 * sqrt 7)).
  { rewrite Hend, !Rplus_0_l, !cos_acos, sin_acos_3_4, sin_acos_m1_8 by lra.
    f_equal; nra. }
  assert (Harm : twoSegmentEnd (Vector2.mk 0 0) 100 80 (0 + acos (3 / 4)) (acos (-1 / 8))
                 = Vector2.mk 15 (45 * sqrt 7)).
  { unfold twoSegmentEnd, Vector2.add. cbn [Vector2.x Vector2.y].
    rewrite !Rplus_0_l, cos_plus, sin_plus, !cos_acos, sin_acos_3_4, sin_acos_m1_8
      by lra.
    f_equal; nra. }
  split; [exact Hcode|]. split; [rewrite Hcode; intros [= Hx _]; lra|].
  split; [exact Harm|]. split; [rewrite Harm; intros [= Hx _]; lra|].
  - unfold twoSegmentEnd, Vector2.add. cbn [Vector2.x Vector2.y].
    replace (0 - acos (3 / 4)) with (- acos (3 / 4)) by ring.
    rewrite !Rplus_0_l, cos_plus, sin_plus, cos_neg, sin_neg, !cos_acos,
      sin_acos_3_4, sin_acos_m1_8 by lra.
    change (target twoJointChain) with (Vector2.mk 120 0).
    f_equal; nra.
Qed.

End Analytical.

(** ** Joint.updateIK: one step of the sweep *)

Section Sweep.
  Import Joint.

Lemma set_fields_id (j : Joint.t) :
  set_angle (angle j) (set_targetAngle (targetAngle j) j) = j.
Proof. now destruct j. Qed.

(** The rotation of a step before the weights: the difference of the two
    directions, or what the constraint range leaves of it. *)
Lemma ikStep_moving effectorWeight endEffector target (current : Joint.t) :
  let toEnd := Vector2.subtract endEffector (getWorldPosition current) in
  let toTarget := Vector2.subtract target (getWorldPosition current) in
  0 < Vector2.magnitude toEnd -> 0 < Vector2.magnitude toTarget ->
  let signed := Vector2.angle toTarget - Vector2.angle toEnd in
  let rotation :=
    if enabled (constraints current)
    then MathUtils.clamp (angle current + signed) (minAngle (constraints current))
           (maxAngle (constraints current)) - angle current
    else signed in
  let applied := rotation * (ikWeight current * effectorWeight) in
  ikStep effectorWeight endEffector target current
  = set_angle (MathUtils.lerp (angle current) (angle current + applied)
                              (1 - damping current))
      (set_targetAngle (angle current + applied) current).
Proof.
  intros toEnd toTarget H1 H2 signed rotation applied. unfold ikStep.
  fold toEnd toTarget.
  rewrite (proj2 (gtb_true _ _) H1), (proj2 (gtb_true _ _) H2). simpl.
  fold signed. destruct (enabled (constraints current)); reflexivity.
Qed.

Lemma ikStep_shape effectorWeight endEffector target (current : Joint.t) :
  exists a ta,
    ikStep effectorWeight endEffector target current
    = set_angle a (set_targetAngle ta current).
Proof.
  unfold ikStep. destruct (_ && _).
  - eauto.
  - exists (angle current), (targetAngle current). now rewrite set_fields_id.
Qed.

Lemma ikStep_parent w e t (j : Joint.t) : parent (ikStep w e t j) = parent j.
Proof. destruct (ikStep_shape w e t j) as (a & ta & ->). reflexivity. Qed.

Lemma ikStep_ikWeight w e t (j : Joint.t) : ikWeight (ikStep w e t j) = ikWeight j.
Proof. destruct (ikStep_shape w e t j) as (a & ta & ->). reflexivity. Qed.

Lemma ikStep_damping w e t (j : Joint.t) : damping (ikStep w e t j) = damping j.
Proof. destruct (ikStep_shape w e t j) as (a & ta & ->). reflexivity. Qed.

Lemma ikStep_constraints w e t (j : Joint.t) :
  constraints (ikStep w e t j) = constraints j.
Proof. destruct (ikStep_shape w e t j) as (a & ta & ->). reflexivity. Qed.

Lemma lookup_total_alter_field {B : Type} (proj : Joint.t -> B) (f : Joint.t -> Joint.t)
    (st : Store) (c k : nat) :
  (forall j, proj (f j) = proj j) ->
  proj (alter f c st !!! k) = proj (st !!! k).
Proof.
  intros Hf. destruct (decide (c = k)) as [-> | Hne].
  - destruct (decide (k < List.length st)%nat) as [Hl|Hl].
    + now rewrite list_lookup_total_alter_eq.
    + rewrite !list_lookup_total_alt, list_lookup_alter_eq.
      now rewrite lookup_ge_None_2 by lia.
  - now rewrite list_lookup_total_alter_ne.
Qed.

Lemma sweep_enabled fuel this endEffector target c (st : Store) :
  ikEnabled (st !!! c) = true ->
  sweep (S fuel) this endEffector target (Some c) st
  = sweep fuel this endEffector target (parent (st !!! c))
      (alter (ikStep (ikWeight (st !!! this)) endEffector target) c st).
Proof.
  intros He. simpl. rewrite He. simpl.
  now rewrite (lookup_total_alter_field parent) by apply ikStep_parent.
Qed.

End Sweep.

(** ** A step with heavy weights *)

Section Heavy.
  Import Joint.

Lemma atan2_pos_y_axis b : 0 < b -> JS.atan2 b 0 = PI / 2.
Proof.
  intros Hb. unfold JS.atan2.
  destruct (Rlt_dec 0 0) as [|_]; [lra|].
  destruct (Rlt_dec 0 b) as [_|]; [reflexivity | lra].
Qed.

Lemma heavy_child_position :
  getWorldPosition (heavyStore !!! 1%nat) = Vector2.mk 0 0.
Proof.
  change (getWorldPosition (heavyStore !!! 1%nat))
    with (Matrix3.transformPoint Matrix3.identity (Vector2.mk 0 0)).
  apply transformPoint_identity.
Qed.

Lemma heavy_toEnd :
  0 < Vector2.magnitude
        (Vector2.subtract (Vector2.mk 50 0) (getWorldPosition (heavyStore !!! 1%nat))).
Proof.
  rewrite heavy_child_position. unfold Vector2.magnitude, Vector2.subtract.
  cbn [Vector2.x Vector2.y]. apply sqrt_lt_R0. lra.
Qed.

Lemma heavy_toTarget :
  0 < Vector2.magnitude
        (Vector2.subtract (Vector2.mk 0 5) (getWorldPosition (heavyStore !!! 1%nat))).
Proof.
  rewrite heavy_child_position. unfold Vector2.magnitude, Vector2.subtract.
  cbn [Vector2.x Vector2.y]. apply sqrt_lt_R0. lra.
Qed.

Lemma heavy_child_step :
  angle (ikStep 2 (Vector2.mk 50 0) (Vector2.mk 0 5) (heavyStore !!! 1%nat)) = 18 / 5.
Proof.
  rewrite (ikStep_moving 2 (Vector2.mk 50 0) (Vector2.mk 0 5) (heavyStore !!! 1%nat)
             heavy_toEnd heavy_toTarget).
  rewrite heavy_child_position.
  change (enabled (constraints (heavyStore !!! 1%nat))) with true.
  change (angle (heavyStore !!! 1%nat)) with 0.
  change (minAngle (constraints (heavyStore !!! 1%nat))) with (-1).
  change (maxAngle (constraints (heavyStore !!! 1%nat))) with 1.
  change (ikWeight (heavyStore !!! 1%nat)) with 2.
  change (damping (heavyStore !!! 1%nat)) with (1 / 10).
  unfold Vector2.angle, Vector2.subtract. cbn [Vector2.x Vector2.y angle set_angle].
  replace (5 - 0) with 5 by ring. replace (0 - 0) with 0 by ring.
  replace (50 - 0) with 50 by ring.
  rewrite atan2_pos_y_axis, atan2_pos_x_axis by lra.
  assert (Hc : MathUtils.clamp (0 + (PI / 2 - 0)) (-1) 1 = 1).
  { unfold MathUtils.clamp. pose proof PI2_1.
    rewrite Rmin_left by lra. apply Rmax_right. lra. }
  rewrite Hc. unfold MathUtils.lerp. lra.
Qed.

Lemma heavy_distance :
  JS.ltb (Vector2.distance (Vector2.mk 50 0) (Vector2.mk 0 5)) (1 / 10) = false.
Proof.
  apply ltb_false. unfold Vector2.distance, Vector2.magnitude, Vector2.subtract.
  cbn [Vector2.x Vector2.y].
  rewrite <- (sqrt_square (1 / 10)) by lra. apply sqrt_le_1_alt. lra.
Qed.

(** C3 fails for [Joint.updateIK].  On [heavyStore], where the child's
    constraints are enabled with the range [-1, 1], its IK weight is 2 and
    every angle starts at 0, one round toward the target (0, 5) leaves
    the child at the angle 3.6.  The step cuts the rotation to the range
    and then multiplies it by the weights, which takes it out again;
    [updateFK] clamps last. *)
Theorem updateIK_leaves_constraint_range :
  Forall withinConstraints heavyStore
  /\ exists st',
       updateIK 5 1 (Vector2.mk 0 5) 1 (1 / 10) heavyStore = Ret st'
       /\ enabled (constraints (st' !!! 1%nat)) = true
       /\ minAngle (constraints (st' !!! 1%nat)) = -1
       /\ maxAngle (constraints (st' !!! 1%nat)) = 1
       /\ angle (st' !!! 1%nat) = 18 / 5
       /\ ~ withinConstraints (st' !!! 1%nat).
Proof.
  split.
  { repeat constructor; unfold withinConstraints; simpl; intros; try discriminate; lra. }
  set (e := Vector2.mk 50 0). set (t := Vector2.mk 0 5).
  set (st1 := alter (ikStep 2 e t) 1%nat heavyStore).
  set (st2 := alter (ikStep 2 e t) 0%nat st1).
  assert (Hrun : updateIK 5 1 t 1 (1 / 10) heavyStore = Ret st2).
  { unfold updateIK.
    change (ikEnabled (heavyStore !!! 1%nat)) with true.
    change (parent (heavyStore !!! 1%nat)) with (Some 0%nat).
    cbn [negb orb bool_decide decide_rel is_Some_dec].
    change (getEndEffectorPosition (heavyStore !!! 1%nat))
      with (Matrix3.transformPoint Matrix3.identity e).
    rewrite transformPoint_identity. unfold e at 1, t at 1. rewrite heavy_distance.
    fold e t. unfold ikRounds.
    rewrite sweep_enabled by reflexivity.
    change (ikWeight (heavyStore !!! 1%nat)) with 2.
    change (parent (heavyStore !!! 1%nat)) with (Some 0%nat). fold st1.
    rewrite sweep_enabled
      by (unfold st1; rewrite list_lookup_total_alter_ne by lia; reflexivity).
    assert (Hw : ikWeight (st1 !!! 1%nat) = 2).
    { unfold st1. rewrite (lookup_total_alter_field ikWeight) by apply ikStep_ikWeight.
      reflexivity. }
    rewrite Hw. fold st2.
    assert (Hp : parent (st1 !!! 0%nat) = None).
    { unfold st1. rewrite list_lookup_total_alter_ne by lia. reflexivity. }
    rewrite Hp. simpl. now destruct (JS.ltb _ _). }
  assert (Hchild : st2 !!! 1%nat = ikStep 2 e t (heavyStore !!! 1%nat)).
  { unfold st2, st1. rewrite list_lookup_total_alter_ne by lia.
    now rewrite list_lookup_total_alter_eq by (simpl; lia). }
  assert (Hangle : angle (st2 !!! 1%nat) = 18 / 5)
    by (rewrite Hchild; apply heavy_child_step).
  assert (Hcons : constraints (st2 !!! 1%nat) = mkConstraints true (-1) 1)
    by (rewrite Hchild, ikStep_constraints; reflexivity).
  exists st2. split; [exact Hrun|].
  rewrite Hcons. cbn [enabled minAngle maxAngle].
  do 4 (split; [reflexivity || exact Hangle|]).
  unfold withinConstraints. rewrite Hcons, Hangle. cbn [enabled minAngle maxAngle].
  intros H. specialize (H eq_refl). lra.
Qed.

End Heavy.

(** ** The constraint invariant, solver by solver *)

Section UpdateIKWithin.
  Import Joint.

Lemma ikStep_within w e t (j : Joint.t) :
  withinConstraints j -> gentle w j -> withinConstraints (ikStep w e t j).
Proof.
  intros Hin Hg. unfold ikStep. destruct (_ && _); [|exact Hin].
  unfold withinConstraints in *. cbn. intros Hen. specialize (Hin Hen).
  rewrite Hen. unfold gentle in Hg. unfold MathUtils.lerp.
  set (signed := Vector2.angle _ - Vector2.angle _).
  pose proof (clamp_range (angle j + signed) (minAngle (constraints j))
                (maxAngle (constraints j)) ltac:(lra)) as Hc.
  set (c := MathUtils.clamp _ _ _) in *.
  replace (angle j + (angle j + (c - angle j) * (ikWeight j * w) - angle j) * (1 - damping j))
    with (angle j + (c - angle j) * (ikWeight j * w * (1 - damping j))) by ring.
  set (k := ikWeight j * w * (1 - damping j)) in *. nra.
Qed.

Lemma ikStep_gentle w w' e t (j : Joint.t) : gentle w j -> gentle w (ikStep w' e t j).
Proof.
  unfold gentle. now rewrite ikStep_ikWeight, ikStep_damping.
Qed.

Abbreviation steady w := (fun j : Joint.t => withinConstraints j /\ gentle w j).

Lemma sweep_within fuel this e t : forall cur (st st' : Store),
  sweep fuel this e t cur st = Ret st' ->
  Forall (steady (ikWeight (st !!! this))) st ->
  Forall (steady (ikWeight (st !!! this))) st'
  /\ ikWeight (st' !!! this) = ikWeight (st !!! this).
Proof.
  induction fuel as [|fuel IH]; intros cur st st' H Hst.
  - destruct cur; simpl in H; [discriminate|]. injection H as <-. auto.
  - destruct cur as [c|]; simpl in H; [|injection H as <-; auto].
    destruct (negb (ikEnabled (st !!! c))); [now apply (IH _ _ _ H)|].
    set (w := ikWeight (st !!! this)) in *.
    set (st1 := alter (ikStep w e t) c st) in *.
    assert (Hw : ikWeight (st1 !!! this) = w).
    { unfold st1. now rewrite (lookup_total_alter_field ikWeight)
        by apply ikStep_ikWeight. }
    destruct (IH _ st1 st' H) as [H1 H2].
    + rewrite Hw. unfold st1. apply Forall_alter; [exact Hst|].
      intros j _ [Hj1 Hj2]. split; [now apply ikStep_within | now apply ikStep_gentle].
    + rewrite Hw in H1, H2. auto.
Qed.

Lemma ikRounds_within fuel this e t threshold todo : forall (st st' : Store),
  ikRounds fuel this e t threshold todo st = Ret st' ->
  Forall (steady (ikWeight (st !!! this))) st ->
  Forall withinConstraints st'.
Proof.
  induction todo as [|todo IH]; intros st st' H Hst; simpl in H.
  - injection H as <-. eapply Forall_impl; [exact Hst|]. now intros j [Hj _].
  - apply bind_Ret_inv in H as (st1 & Hsw & H).
    destruct (sweep_within _ _ _ _ _ _ _ Hsw Hst) as [H1 Hw].
    destruct (JS.ltb _ _).
    + injection H as <-. eapply Forall_impl; [exact H1|]. now intros j [Hj _].
    + apply (IH st1 st' H). now rewrite Hw.
Qed.

Lemma updateIK_within fuel this target iterations threshold (st st' : Store) :
  updateIK fuel this target iterations threshold st = Ret st' ->
  Forall (steady (ikWeight (st !!! this))) st ->
  Forall withinConstraints st'.
Proof.
  unfold updateIK. intros H Hst.
  assert (Hsame : Forall withinConstraints st)
    by (eapply Forall_impl; [exact Hst|]; now intros j [Hj _]).
  destruct (_ || _); [now injection H as <-|].
  destruct (JS.ltb _ _); [now injection H as <-|].
  eapply ikRounds_within; eauto.
Qed.

End UpdateIKWithin.

Section ChainSolversPose.
  Import Joint JointChain.

Lemma pose_alter (f : Joint.t -> Joint.t) (st : Store) (i : nat) :
  (forall j, angle (f j) = angle j /\ constraints (f j) = constraints j) ->
  pose (alter f i st) = pose st.
Proof.
  intros Hf. unfold pose. apply list_eq. intros k.
  rewrite !list_lookup_fmap.
  destruct (decide (i = k)) as [-> | Hne].
  - rewrite list_lookup_alter_eq. destruct (st !! k) as [j|]; [|reflexivity].
    simpl. destruct (Hf j) as [-> ->]. reflexivity.
  - now rewrite list_lookup_alter_ne.
Qed.

Lemma rotate_pose d (j : Joint.t) :
  angle (rotate d j) = angle j /\ constraints (rotate d j) = constraints j.
Proof. split; reflexivity. Qed.

Lemma setAngle_pose a (j : Joint.t) :
  angle (setAngle a j) = angle j /\ constraints (setAngle a j) = constraints j.
Proof. split; reflexivity. Qed.

Lemma ccdJoint_pose this endEffector (st : Store) joint :
  pose (ccdJoint this endEffector st joint) = pose st.
Proof.
  unfold ccdJoint. destruct (negb _); [reflexivity|].
  destruct (_ && _); [|reflexivity].
  apply pose_alter, rotate_pose.
Qed.

Lemma ccdRounds_pose this endEffector joints todo : forall st : Store,
  pose (ccdRounds this endEffector joints todo st) = pose st.
Proof.
  induction todo as [|todo IH]; intros st; simpl; [reflexivity|].
  assert (Hfold : forall l (s : Store),
            pose (fold_left (ccdJoint this endEffector) l s) = pose s).
  { induction l as [|a l IHl]; intros s; simpl; [reflexivity|].
    now rewrite IHl, ccdJoint_pose. }
  destruct (JS.ltb _ _); [apply Hfold|]. now rewrite IH, Hfold.
Qed.

Lemma solveCCD_pose fuel this endEffector (st st' : Store) :
  solveCCD fuel this endEffector st = Ret st' -> pose st' = pose st.
Proof.
  unfold solveCCD. intros H.
  apply bind_Ret_inv in H as (joints & _ & H). injection H as <-.
  apply ccdRounds_pose.
Qed.

Lemma solveFABRIK_pose fuel this endEffector (st st' : Store) :
  solveFABRIK fuel this endEffector st = Ret st' -> pose st' = pose st.
Proof.
  unfold solveFABRIK. intros H.
  apply bind_Ret_inv in H as (joints & _ & H).
  apply bind_Ret_inv in H as (p1 & _ & H).
  apply bind_Ret_inv in H as (p2 & _ & H).
  apply (foldM_preserves (fun s : Store => pose s = pose st) _ _ _ _ H);
    [reflexivity|].
  intros s i s' _ Hs Hstep. unfold fabrikAngle in Hstep.
  destruct i as [|i']; [now injection Hstep as <-|].
  apply bind_Ret_inv in Hstep as (cur & _ & Hstep).
  apply bind_Ret_inv in Hstep as (prev & _ & Hstep).
  apply bind_Ret_inv in Hstep as (base & _ & Hstep).
  destruct (joints !! S i') as [joint|]; [|discriminate].
  injection Hstep as <-. rewrite <- Hs. apply pose_alter, setAngle_pose.
Qed.

Lemma updateTransform_pose fuel : forall this (st st' : Store),
  updateTransform fuel this st = Ret st' -> pose st' = pose st.
Proof.
  induction fuel as [|fuel IH]; intros this st st' H; simpl in H; [discriminate|].
  set (st1 := alter _ this st) in H.
  assert (H1 : pose st1 = pose st) by (apply pose_alter; intros j; split; reflexivity).
  rewrite <- H1.
  apply (foldM_preserves (fun s : Store => pose s = pose st1) _ _ _ _ H);
    [reflexivity|].
  intros s child s' _ Hs Hstep. rewrite <- Hs. eapply IH; eauto.
Qed.

Lemma pose_set_angle a (st : Store) (i : nat) :
  pose (alter (set_angle a) i st)
  = alter (fun p : R * Constraints => (a, p.2)) i (pose st).
Proof.
  unfold pose. apply list_eq. intros k.
  destruct (decide (i = k)) as [-> | Hne].
  - rewrite list_lookup_fmap, !list_lookup_alter_eq, list_lookup_fmap.
    now destruct (st !! k).
  - rewrite list_lookup_fmap, !list_lookup_alter_ne, list_lookup_fmap by exact Hne.
    reflexivity.
Qed.

Lemma jacobianJoint_pose fuel endEffector currentEnd error (st st' : Store) joint :
  jacobianJoint fuel endEffector currentEnd error st joint = Ret st' ->
  pose st' = pose st.
Proof.
  unfold jacobianJoint. intros H.
  destruct (negb _); [now injection H as <-|].
  apply bind_Ret_inv in H as (st2 & Hup & H). injection H as <-.
  rewrite pose_alter by apply rotate_pose.
  rewrite pose_set_angle, (updateTransform_pose _ _ _ _ Hup), pose_set_angle.
  apply list_eq. intros k.
  destruct (decide (joint = k)) as [-> | Hne].
  - rewrite !list_lookup_alter_eq. unfold pose. rewrite list_lookup_fmap.
    destruct (st !! k) as [j|] eqn:Ej; [|reflexivity].
    simpl. now rewrite (list_lookup_total_correct _ _ _ Ej).
  - now rewrite !list_lookup_alter_ne by exact Hne.
Qed.

Lemma jacobianRounds_pose fuel this endEffector joints todo : forall st st' : Store,
  jacobianRounds fuel this endEffector joints todo st = Ret st' ->
  pose st' = pose st.
Proof.
  induction todo as [|todo IH]; intros st st' H; simpl in H.
  - now injection H as <-.
  - destruct (JS.ltb _ _); [now injection H as <-|].
    apply bind_Ret_inv in H as (st1 & Hfold & H).
    rewrite (IH _ _ H).
    apply (foldM_preserves (fun s : Store => pose s = pose st) _ _ _ _ Hfold);
      [reflexivity|].
    intros s joint s' _ Hs Hstep. rewrite <- Hs.
    eapply jacobianJoint_pose; eauto.
Qed.

Lemma solveJacobian_pose fuel this endEffector (st st' : Store) :
  solveJacobian fuel this endEffector st = Ret st' -> pose st' = pose st.
Proof.
  unfold solveJacobian. intros H.
  apply bind_Ret_inv in H as (joints & _ & H).
  eapply jacobianRounds_pose; eauto.
Qed.

Lemma pose_within (st st' : Store) :
  pose st' = pose st -> Forall withinConstraints st -> Forall withinConstraints st'.
Proof.
  unfold pose. intros Hp Hst.
  apply Forall_lookup. intros i j' Hj'.
  assert (Hi : (fun j => (angle j, constraints j)) <$> st' !! i
               = (fun j => (angle j, constraints j)) <$> st !! i)
    by (rewrite <- !list_lookup_fmap; now rewrite Hp).
  rewrite Hj' in Hi. simpl in Hi.
  destruct (st !! i) as [j|] eqn:Ej; [|discriminate].
  injection Hi as Ha Hc.
  pose proof (Forall_lookup_1 _ _ _ _ Hst Ej) as Hw.
  unfold withinConstraints in *. now rewrite Ha, Hc.
Qed.

End ChainSolversPose.

(** ** Where the constraint invariant holds *)

(** The solvers one by one.
    - [solveIK_Advanced] returns, for every joint of the chain but the last
      that has an entry in [JOINT_LIMITS] with [min <= max], a rotation
      within [min, max].
    - [Joint.updateIK] keeps every joint within its enabled constraint range
      when every joint starts within it and, for every joint, its
      [ikWeight] times the effector's [ikWeight] times [1 - damping] is
      between 0 and 1.
    - [JointChain.solveCCD], [solveFABRIK] and [solveJacobian] leave the
      angle and the constraint block of every joint as they were (what they
      write is [targetAngle]), so joints within their range before the call
      are within it after. *)
Lemma constraint_invariant_by_solver :
  (forall data fuel random chainId chainDef targetX targetY currentRots center
          finalRots i jointId lim,
      AdvancedIKSolver.solveIK_Advanced data fuel random chainId targetX targetY
        currentRots center = Ret finalRots ->
      Skeleton.IK_CHAINS data !! chainId = Some chainDef ->
      (i < length (Skeleton.joints chainDef) - 1)%nat ->
      Skeleton.joints chainDef !! i = Some jointId ->
      Skeleton.JOINT_LIMITS data !! jointId = Some lim ->
      Skeleton.min lim <= Skeleton.max lim ->
      exists v, finalRots !! jointId = Some v
                /\ Skeleton.min lim <= v <= Skeleton.max lim)
  /\ (forall fuel this target iterations threshold (st st' : list Joint.t),
        Joint.updateIK fuel this target iterations threshold st = Ret st' ->
        Forall (fun j => Joint.withinConstraints j
                         /\ Joint.gentle (Joint.ikWeight (st !!! this)) j) st ->
        Forall Joint.withinConstraints st')
  /\ (forall fuel this endEffector (st st' : list Joint.t),
        JointChain.solveCCD fuel this endEffector st = Ret st'
        \/ JointChain.solveFABRIK fuel this endEffector st = Ret st'
        \/ JointChain.solveJacobian fuel this endEffector st = Ret st' ->
        Joint.pose st' = Joint.pose st
        /\ (Forall Joint.withinConstraints st -> Forall Joint.withinConstraints st')).
Proof.
  split; [|split].
  - intros. eapply solveIK_Advanced_within_limits; eauto.
  - intros. eapply updateIK_within; eauto.
  - intros fuel this endEffector st st' H.
    assert (Hp : Joint.pose st' = Joint.pose st).
    { destruct H as [H | [H | H]];
        eauto using solveCCD_pose, solveFABRIK_pose, solveJacobian_pose. }
    split; [exact Hp | now apply pose_within].
Qed.

(** * Further properties of the code *)

(** ** Vector2 *)

Lemma Vector2_eq (a b : Vector2.t) :
  Vector2.x a = Vector2.x b -> Vector2.y a = Vector2.y b -> a = b.
Proof. destruct a, b. simpl. now intros -> ->. Qed.

Lemma sum_sqr_nonneg a b : 0 <= a * a + b * b.
Proof. nra. Qed.

Lemma magnitude_nonneg v : 0 <= Vector2.magnitude v.
Proof. apply sqrt_pos. Qed.

Lemma magnitude_sqr v :
  Vector2.magnitude v * Vector2.magnitude v
  = Vector2.x v * Vector2.x v + Vector2.y v * Vector2.y v.
Proof. unfold Vector2.magnitude. apply sqrt_sqrt, sum_sqr_nonneg. Qed.

Lemma magnitude_zero v : Vector2.magnitude v = 0 <-> v = Vector2.mk 0 0.
Proof.
  split.
  - intros H. pose proof (magnitude_sqr v) as Hs. rewrite H in Hs.
    apply Vector2_eq; simpl; nra.
  - intros ->. unfold Vector2.magnitude. simpl.
    replace (0 * 0 + 0 * 0) with 0 by ring. apply sqrt_0.
Qed.

Lemma magnitude_multiply v k :
  Vector2.magnitude (Vector2.multiply v k) = Vector2.magnitude v * Rabs k.
Proof. apply hypot_scale. Qed.

(** X1: [normalize] returns the zero vector for the zero vector, and for
    every other vector the vector of length 1 with the same direction:
    scaling it by the original length gives the original back. *)
Theorem normalize_unit_or_zero (v : Vector2.t) :
  (Vector2.magnitude v = 0 -> Vector2.normalize v = Vector2.mk 0 0)
  /\ (Vector2.magnitude v <> 0 ->
      Vector2.magnitude (Vector2.normalize v) = 1
      /\ Vector2.multiply (Vector2.normalize v) (Vector2.magnitude v) = v).
Proof.
  unfold Vector2.normalize. split.
  - intros H. apply eqb_true in H. now rewrite H.
  - intros H. destruct (JS.eqb (Vector2.magnitude v) 0) eqn:E;
      [apply eqb_true in E; contradiction|].
    pose proof (magnitude_nonneg v) as Hn. split.
    + replace (Vector2.divide v (Vector2.magnitude v))
        with (Vector2.multiply v (/ Vector2.magnitude v)) by reflexivity.
      rewrite magnitude_multiply, Rabs_right.
      * now apply Rinv_r.
      * apply Rle_ge, Rlt_le, Rinv_0_lt_compat. lra.
    + apply Vector2_eq; simpl; field; exact H.
Qed.

(** X2: [rotate] is a rotation about the origin: rotating by [a] and then by
    [b] is rotating by [a + b], rotating by 0 changes nothing, and dot
    products, hence lengths, are preserved. *)
Theorem rotate_is_rotation (u v : Vector2.t) (a b : R) :
  Vector2.rotate (Vector2.rotate v a) b = Vector2.rotate v (a + b)
  /\ Vector2.rotate v 0 = v
  /\ Vector2.dot (Vector2.rotate u a) (Vector2.rotate v a) = Vector2.dot u v
  /\ Vector2.magnitude (Vector2.rotate v a) = Vector2.magnitude v.
Proof.
  pose proof (sin2_cos2 a) as Ha. unfold Rsqr in Ha.
  repeat split.
  - apply Vector2_eq; simpl; rewrite ?cos_plus, ?sin_plus; ring.
  - apply Vector2_eq; simpl; rewrite cos_0, sin_0; ring.
  - unfold Vector2.dot. simpl.
    replace ((Vector2.x u * cos a - Vector2.y u * sin a) *
             (Vector2.x v * cos a - Vector2.y v * sin a) +
             (Vector2.x u * sin a + Vector2.y u * cos a) *
             (Vector2.x v * sin a + Vector2.y v * cos a))
      with ((Vector2.x u * Vector2.x v + Vector2.y u * Vector2.y v)
            * (sin a * sin a + cos a * cos a)) by ring.
    rewrite Ha. ring.
  - unfold Vector2.magnitude. simpl. f_equal.
    replace ((Vector2.x v * cos a - Vector2.y v * sin a) *
             (Vector2.x v * cos a - Vector2.y v * sin a) +
             (Vector2.x v * sin a + Vector2.y v * cos a) *
             (Vector2.x v * sin a + Vector2.y v * cos a))
      with ((Vector2.x v * Vector2.x v + Vector2.y v * Vector2.y v)
            * (sin a * sin a + cos a * cos a)) by ring.
    rewrite Ha. ring.
Qed.

Lemma distance_sym a b : Vector2.distance a b = Vector2.distance b a.
Proof.
  unfold Vector2.distance, Vector2.magnitude. simpl. f_equal. ring.
Qed.

Lemma magnitude_add_le u v :
  Vector2.magnitude (Vector2.add u v)
  <= Vector2.magnitude u + Vector2.magnitude v.
Proof.
  pose proof (magnitude_nonneg u) as Hu. pose proof (magnitude_nonneg v) as Hv.
  pose proof (magnitude_nonneg (Vector2.add u v)) as Huv.
  pose proof (magnitude_sqr u) as Su. pose proof (magnitude_sqr v) as Sv.
  pose proof (magnitude_sqr (Vector2.add u v)) as Suv. simpl in Suv.
  destruct u as [a b], v as [c d]. simpl in *.
  set (mu := Vector2.magnitude (Vector2.mk a b)) in *.
  set (mv := Vector2.magnitude (Vector2.mk c d)) in *.
  set (ms := Vector2.magnitude _) in *.
  assert (Hcs : a * c + b * d <= mu * mv).
  { destruct (Rle_lt_dec (a * c + b * d) 0) as [Hneg|Hpos]; [nra|].
    apply Rsqr_incr_0_var; [|nra]. unfold Rsqr.
    replace (mu * mv * (mu * mv)) with ((mu * mu) * (mv * mv)) by ring.
    rewrite Su, Sv. clear.
    pose proof (Rle_0_sqr (a * d - b * c)) as Hq. unfold Rsqr in Hq. nra. }
  apply Rsqr_incr_0_var; [|lra]. unfold Rsqr. nra.
Qed.

(** [Vector2.distance] is a metric: symmetric, zero exactly between equal
    points, and it satisfies the triangle inequality. *)
Theorem distance_is_metric (a b c : Vector2.t) :
  Vector2.distance a b = Vector2.distance b a
  /\ (Vector2.distance a b = 0 <-> a = b)
  /\ Vector2.distance a c <= Vector2.distance a b + Vector2.distance b c.
Proof.
  split; [apply distance_sym|]. split.
  - unfold Vector2.distance. rewrite magnitude_zero. split.
    + intros [= Hx Hy]. apply Vector2_eq; lra.
    + intros ->. apply Vector2_eq; simpl; ring.
  - unfold Vector2.distance.
    replace (Vector2.subtract a c)
      with (Vector2.add (Vector2.subtract a b) (Vector2.subtract b c))
      by (apply Vector2_eq; simpl; ring).
    apply magnitude_add_le.
Qed.

(** [lerp] runs from the receiver (at 0) to the argument (at 1), and the
    point at parameter [s] lies [|s|] times the distance of the two away from
    the receiver. *)
Theorem lerp_endpoints_and_distance (a b : Vector2.t) (s : R) :
  Vector2.lerp a b 0 = a
  /\ Vector2.lerp a b 1 = b
  /\ Vector2.distance a (Vector2.lerp a b s) = Rabs s * Vector2.distance a b.
Proof.
  repeat split; try (apply Vector2_eq; simpl; ring).
  unfold Vector2.distance.
  replace (Vector2.subtract a (Vector2.lerp a b s))
    with (Vector2.multiply (Vector2.subtract a b) s)
    by (apply Vector2_eq; simpl; ring).
  rewrite magnitude_multiply. ring.
Qed.

(** *** Polar and Cartesian form *)

Lemma sqrt_one_plus_ratio x y :
  x <> 0 -> sqrt (1 + (y / x)²) = sqrt (x * x + y * y) / Rabs x.
Proof.
  intros Hx.
  replace (1 + (y / x)²) with ((x * x + y * y) / x²)
    by (unfold Rsqr; field; exact Hx).
  rewrite sqrt_div_alt by (apply Rsqr_pos_lt; exact Hx).
  now rewrite sqrt_Rsqr_abs.
Qed.

Lemma cos_atan_ratio x y :
  x <> 0 -> cos (atan (y / x)) * sqrt (x * x + y * y) = Rabs x.
Proof.
  intros Hx. rewrite cos_atan, sqrt_one_plus_ratio by exact Hx.
  assert (Hm : 0 < sqrt (x * x + y * y)) by (apply sqrt_lt_R0; nra).
  pose proof (Rabs_no_R0 x Hx). field. split; lra.
Qed.

Lemma sin_atan_ratio x y :
  x <> 0 -> sin (atan (y / x)) * sqrt (x * x + y * y) = y / x * Rabs x.
Proof.
  intros Hx. rewrite sin_atan, sqrt_one_plus_ratio by exact Hx.
  assert (Hm : 0 < sqrt (x * x + y * y)) by (apply sqrt_lt_R0; nra).
  pose proof (Rabs_no_R0 x Hx). field. repeat split; lra.
Qed.

Lemma fromAngle_angle (v : Vector2.t) :
  Vector2.fromAngle (Vector2.angle v) (Vector2.magnitude v) = v.
Proof.
  destruct v as [x y].
  unfold Vector2.fromAngle, Vector2.angle, Vector2.magnitude, JS.atan2.
  cbn [Vector2.x Vector2.y].
  destruct (Rlt_dec 0 x) as [Hx|Hx].
  { rewrite cos_atan_ratio, sin_atan_ratio by lra.
    rewrite Rabs_right by lra. apply Vector2_eq; simpl; [ring | field; lra]. }
  destruct (Rlt_dec x 0) as [Hx'|Hx'].
  { assert (Ha : Rabs x = - x) by (apply Rabs_left; lra).
    destruct (Rle_dec 0 y) as [Hy|Hy].
    - rewrite neg_cos, neg_sin.
      rewrite !Ropp_mult_distr_l_reverse, cos_atan_ratio, sin_atan_ratio by lra.
      rewrite Ha. apply Vector2_eq; simpl; [ring | field; lra].
    - replace (atan (y / x) - PI) with (- (- atan (y / x) + PI)) by ring.
      rewrite cos_neg, sin_neg, neg_cos, neg_sin, cos_neg, sin_neg.
      rewrite Ropp_involutive.
      rewrite !Ropp_mult_distr_l_reverse, cos_atan_ratio, sin_atan_ratio by lra.
      rewrite Ha. apply Vector2_eq; simpl; [ring | field; lra]. }
  assert (x = 0) by lra. subst x.
  replace (0 * 0 + y * y) with (y * y) by ring.
  destruct (Rlt_dec 0 y) as [Hy|Hy].
  { rewrite cos_PI2, sin_PI2, sqrt_square by lra.
    apply Vector2_eq; simpl; ring. }
  destruct (Rlt_dec y 0) as [Hy'|Hy'].
  { rewrite cos_neg, sin_neg, cos_PI2, sin_PI2.
    replace (y * y) with (- y * - y) by ring. rewrite sqrt_square by lra.
    apply Vector2_eq; simpl; ring. }
  assert (y = 0) by lra. subst y.
  replace (0 * 0) with 0 by ring. rewrite sqrt_0.
  apply Vector2_eq; simpl; ring.
Qed.

Lemma tan_ratio a m : 0 < m -> cos a <> 0 -> sin a * m / (cos a * m) = tan a.
Proof. intros Hm Hc. unfold tan. field. split; lra. Qed.

Lemma tan_shift a : cos a <> 0 -> tan (a + PI) = tan a.
Proof. intros Hc. unfold tan. rewrite neg_sin, neg_cos. field. exact Hc. Qed.

Lemma angle_fromAngle (a m : R) :
  0 < m -> - PI < a <= PI -> Vector2.angle (Vector2.fromAngle a m) = a.
Proof.
  intros Hm Ha. pose proof PI_RGT_0 as Hpi.
  unfold Vector2.fromAngle, Vector2.angle, JS.atan2.
  cbn [Vector2.x Vector2.y].
  destruct (Rlt_le_dec a (- (PI / 2))) as [H1|H1].
  { (* third quadrant *)
    assert (Hc : cos a < 0).
    { rewrite <- cos_neg. apply cos_lt_0; lra. }
    assert (Hs : sin a < 0).
    { replace a with (- - a) by ring. rewrite sin_neg.
      pose proof (sin_gt_0 (- a) ltac:(lra) ltac:(lra)). lra. }
    destruct (Rlt_dec 0 (cos a * m)) as [Hx|_]; [nra|].
    destruct (Rlt_dec (cos a * m) 0) as [_|Hx]; [|nra].
    destruct (Rle_dec 0 (sin a * m)) as [Hy|_]; [nra|].
    rewrite tan_ratio by lra. rewrite <- tan_shift by lra.
    rewrite atan_tan by lra. ring. }
  destruct (Req_dec a (- (PI / 2))) as [H2|H2].
  { subst a. rewrite cos_neg, sin_neg, cos_PI2, sin_PI2.
    replace (0 * m) with 0 by ring.
    destruct (Rlt_dec 0 0) as [Hx|_]; [lra|].
    destruct (Rlt_dec 0 (- (1) * m)) as [Hy|_]; [nra|].
    destruct (Rlt_dec (- (1) * m) 0) as [_|Hy]; [reflexivity | nra]. }
  destruct (Rlt_le_dec a (PI / 2)) as [H3|H3].
  { pose proof (cos_gt_0 a ltac:(lra) ltac:(lra)) as Hc.
    destruct (Rlt_dec 0 (cos a * m)) as [_|Hx]; [|nra].
    rewrite tan_ratio by lra. apply atan_tan. lra. }
  destruct (Req_dec a (PI / 2)) as [H4|H4].
  { subst a. rewrite cos_PI2, sin_PI2.
    replace (0 * m) with 0 by ring.
    destruct (Rlt_dec 0 0) as [Hx|_]; [lra|].
    destruct (Rlt_dec 0 (1 * m)) as [_|Hy]; [reflexivity | nra]. }
  (* second quadrant *)
  pose proof (cos_lt_0 a ltac:(lra) ltac:(lra)) as Hc.
  pose proof (sin_ge_0 a ltac:(lra) ltac:(lra)) as Hs.
  destruct (Rlt_dec 0 (cos a * m)) as [Hx|_]; [nra|].
  destruct (Rlt_dec (cos a * m) 0) as [_|Hx]; [|nra].
  destruct (Rle_dec 0 (sin a * m)) as [_|Hy]; [|nra].
  rewrite tan_ratio by lra.
  replace a with (a - PI + PI) at 1 by ring.
  rewrite tan_shift.
  - rewrite atan_tan by lra. ring.
  - replace (a - PI) with (- (- a + PI)) by ring.
    rewrite cos_neg, neg_cos, cos_neg. lra.
Qed.

(** X3: polar and Cartesian form are inverse to each other.  Every vector is
    rebuilt by [fromAngle] from its [angle] and its [magnitude]; and
    [fromAngle a m] with a positive magnitude and an angle in (-PI, PI] has
    angle [a] and magnitude [m]. *)
Theorem polar_round_trip (v : Vector2.t) (a m : R) :
  Vector2.fromAngle (Vector2.angle v) (Vector2.magnitude v) = v
  /\ (0 < m -> - PI < a <= PI ->
      Vector2.angle (Vector2.fromAngle a m) = a
      /\ Vector2.magnitude (Vector2.fromAngle a m) = m).
Proof.
  split; [apply fromAngle_angle|]. intros Hm Ha. split.
  - now apply angle_fromAngle.
  - unfold Vector2.magnitude, Vector2.fromAngle. simpl.
    pose proof (sin2_cos2 a) as H. unfold Rsqr in H.
    replace (cos a * m * (cos a * m) + sin a * m * (sin a * m))
      with ((sin a * sin a + cos a * cos a) * (m * m)) by ring.
    rewrite H, Rmult_1_l. apply sqrt_square. lra.
Qed.

(** ** Matrix3 as a transformation *)

Tactic Notation "matrix_entries" tactic(tac) :=
  apply Matrix3_eq; intros i Hi;
  do 9 (destruct i as [|i]; [simpl; tac|]); lia.

Lemma multiply_assoc (a b c : Matrix3.t) :
  Matrix3.multiply (Matrix3.multiply a b) c
  = Matrix3.multiply a (Matrix3.multiply b c).
Proof. destruct a, b, c. matrix_entries ring. Qed.

Lemma multiply_identity_l (a : Matrix3.t) :
  Matrix3.multiply Matrix3.identity a = a.
Proof. destruct a. matrix_entries ring. Qed.

Lemma multiply_identity_r (a : Matrix3.t) :
  Matrix3.multiply a Matrix3.identity = a.
Proof. destruct a. matrix_entries ring. Qed.

(** X4: [multiply] is associative and [identity] is neutral on both sides. *)
Theorem multiply_monoid (a b c : Matrix3.t) :
  Matrix3.multiply (Matrix3.multiply a b) c
  = Matrix3.multiply a (Matrix3.multiply b c)
  /\ Matrix3.multiply Matrix3.identity a = a
  /\ Matrix3.multiply a Matrix3.identity = a.
Proof.
  split; [apply multiply_assoc|].
  split; [apply multiply_identity_l | apply multiply_identity_r].
Qed.

Lemma affine_multiply a b :
  Matrix3.affine a -> Matrix3.affine b -> Matrix3.affine (Matrix3.multiply a b).
Proof.
  destruct a, b. unfold Matrix3.affine. simpl.
  intros (-> & -> & ->) (-> & -> & ->). repeat split; ring.
Qed.

Lemma affine_weight m p : Matrix3.affine m -> Matrix3.weight m p = 1.
Proof. unfold Matrix3.affine, Matrix3.weight. intros (-> & -> & ->). ring. Qed.

Lemma transformPoint_multiply (a b : Matrix3.t) (p : Vector2.t) :
  Matrix3.weight a p <> 0 ->
  Matrix3.weight (Matrix3.multiply a b) p <> 0 ->
  Matrix3.transformPoint (Matrix3.multiply a b) p
  = Matrix3.transformPoint b (Matrix3.transformPoint a p).
Proof.
  destruct a, b, p as [x y].
  unfold Matrix3.weight, Matrix3.transformPoint. simpl.
  intros Ha Hab.
  apply Vector2_eq; simpl; field; repeat split; try exact Ha;
    intros H; apply Hab; (etransitivity; [|exact H]); ring.
Qed.

(** X5: the product [multiply a b] transforms a point by [a] first and by
    [b] second ([transformPoint] treats points as row vectors), whenever the
    homogeneous coordinates it divides by are not zero; they are 1 for the
    affine matrices the joints use, and products of affine matrices are
    affine. *)
Theorem transformPoint_composes (a b : Matrix3.t) (p : Vector2.t) :
  (Matrix3.weight a p <> 0 ->
   Matrix3.weight (Matrix3.multiply a b) p <> 0 ->
   Matrix3.transformPoint (Matrix3.multiply a b) p
   = Matrix3.transformPoint b (Matrix3.transformPoint a p))
  /\ (Matrix3.affine a -> Matrix3.affine b ->
      Matrix3.affine (Matrix3.multiply a b)
      /\ Matrix3.transformPoint (Matrix3.multiply a b) p
         = Matrix3.transformPoint b (Matrix3.transformPoint a p)).
Proof.
  split; [apply transformPoint_multiply|].
  intros Ha Hb. pose proof (affine_multiply a b Ha Hb) as Hab.
  split; [exact Hab|].
  apply transformPoint_multiply; rewrite affine_weight by assumption; lra.
Qed.

Lemma affine_translation x y : Matrix3.affine (Matrix3.translation x y).
Proof. now unfold Matrix3.affine. Qed.

Lemma affine_rotation a : Matrix3.affine (Matrix3.rotation a).
Proof. now unfold Matrix3.affine. Qed.

Lemma affine_identity : Matrix3.affine Matrix3.identity.
Proof. now unfold Matrix3.affine. Qed.

Lemma transformPoint_translation x y p :
  Matrix3.transformPoint (Matrix3.translation x y) p = Vector2.add p (Vector2.mk x y).
Proof.
  destruct p as [px py]. unfold Matrix3.transformPoint.
  apply Vector2_eq; simpl; field.
Qed.

Lemma transformPoint_rotation a p :
  Matrix3.transformPoint (Matrix3.rotation a) p = Vector2.rotate p a.
Proof.
  destruct p as [px py]. unfold Matrix3.transformPoint.
  apply Vector2_eq; simpl; field.
Qed.

(** X6: the three matrix builders do to a point what their names say:
    [translation] adds the offset, [rotation] is [Vector2.rotate], [scale]
    multiplies the coordinates; and [transformVector] is not moved by a
    translation, alone or applied before another matrix. *)
Theorem builders_transform (x y a : R) (p : Vector2.t) (m : Matrix3.t) :
  Matrix3.transformPoint (Matrix3.translation x y) p
  = Vector2.add p (Vector2.mk x y)
  /\ Matrix3.transformPoint (Matrix3.rotation a) p = Vector2.rotate p a
  /\ Matrix3.transformPoint (Matrix3.scale x y) p
     = Vector2.mk (Vector2.x p * x) (Vector2.y p * y)
  /\ Matrix3.transformVector (Matrix3.translation x y) p = p
  /\ Matrix3.transformVector (Matrix3.multiply (Matrix3.translation x y) m) p
     = Matrix3.transformVector m p.
Proof.
  split; [apply transformPoint_translation|].
  split; [apply transformPoint_rotation|].
  destruct p as [px py], m.
  unfold Matrix3.transformPoint, Matrix3.transformVector.
  repeat split; apply Vector2_eq; simpl; field.
Qed.

Lemma determinant_multiply (a b : Matrix3.t) :
  Matrix3.determinant (Matrix3.multiply a b)
  = Matrix3.determinant a * Matrix3.determinant b.
Proof. destruct a, b. unfold Matrix3.determinant. simpl. ring. Qed.

(** X7: the determinant is multiplicative, it is 1 for [identity],
    [translation] and [rotation] and [x * y] for [scale x y], and
    [transpose] keeps it. *)
Theorem determinant_laws (a b : Matrix3.t) (x y angle : R) :
  Matrix3.determinant (Matrix3.multiply a b)
  = Matrix3.determinant a * Matrix3.determinant b
  /\ Matrix3.determinant Matrix3.identity = 1
  /\ Matrix3.determinant (Matrix3.translation x y) = 1
  /\ Matrix3.determinant (Matrix3.rotation angle) = 1
  /\ Matrix3.determinant (Matrix3.scale x y) = x * y
  /\ Matrix3.determinant (Matrix3.transpose a) = Matrix3.determinant a.
Proof.
  split; [apply determinant_multiply|].
  unfold Matrix3.determinant. simpl. repeat split; try ring.
  pose proof (sin2_cos2 angle) as H. unfold Rsqr in H.
  replace (cos angle * (cos angle * 1 - 0 * 0) - sin angle * (- sin angle * 1 - 0 * 0)
           + 0 * (- sin angle * 0 - cos angle * 0))
    with (sin angle * sin angle + cos angle * cos angle) by ring.
  exact H.
Qed.

(** [transpose] is an involution and reverses products. *)
Theorem transpose_laws (a b : Matrix3.t) :
  Matrix3.transpose (Matrix3.transpose a) = a
  /\ Matrix3.transpose (Matrix3.multiply a b)
     = Matrix3.multiply (Matrix3.transpose b) (Matrix3.transpose a).
Proof.
  destruct a, b. split; matrix_entries ring.
Qed.

(** *** Inverses *)

Lemma epsilon_pos : 0 < Matrix3.epsilon.
Proof. unfold Matrix3.epsilon. apply Rinv_0_lt_compat. lra. Qed.

Lemma epsilon_lt_1 : Matrix3.epsilon < 1.
Proof.
  unfold Matrix3.epsilon. rewrite <- Rinv_1.
  apply Rinv_lt_contravar; lra.
Qed.

Lemma inverse_det_1 (m : Matrix3.t) :
  Matrix3.determinant m = 1 ->
  Matrix3.inverse m
  = Ret (Matrix3.mk
      (Matrix3.e4 m * Matrix3.e8 m - Matrix3.e5 m * Matrix3.e7 m)
      (Matrix3.e2 m * Matrix3.e7 m - Matrix3.e1 m * Matrix3.e8 m)
      (Matrix3.e1 m * Matrix3.e5 m - Matrix3.e2 m * Matrix3.e4 m)
      (Matrix3.e5 m * Matrix3.e6 m - Matrix3.e3 m * Matrix3.e8 m)
      (Matrix3.e0 m * Matrix3.e8 m - Matrix3.e2 m * Matrix3.e6 m)
      (Matrix3.e2 m * Matrix3.e3 m - Matrix3.e0 m * Matrix3.e5 m)
      (Matrix3.e3 m * Matrix3.e7 m - Matrix3.e4 m * Matrix3.e6 m)
      (Matrix3.e1 m * Matrix3.e6 m - Matrix3.e0 m * Matrix3.e7 m)
      (Matrix3.e0 m * Matrix3.e4 m - Matrix3.e1 m * Matrix3.e3 m)).
Proof.
  intros Hd. unfold Matrix3.inverse. rewrite Hd, Rabs_R1.
  pose proof epsilon_lt_1 as He.
  destruct (JS.ltb 1 Matrix3.epsilon) eqn:E; [apply ltb_true in E; lra|].
  f_equal. matrix_entries field.
Qed.

Lemma determinant_rotation a : Matrix3.determinant (Matrix3.rotation a) = 1.
Proof.
  unfold Matrix3.determinant. simpl.
  pose proof (sin2_cos2 a) as H. unfold Rsqr in H.
  etransitivity; [|exact H]. ring.
Qed.

(** X8: [inverse] undoes the rigid motions: the inverse of a translation is
    the translation by the opposite offset, and the inverse of a rotation is
    the rotation by the opposite angle, which is its transpose; neither
    throws. *)
Theorem inverse_of_rigid_motions (x y a : R) :
  Matrix3.inverse (Matrix3.translation x y)
  = Ret (Matrix3.translation (- x) (- y))
  /\ Matrix3.inverse (Matrix3.rotation a) = Ret (Matrix3.rotation (- a))
  /\ Matrix3.rotation (- a) = Matrix3.transpose (Matrix3.rotation a).
Proof.
  repeat split.
  - rewrite inverse_det_1 by (unfold Matrix3.determinant; simpl; ring).
    f_equal. matrix_entries ring.
  - rewrite inverse_det_1 by apply determinant_rotation.
    f_equal. unfold Matrix3.rotation. rewrite cos_neg, sin_neg.
    pose proof (sin2_cos2 a) as H. unfold Rsqr in H.
    matrix_entries (first [ring | etransitivity; [|exact H]; ring]).
  - unfold Matrix3.rotation, Matrix3.transpose. rewrite cos_neg, sin_neg.
    matrix_entries ring.
Qed.

Lemma inverse_unique (m a b : Matrix3.t) :
  Matrix3.multiply a m = Matrix3.identity ->
  Matrix3.multiply m b = Matrix3.identity -> a = b.
Proof.
  intros Ha Hb.
  rewrite <- (multiply_identity_r a), <- Hb, <- multiply_assoc, Ha.
  apply multiply_identity_l.
Qed.

Lemma inverse_identity : Matrix3.inverse Matrix3.identity = Ret Matrix3.identity.
Proof.
  rewrite inverse_det_1 by (unfold Matrix3.determinant; simpl; ring).
  f_equal. matrix_entries ring.
Qed.

(** X9: inverting twice gives the matrix back whenever the second call
    returns; and the second call throws exactly when the determinant of the
    original matrix exceeds 1e10 in absolute value, the inverse then having
    a determinant below the threshold 1e-10. *)
Theorem inverse_round_trip (m inv : Matrix3.t) :
  Matrix3.inverse m = Ret inv ->
  (forall back, Matrix3.inverse inv = Ret back -> back = m)
  /\ ((exists e, Matrix3.inverse inv = Throw e)
      <-> / Matrix3.epsilon < Rabs (Matrix3.determinant m)).
Proof.
  intros Hm. destruct (inverse_is_inverse _ _ Hm) as [H1 H2]. split.
  - intros back Hb. destruct (inverse_is_inverse _ _ Hb) as [H3 H4].
    symmetry. exact (inverse_unique inv m back H1 H3).
  - rewrite inverse_throws_iff.
    pose proof (determinant_multiply m inv) as Hd.
    rewrite H1 in Hd.
    replace (Matrix3.determinant Matrix3.identity) with 1 in Hd
      by (unfold Matrix3.determinant; simpl; ring).
    assert (Hm0 : Matrix3.determinant m <> 0) by (intros H0; rewrite H0 in Hd; lra).
    assert (Hi : Matrix3.determinant inv = / Matrix3.determinant m).
    { apply (Rmult_eq_reg_l (Matrix3.determinant m)); [|exact Hm0].
      rewrite <- Hd. now rewrite Rinv_r. }
    rewrite Hi, Rabs_inv.
    pose proof epsilon_pos as He.
    pose proof (Rabs_pos_lt _ Hm0) as Hp.
    split; intros H.
    + rewrite <- (Rinv_inv (Rabs (Matrix3.determinant m))).
      apply Rinv_lt_contravar; [|exact H].
      apply Rmult_lt_0_compat; [now apply Rinv_0_lt_compat | exact He].
    + rewrite <- (Rinv_inv Matrix3.epsilon).
      apply Rinv_lt_contravar; [|exact H].
      apply Rmult_lt_0_compat; [now apply Rinv_0_lt_compat | exact Hp].
Qed.

Lemma inverse_round_trip_witness :
  Matrix3.inverse Matrix3.identity = Ret Matrix3.identity
  /\ (forall back, Matrix3.inverse Matrix3.identity = Ret back ->
      back = Matrix3.identity)
  /\ ((exists e, Matrix3.inverse Matrix3.identity = Throw e)
      <-> / Matrix3.epsilon < Rabs (Matrix3.determinant Matrix3.identity)).
Proof.
  split; [exact inverse_identity|].
  exact (inverse_round_trip _ _ inverse_identity).
Defined.

(** ** MathUtils *)

(** X10: [clamp value min max] is [value] inside the range, the nearer bound
    outside it, and idempotent; when the bounds are given in the wrong order
    ([max < min]) it is [min] for every value. *)
Theorem clamp_cases (value min max : R) :
  (min <= max ->
     (value < min -> MathUtils.clamp value min max = min)
     /\ (min <= value <= max -> MathUtils.clamp value min max = value)
     /\ (max < value -> MathUtils.clamp value min max = max))
  /\ (max < min -> MathUtils.clamp value min max = min)
  /\ MathUtils.clamp (MathUtils.clamp value min max) min max
     = MathUtils.clamp value min max.
Proof.
  unfold MathUtils.clamp, Rmax, Rmin.
  repeat split; intros; repeat destruct (Rle_dec _ _); lra.
Qed.

(** [smoothstep] between two ordered edges is 0 up to the lower edge,
    1 from the upper edge on, stays within [0, 1] and never decreases. *)
Theorem smoothstep_shape (edge0 edge1 x x' : R) :
  edge0 < edge1 ->
  (x <= edge0 -> MathUtils.smoothstep edge0 edge1 x = 0)
  /\ (edge1 <= x -> MathUtils.smoothstep edge0 edge1 x = 1)
  /\ 0 <= MathUtils.smoothstep edge0 edge1 x <= 1
  /\ (x <= x' ->
      MathUtils.smoothstep edge0 edge1 x <= MathUtils.smoothstep edge0 edge1 x').
Proof.
  intros He. unfold MathUtils.smoothstep.
  assert (Hinv : 0 < / (edge1 - edge0)) by (apply Rinv_0_lt_compat; lra).
  pose proof (clamp_range ((x - edge0) / (edge1 - edge0)) 0 1 ltac:(lra)) as Ht.
  pose proof (clamp_range ((x' - edge0) / (edge1 - edge0)) 0 1 ltac:(lra)) as Ht'.
  repeat split.
  - intros Hx.
    assert (Hq : (x - edge0) / (edge1 - edge0) <= 0) by (unfold Rdiv; nra).
    replace (MathUtils.clamp ((x - edge0) / (edge1 - edge0)) 0 1) with 0;
      [ring|].
    unfold MathUtils.clamp. rewrite Rmin_right by lra. now rewrite Rmax_left.
  - intros Hx.
    assert (Hq : 1 <= (x - edge0) / (edge1 - edge0)).
    { apply (Rmult_le_reg_r (edge1 - edge0)); [lra|].
      unfold Rdiv. rewrite Rmult_assoc, Rinv_l by lra. lra. }
    replace (MathUtils.clamp ((x - edge0) / (edge1 - edge0)) 0 1) with 1;
      [ring|].
    unfold MathUtils.clamp. rewrite Rmin_left by lra. now rewrite Rmax_right by lra.
  - set (t := MathUtils.clamp _ 0 1) in *.
    apply Rmult_le_pos; [nra | lra].
  - set (t := MathUtils.clamp _ 0 1) in *. clearbody t.
    assert (H : 0 <= (1 - t) * (1 - t) * (1 + 2 * t))
      by (apply Rmult_le_pos; [nra | lra]).
    nra.
  - intros Hx.
    assert (Hq : (x - edge0) / (edge1 - edge0) <= (x' - edge0) / (edge1 - edge0))
      by (unfold Rdiv; nra).
    assert (Hc : MathUtils.clamp ((x - edge0) / (edge1 - edge0)) 0 1
                 <= MathUtils.clamp ((x' - edge0) / (edge1 - edge0)) 0 1).
    { unfold MathUtils.clamp. apply Rmax_lub; [apply Rmax_l|].
      eapply Rle_trans; [|apply Rmax_r].
      apply Rmin_glb; [apply Rmin_l|]. eapply Rle_trans; [apply Rmin_r | exact Hq]. }
    set (s := MathUtils.clamp ((x - edge0) / (edge1 - edge0)) 0 1) in *.
    set (t := MathUtils.clamp ((x' - edge0) / (edge1 - edge0)) 0 1) in *.
    clearbody s t. clear - Ht Ht' Hc.
    assert (H : 0 <= (t - s) * (3 * (t + s) - 2 * (t * t + t * s + s * s))).
    { apply Rmult_le_pos; [lra|]. nra. }
    nra.
Qed.

Lemma smoothstep_shape_witness :
  0 < 1
  /\ (1 / 2 <= 0 -> MathUtils.smoothstep 0 1 (1 / 2) = 0)
  /\ (1 <= 1 / 2 -> MathUtils.smoothstep 0 1 (1 / 2) = 1)
  /\ 0 <= MathUtils.smoothstep 0 1 (1 / 2) <= 1
  /\ (1 / 2 <= 3 / 4 ->
      MathUtils.smoothstep 0 1 (1 / 2) <= MathUtils.smoothstep 0 1 (3 / 4)).
Proof.
  split; [lra|]. apply (smoothstep_shape 0 1 (1 / 2) (3 / 4)). lra.
Defined.

(** *** Angles *)

Lemma while_above_congr fuel : forall angle,
  exists k : nat, MathUtils.while_above fuel angle = angle - 2 * PI * INR k.
Proof.
  induction fuel as [|fuel IH]; intros angle.
  - exists 0%nat. simpl. ring.
  - cbn [MathUtils.while_above]. destruct (JS.gtb angle PI).
    + destruct (IH (angle - 2 * PI)) as [k Hk]. exists (S k).
      rewrite Hk, S_INR. ring.
    + exists 0%nat. simpl. ring.
Qed.

Lemma while_below_congr fuel : forall angle,
  exists k : nat, MathUtils.while_below fuel angle = angle + 2 * PI * INR k.
Proof.
  induction fuel as [|fuel IH]; intros angle.
  - exists 0%nat. simpl. ring.
  - cbn [MathUtils.while_below]. destruct (JS.ltb angle (- PI)).
    + destruct (IH (angle + 2 * PI)) as [k Hk]. exists (S k).
      rewrite Hk, S_INR. ring.
    + exists 0%nat. simpl. ring.
Qed.

Lemma while_above_id fuel angle :
  angle <= PI -> MathUtils.while_above fuel angle = angle.
Proof.
  intros H. destruct fuel; [reflexivity|]. cbn [MathUtils.while_above].
  apply gtb_false in H. now rewrite H.
Qed.

Lemma while_below_id fuel angle :
  - PI <= angle -> MathUtils.while_below fuel angle = angle.
Proof.
  intros H. destruct fuel; [reflexivity|]. cbn [MathUtils.while_below].
  apply ltb_false in H. now rewrite H.
Qed.

Lemma normalizeAngle_congr angle :
  exists k : Z, MathUtils.normalizeAngle angle = angle + 2 * PI * IZR k.
Proof.
  unfold MathUtils.normalizeAngle.
  destruct (while_above_congr (MathUtils.rounds (angle - PI)) angle) as [k1 H1].
  destruct (while_below_congr
              (MathUtils.rounds
                 (- PI - MathUtils.while_above (MathUtils.rounds (angle - PI)) angle))
              (MathUtils.while_above (MathUtils.rounds (angle - PI)) angle))
    as [k2 H2].
  exists (Z.of_nat k2 - Z.of_nat k1)%Z.
  rewrite H2, H1, minus_IZR, <- !INR_IZR_INZ. ring.
Qed.

Lemma normalizeAngle_id angle :
  - PI <= angle <= PI -> MathUtils.normalizeAngle angle = angle.
Proof.
  intros [H1 H2]. unfold MathUtils.normalizeAngle.
  rewrite while_above_id by exact H2. now apply while_below_id.
Qed.

(** X11: [normalizeAngle] returns an angle in the closed interval
    [-PI, PI] that differs from its argument by a whole number of turns, and
    returns an angle of that interval unchanged; [angleDifference a b] is the
    difference [b - a] brought into the interval in this way. *)
Theorem normalizeAngle_spec (angle a b : R) :
  - PI <= MathUtils.normalizeAngle angle <= PI
  /\ (exists k : Z, MathUtils.normalizeAngle angle = angle + 2 * PI * IZR k)
  /\ (- PI <= angle <= PI -> MathUtils.normalizeAngle angle = angle)
  /\ - PI <= MathUtils.angleDifference a b <= PI
  /\ (exists k : Z, a + MathUtils.angleDifference a b = b + 2 * PI * IZR k).
Proof.
  split; [apply normalizeAngle_exit|].
  split; [apply normalizeAngle_congr|].
  split; [apply normalizeAngle_id|].
  unfold MathUtils.angleDifference.
  split; [apply normalizeAngle_exit|].
  destruct (normalizeAngle_congr (b - a)) as [k Hk]. exists k. rewrite Hk. ring.
Qed.

Lemma rem_id a b : 0 <= a < b -> JS.rem a b = a.
Proof.
  intros [H0 H1]. unfold JS.rem.
  rewrite (trunc_of_floor (a / b) 0).
  - ring.
  - apply Rmult_le_pos; [exact H0|]. apply Rlt_le, Rinv_0_lt_compat. lra.
  - assert (Hq : a / b < 1).
    { apply (Rmult_lt_reg_r b); [lra|].
      unfold Rdiv. rewrite Rmult_assoc, Rinv_l by lra. lra. }
    assert (0 <= a / b)
      by (apply Rmult_le_pos; [exact H0 | apply Rlt_le, Rinv_0_lt_compat; lra]).
    simpl. lra.
Qed.

Lemma rem_shift a b : 0 <= a < b -> JS.rem (a + b) b = a.
Proof.
  intros [H0 H1]. unfold JS.rem.
  assert (Hq : (a + b) / b = a / b + 1) by (field; lra).
  assert (Hq0 : 0 <= a / b)
    by (apply Rmult_le_pos; [exact H0 | apply Rlt_le, Rinv_0_lt_compat; lra]).
  assert (Hq1 : a / b < 1).
  { apply (Rmult_lt_reg_r b); [lra|].
    unfold Rdiv. rewrite Rmult_assoc, Rinv_l by lra. lra. }
  rewrite (trunc_of_floor ((a + b) / b) 1).
  - ring.
  - lra.
  - simpl. lra.
Qed.

Lemma wrapAngle_range angle : 0 <= MathUtils.wrapAngle angle < 2 * PI.
Proof.
  pose proof PI_RGT_0 as Hpi. unfold MathUtils.wrapAngle.
  pose proof (rem_range angle (2 * PI) ltac:(lra)) as Hr.
  apply rem_nonneg; lra.
Qed.

(** X12: [wrapAngle] returns an angle in [0, 2 PI) that differs from its
    argument by a whole number of turns, and returns an angle of that
    interval unchanged. *)
Theorem wrapAngle_spec (angle : R) :
  0 <= MathUtils.wrapAngle angle < 2 * PI
  /\ (exists k : Z, MathUtils.wrapAngle angle = angle + 2 * PI * IZR k)
  /\ (0 <= angle < 2 * PI -> MathUtils.wrapAngle angle = angle).
Proof.
  split; [apply wrapAngle_range|].
  pose proof PI_RGT_0 as Hpi. unfold MathUtils.wrapAngle. split.
  - destruct (rem_congr angle (2 * PI)) as [k1 H1].
    destruct (rem_congr (JS.rem angle (2 * PI) + 2 * PI) (2 * PI)) as [k2 H2].
    exists (- k1 - k2 + 1)%Z. rewrite H2, H1, plus_IZR, minus_IZR, opp_IZR. ring.
  - intros H. rewrite (rem_id angle) by exact H. now apply rem_shift.
Qed.

(** degrees to radians and back is the identity, in both orders, for
    [MathUtils] and for the solver's [d2r] and [r2d], which are the same
    conversions; half a turn is PI. *)
Theorem degrees_radians_round_trip (a : R) :
  MathUtils.radToDeg (MathUtils.degToRad a) = a
  /\ MathUtils.degToRad (MathUtils.radToDeg a) = a
  /\ AdvancedIKSolver.r2d (AdvancedIKSolver.d2r a) = a
  /\ AdvancedIKSolver.d2r (AdvancedIKSolver.r2d a) = a
  /\ AdvancedIKSolver.d2r a = MathUtils.degToRad a
  /\ MathUtils.degToRad 180 = PI.
Proof.
  pose proof PI_RGT_0 as Hpi.
  unfold MathUtils.radToDeg, MathUtils.degToRad,
    AdvancedIKSolver.r2d, AdvancedIKSolver.d2r.
  repeat split; field; lra.
Qed.

(** [map] sends the ends of the input range to the ends of the output
    range, mapping back with the ranges exchanged undoes it, and [lerp] is
    [map] from the unit interval. *)
Theorem map_endpoints_and_inverse (value inMin inMax outMin outMax : R) :
  inMin <> inMax ->
  MathUtils.map inMin inMin inMax outMin outMax = outMin
  /\ MathUtils.map inMax inMin inMax outMin outMax = outMax
  /\ (outMin <> outMax ->
      MathUtils.map (MathUtils.map value inMin inMax outMin outMax)
        outMin outMax inMin inMax = value)
  /\ MathUtils.lerp outMin outMax value = MathUtils.map value 0 1 outMin outMax.
Proof.
  intros Hin. unfold MathUtils.map, MathUtils.lerp.
  repeat split; intros; field; lra.
Qed.

Lemma map_endpoints_and_inverse_witness :
  0 <> 1
  /\ MathUtils.map 0 0 1 2 3 = 2
  /\ MathUtils.map 1 0 1 2 3 = 3
  /\ (2 <> 3 -> MathUtils.map (MathUtils.map 5 0 1 2 3) 2 3 0 1 = 5)
  /\ MathUtils.lerp 2 3 5 = MathUtils.map 5 0 1 2 3.
Proof.
  split; [lra|]. apply (map_endpoints_and_inverse 5 0 1 2 3). lra.
Defined.

(** ** computeWorld: forward kinematics of the skeleton *)

Lemma foldM_app {A S : Type} (f : S -> A -> outcome S) (l1 l2 : list A) (s : S) :
  foldM f (l1 ++ l2) s = (s1 ← foldM f l1 s; foldM f l2 s1).
Proof.
  revert s. induction l1 as [|a l1 IH]; intros s; simpl; [reflexivity|].
  destruct (f s a) as [s1| |]; simpl; [apply IH | reflexivity | reflexivity].
Qed.

Lemma normA_unique u v :
  -180 <= u < 180 -> -180 <= v < 180 ->
  (exists k : Z, u = v + 360 * IZR k) -> u = v.
Proof.
  intros Hu Hv [k Hk].
  assert (Hlo : (-1 < k)%Z) by (apply lt_IZR; lra).
  assert (Hhi : (k < 1)%Z) by (apply lt_IZR; lra).
  assert (k = 0%Z) as -> by lia. lra.
Qed.

Lemma normA_periodic a (k : Z) :
  AdvancedIKSolver.normA (a + 360 * IZR k) = AdvancedIKSolver.normA a.
Proof.
  apply normA_unique; try apply normA_range.
  destruct (normA_congr (a + 360 * IZR k)) as [k1 H1].
  destruct (normA_congr a) as [k2 H2].
  exists (k + k1 - k2)%Z. rewrite H1, H2, minus_IZR, plus_IZR. ring.
Qed.

Lemma normA_0 : AdvancedIKSolver.normA 0 = 0.
Proof.
  apply normA_unique; [apply normA_range | lra |].
  destruct (normA_congr 0) as [k H]. exists k. rewrite H. ring.
Qed.

Lemma cos_turns x (k : Z) : cos (x + 2 * PI * IZR k) = cos x.
Proof.
  destruct (Z_le_gt_dec 0 k) as [Hk|Hk].
  - rewrite <- (Z2Nat.id k Hk), <- INR_IZR_INZ.
    rewrite <- (cos_period x (Z.to_nat k)). f_equal. ring.
  - rewrite <- (cos_period (x + 2 * PI * IZR k) (Z.to_nat (- k))).
    f_equal. rewrite INR_IZR_INZ, Z2Nat.id by lia. rewrite opp_IZR. ring.
Qed.

Lemma sin_turns x (k : Z) : sin (x + 2 * PI * IZR k) = sin x.
Proof.
  destruct (Z_le_gt_dec 0 k) as [Hk|Hk].
  - rewrite <- (Z2Nat.id k Hk), <- INR_IZR_INZ.
    rewrite <- (sin_period x (Z.to_nat k)). f_equal. ring.
  - rewrite <- (sin_period (x + 2 * PI * IZR k) (Z.to_nat (- k))).
    f_equal. rewrite INR_IZR_INZ, Z2Nat.id by lia. rewrite opp_IZR. ring.
Qed.

Lemma d2r_normA_r2d wa :
  exists k : Z,
    AdvancedIKSolver.d2r (AdvancedIKSolver.normA (AdvancedIKSolver.r2d wa))
    = wa + 2 * PI * IZR k.
Proof.
  pose proof PI_RGT_0 as Hpi.
  destruct (normA_congr (AdvancedIKSolver.r2d wa)) as [k Hk]. exists k.
  rewrite Hk. unfold AdvancedIKSolver.d2r, AdvancedIKSolver.r2d. field. lra.
Qed.

Section ComputeWorld.
  Import Skeleton AdvancedIKSolver.

Variable data : Data.

Lemma ancestors_acc n : forall cur acc,
  ancestors data n cur acc
  = (path ← ancestors data n cur []; Ret (path ++ acc)).
Proof.
  induction n as [|n IH]; intros cur acc; simpl.
  - destruct (truthy cur); reflexivity.
  - destruct (truthy cur) as [c|]; [|reflexivity].
    rewrite (IH _ (c :: acc)), (IH _ [c]).
    destruct (ancestors data n (JOINT_DEFS data !! c ≫= parent) []) as [p| |];
      simpl; [|reflexivity|reflexivity].
    now rewrite <- app_assoc.
Qed.

Lemma truthy_inv s c : truthy s = Some c -> s = Some c /\ c <> "".
Proof.
  unfold truthy. destruct s as [c'|]; [|discriminate].
  destruct (String.eqb c' "") eqn:E; [discriminate|].
  intros [= ->]. split; [reflexivity|]. now apply String.eqb_neq in E.
Qed.

Lemma truthy_nonempty c : c <> "" -> truthy (Some c) = Some c.
Proof. intros H. unfold truthy. apply String.eqb_neq in H. now rewrite H. Qed.

(** X13: forward kinematics composes along the hierarchy.  The world
    position of a joint is the world position of its parent plus the
    joint's pivot rotated by the parent's world angle; its parent angle is
    the parent's world angle, and its own world angle adds its rotation,
    a missing rotation counting as 0. *)
Theorem computeWorld_child_of_parent (fuel : nat) (id pId : string)
    (def : JointDef) (rotations : gmap string R) (center : R * R) (wp : World) :
  JOINT_DEFS data !! id = Some def ->
  id <> "root" -> id <> "" ->
  truthy (parent def) = Some pId ->
  computeWorld data fuel pId rotations center = Ret wp ->
  computeWorld data (S fuel) id rotations center
  = Ret (mkWorld
           (wx wp + (fst (pivot def) * cos (d2r (angle wp))
                     - snd (pivot def) * sin (d2r (angle wp))))
           (wy wp + (fst (pivot def) * sin (d2r (angle wp))
                     + snd (pivot def) * cos (d2r (angle wp))))
           (normA (angle wp + JS.or_default (rotations !! id) 0))
           (angle wp)).
Proof.
  intros Hdef Hroot Hne Hpar Hp.
  apply truthy_inv in Hpar as [Hpar HpId].
  unfold computeWorld in *.
  apply bind_Ret_inv in Hp as (path & Hpath & Hp).
  apply bind_Ret_inv in Hp as ([[[x0 y0] wa] pa] & Hfold & Hp).
  injection Hp as <-.
  cbn [ancestors]. rewrite truthy_nonempty by exact Hne.
  rewrite Hdef. cbn [mbind option_bind]. rewrite Hpar.
  rewrite ancestors_acc, Hpath. cbn [mbind outcome_bind].
  rewrite foldM_app, Hfold. cbn [mbind outcome_bind foldM].
  unfold walk. apply String.eqb_neq in Hroot. rewrite Hroot, Hdef.
  destruct (pivot def) as [px py]. cbn [mbind outcome_bind fst snd wx wy angle].
  destruct (d2r_normA_r2d wa) as [k Hk].
  rewrite Hk, cos_turns, sin_turns.
  f_equal. f_equal.
  pose proof PI_RGT_0 as Hpi.
  destruct (normA_congr (r2d wa)) as [k' Hk'].
  rewrite Hk'.
  replace (r2d (wa + d2r (JS.or_default (rotations !! id) 0)))
    with (r2d wa + JS.or_default (rotations !! id) 0)
    by (unfold r2d, d2r; field; lra).
  replace (r2d wa + 360 * IZR k' + JS.or_default (rotations !! id) 0)
    with (r2d wa + JS.or_default (rotations !! id) 0 + 360 * IZR k') by ring.
  now rewrite normA_periodic.
Qed.

(** X14: the edge cases of [computeWorld].  A joint id without a
    definition makes it throw a TypeError (reading [pivot] of
    [undefined]); the empty id and a parentless ["root"] give the canvas
    centre with both angles 0, whether ["root"] is defined or not. *)
Theorem computeWorld_edge_cases (fuel : nat) (id : string)
    (rotations : gmap string R) (center : R * R) :
  (JOINT_DEFS data !! id = None -> id <> "root" -> id <> "" ->
   computeWorld data (S fuel) id rotations center = Throw TypeError)
  /\ computeWorld data fuel "" rotations center
     = Ret (mkWorld (fst center) (snd center) 0 0)
  /\ (JOINT_DEFS data !! "root" ≫= parent = None ->
      computeWorld data (S fuel) "root" rotations center
      = Ret (mkWorld (fst center) (snd center) 0 0)).
Proof.
  assert (H0 : r2d 0 = 0) by (unfold r2d, Rdiv; ring).
  unfold computeWorld. repeat split.
  - intros Hdef Hroot Hne. cbn [ancestors].
    rewrite truthy_nonempty by exact Hne. rewrite Hdef.
    cbn [mbind option_bind]. destruct fuel; cbn [ancestors truthy mbind outcome_bind foldM];
      unfold walk; apply String.eqb_neq in Hroot; now rewrite Hroot, Hdef.
  - destruct fuel; cbn; now rewrite H0, normA_0.
  - intros Hpar. cbn [ancestors]. rewrite truthy_nonempty by discriminate.
    rewrite Hpar.
    destruct fuel; cbn [ancestors truthy mbind outcome_bind foldM walk String.eqb];
      cbn; now rewrite H0, normA_0.
Qed.

End ComputeWorld.

Section ComputeWorldShipped.
  Import Skeleton AdvancedIKSolver.

Lemma l_shoulder_definedPath : definedPath BITRUVIUS_DATA 7 "l_shoulder" = true.
Proof. vm_compute. reflexivity. Qed.

Lemma computeWorld_child_of_parent_witness :
  exists wp,
    computeWorld BITRUVIUS_DATA 7 "l_shoulder" initialRotations (400, 300) = Ret wp
    /\ computeWorld BITRUVIUS_DATA 8 "l_elbow" initialRotations (400, 300)
       = Ret (mkWorld
                (wx wp + (-30 * cos (d2r (angle wp)) - 0 * sin (d2r (angle wp))))
                (wy wp + (-30 * sin (d2r (angle wp)) + 0 * cos (d2r (angle wp))))
                (normA (angle wp + JS.or_default (initialRotations !! "l_elbow") 0))
                (angle wp)).
Proof.
  destruct (computeWorld_returns BITRUVIUS_DATA 7 "l_shoulder" initialRotations
              (400, 300) l_shoulder_definedPath) as [wp Hwp].
  exists wp. split; [exact Hwp|].
  exact (computeWorld_child_of_parent BITRUVIUS_DATA 7 "l_elbow" "l_shoulder"
           (mkJointDef (Some "l_shoulder") (-30, 0)) initialRotations (400, 300) wp
           eq_refl ltac:(discriminate) ltac:(discriminate) eq_refl Hwp).
Defined.

End ComputeWorldShipped.

(** ** The two passes of a solve round *)

Section Passes.
  Import Skeleton AdvancedIKSolver.

Variable data : Data.
Variable fuel : nat.
Variable jointIds : list string.
Variable currentRots : gmap string R.
Variable center : R * R.
Variable chainLengths : list R.

Lemma getP_inv (pts : list Point) i p : getP pts i = Ret p -> pts !! i = Some p.
Proof. unfold getP. destruct (pts !! i); now intros [= <-]. Qed.

Lemma dist_scaled (c n : Point) (L : R) :
  1 / 10000 < dist n c ->
  dist (mkPoint (x c + (x n - x c) * (L / dist n c))
                (y c + (y n - y c) * (L / dist n c))) c
  = Rabs L.
Proof.
  intros Hd. unfold dist in *. cbn [x y].
  set (d := JS.hypot (x n - x c) (y n - y c)) in *.
  replace (x c + (x n - x c) * (L / d) - x c) with ((x n - x c) * (L / d)) by ring.
  replace (y c + (y n - y c) * (L / d) - y c) with ((y n - y c) * (L / d)) by ring.
  rewrite hypot_scale. fold d.
  unfold Rdiv. rewrite Rabs_mult, Rabs_inv, (Rabs_right d) by lra.
  field. lra.
Qed.

Lemma dist_polar (c : Point) (g L : R) :
  dist (mkPoint (x c + cos g * L) (y c + sin g * L)) c = Rabs L.
Proof.
  unfold dist. cbn [x y].
  replace (x c + cos g * L - x c) with (cos g * L) by ring.
  replace (y c + sin g * L - y c) with (sin g * L) by ring.
  rewrite hypot_scale. unfold JS.hypot.
  pose proof (sin2_cos2 g) as H. unfold Rsqr in H.
  replace (cos g * cos g + sin g * sin g) with 1 by lra.
  rewrite sqrt_1. ring.
Qed.

Lemma forwardStep_inv (pts pts' : list Point) (i : nat) :
  forwardStep data fuel jointIds currentRots center chainLengths pts i = Ret pts' ->
  exists curr next,
    pts !! i = Some curr /\ pts !! (i + 1)%nat = Some next
    /\ ((pts' = pts /\ dist next curr <= 1 / 10000)
        \/ exists q, pts' = <[(i + 1)%nat := q]> pts
                     /\ dist q curr = Rabs (getL chainLengths i)).
Proof.
  unfold forwardStep. intros H.
  apply bind_Ret_inv in H as (curr & Hc%getP_inv & H).
  apply bind_Ret_inv in H as (next & Hn%getP_inv & H).
  exists curr, next. split; [exact Hc|]. split; [exact Hn|].
  fold (dist next curr) in H.
  destruct (JS.gtb (dist next curr) (1 / 10000)) eqn:E.
  - apply gtb_true in E. right.
    apply bind_Ret_inv in H as ([nx ny] & Hq & H). injection H as <-.
    exists (mkPoint nx ny). split; [reflexivity|].
    destruct (jointIds !! i ≫= _) as [[jointId lim]|].
    + destruct (JOINT_DEFS data !! jointId) as [def|]; [|discriminate].
      apply bind_Ret_inv in Hq as (pAngle & _ & Hq).
      destruct (_ || _) in Hq; injection Hq as <- <-.
      * apply dist_polar.
      * now apply dist_scaled.
    + injection Hq as <- <-. now apply dist_scaled.
  - apply gtb_false in E. left. injection H as <-. auto.
Qed.

Lemma forward_fold (s0 : list Point) (n : nat) : forall s',
  foldM (forwardStep data fuel jointIds currentRots center chainLengths)
        (seq 0 n) s0 = Ret s' ->
  length s' = length s0
  /\ s' !! 0%nat = s0 !! 0%nat
  /\ forall i p q, (i < n)%nat ->
       s' !! i = Some p -> s' !! (i + 1)%nat = Some q ->
       dist q p = Rabs (getL chainLengths i) \/ dist q p <= 1 / 10000.
Proof.
  induction n as [|n IH]; intros s' H.
  - injection H as <-. repeat split; intros; lia.
  - rewrite seq_S, foldM_app in H. simpl in H.
    apply bind_Ret_inv in H as (s1 & H1 & H).
    apply bind_Ret_inv in H as (s2 & Hstep & H). injection H as <-.
    destruct (IH _ H1) as (Hlen & H0 & Hseg).
    destruct (forwardStep_inv _ _ _ Hstep)
      as (curr & next & Hc & Hn & [[-> Hd] | (q & -> & Hq)]).
    + repeat split; try assumption.
      intros i p q Hi Hp Hq.
      destruct (decide (i = n)) as [-> | Hne]; [|apply Hseg; [lia|assumption..]].
      right. congruence.
    + rewrite length_insert. split; [exact Hlen|].
      split; [rewrite list_lookup_insert_ne by lia; exact H0|].
      intros i p q' Hi Hp Hq'.
      destruct (decide (i = n)) as [-> | Hne].
      * rewrite list_lookup_insert_ne in Hp by lia.
        rewrite list_lookup_insert_eq in Hq' by (apply lookup_lt_Some in Hn; lia).
        left. congruence.
      * rewrite list_lookup_insert_ne in Hp by lia.
        rewrite list_lookup_insert_ne in Hq' by lia.
        apply Hseg; [lia|assumption..].
Qed.

(** X15: the forward pass pins the first point of the chain to the base
    position and leaves every segment with exactly the length the chain
    assigns to it, joint limits applied or not; the only exception is a
    segment whose two points it found closer together than 0.0001, which
    it leaves alone.  The number of points is unchanged. *)
Theorem forwardPass_keeps_bone_lengths (numPoints : nat) (initialBasePos : Point)
    (pts pts' : list Point) :
  forwardPass data fuel jointIds currentRots center chainLengths numPoints
              initialBasePos pts = Ret pts' ->
  length pts' = length pts
  /\ (pts <> [] -> pts' !! 0%nat = Some initialBasePos)
  /\ forall i p q, (i < numPoints - 1)%nat ->
       pts' !! i = Some p -> pts' !! (i + 1)%nat = Some q ->
       dist q p = Rabs (getL chainLengths i) \/ dist q p <= 1 / 10000.
Proof.
  unfold forwardPass. intros H.
  destruct (forward_fold _ _ _ H) as (Hlen & H0 & Hseg).
  rewrite length_insert in Hlen. split; [exact Hlen|]. split; [|exact Hseg].
  intros Hne. rewrite H0. apply list_lookup_insert_eq.
  destruct pts; [contradiction | simpl; lia].
Qed.

Lemma backwardStep_inv (pts pts' : list Point) (i : nat) :
  backwardStep chainLengths pts i = Ret pts' ->
  exists curr next,
    pts !! i = Some curr /\ pts !! (i + 1)%nat = Some next
    /\ ((pts' = pts /\ dist curr next <= 1 / 10000)
        \/ exists q, pts' = <[i := q]> pts
                     /\ dist q next = Rabs (getL chainLengths i)).
Proof.
  unfold backwardStep. intros H.
  apply bind_Ret_inv in H as (next & Hn%getP_inv & H).
  apply bind_Ret_inv in H as (curr & Hc%getP_inv & H).
  exists curr, next. split; [exact Hc|]. split; [exact Hn|].
  fold (dist curr next) in H.
  destruct (JS.gtb (dist curr next) (1 / 10000)) eqn:E.
  - apply gtb_true in E. right. injection H as <-.
    eexists. split; [reflexivity|]. now apply dist_scaled.
  - apply gtb_false in E. left. injection H as <-. auto.
Qed.

Lemma backward_fold (N : nat) (m : nat) : forall s s',
  (m <= N)%nat ->
  (forall i p q, (m <= i < N)%nat ->
     s !! i = Some p -> s !! (i + 1)%nat = Some q ->
     dist p q = Rabs (getL chainLengths i) \/ dist p q <= 1 / 10000) ->
  foldM (backwardStep chainLengths) (rev (seq 0 m)) s = Ret s' ->
  length s' = length s
  /\ s' !! N = s !! N
  /\ forall i p q, (i < N)%nat ->
       s' !! i = Some p -> s' !! (i + 1)%nat = Some q ->
       dist p q = Rabs (getL chainLengths i) \/ dist p q <= 1 / 10000.
Proof.
  induction m as [|m IH]; intros s s' Hm Hseg H.
  - injection H as <-. repeat split. intros i p q Hi. apply Hseg. lia.
  - rewrite seq_S, rev_app_distr in H. simpl in H.
    apply bind_Ret_inv in H as (s1 & Hstep & H).
    destruct (backwardStep_inv _ _ _ Hstep)
      as (curr & next & Hc & Hn & [[-> Hd] | (q & -> & Hq)]).
    + apply (IH s s' ltac:(lia)); [|exact H].
      intros i p q Hi Hp Hq.
      destruct (decide (i = m)) as [-> | Hne]; [|apply Hseg; [lia|assumption..]].
      right. congruence.
    + destruct (IH (<[m := q]> s) s' ltac:(lia)) as (Hlen & HN & Hall); [|exact H|].
      * intros i p q' Hi Hp Hq'.
        rewrite list_lookup_insert_ne in Hq' by lia.
        destruct (decide (i = m)) as [-> | Hne].
        -- rewrite list_lookup_insert_eq in Hp by (apply lookup_lt_Some in Hc; lia).
           left. congruence.
        -- rewrite list_lookup_insert_ne in Hp by lia.
           apply Hseg; [lia|assumption..].
      * rewrite length_insert in Hlen.
        rewrite list_lookup_insert_ne in HN by lia. auto.
Qed.

(** X16: the backward pass puts the last point of the chain, the effector,
    on the target and leaves every segment with exactly the length the
    chain assigns to it, except a segment whose two points it found closer
    together than 0.0001.  The number of points is unchanged. *)
Theorem backwardPass_reaches_target (numPoints : nat) (target : Point)
    (pts pts' : list Point) :
  backwardPass chainLengths numPoints target pts = Ret pts' ->
  length pts' = length pts
  /\ ((numPoints - 1 < length pts)%nat ->
      pts' !! (numPoints - 1)%nat = Some target)
  /\ forall i p q, (i < numPoints - 1)%nat ->
       pts' !! i = Some p -> pts' !! (i + 1)%nat = Some q ->
       dist p q = Rabs (getL chainLengths i) \/ dist p q <= 1 / 10000.
Proof.
  unfold backwardPass. intros H.
  destruct (backward_fold (numPoints - 1) (numPoints - 1) _ _ ltac:(lia)
              ltac:(intros; lia) H) as (Hlen & HN & Hseg).
  rewrite length_insert in Hlen. split; [exact Hlen|]. split; [|exact Hseg].
  intros Hlt. rewrite HN. now apply list_lookup_insert_eq.
Qed.

End Passes.

Section PassesShipped.
  Import Skeleton AdvancedIKSolver.

Abbreviation straight := [mkPoint 0 0; mkPoint 10 0; mkPoint 20 0].

Lemma forwardPass_keeps_bone_lengths_witness :
  exists pts',
    forwardPass BITRUVIUS_DATA 8 (joints l_arm_chain) initialRotations (400, 300)
      [30; 25] 3 (mkPoint 1 1) straight = Ret pts'
    /\ length pts' = 3%nat
    /\ pts' !! 0%nat = Some (mkPoint 1 1).
Proof.
  destruct (forwardPass_returns BITRUVIUS_DATA 8 l_arm_chain initialRotations
              (400, 300) [30; 25] 3 (mkPoint 1 1) l_arm_chain_resolvable
              straight eq_refl) as (pts' & H & _).
  exists pts'. split; [exact H|].
  destruct (forwardPass_keeps_bone_lengths BITRUVIUS_DATA 8 (joints l_arm_chain)
              initialRotations (400, 300) [30; 25] 3 (mkPoint 1 1) straight pts' H)
    as (Hlen & H0 & _).
  split; [exact Hlen | apply H0; discriminate].
Defined.

Lemma backwardPass_reaches_target_witness :
  exists pts',
    backwardPass [30; 25] 3 (mkPoint 50 50) straight = Ret pts'
    /\ length pts' = 3%nat
    /\ pts' !! 2%nat = Some (mkPoint 50 50).
Proof.
  destruct (backwardPass_returns [30; 25] 3 (mkPoint 50 50) straight eq_refl)
    as (pts' & H & _).
  exists pts'. split; [exact H|].
  destruct (backwardPass_reaches_target [30; 25] 3 (mkPoint 50 50) straight pts' H)
    as (Hlen & HN & _).
  split; [exact Hlen | apply HN; simpl; lia].
Defined.

End PassesShipped.

(** ** solveIK_Advanced: what it returns, and when *)

Section Returned.
  Import Skeleton AdvancedIKSolver.

Variable data : Data.
Variable fuel : nat.
Variable random : nat -> R.

(** The rotation written for a joint: normalised, then clamped to the
    joint's limits if it has any. *)
Abbreviation written jointId a :=
  (match JOINT_LIMITS data !! jointId with
   | Some lim => clamp (normA a) (min lim) (max lim)
   | None => normA a
   end).

Lemma extractStep_value jointIds currentRots center finalPoints finalRots i m :
  extractStep data fuel jointIds currentRots center finalPoints finalRots i = Ret m ->
  exists jointId a,
    jointIds !! i = Some jointId
    /\ is_Some (JOINT_DEFS data !! jointId)
    /\ m = <[jointId := written jointId a]> finalRots.
Proof.
  unfold extractStep. intros H.
  destruct (jointIds !! i) as [jointId|]; [|discriminate].
  destruct (JOINT_DEFS data !! jointId) as [def|] eqn:Hdef; [|discriminate].
  apply bind_Ret_inv in H as (pa & _ & H).
  apply bind_Ret_inv in H as (next & _ & H).
  apply bind_Ret_inv in H as (cur & _ & H).
  injection H as <-.
  eexists jointId, _. split; [reflexivity|]. split; [eauto|].
  destruct (JOINT_LIMITS data !! jointId); reflexivity.
Qed.

Lemma extract_value jointIds currentRots center finalPoints finalRots i jointId :
  extract data fuel jointIds currentRots center finalPoints = Ret finalRots ->
  (i < length jointIds - 1)%nat -> jointIds !! i = Some jointId ->
  is_Some (JOINT_DEFS data !! jointId)
  /\ exists a, finalRots !! jointId = Some (written jointId a).
Proof.
  unfold extract. intros H Hi Hid.
  apply (foldM_establishes
           (fun m : gmap string R =>
              is_Some (JOINT_DEFS data !! jointId)
              /\ exists a, m !! jointId = Some (written jointId a))
           _ _ _ _ i H).
  - apply list_elem_of_In, in_seq. lia.
  - intros m m' Hstep.
    destruct (extractStep_value _ _ _ _ _ _ _ Hstep) as (jid & a & Hjid & Hdef & ->).
    assert (jid = jointId) as -> by congruence.
    split; [exact Hdef|]. exists a. now rewrite lookup_insert_eq.
  - intros m b m' (Hdef & a0 & Ha0) Hstep. split; [exact Hdef|].
    destruct (extractStep_value _ _ _ _ _ _ _ Hstep) as (jid & a & Hjid & _ & ->).
    destruct (decide (jid = jointId)) as [-> | Hne].
    + exists a. now rewrite lookup_insert_eq.
    + exists a0. now rewrite lookup_insert_ne by exact Hne.
Qed.

(** X17: every joint of a chain but its last gets a rotation in the
    returned map: an angle normalised by [normA], clamped to the joint's
    limits when it has limits.  Without limits the rotation therefore lies
    in [-180, 180). *)
Theorem solveIK_Advanced_writes_normalised
    chainId chainDef targetX targetY currentRots center finalRots i jointId :
  solveIK_Advanced data fuel random chainId targetX targetY currentRots center
  = Ret finalRots ->
  IK_CHAINS data !! chainId = Some chainDef ->
  (i < length (joints chainDef) - 1)%nat -> joints chainDef !! i = Some jointId ->
  exists v a,
    finalRots !! jointId = Some v
    /\ v = written jointId a
    /\ (JOINT_LIMITS data !! jointId = None -> -180 <= v < 180).
Proof.
  intros H Hchain Hi Hid.
  rewrite (solveIK_Advanced_known _ _ _ _ _ _ _ _ _ Hchain) in H.
  destruct (length (joints chainDef) <? 2)%nat eqn:E.
  { apply Nat.ltb_lt in E. lia. }
  apply bind_Ret_inv in H as (su & _ & H).
  apply bind_Ret_inv in H as (s & _ & H).
  destruct (extract_value _ _ _ _ _ _ _ H Hi Hid) as (_ & a & Ha).
  eexists _, a. split; [exact Ha|]. split; [reflexivity|].
  intros ->. apply normA_range.
Qed.

Lemma buildLengths_defined nextIds ls (j : string) :
  buildLengths data nextIds = Ret ls -> j ∈ nextIds ->
  is_Some (JOINT_DEFS data !! j).
Proof.
  revert ls. induction nextIds as [|id ids IH]; intros ls H Hj.
  - inversion Hj.
  - simpl in H. destruct (JOINT_DEFS data !! id) as [def|] eqn:Hdef; [|discriminate].
    apply bind_Ret_inv in H as (ls' & Hls & _).
    apply elem_of_cons in Hj as [-> | Hj]; [rewrite Hdef; eauto | eauto].
Qed.

(** X18: when [solveIK_Advanced] returns and when it does not.  On a chain
    whose joints, and the joints on their way to the hierarchy root, all
    have a definition it returns a rotation map: it does not throw (nor
    does it for an id that the table of chains neither has nor
    inherits).  And on a chain of two or more joints it returns only if
    every joint of the chain has a definition: with an undefined joint in
    the chain the call ends in a TypeError. *)
Theorem solveIK_Advanced_returns_when_defined
    chainId targetX targetY currentRots center :
  ((forall chainDef, IK_CHAINS data !! chainId = Some chainDef ->
                     resolvable data fuel chainDef = true) ->
   (IK_CHAINS data !! chainId = None -> chainId ∉ JS.objectPrototype) ->
   exists finalRots,
     solveIK_Advanced data fuel random chainId targetX targetY currentRots center
     = Ret finalRots)
  /\ (forall chainDef finalRots (j : string),
        IK_CHAINS data !! chainId = Some chainDef ->
        (2 <= length (joints chainDef))%nat ->
        j ∈ joints chainDef ->
        solveIK_Advanced data fuel random chainId targetX targetY currentRots center
        = Ret finalRots ->
        is_Some (JOINT_DEFS data !! j)).
Proof.
  split; [apply solveIK_Advanced_returns|].
  intros chainDef finalRots j Hchain Hlen Hj H.
  rewrite (solveIK_Advanced_known _ _ _ _ _ _ _ _ _ Hchain) in H.
  destruct (length (joints chainDef) <? 2)%nat eqn:E.
  { apply Nat.ltb_lt in E. lia. }
  apply bind_Ret_inv in H as (su & Hsu & H).
  apply bind_Ret_inv in H as (s & _ & H).
  apply list_elem_of_lookup in Hj as [i Hi].
  destruct i as [|i].
  - assert (H0 : (0 < length (joints chainDef) - 1)%nat) by lia.
    now destruct (extract_value _ _ _ _ _ _ _ H H0 Hi).
  - destruct (prepare_inv _ _ _ _ _ _ _ _ _ Hsu) as (_ & _ & Hls & _).
    apply (buildLengths_defined _ _ _ Hls).
    destruct (joints chainDef) as [|j0 js]; [discriminate|].
    simpl in *. eapply list_elem_of_lookup_2; eauto.
Qed.

(** X19: soft reach never asks for more than the chain can give.  With a
    stretch ratio of at least 0.12 the effective target is never farther
    from the chain's root than the stretch limit, total length times
    stretch ratio, and never farther than the requested target. *)
Theorem softTarget_within_stretch_limit (root target : Point) (L : R)
    (chainDef : ChainDef) :
  0 <= L ->
  12 / 100 <= JS.or_default (stretchRatio chainDef) (11 / 10) ->
  distToTarget root (softTarget root target L chainDef)
  <= L * JS.or_default (stretchRatio chainDef) (11 / 10)
  /\ distToTarget root (softTarget root target L chainDef)
     <= distToTarget root target.
Proof.
  intros HL Hsr.
  destruct (Rle_lt_dec (distToTarget root target) (softThreshold L chainDef))
    as [Hin | Hout].
  - rewrite softTarget_within by exact Hin.
    split; [|lra]. unfold softThreshold, softDist in Hin. nra.
  - destruct (softTarget_beyond root target L chainDef HL Hsr Hout) as [-> _].
    assert (Hsd : 0 <= softDist L) by (unfold softDist; lra).
    split.
    + pose proof (exp_pos (- (distToTarget root target - softThreshold L chainDef)
                           / softDist L)) as He.
      set (e := exp _) in *.
      assert (Hp : 0 <= softDist L * e) by (apply Rmult_le_pos; lra).
      unfold softThreshold. fold (softDist L). lra.
    + pose proof (damped_overflow_le (softDist L)
                    (distToTarget root target - softThreshold L chainDef)
                    Hsd ltac:(lra)).
      lra.
Qed.

End Returned.

Section ReturnedShipped.
  Import Skeleton AdvancedIKSolver.

(** The shoulder of the shipped left arm, whose limits are -180 and 180. *)
Lemma solveIK_Advanced_writes_normalised_witness :
  exists finalRots v a,
    solveIK_Advanced BITRUVIUS_DATA 8 (fun _ => 1 / 2) "l_arm_chain" 500 0
      initialRotations (400, 300) = Ret finalRots
    /\ finalRots !! "l_shoulder" = Some v
    /\ v = clamp (normA a) (-180) 180.
Proof.
  destruct (solveIK_Advanced_returns BITRUVIUS_DATA 8 (fun _ => 1 / 2) "l_arm_chain"
              500 0 initialRotations (400, 300) l_arm_chain_only l_arm_chain_known)
    as [finalRots H].
  assert (Hi : (0 < length (joints l_arm_chain) - 1)%nat) by (simpl; lia).
  destruct (solveIK_Advanced_writes_normalised BITRUVIUS_DATA 8 (fun _ => 1 / 2)
              "l_arm_chain" l_arm_chain 500 0 initialRotations (400, 300) finalRots
              0 "l_shoulder" H l_arm_chain_lookup Hi eq_refl)
    as (v & a & Hv & Ha & _).
  exists finalRots, v, a. split; [exact H|]. split; [exact Hv | exact Ha].
Defined.

Lemma softTarget_within_stretch_limit_witness :
  0 <= 55
  /\ 12 / 100 <= JS.or_default (stretchRatio l_arm_chain) (11 / 10)
  /\ distToTarget (mkPoint 0 0) (softTarget (mkPoint 0 0) (mkPoint 500 0) 55 l_arm_chain)
     <= 55 * JS.or_default (stretchRatio l_arm_chain) (11 / 10).
Proof.
  assert (H0 : 0 <= 55) by lra.
  split; [exact H0|]. split; [exact l_arm_stretch|].
  exact (proj1 (softTarget_within_stretch_limit (mkPoint 0 0) (mkPoint 500 0) 55
                  l_arm_chain H0 l_arm_stretch)).
Defined.

End ReturnedShipped.

(** ** Queries over the joint tree *)

Lemma foldM_ext {A S : Type} (f g : S -> A -> outcome S) (l : list A) (s : S) :
  (forall s a, a ∈ l -> f s a = g s a) -> foldM f l s = foldM g l s.
Proof.
  revert s. induction l as [|a l IH]; intros s H; simpl; [reflexivity|].
  rewrite (H s a) by left.
  destruct (g s a) as [s1| |]; simpl; try reflexivity.
  apply IH. intros s2 b Hb. apply H. now right.
Qed.

Lemma foldM_mono {A S : Type} (f g : S -> A -> outcome S) (l : list A) (s s' : S) :
  (forall s a s', a ∈ l -> f s a = Ret s' -> g s a = Ret s') ->
  foldM f l s = Ret s' -> foldM g l s = Ret s'.
Proof.
  revert s. induction l as [|a l IH]; intros s H Hf; simpl in *; [exact Hf|].
  apply bind_Ret_inv in Hf as (s1 & H1 & H2).
  rewrite (H s a s1) by (left || exact H1). simpl.
  apply IH; [|exact H2]. intros s2 b s3 Hb. apply H. now right.
Qed.

Section Depth.
  Import Joint.

Variable st : Store.

Lemma getChainDepth_S fuel this :
  getChainDepth (S fuel) st this
  = match children (st !!! this) with
    | [] => Ret 0%nat
    | cs => foldM (fun maxDepth child =>
                     d ← getChainDepth fuel st child;
                     Ret (Nat.max maxDepth (d + 1)))
                  cs 0%nat
    end.
Proof. reflexivity. Qed.

Lemma getDeepestJoint_S fuel this :
  getDeepestJoint (S fuel) st this
  = match children (st !!! this) with
    | [] => Ret this
    | cs => foldM (fun deepest child =>
                     childDeepest ← getDeepestJoint fuel st child;
                     d1 ← getChainDepth (S fuel) st childDeepest;
                     d2 ← getChainDepth (S fuel) st deepest;
                     Ret (if (d2 <? d1)%nat then childDeepest else deepest))
                  cs this
    end.
Proof. reflexivity. Qed.

Lemma getChainDepth_mono fuel : forall this d,
  getChainDepth fuel st this = Ret d -> getChainDepth (S fuel) st this = Ret d.
Proof.
  induction fuel as [|fuel IH]; intros this d H; [discriminate|].
  rewrite (getChainDepth_S fuel) in H. rewrite (getChainDepth_S (S fuel)).
  destruct (children (st !!! this)) as [|c cs]; [exact H|].
  revert H. apply foldM_mono. intros m child m' _ H.
  apply bind_Ret_inv in H as (dc & Hdc & H).
  now rewrite (IH _ _ Hdc).
Qed.

Lemma depth_fold_ge fuel (cs : list nat) : forall (m d : nat) (child : nat),
  foldM (fun maxDepth c => dc ← getChainDepth fuel st c;
                           Ret (Nat.max maxDepth (dc + 1))) cs m = Ret d ->
  (m <= d)%nat
  /\ (child ∈ cs ->
      exists dc, getChainDepth fuel st child = Ret dc /\ (dc < d)%nat).
Proof.
  induction cs as [|c cs IH]; intros m d child H; simpl in H.
  - injection H as <-. split; [lia|]. intros Hin. inversion Hin.
  - apply bind_Ret_inv in H as (m1 & H1 & H2).
    apply bind_Ret_inv in H1 as (dc & Hdc & H1). injection H1 as <-.
    destruct (IH _ _ child H2) as [Hle Hin]. split; [lia|].
    intros [-> | Hc]%elem_of_cons; [|auto].
    exists dc. split; [exact Hdc | lia].
Qed.

Lemma child_is_shallower fuel this child d :
  child ∈ children (st !!! this) ->
  getChainDepth (S fuel) st this = Ret d ->
  exists dc, getChainDepth (S fuel) st child = Ret dc /\ (dc < d)%nat.
Proof.
  intros Hin H. rewrite getChainDepth_S in H.
  destruct (children (st !!! this)) as [|c cs] eqn:E; [inversion Hin|].
  destruct (depth_fold_ge _ _ _ _ child H) as [_ Hc].
  destruct (Hc Hin) as (dc & Hdc & Hlt).
  exists dc. split; [now apply getChainDepth_mono | exact Hlt].
Qed.

Lemma getDeepestJoint_inv fuel : forall this d,
  getDeepestJoint fuel st this = Ret d -> d = this.
Proof.
  induction fuel as [|fuel IH]; intros this d H; [discriminate|].
  rewrite getDeepestJoint_S in H.
  destruct (children (st !!! this)) as [|c cs] eqn:E; [now injection H as <-|].
  rewrite <- E in H.
  apply (foldM_preserves (fun deepest : nat => deepest = this) _ _ _ _ H);
    [reflexivity|].
  intros deepest child deepest' Hin -> Hstep.
  apply bind_Ret_inv in Hstep as (cd & Hcd & Hstep).
  apply bind_Ret_inv in Hstep as (d1 & Hd1 & Hstep).
  apply bind_Ret_inv in Hstep as (d2 & Hd2 & Hstep).
  injection Hstep as <-.
  apply IH in Hcd as ->.
  destruct (child_is_shallower _ _ _ _ Hin Hd2) as (dc & Hdc & Hlt).
  assert (dc = d1) as -> by congruence.
  destruct (d2 <? d1)%nat eqn:Hcmp; [apply Nat.ltb_lt in Hcmp; lia | reflexivity].
Qed.

Lemma getChainDepth_returns n : forall this,
  shallow n st this = true -> exists d, getChainDepth n st this = Ret d.
Proof.
  induction n as [|n IH]; intros this H; [discriminate|].
  rewrite getChainDepth_S. cbn [shallow] in H.
  destruct (children (st !!! this)) as [|c cs] eqn:E; [eauto|].
  rewrite <- E in H. rewrite forallb_forall in H.
  assert (Hall : Forall (fun child => shallow n st child = true) (c :: cs)).
  { rewrite <- E. apply Forall_forall. intros x Hx. apply H.
    now apply list_elem_of_In. }
  destruct (foldM_returns (fun _ : nat => True)
              (fun child => shallow n st child = true)
              (fun maxDepth child => dc ← getChainDepth n st child;
                                     Ret (Nat.max maxDepth (dc + 1)))
              (c :: cs) 0%nat I Hall) as (d & Hd & _); [|eauto].
  intros m child _ Hc. destruct (IH _ Hc) as [dc ->]. simpl. eauto.
Qed.

Lemma getDeepestJoint_returns n : forall this,
  shallow n st this = true -> getDeepestJoint n st this = Ret this.
Proof.
  induction n as [|n IH]; intros this H; [discriminate|].
  destruct (getChainDepth_returns _ _ H) as [d2 Hd2].
  rewrite getDeepestJoint_S. cbn [shallow] in H.
  destruct (children (st !!! this)) as [|c cs] eqn:E; [reflexivity|].
  rewrite <- E in *. rewrite forallb_forall in H.
  assert (Hall : Forall (fun child => child ∈ children (st !!! this))
                        (children (st !!! this)))
    by (apply Forall_forall; auto).
  destruct (foldM_returns (fun deepest : nat => deepest = this)
              (fun child => child ∈ children (st !!! this))
              (fun deepest child =>
                 childDeepest ← getDeepestJoint n st child;
                 d1 ← getChainDepth (S n) st childDeepest;
                 d2 ← getChainDepth (S n) st deepest;
                 Ret (if (d2 <? d1)%nat then childDeepest else deepest))
              (children (st !!! this)) this eq_refl Hall) as (d & Hd & ->);
    [|exact Hd].
  intros deepest child -> Hin.
  rewrite IH by (apply H; now apply list_elem_of_In). cbn [mbind outcome_bind].
  destruct (child_is_shallower _ _ _ _ Hin Hd2) as (dc & Hdc & Hlt).
  rewrite Hdc, Hd2. cbn [mbind outcome_bind].
  destruct (d2 <? dc)%nat eqn:Hcmp; [apply Nat.ltb_lt in Hcmp; lia | eauto].
Qed.

End Depth.

(** X20: [getDeepestJoint] returns the joint it is called on, whatever the
    tree below it looks like.  The depth it compares is the height of a
    subtree, and the subtree of a child is never higher than the subtree of
    its parent, so no child ever replaces the receiver.  On a tree of fewer
    than [fuel] levels the call returns; and whenever it returns, the result
    is the receiver. *)
Theorem getDeepestJoint_is_receiver (fuel : nat) (st : list Joint.t) (this : nat) :
  (Joint.shallow fuel st this = true ->
   Joint.getDeepestJoint fuel st this = Ret this)
  /\ (forall d, Joint.getDeepestJoint fuel st this = Ret d -> d = this).
Proof.
  split; [apply getDeepestJoint_returns | apply getDeepestJoint_inv].
Qed.

(** On the default chain the deepest joint is reported to be the root, not
    the end effector three levels down. *)
Lemma getDeepestJoint_is_receiver_witness :
  Joint.shallow 4 JointChain.defaultStore 0 = true
  /\ Joint.getDeepestJoint 4 JointChain.defaultStore 0 = Ret 0%nat
  /\ Joint.getChainDepth 4 JointChain.defaultStore 0 = Ret 3%nat.
Proof.
  assert (H : Joint.shallow 4 JointChain.defaultStore 0 = true) by reflexivity.
  split; [exact H|]. split.
  - exact (proj1 (getDeepestJoint_is_receiver 4 JointChain.defaultStore 0) H).
  - reflexivity.
Defined.

(** ** Growing the chain *)

Section AddJoint.
  Import Joint JointChain.

Lemma lookup_total_app_l (st : Store) (extra : list Joint.t) (i : nat) :
  (i < List.length st)%nat -> (st ++ extra) !!! i = st !!! i.
Proof.
  intros Hi. rewrite !list_lookup_total_alt. now rewrite lookup_app_l.
Qed.

Lemma lookup_total_app_new (st : Store) (j : Joint.t) :
  (st ++ [j]) !!! List.length st = j.
Proof.
  rewrite list_lookup_total_alt, lookup_app_r by lia.
  now rewrite Nat.sub_diag.
Qed.

(** X21: [addJoint()] called without a parent attaches the new joint to
    the root, always: the parent it picks is [root.getDeepestJoint()],
    which is the root.  The new joint becomes the last child of the root,
    sits at the end of the root's segment, and no other joint changes. *)
Theorem addJoint_attaches_to_root (fuel : nat) (this : JointChain.t) (st : Store) :
  (root this < List.length st)%nat ->
  shallow fuel st (root this) = true ->
  exists st',
    addJoint fuel this None st = Ret (List.length st, st')
    /\ List.length st' = S (List.length st)
    /\ parent (st' !!! List.length st) = Some (root this)
    /\ position (st' !!! List.length st)
       = Vector2.mk (Joint.length (st !!! root this)) 0
    /\ children (st' !!! root this)
       = children (st !!! root this) ++ [List.length st]
    /\ forall k, (k < List.length st)%nat -> k <> root this ->
                 st' !!! k = st !!! k.
Proof.
  intros Hroot Hsh. unfold addJoint.
  rewrite (getDeepestJoint_returns st fuel (root this) Hsh).
  cbn [mbind outcome_bind]. eexists. split; [reflexivity|].
  set (new := Joint.new _ 40).
  unfold addChild. rewrite bool_decide_eq_true_2 by lia.
  rewrite !length_alter, length_app. simpl.
  split; [lia|].
  rewrite list_lookup_total_alter_eq
    by (rewrite length_alter, length_app; simpl; lia).
  rewrite list_lookup_total_alter_ne by lia.
  rewrite lookup_total_app_new.
  split; [reflexivity|]. split; [reflexivity|]. split.
  - rewrite list_lookup_total_alter_ne by lia.
    rewrite list_lookup_total_alter_eq by (rewrite length_app; simpl; lia).
    now rewrite lookup_total_app_l by exact Hroot.
  - intros k Hk Hne.
    rewrite !list_lookup_total_alter_ne by lia.
    now apply lookup_total_app_l.
Qed.

(** Adding a joint to the default chain: it becomes a second child of the
    root, beside Joint_1, instead of extending the chain at its end. *)
Lemma addJoint_attaches_to_root_witness :
  exists st',
    addJoint 4 defaultChain None defaultStore = Ret (4%nat, st')
    /\ parent (st' !!! 4%nat) = Some 0%nat
    /\ children (st' !!! 0%nat) = [1%nat; 4%nat].
Proof.
  destruct (addJoint_attaches_to_root 4 defaultChain defaultStore)
    as (st' & H & _ & Hp & _ & Hc & _); [simpl; lia | reflexivity |].
  exists st'. split; [exact H|]. split; [exact Hp | exact Hc].
Defined.

(** the chain's [updateIK] hands the root to the solver it selects as
    the end effector, and does nothing for a solver type it does not
    know. *)
Theorem updateIK_uses_root_as_effector (fuel : nat) (this : JointChain.t)
    (solverType : string) (st : Store) :
  shallow fuel st (root this) = true ->
  (solverType = "ccd" ->
   updateIK fuel this solverType st = solveCCD fuel this (root this) st)
  /\ (solverType = "fabrik" ->
      updateIK fuel this solverType st = solveFABRIK fuel this (root this) st)
  /\ (solverType = "jacobian" ->
      updateIK fuel this solverType st = solveJacobian fuel this (root this) st)
  /\ (solverType = "analytical" ->
      updateIK fuel this solverType st = solveAnalytical fuel this (root this) st)
  /\ (solverType ∉ ["ccd"; "fabrik"; "jacobian"; "analytical"] ->
      updateIK fuel this solverType st = Ret st).
Proof.
  intros Hsh. unfold updateIK.
  rewrite (getDeepestJoint_returns st fuel (root this) Hsh).
  cbn [mbind outcome_bind].
  repeat split; try (intros ->; reflexivity).
  intros Hnot.
  destruct (String.eqb_spec solverType "ccd") as [-> | _];
    [exfalso; apply Hnot; set_solver|].
  destruct (String.eqb_spec solverType "fabrik") as [-> | _];
    [exfalso; apply Hnot; set_solver|].
  destruct (String.eqb_spec solverType "jacobian") as [-> | _];
    [exfalso; apply Hnot; set_solver|].
  destruct (String.eqb_spec solverType "analytical") as [-> | _];
    [exfalso; apply Hnot; set_solver|].
  reflexivity.
Qed.

Lemma updateIK_uses_root_as_effector_witness :
  shallow 4 defaultStore (root defaultChain) = true
  /\ updateIK 4 defaultChain "ccd" defaultStore
     = solveCCD 4 defaultChain (root defaultChain) defaultStore.
Proof.
  assert (H : shallow 4 defaultStore (root defaultChain) = true) by reflexivity.
  split; [exact H|].
  exact (proj1 (updateIK_uses_root_as_effector 4 defaultChain "ccd" defaultStore H)
           eq_refl).
Defined.

End AddJoint.

(** ** The joints of a subtree, listed and counted *)

Section Listing.
  Import Joint JointChain.

Variable st : Store.

Lemma collect_cons (T : nat -> outcome (list nat)) (cs : list nat) :
  forall (x : nat) (acc : list nat),
    foldM (fun joints child => sub ← T child; Ret (joints ++ sub)) cs (x :: acc)
    = (rest ← foldM (fun joints child => sub ← T child; Ret (joints ++ sub)) cs acc;
       Ret (x :: rest)).
Proof.
  induction cs as [|c cs IH]; intros x acc; simpl; [reflexivity|].
  destruct (T c) as [sub| |]; simpl; [|reflexivity..].
  apply IH.
Qed.

Lemma getAllJoints_traverse fuel : forall this,
  getAllJoints fuel st this = traverse fuel st this.
Proof.
  induction fuel as [|fuel IH]; intros this; [reflexivity|].
  cbn [getAllJoints traverse].
  rewrite (foldM_ext _ (fun joints child =>
                          sub ← traverse fuel st child; Ret (joints ++ sub)))
    by (intros s a _; now rewrite IH).
  apply collect_cons.
Qed.

Lemma count_fold fuel (cs : list nat) : forall (acc : list nat) (n : nat),
  (forall child, getJointCount fuel st child
                 = (l ← getAllJoints fuel st child; Ret (List.length l))) ->
  n = List.length acc ->
  foldM (fun count child => k ← getJointCount fuel st child; Ret (count + k)%nat) cs n
  = (l ← foldM (fun joints child =>
                  sub ← getAllJoints fuel st child; Ret (joints ++ sub)) cs acc;
     Ret (List.length l)).
Proof.
  intros acc n IH. revert acc n.
  induction cs as [|c cs IHcs]; intros acc n ->; simpl; [reflexivity|].
  rewrite IH. destruct (getAllJoints fuel st c) as [sub| |]; simpl; [|reflexivity..].
  apply IHcs. now rewrite length_app.
Qed.

Lemma getJointCount_length fuel : forall this,
  getJointCount fuel st this
  = (l ← getAllJoints fuel st this; Ret (List.length l)).
Proof.
  induction fuel as [|fuel IH]; intros this; [reflexivity|].
  cbn [getJointCount getAllJoints]. now apply count_fold.
Qed.

Lemma sumLengths_app (l1 l2 : list nat) :
  sumLengths st (l1 ++ l2) = sumLengths st l1 + sumLengths st l2.
Proof.
  unfold sumLengths. induction l1 as [|a l1 IH]; simpl; [ring|].
  rewrite IH. ring.
Qed.

Lemma length_fold fuel (cs : list nat) : forall (acc : list nat) (len : R),
  (forall child l, getAllJoints fuel st child = Ret l ->
                   getChainLength fuel st child = Ret (sumLengths st l)) ->
  len = sumLengths st acc ->
  forall l,
    foldM (fun joints child =>
             sub ← getAllJoints fuel st child; Ret (joints ++ sub)) cs acc = Ret l ->
    foldM (fun len child => k ← getChainLength fuel st child; Ret (len + k)) cs len
    = Ret (sumLengths st l).
Proof.
  intros acc len IH. revert acc len.
  induction cs as [|c cs IHcs]; intros acc len -> l H; simpl in *.
  - now injection H as <-.
  - apply bind_Ret_inv in H as (acc1 & H1 & H2).
    apply bind_Ret_inv in H1 as (sub & Hsub & H1). injection H1 as <-.
    rewrite (IH _ _ Hsub). simpl.
    apply (IHcs (acc ++ sub)); [|exact H2]. now rewrite sumLengths_app.
Qed.

Lemma getChainLength_sum fuel : forall this l,
  getAllJoints fuel st this = Ret l ->
  getChainLength fuel st this = Ret (sumLengths st l).
Proof.
  induction fuel as [|fuel IH]; intros this l H; [discriminate|].
  cbn [getChainLength getAllJoints] in *.
  apply (length_fold _ _ [this]); [exact IH | | exact H].
  unfold sumLengths. simpl. ring.
Qed.

(** X22: the three walks over a subtree agree.  [Joint.getAllJoints] lists
    the joints in the same order as the chain's [getAllJointsInOrder]
    (parent first, then the subtrees of the children from left to right);
    [getJointCount] is the length of that list, and [getChainLength] is
    the sum of the segment lengths of the joints in it. *)
Theorem subtree_walks_agree (fuel : nat) (this : JointChain.t) (joint : nat) :
  getAllJoints fuel st (root this) = getAllJointsInOrder fuel this st
  /\ getJointCount fuel st joint
     = (l ← getAllJoints fuel st joint; Ret (List.length l))
  /\ (forall l, getAllJoints fuel st joint = Ret l ->
                getChainLength fuel st joint = Ret (sumLengths st l)).
Proof.
  split; [apply getAllJoints_traverse|].
  split; [apply getJointCount_length | apply getChainLength_sum].
Qed.

End Listing.

(** ** Joint.updateIK works on stale transforms *)

Section Stale.
  Import Joint.

(** A joint with its two angles blanked: what the sweep leaves alone. *)
Abbreviation still j := (set_angle 0 (set_targetAngle 0 j)).

Abbreviation sameButAngles s st :=
  (List.length s%list = List.length st%list
   /\ forall k : nat, still (s%list !!! k) = still (st%list !!! k)).

Lemma ikStep_still w e t (j : Joint.t) : still (ikStep w e t j) = still j.
Proof. destruct (ikStep_shape w e t j) as (a & ta & ->). reflexivity. Qed.

Lemma still_fields (a b : Joint.t) :
  still a = still b ->
  worldTransform a = worldTransform b /\ localTransform a = localTransform b
  /\ Joint.length a = Joint.length b /\ position a = position b
  /\ parent a = parent b /\ children a = children b
  /\ ikEnabled a = ikEnabled b /\ ikWeight a = ikWeight b.
Proof. destruct a, b. cbn. intros [= -> -> -> -> -> -> -> -> -> -> ->]. repeat split. Qed.

Lemma still_positions (a b : Joint.t) :
  still a = still b ->
  getWorldPosition a = getWorldPosition b
  /\ getEndEffectorPosition a = getEndEffectorPosition b.
Proof.
  intros H. destruct (still_fields _ _ H) as (Hw & _ & Hl & _).
  unfold getWorldPosition, getEndEffectorPosition. now rewrite Hw, Hl.
Qed.

Lemma alter_still (f : Joint.t -> Joint.t) (c : nat) (s st : Store) :
  (forall j, still (f j) = still j) ->
  sameButAngles s st -> sameButAngles (alter f c s) st.
Proof.
  intros Hf [Hlen Hk]. split; [now rewrite length_alter|].
  intros k. rewrite <- Hk.
  apply (lookup_total_alter_field (fun j => still j)). exact Hf.
Qed.

Lemma sweep_still fuel this e t (st : Store) : forall cur (s s' : Store),
  sweep fuel this e t cur s = Ret s' ->
  sameButAngles s st -> sameButAngles s' st.
Proof.
  induction fuel as [|fuel IH]; intros cur s s' H Hs.
  - destruct cur; simpl in H; [discriminate|]. now injection H as <-.
  - destruct cur as [c|]; simpl in H; [|now injection H as <-].
    destruct (negb (ikEnabled (s !!! c))); [eauto|].
    eapply IH; [exact H|]. apply alter_still; [apply ikStep_still | exact Hs].
Qed.

Lemma ikRounds_all fuel this e t threshold (st : Store) :
  threshold <= Vector2.distance (getEndEffectorPosition (st !!! this)) t ->
  forall todo start (s : Store),
    sameButAngles s st ->
    ikRounds fuel this e t threshold todo s
    = foldM (fun s (_ : nat) => sweep fuel this e t (Some this) s) (seq start todo) s.
Proof.
  intros Hfar. induction todo as [|todo IH]; intros start s Hs; [reflexivity|].
  cbn [ikRounds seq foldM].
  destruct (sweep fuel this e t (Some this) s) as [s1| |] eqn:Hsw;
    cbn [mbind outcome_bind]; [|reflexivity..].
  pose proof (sweep_still _ _ _ _ _ _ _ _ Hsw Hs) as Hs1.
  destruct (still_positions _ _ (proj2 Hs1 this)) as [_ ->].
  rewrite (proj2 (ltb_false _ _) Hfar). now apply IH.
Qed.

Lemma rounds_still fuel this e t (st : Store) (l : list nat) : forall (s s' : Store),
  foldM (fun s (_ : nat) => sweep fuel this e t (Some this) s) l s = Ret s' ->
  sameButAngles s st -> sameButAngles s' st.
Proof.
  intros s s' H Hs.
  apply (foldM_preserves (fun s : Store => sameButAngles s st) _ _ _ _ H Hs).
  intros s1 a s2 _ H1 Hsw. eapply sweep_still; eauto.
Qed.

(** X23: [Joint.updateIK] changes [angle] and [targetAngle] and nothing
    else: no transform is refreshed, so the world position and the end
    effector of every joint are where they were.  The loop therefore
    measures the same effector after every round, its convergence test
    cannot succeed, and a call that gets past the entry checks runs all of
    its [iterations] rounds. *)
Theorem updateIK_works_on_stale_transforms
    (fuel this : nat) (target : Vector2.t) (iterations : nat) (threshold : R)
    (st st' : Store) :
  updateIK fuel this target iterations threshold st = Ret st' ->
  List.length st' = List.length st
  /\ (forall k : nat,
        worldTransform (st' !!! k) = worldTransform (st !!! k)
        /\ getWorldPosition (st' !!! k) = getWorldPosition (st !!! k)
        /\ getEndEffectorPosition (st' !!! k) = getEndEffectorPosition (st !!! k)
        /\ still (st' !!! k) = still (st !!! k))
  /\ (ikEnabled (st !!! this) = true -> is_Some (parent (st !!! this)) ->
      threshold <= Vector2.distance (getEndEffectorPosition (st !!! this)) target ->
      foldM (fun s (_ : nat) =>
               sweep fuel this (getEndEffectorPosition (st !!! this)) target
                     (Some this) s)
            (seq 0 iterations) st = Ret st').
Proof.
  intros H.
  assert (Hrefl : sameButAngles st st) by (split; reflexivity).
  assert (Hall : sameButAngles st' st
                 /\ (ikEnabled (st !!! this) = true -> is_Some (parent (st !!! this)) ->
                     threshold <= Vector2.distance
                                    (getEndEffectorPosition (st !!! this)) target ->
                     foldM (fun s (_ : nat) =>
                              sweep fuel this (getEndEffectorPosition (st !!! this))
                                    target (Some this) s)
                           (seq 0 iterations) st = Ret st')).
  { unfold updateIK in H.
    destruct (ikEnabled (st !!! this)) eqn:He; cbn [negb orb] in H.
    - destruct (bool_decide (is_Some (parent (st !!! this)))) eqn:Hp;
        cbn [negb] in H.
      + destruct (JS.ltb _ threshold) eqn:Hd.
        * injection H as <-. split; [exact Hrefl|].
          intros _ _ Hfar. apply ltb_true in Hd. lra.
        * apply ltb_false in Hd.
          rewrite (ikRounds_all _ _ _ _ _ st Hd iterations 0%nat st Hrefl) in H.
          split; [|intros _ _ _; exact H].
          eapply rounds_still; eauto.
      + injection H as <-. split; [exact Hrefl|].
        intros _ Hsome. apply bool_decide_eq_false in Hp. contradiction.
    - injection H as <-. split; [exact Hrefl|]. discriminate. }
  destruct Hall as [[Hlen Hk] Hrun].
  split; [exact Hlen|]. split; [|exact Hrun].
  intros k. destruct (still_fields _ _ (Hk k)) as (Hw & _).
  destruct (still_positions _ _ (Hk k)) as [Hp He].
  auto.
Qed.

Lemma rooted_still n (st : Store) : forall cur (s : Store),
  sameButAngles s st -> rooted n s cur = rooted n st cur.
Proof.
  induction n as [|n IH]; intros cur s Hs; destruct cur as [c|]; try reflexivity.
  cbn [rooted]. destruct (still_fields _ _ (proj2 Hs c)) as (_ & _ & _ & _ & -> & _).
  now apply IH.
Qed.

Lemma sweep_returns fuel this e t (st : Store) : forall cur (s : Store),
  sameButAngles s st -> rooted fuel st cur = true ->
  exists s', sweep fuel this e t cur s = Ret s'.
Proof.
  induction fuel as [|fuel IH]; intros cur s Hs Hr.
  - destruct cur; [discriminate | simpl; eauto].
  - destruct cur as [c|]; [|simpl; eauto]. cbn [sweep rooted] in *.
    destruct (negb (ikEnabled (s !!! c))).
    + apply IH; [exact Hs|].
      now destruct (still_fields _ _ (proj2 Hs c)) as (_ & _ & _ & _ & -> & _).
    + apply IH; [apply alter_still; [apply ikStep_still | exact Hs]|].
      rewrite (lookup_total_alter_field parent) by apply ikStep_parent.
      now destruct (still_fields _ _ (proj2 Hs c)) as (_ & _ & _ & _ & -> & _).
Qed.

Lemma updateIK_returns fuel this target iterations threshold (st : Store) :
  rooted fuel st (Some this) = true ->
  exists st', updateIK fuel this target iterations threshold st = Ret st'.
Proof.
  intros Hr. unfold updateIK.
  destruct (_ || _); [eauto|]. destruct (JS.ltb _ threshold) eqn:Hd; [eauto|].
  apply ltb_false in Hd.
  rewrite (ikRounds_all _ _ _ _ _ st Hd iterations 0%nat st) by (split; reflexivity).
  destruct (foldM_returns (fun s : Store => sameButAngles s st) (fun _ : nat => True)
              (fun s (_ : nat) =>
                 sweep fuel this (getEndEffectorPosition (st !!! this)) target
                       (Some this) s)
              (seq 0 iterations) st) as (st' & H & _).
  - split; reflexivity.
  - apply Forall_forall. auto.
  - intros s _ Hs _.
    destruct (sweep_returns fuel this (getEndEffectorPosition (st !!! this)) target
                st (Some this) s Hs Hr) as [s' Hs'].
    exists s'. split; [exact Hs'|]. eapply sweep_still; eauto.
  - eauto.
Qed.

(** The child of [heavyStore] reaching for (0, 5): ten rounds are asked
    for and ten are run, although the joints never move. *)
Lemma updateIK_works_on_stale_transforms_witness :
  exists st',
    updateIK 5 1 (Vector2.mk 0 5) 10 (1 / 10) heavyStore = Ret st'
    /\ List.length st' = 2%nat
    /\ getEndEffectorPosition (st' !!! 1%nat)
       = getEndEffectorPosition (heavyStore !!! 1%nat).
Proof.
  destruct (updateIK_returns 5 1 (Vector2.mk 0 5) 10 (1 / 10) heavyStore eq_refl)
    as [st' H].
  exists st'. split; [exact H|].
  destruct (updateIK_works_on_stale_transforms 5 1 (Vector2.mk 0 5) 10 (1 / 10)
              heavyStore st' H) as (Hlen & Hk & _).
  split; [exact Hlen|]. exact (proj1 (proj2 (proj2 (Hk 1%nat)))).
Defined.

End Stale.

(** ** What kinematics never writes *)

(** A joint with everything blanked that forward or inverse kinematics
    writes: the two angles and the two transforms. *)
Abbreviation core j :=
  (Joint.set_angle 0 (Joint.set_targetAngle 0
     (Joint.set_transforms Matrix3.identity Matrix3.identity j))).

Abbreviation sameCore s st :=
  (List.length s%list = List.length st%list
   /\ forall k : nat, core (s%list !!! k) = core (st%list !!! k)).

Section Core.
  Import Joint.

Lemma core_fields (a b : Joint.t) :
  core a = core b ->
  children a = children b /\ parent a = parent b
  /\ constraints a = constraints b /\ angleWrapping a = angleWrapping b
  /\ ikEnabled a = ikEnabled b /\ Joint.length a = Joint.length b
  /\ position a = position b.
Proof. destruct a, b. cbn. intros [= -> -> -> -> -> -> -> -> ->]. repeat split. Qed.

Lemma sameCore_refl (st : Store) : sameCore st st.
Proof. split; reflexivity. Qed.

Lemma sameCore_trans (a b c : Store) : sameCore a b -> sameCore b c -> sameCore a c.
Proof. intros [H1 H2] [H3 H4]. split; [congruence|]. intros k. now rewrite H2. Qed.

Lemma alter_core (f : Joint.t -> Joint.t) (c : nat) (s st : Store) :
  (forall j, core (f j) = core j) ->
  sameCore s st -> sameCore (alter f c s) st.
Proof.
  intros Hf [Hlen Hk]. split; [now rewrite length_alter|].
  intros k. rewrite <- Hk.
  apply (lookup_total_alter_field (fun j => core j)). exact Hf.
Qed.

Lemma updateTransform_core (st : Store) fuel : forall this (s s' : Store),
  updateTransform fuel this s = Ret s' -> sameCore s st -> sameCore s' st.
Proof.
  induction fuel as [|fuel IH]; intros this s s' H Hs; simpl in H; [discriminate|].
  apply (foldM_preserves (fun x : Store => sameCore x st) _ _ _ _ H).
  - apply alter_core; [|exact Hs]. intros j. reflexivity.
  - intros s1 c s2 _ H1 Hstep. eapply IH; eauto.
Qed.

Lemma forallb_pointwise {A : Type} (f g : A -> bool) (l : list A) :
  (forall x, f x = g x) -> forallb f l = forallb g l.
Proof. intros H. induction l as [|a l IH]; simpl; [reflexivity|]. now rewrite H, IH. Qed.

Lemma shallow_core n (st : Store) : forall c (s : Store),
  sameCore s st -> shallow n s c = shallow n st c.
Proof.
  induction n as [|n IH]; intros c s Hs; [reflexivity|]. cbn [shallow].
  destruct (core_fields _ _ (proj2 Hs c)) as (-> & _).
  apply forallb_pointwise. intros x. now apply IH.
Qed.

Lemma updateTransform_returns (st : Store) n : forall this (s : Store),
  sameCore s st -> shallow n st this = true ->
  exists s', updateTransform n this s = Ret s'.
Proof.
  induction n as [|n IH]; intros this s Hs Hsh; [discriminate|].
  cbn [updateTransform shallow] in *.
  destruct (core_fields _ _ (proj2 Hs this)) as (Hch & _). rewrite Hch.
  rewrite forallb_forall in Hsh.
  destruct (foldM_returns (fun x : Store => sameCore x st)
              (fun c => shallow n st c = true)
              (fun x child => updateTransform n child x)
              (children (st !!! this))
              (alter (set_transforms
                        (Matrix3.multiply (Matrix3.rotation (angle (s !!! this)))
                           (Matrix3.translation (Vector2.x (position (s !!! this)))
                              (Vector2.y (position (s !!! this)))))
                        match parent (s !!! this) with
                        | Some p =>
                            Matrix3.multiply (worldTransform (s !!! p))
                              (Matrix3.multiply (Matrix3.rotation (angle (s !!! this)))
                                 (Matrix3.translation (Vector2.x (position (s !!! this)))
                                    (Vector2.y (position (s !!! this)))))
                        | None =>
                            Matrix3.multiply (Matrix3.rotation (angle (s !!! this)))
                              (Matrix3.translation (Vector2.x (position (s !!! this)))
                                 (Vector2.y (position (s !!! this))))
                        end) this s)) as (s' & H & _).
  - apply alter_core; [|exact Hs]. intros j. reflexivity.
  - apply Forall_forall. intros c Hc. apply Hsh. now apply list_elem_of_In.
  - intros x c Hx Hc. destruct (IH c x Hx Hc) as [x' Hx'].
    exists x'. split; [exact Hx'|]. eapply updateTransform_core; eauto.
  - eauto.
Qed.

Lemma pose_lookup (s st : Store) (k : nat) :
  pose s = pose st ->
  angle (s !!! k) = angle (st !!! k) /\ constraints (s !!! k) = constraints (st !!! k).
Proof.
  unfold pose. intros Hp.
  assert (Hi : (fun j => (angle j, constraints j)) <$> s !! k
               = (fun j => (angle j, constraints j)) <$> st !! k)
    by (rewrite <- !list_lookup_fmap; now rewrite Hp).
  rewrite !list_lookup_total_alt.
  destruct (s !! k) as [a|], (st !! k) as [b|]; simpl in *; try discriminate.
  - injection Hi as -> ->. auto.
  - auto.
Qed.

End Core.

(** ** updateFK: angle wrapping and constraints *)

Section ForwardKinematics.
  Import Joint.

Lemma fkStep_core fk now dt (j : Joint.t) : core (fkStep fk now dt j) = core j.
Proof.
  unfold fkStep, updateAnimation. cbv zeta.
  repeat match goal with
         | |- context [if ?b then _ else _] => destruct b
         end; reflexivity.
Qed.

Lemma fkStep_angle fk now dt (j : Joint.t) :
  (enabled (constraints j) = true ->
   minAngle (constraints j) <= maxAngle (constraints j) ->
   minAngle (constraints j) <= angle (fkStep fk now dt j) <= maxAngle (constraints j))
  /\ (enabled (constraints j) = false -> angleWrapping j = true ->
      0 <= angle (fkStep fk now dt j) < 2 * PI)
  /\ (enabled (constraints j) = false -> angleWrapping j = false ->
      - PI <= angle (fkStep fk now dt j) <= PI)
  /\ (enabled (constraints j) = true -> angleWrapping j = true ->
      0 <= maxAngle (constraints j) -> 0 <= angle (fkStep fk now dt j)).
Proof.
  unfold fkStep.
  set (j1 := if Animation.enabled (animation fk) then _ else j).
  assert (H1 : constraints j1 = constraints j /\ angleWrapping j1 = angleWrapping j).
  { unfold j1, updateAnimation.
    destruct (Animation.enabled (animation fk)),
      (Oscillation.enabled (Animation.oscillation (animation fk))),
      (Rotation.enabled (Animation.rotation (animation fk)));
      split; reflexivity. }
  set (j2 := if JS.gtb _ _ then _ else j1).
  assert (H2 : constraints j2 = constraints j /\ angleWrapping j2 = angleWrapping j).
  { unfold j2. destruct (JS.gtb _ _); [cbn|]; exact H1. }
  destruct H2 as [Hc Hw]. rewrite Hw.
  repeat split.
  - destruct (angleWrapping j); cbn [constraints set_angle angle]; rewrite Hc, H;
      cbn [angle set_angle]; apply clamp_range; assumption.
  - destruct (angleWrapping j); cbn [constraints set_angle angle]; rewrite Hc, H;
      cbn [angle set_angle]; apply clamp_range; assumption.
  - rewrite H0. cbn [constraints set_angle]. rewrite Hc, H. cbn [angle].
    apply wrapAngle_range.
  - rewrite H0. cbn [constraints set_angle]. rewrite Hc, H. cbn [angle].
    apply wrapAngle_range.
  - rewrite H0. cbn [constraints set_angle]. rewrite Hc, H. cbn [angle].
    apply normalizeAngle_exit.
  - rewrite H0. cbn [constraints set_angle]. rewrite Hc, H. cbn [angle].
    apply normalizeAngle_exit.
  - intros Hen Hwrap Hmax.
    rewrite Hwrap. cbn [constraints set_angle]. rewrite Hc, Hen. cbn [angle].
    pose proof (wrapAngle_range (angle j2)) as Hwr.
    unfold MathUtils.clamp.
    eapply Rle_trans; [|apply Rmax_r]. apply Rmin_glb; [assumption | apply Hwr].
Qed.

Lemma updateFK_core (st : Store) fuel fk now dt this (s s' : Store) :
  updateFK fuel fk now dt this s = Ret s' -> sameCore s st -> sameCore s' st.
Proof.
  unfold updateFK. intros H Hs. destruct (negb (fkEnabled fk)).
  - now injection H as <-.
  - eapply updateTransform_core; [exact H|].
    apply alter_core; [apply fkStep_core | exact Hs].
Qed.

Lemma updateFK_angles fuel fk now dt this (s s' : Store) :
  updateFK fuel fk now dt this s = Ret s' ->
  (this < List.length s)%nat -> fkEnabled fk = true ->
  angle (s' !!! this) = angle (fkStep fk now dt (s !!! this))
  /\ forall k, k <> this -> angle (s' !!! k) = angle (s !!! k).
Proof.
  unfold updateFK. intros H Hlt Hen. rewrite Hen in H. cbn [negb] in H.
  apply updateTransform_pose in H.
  split.
  - rewrite (proj1 (pose_lookup _ _ this H)).
    now rewrite list_lookup_total_alter_eq.
  - intros k Hk. rewrite (proj1 (pose_lookup _ _ k H)).
    now rewrite list_lookup_total_alter_ne by congruence.
Qed.

(** X24: what [updateFK] leaves in [angle].  With FK switched off for the
    joint nothing happens.  Otherwise the angle of the joint ends within
    its constraint range when constraints are enabled (and the range is
    not empty), and else in [0, 2 PI) with angle wrapping on and in
    [-PI, PI] with angle wrapping off; the angle of no other joint
    changes, and constraints are only read.  Wrapping comes before
    clamping: with both on and a range that reaches 0 or above, the angle
    never ends below 0, whatever the lower bound of the range. *)
Theorem updateFK_wraps_and_clamps (fuel : nat) (fk : Fk) (now deltaTime : R)
    (this : nat) (st : Store) :
  (fkEnabled fk = false -> updateFK fuel fk now deltaTime this st = Ret st)
  /\ (forall st',
        updateFK fuel fk now deltaTime this st = Ret st' ->
        (this < List.length st)%nat -> fkEnabled fk = true ->
        let j := st !!! this in
        let j' := st' !!! this in
        constraints j' = constraints j
        /\ (enabled (constraints j) = true ->
            minAngle (constraints j) <= maxAngle (constraints j) ->
            minAngle (constraints j) <= angle j' <= maxAngle (constraints j))
        /\ (enabled (constraints j) = false -> angleWrapping j = true ->
            0 <= angle j' < 2 * PI)
        /\ (enabled (constraints j) = false -> angleWrapping j = false ->
            - PI <= angle j' <= PI)
        /\ (enabled (constraints j) = true -> angleWrapping j = true ->
            0 <= maxAngle (constraints j) -> 0 <= angle j')
        /\ forall k, k <> this -> angle (st' !!! k) = angle (st !!! k)).
Proof.
  split.
  - intros H. unfold updateFK. now rewrite H.
  - intros st' H Hlt Hen j j'.
    destruct (updateFK_angles _ _ _ _ _ _ _ H Hlt Hen) as [Ha Hk].
    pose proof (updateFK_core st _ _ _ _ _ _ _ H (sameCore_refl st)) as [_ Hc].
    destruct (core_fields _ _ (Hc this)) as (_ & _ & Hcons & _).
    split; [exact Hcons|]. unfold j'. rewrite Ha.
    destruct (fkStep_angle fk now deltaTime j) as (H1 & H2 & H3 & H4).
    auto 10.
Qed.

Lemma updateFK_returns (st : Store) n fk now dt this (s : Store) :
  sameCore s st -> shallow n st this = true ->
  exists s', updateFK n fk now dt this s = Ret s'.
Proof.
  intros Hs Hsh. unfold updateFK. destruct (negb (fkEnabled fk)); [eauto|].
  apply (updateTransform_returns st); [|exact Hsh].
  apply alter_core; [apply fkStep_core | exact Hs].
Qed.

(** Joint_1 of the default chain, its constraints enabled with the range
    of plus and minus 0.8 PI. *)
Lemma updateFK_wraps_and_clamps_witness :
  exists st',
    updateFK 4 newFk 0 (1 / 60) 1 JointChain.defaultStore = Ret st'
    /\ - PI * (8 / 10) <= angle (st' !!! 1%nat) <= PI * (8 / 10)
    /\ 0 <= angle (st' !!! 1%nat).
Proof.
  destruct (updateFK_returns JointChain.defaultStore 4 newFk 0 (1 / 60) 1
              JointChain.defaultStore (sameCore_refl _) eq_refl) as [st' H].
  exists st'. split; [exact H|].
  destruct (updateFK_wraps_and_clamps 4 newFk 0 (1 / 60) 1 JointChain.defaultStore)
    as [_ Hall].
  assert (Hlt : (1 < List.length JointChain.defaultStore)%nat) by (simpl; lia).
  destruct (Hall st' H Hlt eq_refl) as (_ & Hin & _ & _ & Hpos & _).
  pose proof PI_RGT_0 as Hpi. split.
  - apply Hin; [reflexivity|].
    change (- PI * (8 / 10) <= PI * (8 / 10)). lra.
  - apply Hpos; [reflexivity | reflexivity |].
    change (0 <= PI * (8 / 10)). lra.
Defined.

End ForwardKinematics.

(** ** JointChain.update: one frame *)

Lemma foldM_establishes_inv {A S : Type} (I P : S -> Prop)
    (f : S -> A -> outcome S) (l : list A) (s s' : S) (a : A) :
  foldM f l s = Ret s' -> a ∈ l -> I s ->
  (forall s b s', I s -> f s b = Ret s' -> I s') ->
  (forall s s', I s -> f s a = Ret s' -> P s') ->
  (forall s b s', I s -> P s -> f s b = Ret s' -> P s') ->
  I s' /\ P s'.
Proof.
  intros H Ha Hs HI Hest Hkeep. revert s H Ha Hs.
  induction l as [|b l IH]; intros s H Ha Hs; simpl in H; [inversion Ha|].
  apply bind_Ret_inv in H as (s1 & H1 & H2).
  apply elem_of_cons in Ha as [-> | Ha].
  - apply (foldM_preserves (fun x => I x /\ P x) _ _ _ _ H2).
    + split; [eapply HI | eapply Hest]; eauto.
    + intros x c x' _ [Hx Px] Hstep. split; [eapply HI | eapply Hkeep]; eauto.
  - apply (IH s1 H2 Ha). eapply HI; eauto.
Qed.

Lemma elem_of_zip_seq {A : Type} (l : list A) (x : A) :
  x ∈ l -> exists i : nat, (i, x) ∈ zip (seq 0 (length l)) l.
Proof.
  intros [i Hi]%list_elem_of_lookup. exists i.
  apply list_elem_of_lookup. exists i.
  rewrite lookup_zip_with, lookup_seq_lt by (eapply lookup_lt_Some; eauto).
  simpl. now rewrite Hi.
Qed.

Section Frame.
  Import Joint JointChain.

Lemma solveAnalytical_pose fuel this endEffector (st st' : Store) :
  solveAnalytical fuel this endEffector st = Ret st' -> pose st' = pose st.
Proof.
  unfold solveAnalytical. intros H.
  apply bind_Ret_inv in H as (joints & _ & H).
  destruct joints as [|j0 [|j1 [|j2 rest]]]; try (now injection H as <-).
  destruct (JS.gtb _ _); [|destruct (JS.ltb _ _)]; injection H as <-;
    now rewrite !pose_alter by apply setAngle_pose.
Qed.

Lemma chain_updateIK_pose fuel this solverType (st st' : Store) :
  JointChain.updateIK fuel this solverType st = Ret st' -> pose st' = pose st.
Proof.
  unfold JointChain.updateIK. intros H.
  apply bind_Ret_inv in H as (e & _ & H).
  destruct (String.eqb solverType "ccd"); [eapply solveCCD_pose; eauto|].
  destruct (String.eqb solverType "fabrik"); [eapply solveFABRIK_pose; eauto|].
  destruct (String.eqb solverType "jacobian"); [eapply solveJacobian_pose; eauto|].
  destruct (String.eqb solverType "analytical"); [eapply solveAnalytical_pose; eauto|].
  now injection H as <-.
Qed.

Lemma updateFK_other fuel fk now dt this (s s' : Store) (k : nat) :
  updateFK fuel fk now dt this s = Ret s' -> k <> this ->
  angle (s' !!! k) = angle (s !!! k).
Proof.
  unfold updateFK. intros H Hk. destruct (negb (fkEnabled fk)).
  - now injection H as <-.
  - apply updateTransform_pose in H.
    rewrite (proj1 (pose_lookup _ _ k H)).
    now rewrite list_lookup_total_alter_ne by congruence.
Qed.

(** X25: a frame re-establishes the constraints.  After
    [JointChain.update], every joint of the tree that has FK switched on
    and its constraints enabled, with a range that is not empty, has its
    angle within the range, whatever the angles were before, whether IK is
    on or off and whichever solver is selected: the FK pass clamps each
    joint, and no solver of the chain writes [angle] or the constraints. *)
Theorem update_restores_constraints (fuel : nat) (this : JointChain.t)
    (ikEnabled : bool) (solverType : string) (fk : nat -> Fk) (clock : nat -> R)
    (deltaTime : R) (st st' : Store) (joints : list nat) (j : nat) :
  update fuel this ikEnabled solverType fk clock deltaTime st = Ret st' ->
  getAllJoints fuel st (root this) = Ret joints ->
  j ∈ joints -> (j < List.length st)%nat ->
  fkEnabled (fk j) = true ->
  enabled (constraints (st !!! j)) = true ->
  minAngle (constraints (st !!! j)) <= maxAngle (constraints (st !!! j)) ->
  constraints (st' !!! j) = constraints (st !!! j)
  /\ minAngle (constraints (st !!! j)) <= angle (st' !!! j)
                                       <= maxAngle (constraints (st !!! j)).
Proof.
  intros H Hjoints Hj Hlt Hfk Hen Hle. unfold update in H.
  rewrite Hjoints in H. cbn [mbind outcome_bind] in H.
  apply bind_Ret_inv in H as (s1 & Hfold & Hik).
  destruct (elem_of_zip_seq joints j Hj) as [i Hi].
  destruct (foldM_establishes_inv
              (fun s : Store => sameCore s st)
              (fun s : Store =>
                 minAngle (constraints (st !!! j)) <= angle (s !!! j)
                 <= maxAngle (constraints (st !!! j)))
              _ _ _ _ _ Hfold Hi (sameCore_refl st)) as [Hcore Hin].
  - intros s [i' j'] s' Hs Hstep. eapply updateFK_core; eauto.
  - intros s s' Hs Hstep. cbn in Hstep.
    destruct (core_fields _ _ (proj2 Hs j)) as (_ & _ & Hc & _).
    destruct (updateFK_angles _ _ _ _ _ _ _ Hstep) as [-> _];
      [rewrite (proj1 Hs); exact Hlt | exact Hfk |].
    rewrite <- Hc. apply fkStep_angle; rewrite Hc; assumption.
  - intros s [i' j'] s' Hs Hp Hstep. cbn in Hstep.
    destruct (decide (j' = j)) as [-> | Hne].
    + destruct (core_fields _ _ (proj2 Hs j)) as (_ & _ & Hc & _).
      destruct (updateFK_angles _ _ _ _ _ _ _ Hstep) as [-> _];
        [rewrite (proj1 Hs); exact Hlt | exact Hfk |].
      rewrite <- Hc. apply fkStep_angle; rewrite Hc; assumption.
    + rewrite (updateFK_other _ _ _ _ _ _ _ j Hstep) by congruence. exact Hp.
  - assert (Hpose : pose st' = pose s1).
    { destruct ikEnabled; [eapply chain_updateIK_pose; eauto | now injection Hik as <-]. }
    destruct (pose_lookup _ _ j Hpose) as [-> ->].
    destruct (core_fields _ _ (proj2 Hcore j)) as (_ & _ & Hc & _).
    split; [exact Hc | exact Hin].
Qed.

Lemma getAllJoints_core (st : Store) n : forall c (s : Store),
  sameCore s st -> getAllJoints n s c = getAllJoints n st c.
Proof.
  induction n as [|n IH]; intros c s Hs; [reflexivity|]. cbn [getAllJoints].
  destruct (core_fields _ _ (proj2 Hs c)) as (-> & _).
  apply foldM_ext. intros l x _. now rewrite IH.
Qed.

Lemma getAllJoints_returns (st : Store) n : forall c,
  shallow n st c = true -> exists l, getAllJoints n st c = Ret l.
Proof.
  induction n as [|n IH]; intros c H; [discriminate|].
  cbn [getAllJoints shallow] in *. rewrite forallb_forall in H.
  destruct (foldM_returns (fun _ : list nat => True)
              (fun child => shallow n st child = true)
              (fun joints child => sub ← getAllJoints n st child; Ret (joints ++ sub))
              (children (st !!! c)) [c] I) as (l & Hl & _).
  - apply Forall_forall. intros x Hx. apply H. now apply list_elem_of_In.
  - intros l x _ Hx. destruct (IH x Hx) as [sub ->]. simpl. eauto.
  - eauto.
Qed.

Lemma shallow_mono (st : Store) n : forall c,
  shallow n st c = true -> shallow (S n) st c = true.
Proof.
  induction n as [|n IHn]; intros c H; [discriminate|].
  cbn [shallow] in *. rewrite forallb_forall in *. intros x Hx. apply IHn, H, Hx.
Qed.

Lemma getAllJoints_shallow (st : Store) n : forall c l,
  shallow n st c = true -> getAllJoints n st c = Ret l ->
  forall x, x ∈ l -> shallow n st x = true.
Proof.
  induction n as [|n IHn]; intros c l Hc Hl x Hx; [discriminate|].
  cbn [getAllJoints] in Hl.
  assert (Hkids : forall child, child ∈ children (st !!! c) -> shallow n st child = true).
  { intros child Hchild. cbn [shallow] in Hc. rewrite forallb_forall in Hc.
    apply Hc. now apply list_elem_of_In. }
  revert Hx. apply (foldM_preserves
    (fun l : list nat => x ∈ l -> shallow (S n) st x = true) _ _ _ _ Hl).
  - intros ->%list_elem_of_singleton. exact Hc.
  - intros l1 child l2 Hchild Hl1 Hstep.
    apply bind_Ret_inv in Hstep as (sub & Hsub' & Hstep). injection Hstep as <-.
    intros [Hin | Hin]%elem_of_app; [auto|].
    apply shallow_mono. eapply IHn; eauto.
Qed.

Lemma update_ccd_returns fuel (this : JointChain.t) ikEnabled fk clock dt (st : Store) :
  shallow fuel st (root this) = true ->
  exists st', update fuel this ikEnabled "ccd" fk clock dt st = Ret st'.
Proof.
  intros Hsh. unfold update.
  destruct (getAllJoints_returns st fuel _ Hsh) as [joints Hjoints].
  rewrite Hjoints. cbn [mbind outcome_bind].
  destruct (foldM_returns (fun s : Store => sameCore s st)
              (fun p : nat * nat => shallow fuel st p.2 = true)
              (fun st '(i, joint) => updateFK fuel (fk joint) (clock i) dt joint st)
              (zip (seq 0 (List.length joints)) joints) st (sameCore_refl st))
    as (s1 & Hs1 & Hcore).
  - apply Forall_forall. intros [i x] Hix. cbn.
    apply (getAllJoints_shallow st fuel (root this) joints Hsh Hjoints).
    apply elem_of_zip_r in Hix. exact Hix.
  - intros s [i x] Hs Hx. cbn in Hx |- *.
    destruct (updateFK_returns st fuel (fk x) (clock i) dt x s Hs Hx) as [s' Hs'].
    exists s'. split; [exact Hs'|]. eapply updateFK_core; eauto.
  - rewrite Hs1. cbn [mbind outcome_bind]. destruct ikEnabled; [|eauto].
    unfold JointChain.updateIK.
    rewrite (getDeepestJoint_returns s1 fuel (root this))
      by (rewrite (shallow_core fuel st) by exact Hcore; exact Hsh).
    cbn [mbind outcome_bind String.eqb Ascii.eqb Bool.eqb].
    unfold solveCCD, getAllJointsInOrder.
    rewrite <- getAllJoints_traverse, (getAllJoints_core st) by exact Hcore.
    rewrite Hjoints. cbn [mbind outcome_bind]. eauto.
Qed.

(** One frame of the default chain, solving with CCD: Joint_1 ends within
    plus and minus 0.8 PI. *)
Lemma update_restores_constraints_witness :
  exists st',
    update 4 defaultChain true "ccd" (fun _ => newFk) (fun _ => 0) (1 / 60)
           defaultStore = Ret st'
    /\ - PI * (8 / 10) <= angle (st' !!! 1%nat) <= PI * (8 / 10).
Proof.
  destruct (update_ccd_returns 4 defaultChain true (fun _ => newFk) (fun _ => 0)
              (1 / 60) defaultStore eq_refl) as [st' H].
  exists st'. split; [exact H|].
  assert (Hj : getAllJoints 4 defaultStore (root defaultChain)
               = Ret [0; 1; 2; 3]%nat) by reflexivity.
  assert (Hin : 1%nat ∈ [0; 1; 2; 3]%nat) by set_solver.
  assert (Hlt : (1 < List.length defaultStore)%nat) by (simpl; lia).
  assert (Hle : minAngle (constraints (defaultStore !!! 1%nat))
                <= maxAngle (constraints (defaultStore !!! 1%nat))).
  { change (- PI * (8 / 10) <= PI * (8 / 10)). pose proof PI_RGT_0. lra. }
  exact (proj2 (update_restores_constraints 4 defaultChain true "ccd"
                  (fun _ => newFk) (fun _ => 0) (1 / 60) defaultStore st'
                  [0; 1; 2; 3]%nat 1 H Hj Hin Hlt eq_refl eq_refl Hle)).
Defined.

End Frame.

(** ** The analytical solver: the elbow *)

Section Elbow.
  Import Joint JointChain.

Lemma twoSegment_distance (origin : Vector2.t) (l1 l2 a1 a2 d : R) :
  0 <= d ->
  l1 * l1 + l2 * l2 + 2 * l1 * l2 * cos a2 = d * d ->
  Vector2.distance origin (twoSegmentEnd origin l1 l2 a1 a2) = d.
Proof.
  intros Hd Hcos. unfold Vector2.distance, twoSegmentEnd, Vector2.magnitude.
  cbn [Vector2.subtract Vector2.add Vector2.x Vector2.y].
  rewrite <- (sqrt_square d Hd). f_equal. rewrite <- Hcos.
  replace (cos a2) with (cos (a1 + a2 - a1)) by (f_equal; ring).
  rewrite cos_minus.
  pose proof (sin2_cos2 a1) as H1. pose proof (sin2_cos2 (a1 + a2)) as H2.
  unfold Rsqr in *. nra.
Qed.

Lemma targetAngle_asked a (f : Joint.t -> Joint.t) (j0 j1 : nat) (st : Store) :
  (j1 < List.length st)%nat -> angleWrapping (st !!! j1) = true ->
  (forall j, angleWrapping (f j) = angleWrapping j) ->
  targetAngle (alter (setAngle a) j1 (alter f j0 st) !!! j1) = a.
Proof.
  intros Hlt Hwrap Hf.
  rewrite list_lookup_total_alter_eq by (rewrite length_alter; exact Hlt).
  unfold setAngle.
  rewrite (lookup_total_alter_field angleWrapping) by exact Hf.
  now rewrite Hwrap.
Qed.

(** X26: the elbow angle of the analytical solver is right.  For a chain
    of two joints with positive lengths and the target within reach
    ([|l1 - l2| <= d <= l1 + l2]), the angle it asks of the second joint
    has the cosine the law of cosines demands, so that a planar arm of the
    two segments bent by it ends at exactly the target's distance from
    its origin, whatever the first angle. *)
Theorem solveAnalytical_elbow_distance (fuel : nat) (this : JointChain.t)
    (endEffector : nat) (st st' : Store) (j0 j1 : nat) :
  getAllJointsInOrder fuel this st = Ret [j0; j1] ->
  solveAnalytical fuel this endEffector st = Ret st' ->
  (j1 < List.length st)%nat -> angleWrapping (st !!! j1) = true ->
  let l1 := Joint.length (st !!! j0) in
  let l2 := Joint.length (st !!! j1) in
  let d := Vector2.distance (getWorldPosition (st !!! root this)) (target this) in
  0 < l1 -> 0 < l2 -> Rabs (l1 - l2) <= d <= l1 + l2 ->
  cos (targetAngle (st' !!! j1)) = (d * d - l1 * l1 - l2 * l2) / (2 * l1 * l2)
  /\ forall origin a1,
       Vector2.distance origin
         (twoSegmentEnd origin l1 l2 a1 (targetAngle (st' !!! j1))) = d.
Proof.
  intros Hjoints H Hlt Hwrap l1 l2 d Hl1 Hl2 [Hlo Hhi].
  unfold solveAnalytical in H. rewrite Hjoints in H.
  cbn [mbind outcome_bind] in H. fold l1 l2 d in H.
  rewrite (proj2 (gtb_false d (l1 + l2)) Hhi) in H.
  rewrite (proj2 (ltb_false d (Rabs (l1 - l2))) Hlo) in H.
  injection H as <-.
  set (c2 := (d * d - l1 * l1 - l2 * l2) / (2 * l1 * l2)).
  assert (Hd : 0 <= d) by (pose proof (Rabs_pos (l1 - l2)); lra).
  assert (Hsq : (l1 - l2) * (l1 - l2) <= d * d).
  { replace ((l1 - l2) * (l1 - l2)) with (Rabs (l1 - l2) * Rabs (l1 - l2)).
    - pose proof (Rabs_pos (l1 - l2)). nra.
    - unfold Rabs. destruct (Rcase_abs _); ring. }
  assert (Hc2 : -1 <= c2 <= 1).
  { assert (Hp : 0 < 2 * l1 * l2) by nra.
    assert (Hq : c2 * (2 * l1 * l2) = d * d - l1 * l1 - l2 * l2)
      by (unfold c2; field; lra).
    split; apply (Rmult_le_reg_r (2 * l1 * l2)); try exact Hp; rewrite Hq; nra. }
  rewrite (targetAngle_asked _ _ j0 j1 st Hlt Hwrap) by reflexivity.
  fold c2. rewrite clamp_id by exact Hc2.
  assert (Hcos : cos (acos c2) = c2) by (apply cos_acos; exact Hc2).
  split; [exact Hcos|].
  intros origin a1. apply twoSegment_distance; [exact Hd|].
  rewrite Hcos. unfold c2. field. lra.
Qed.

(** The arm of lengths 100 and 80 with the target at distance 120. *)
Lemma solveAnalytical_elbow_distance_witness :
  exists st',
    solveAnalytical 5 twoJointChain 1 twoJointStore = Ret st'
    /\ forall origin a1,
         Vector2.distance origin
           (twoSegmentEnd origin 100 80 a1 (targetAngle (st' !!! 1%nat))) = 120.
Proof.
  eexists. split; [exact solveAnalytical_twoJoint|].
  assert (Hlt : (1 < List.length twoJointStore)%nat) by (simpl; lia).
  assert (H1 : 0 < Joint.length (twoJointStore !!! 0%nat))
    by (change (0 < 100); lra).
  assert (H2 : 0 < Joint.length (twoJointStore !!! 1%nat))
    by (change (0 < 80); lra).
  assert (H3 : Rabs (Joint.length (twoJointStore !!! 0%nat)
                     - Joint.length (twoJointStore !!! 1%nat))
               <= Vector2.distance
                    (getWorldPosition (twoJointStore !!! root twoJointChain))
                    (target twoJointChain)
               <= Joint.length (twoJointStore !!! 0%nat)
                  + Joint.length (twoJointStore !!! 1%nat)).
  { change (root twoJointChain) with 0%nat. rewrite twoJoint_targetDist.
    change (Rabs (100 - 80) <= 120 <= 100 + 80).
    rewrite Rabs_pos_eq; lra. }
  pose proof (proj2 (solveAnalytical_elbow_distance 5 twoJointChain 1 twoJointStore _
                       0 1 eq_refl solveAnalytical_twoJoint Hlt eq_refl H1 H2 H3))
    as Hall.
  change (root twoJointChain) with 0%nat in Hall.
  rewrite twoJoint_targetDist in Hall. exact Hall.
Defined.

End Elbow.

(** ** updateTransform: the transforms of a tree *)

(** The local transform of a joint: its rotation, then its offset. *)
Abbreviation localOf j :=
  (Matrix3.multiply (Matrix3.rotation (Joint.angle j))
     (Matrix3.translation (Vector2.x (Joint.position j))
                          (Vector2.y (Joint.position j)))).

(** A joint with its two transforms blanked. *)
Abbreviation blank j :=
  (Joint.set_transforms Matrix3.identity Matrix3.identity j).

Lemma collect_inv {A : Type} (T : A -> outcome (list nat)) (cs : list A) :
  forall (acc l : list nat),
    foldM (fun joints child => sub ← T child; Ret (joints ++ sub)) cs acc = Ret l ->
    exists subs, Forall2 (fun c sub => T c = Ret sub) cs subs
                 /\ l = acc ++ concat subs.
Proof.
  induction cs as [|c cs IH]; intros acc l H; simpl in H.
  - injection H as <-. exists []. split; [constructor | now rewrite app_nil_r].
  - apply bind_Ret_inv in H as (acc1 & H1 & H2).
    apply bind_Ret_inv in H1 as (sub & Hsub & H1). injection H1 as <-.
    destruct (IH _ _ H2) as (subs & HF & ->).
    exists (sub :: subs). split; [now constructor|]. simpl. now rewrite app_assoc.
Qed.

Section TreeTransforms.
  Import Joint.

Lemma blank_fields (a b : Joint.t) :
  blank a = blank b ->
  angle a = angle b /\ position a = position b
  /\ children a = children b /\ parent a = parent b /\ core a = core b.
Proof. destruct a, b. cbn. intros [= -> -> -> -> -> -> -> -> -> -> -> ->]. repeat split. Qed.

Lemma blank_transforms (a b : Joint.t) :
  blank a = blank b -> localTransform a = localTransform b ->
  worldTransform a = worldTransform b -> a = b.
Proof. destruct a, b. cbn. intros [= -> -> -> -> -> -> -> -> -> -> -> ->] -> ->. reflexivity. Qed.

Lemma getAllJoints_S fuel (s : Store) this :
  getAllJoints (S fuel) s this
  = foldM (fun joints child => sub ← getAllJoints fuel s child; Ret (joints ++ sub))
          (children (s !!! this)) [this].
Proof. reflexivity. Qed.

Lemma updateTransform_S fuel this (s : Store) :
  updateTransform (S fuel) this s
  = foldM (fun x child => updateTransform fuel child x) (children (s !!! this))
      (alter (set_transforms (localOf (s !!! this))
                match parent (s !!! this) with
                | Some p => Matrix3.multiply (worldTransform (s !!! p))
                                             (localOf (s !!! this))
                | None => localOf (s !!! this)
                end) this s).
Proof. reflexivity. Qed.

Lemma getAllJoints_head fuel (s : Store) c sub :
  getAllJoints fuel s c = Ret sub -> c ∈ sub.
Proof.
  destruct fuel; [discriminate|]. rewrite getAllJoints_S. intros H.
  destruct (collect_inv _ _ _ _ H) as (subs & _ & ->). left.
Qed.

Lemma affine_localOf (j : Joint.t) : Matrix3.affine (localOf j).
Proof. apply affine_multiply; [apply affine_rotation | apply affine_translation]. Qed.

End TreeTransforms.

Section TreeLaw.
  Import Joint.

(** What holds of the joints in [dn] while [updateTransform] on [this]
    works through the children: [x] is the store so far, [s] the store at
    the call, [W] the world transform given to [this]. *)
Abbreviation treeInv s this W dn x :=
  (List.length x%list = List.length s%list
   /\ (forall k : nat, k ∉ dn -> x%list !!! k = s%list !!! k)
   /\ (forall k : nat, blank (x%list !!! k) = blank (s%list !!! k))
   /\ (forall k : nat, k ∈ dn ->
         localTransform (x%list !!! k) = localOf (s%list !!! k)
         /\ Matrix3.affine (worldTransform (x%list !!! k)))
   /\ worldTransform (x%list !!! this) = W
   /\ (forall k : nat, k ∈ dn -> k <> this ->
         exists p : nat, parent (s%list !!! k) = Some p /\ p ∈ dn
           /\ worldTransform (x%list !!! k)
              = Matrix3.multiply (worldTransform (x%list !!! p))
                                 (localOf (s%list !!! k)))).

Abbreviation worldOf s this :=
  (match parent (s%list !!! this) with
   | Some p => Matrix3.multiply (worldTransform (s%list !!! p)) (localOf (s%list !!! this))
   | None => localOf (s%list !!! this)
   end).

Lemma updateTransform_law fuel : forall (this : nat) (s s' : Store) (l : list nat),
  getAllJoints fuel s this = Ret l -> NoDup l ->
  (forall k c, k ∈ l -> c ∈ children (s !!! k) -> parent (s !!! c) = Some k) ->
  (forall k, k ∈ l -> (k < List.length s)%nat) ->
  match parent (s !!! this) with
  | Some p => Matrix3.affine (worldTransform (s !!! p))
  | None => True
  end ->
  updateTransform fuel this s = Ret s' ->
  treeInv s this (worldOf s this) l s'.
Proof.
  induction fuel as [|fuel IH]; intros this s s' l Hl Hnd Hcons Hrange Haff H;
    [discriminate|].
  rewrite getAllJoints_S in Hl. rewrite updateTransform_S in H.
  destruct (collect_inv _ _ _ _ Hl) as (subs & HF & ->).
  set (W := worldOf s this) in *.
  set (s1 := alter (set_transforms (localOf (s !!! this)) W) this s) in H.
  assert (Hthis : (this < List.length s)%nat) by (apply Hrange; left).
  assert (HW : Matrix3.affine W).
  { unfold W. destruct (parent (s !!! this)) as [p|];
      [apply affine_multiply; [exact Haff|] |]; apply affine_localOf. }
  assert (H1 : treeInv s this W [this] s1).
  { unfold s1. split; [now rewrite length_alter|].
    split; [intros k Hk; apply list_lookup_total_alter_ne;
            intros ->; apply Hk; left|].
    split; [intros k; now apply (lookup_total_alter_field (fun j => blank j))|].
    rewrite list_lookup_total_alter_eq by exact Hthis.
    split; [intros k ->%list_elem_of_singleton;
            rewrite list_lookup_total_alter_eq by exact Hthis; split;
            [reflexivity | exact HW]|].
    split; [reflexivity|].
    intros k ->%list_elem_of_singleton Hne. contradiction. }
  assert (Hfold : forall cs subs,
            Forall2 (fun c sub => getAllJoints fuel s c = Ret sub) cs subs ->
            forall dn (x x' : Store),
              (forall c, c ∈ cs -> c ∈ children (s !!! this)) ->
              this ∈ dn -> NoDup (dn ++ concat subs) ->
              (forall k, k ∈ dn ++ concat subs ->
                 (forall c, c ∈ children (s !!! k) -> parent (s !!! c) = Some k)
                 /\ (k < List.length s)%nat) ->
              treeInv s this W dn x ->
              foldM (fun x child => updateTransform fuel child x) cs x = Ret x' ->
              treeInv s this W (dn ++ concat subs) x').
  { clear H Hl HF s' H1.
    induction 1 as [|c sub cs' subs' Hc HF' IHF]; intros dn x x' Hkids Hin Hnd' Hok Hinv Hf.
    - simpl in *. injection Hf as <-. now rewrite app_nil_r.
    - simpl in Hf. apply bind_Ret_inv in Hf as (x1 & Hstep & Hf).
      cbn [concat] in *. rewrite app_assoc in *.
      destruct Hinv as (Ilen & Iout & Iblank & Iloc & Iw & Ilaw).
      assert (Hcore : sameCore x s).
      { split; [exact Ilen|]. intros k.
        now destruct (blank_fields _ _ (Iblank k)) as (_ & _ & _ & _ & ->). }
      assert (Hsub : getAllJoints fuel x c = Ret sub)
        by (rewrite (getAllJoints_core s) by exact Hcore; exact Hc).
      apply NoDup_app in Hnd' as Hnd2. destruct Hnd2 as (Hnd2 & _ & _).
      apply NoDup_app in Hnd2 as (Hnddn & Hdisj & Hndsub).
      assert (Hdn : forall k, k ∈ dn -> k ∈ (dn ++ sub) ++ concat subs')
        by (intros k Hk; apply elem_of_app; left; apply elem_of_app; now left).
      assert (Hsb : forall k, k ∈ sub -> k ∈ (dn ++ sub) ++ concat subs')
        by (intros k Hk; apply elem_of_app; left; apply elem_of_app; now right).
      assert (Hpc : parent (s !!! c) = Some this).
      { apply (proj1 (Hok this (Hdn this Hin))). apply Hkids. left. }
      assert (Hpx : parent (x !!! c) = Some this).
      { now destruct (blank_fields _ _ (Iblank c)) as (_ & _ & _ & -> & _). }
      destruct (IH c x x1 sub Hsub Hndsub) as (Jlen & Jout & Jblank & Jloc & Jw & Jlaw).
      { intros k c' Hk Hc'.
        destruct (blank_fields _ _ (Iblank k)) as (_ & _ & Hch & _).
        destruct (blank_fields _ _ (Iblank c')) as (_ & _ & _ & -> & _).
        rewrite Hch in Hc'. apply (proj1 (Hok k (Hsb k Hk))). exact Hc'. }
      { intros k Hk. rewrite Ilen. apply (proj2 (Hok k (Hsb k Hk))). }
      { rewrite Hpx. apply Iloc. exact Hin. }
      { exact Hstep. }
      assert (Hthis_sub : this ∉ sub) by (intros Hx; exact (Hdisj this Hin Hx)).
      apply (IHF (dn ++ sub) x1 x'); try assumption.
      + intros c' Hc'. apply Hkids. now right.
      + apply elem_of_app. now left.
      + (* the invariant for the joints done so far and the new subtree *)
        split; [congruence|].
        split.
        { intros k Hk.
          rewrite Jout by (intros Hx; apply Hk; apply elem_of_app; now right).
          apply Iout. intros Hx. apply Hk. apply elem_of_app. now left. }
        split; [intros k; now rewrite Jblank|].
        split.
        { intros k [Hk | Hk]%elem_of_app.
          - rewrite Jout by (intros Hx; exact (Hdisj k Hk Hx)). now apply Iloc.
          - destruct (Jloc k Hk) as [-> Ha]. split; [|exact Ha].
            now destruct (blank_fields _ _ (Iblank k)) as (-> & -> & _). }
        split; [now rewrite Jout by exact Hthis_sub|].
        intros k [Hk | Hk]%elem_of_app Hne.
        * destruct (Ilaw k Hk Hne) as (p & Hp & Hpdn & Hwk).
          exists p. split; [exact Hp|]. split; [apply elem_of_app; now left|].
          rewrite (Jout k) by (intros Hx; exact (Hdisj k Hk Hx)).
          rewrite (Jout p) by (intros Hx; exact (Hdisj p Hpdn Hx)).
          exact Hwk.
        * destruct (decide (k = c)) as [-> | Hkc].
          -- exists this. split; [exact Hpc|]. split; [apply elem_of_app; now left|].
             rewrite Jw, Hpx. rewrite (Jout this) by exact Hthis_sub.
             now destruct (blank_fields _ _ (Iblank c)) as (-> & -> & _).
          -- destruct (Jlaw k Hk Hkc) as (p & Hp & Hpsub & Hwk).
             exists p. split.
             { now destruct (blank_fields _ _ (Iblank k)) as (_ & _ & _ & <- & _). }
             split; [apply elem_of_app; now right|]. rewrite Hwk.
             now destruct (blank_fields _ _ (Iblank k)) as (-> & -> & _). }
  apply (Hfold _ _ HF [this] s1 s'); try assumption.
  - auto.
  - left.
  - intros k Hk. split; [intros c; apply Hcons; exact Hk | apply Hrange; exact Hk].
Qed.

Lemma getWorldPosition_local (W : Matrix3.t) (j : Joint.t) :
  Matrix3.affine W ->
  Matrix3.transformPoint (Matrix3.multiply W (localOf j)) (Vector2.mk 0 0)
  = Vector2.add (Vector2.rotate (Matrix3.transformPoint W (Vector2.mk 0 0)) (angle j))
                (position j).
Proof.
  intros HW.
  rewrite transformPoint_multiply.
  - rewrite transformPoint_multiply.
    + rewrite transformPoint_translation, transformPoint_rotation.
      now destruct (position j).
    + rewrite affine_weight by apply affine_rotation. lra.
    + rewrite affine_weight by apply affine_localOf. lra.
  - rewrite affine_weight by exact HW. lra.
  - rewrite affine_weight by (apply affine_multiply; [exact HW | apply affine_localOf]).
    lra.
Qed.

(** X27: what [updateTransform] computes on a tree.  Called on a joint
    without a parent whose subtree is a tree (every joint is listed once,
    and a child's [parent] is the joint that lists it), it touches the
    transforms of the joints of the subtree and nothing else, and leaves
    every joint with the local transform "rotate by [angle], then move by
    [position]" and the world transform "the parent's world transform,
    then the local one" (the local one alone at the top).  In
    coordinates: the world position of a joint is the world position of
    its parent, rotated about the origin by the joint's own angle, plus
    the joint's [position]. *)
Theorem updateTransform_composes_along_tree (fuel : nat) (top : nat)
    (st st' : Store) (l : list nat) :
  getAllJoints fuel st top = Ret l -> NoDup l ->
  (forall k c, k ∈ l -> c ∈ children (st !!! k) -> parent (st !!! c) = Some k) ->
  (forall k, k ∈ l -> (k < List.length st)%nat) ->
  parent (st !!! top) = None ->
  updateTransform fuel top st = Ret st' ->
  (forall k : nat, k ∉ l -> st' !!! k = st !!! k)
  /\ (forall k : nat, blank (st' !!! k) = blank (st !!! k))
  /\ forall k : nat, k ∈ l ->
       localTransform (st' !!! k) = localOf (st !!! k)
       /\ worldTransform (st' !!! k)
          = match parent (st !!! k) with
            | Some p => Matrix3.multiply (worldTransform (st' !!! p)) (localOf (st !!! k))
            | None => localOf (st !!! k)
            end
       /\ getWorldPosition (st' !!! k)
          = match parent (st !!! k) with
            | Some p =>
                Vector2.add (Vector2.rotate (getWorldPosition (st' !!! p))
                                            (angle (st !!! k)))
                            (position (st !!! k))
            | None => position (st !!! k)
            end.
Proof.
  intros Hl Hnd Hcons Hrange Htop H.
  destruct (updateTransform_law fuel top st st' l Hl Hnd Hcons Hrange)
    as (_ & Hout & Hblank & Hloc & Hw & Hlaw); [now rewrite Htop | exact H |].
  rewrite Htop in Hw.
  split; [exact Hout|]. split; [exact Hblank|].
  intros k Hk. split; [apply Hloc, Hk|].
  destruct (decide (k = top)) as [-> | Hne].
  - rewrite Htop. split; [exact Hw|].
    unfold getWorldPosition. rewrite Hw.
    rewrite transformPoint_multiply.
    + rewrite transformPoint_translation, transformPoint_rotation.
      destruct (position (st !!! top)) as [px py].
      apply Vector2_eq; simpl; ring.
    + rewrite affine_weight by apply affine_rotation. lra.
    + rewrite affine_weight by apply affine_localOf. lra.
  - destruct (Hlaw k Hk Hne) as (p & Hp & Hpl & Hwk). rewrite Hp.
    split; [exact Hwk|].
    unfold getWorldPosition. rewrite Hwk.
    apply getWorldPosition_local.
    apply Hloc, Hpl.
Qed.

(** The default chain: Joint_1 sits at the root's position, turned by
    Joint_1's angle, plus Joint_1's offset. *)
Lemma updateTransform_composes_along_tree_witness :
  exists st',
    updateTransform 4 0 JointChain.defaultStore = Ret st'
    /\ getWorldPosition (st' !!! 1%nat)
       = Vector2.add
           (Vector2.rotate (getWorldPosition (st' !!! 0%nat))
                           (angle (JointChain.defaultStore !!! 1%nat)))
           (position (JointChain.defaultStore !!! 1%nat)).
Proof.
  destruct (updateTransform_returns JointChain.defaultStore 4 0
              JointChain.defaultStore (sameCore_refl _) eq_refl) as [st' H].
  exists st'. split; [exact H|].
  assert (Hl : getAllJoints 4 JointChain.defaultStore 0 = Ret [0; 1; 2; 3]%nat)
    by reflexivity.
  assert (Hnd : NoDup [0; 1; 2; 3]%nat)
    by (apply (bool_decide_unpack _); vm_compute; exact I).
  assert (Hcons : forall k c, k ∈ [0; 1; 2; 3]%nat ->
            c ∈ children (JointChain.defaultStore !!! k) ->
            parent (JointChain.defaultStore !!! c) = Some k).
  { intros k c Hk Hc.
    repeat (apply elem_of_cons in Hk as [-> | Hk];
            [cbn in Hc;
             repeat (apply elem_of_cons in Hc as [-> | Hc]; [reflexivity|]);
             inversion Hc|]).
    inversion Hk. }
  assert (Hrange : forall k, k ∈ [0; 1; 2; 3]%nat ->
            (k < List.length JointChain.defaultStore)%nat).
  { intros k Hk.
    repeat (apply elem_of_cons in Hk as [-> | Hk]; [simpl; lia|]). inversion Hk. }
  destruct (updateTransform_composes_along_tree 4 0 JointChain.defaultStore st'
              [0; 1; 2; 3]%nat Hl Hnd Hcons Hrange eq_refl H) as (_ & _ & Hall).
  assert (H1 : 1%nat ∈ [0; 1; 2; 3]%nat) by (right; left).
  exact (proj2 (proj2 (Hall 1%nat H1))).
Defined.

End TreeLaw.

(** ** addChild and removeChild *)

Section Links.
  Import Joint.

Lemma indexOf_absent (l : list nat) (c : nat) : c ∉ l -> indexOf l c = None.
Proof.
  induction l as [|a l IH]; intros H; [reflexivity|]. simpl.
  rewrite bool_decide_eq_false_2 by (intros ->; apply H; left).
  rewrite IH by (intros Hc; apply H; now right). reflexivity.
Qed.

Lemma indexOf_last (l : list nat) (c : nat) :
  c ∉ l -> indexOf (l ++ [c]) c = Some (List.length l).
Proof.
  induction l as [|a l IH]; intros H; simpl.
  - now rewrite bool_decide_eq_true_2.
  - rewrite bool_decide_eq_false_2 by (intros ->; apply H; left).
    rewrite IH by (intros Hc; apply H; now right). reflexivity.
Qed.

Lemma delete_last (l : list nat) (c : nat) : delete (List.length l) (l ++ [c]) = l.
Proof. induction l as [|a l IH]; simpl; [reflexivity | now rewrite IH]. Qed.

Lemma addChild_fields (this child : nat) (st : Store) :
  child <> this -> (this < List.length st)%nat -> (child < List.length st)%nat ->
  addChild this child st !!! this
  = set_children (children (st !!! this) ++ [child]) (st !!! this)
  /\ addChild this child st !!! child = set_parent (Some this) (st !!! child)
  /\ forall k, k <> this -> k <> child -> addChild this child st !!! k = st !!! k.
Proof.
  intros Hne Ht Hc. unfold addChild. rewrite bool_decide_eq_true_2 by exact Hne.
  split; [|split].
  - rewrite list_lookup_total_alter_ne by exact Hne.
    now rewrite list_lookup_total_alter_eq.
  - rewrite list_lookup_total_alter_eq by (rewrite length_alter; exact Hc).
    now rewrite list_lookup_total_alter_ne by congruence.
  - intros k H1 H2. now rewrite !list_lookup_total_alter_ne by congruence.
Qed.

(** X28: the two tree edits of [Joint].  [addChild] of a joint to itself
    changes nothing; otherwise it appends the child to the receiver's
    [children] and sets the child's [parent], and touches no other joint:
    it does not take the child out of the [children] of a parent it
    already had.  [removeChild] of a joint that is not a child changes
    nothing; and [removeChild] after [addChild] of a joint that was
    neither a child of the receiver nor had a parent restores the tree
    exactly. *)
Theorem addChild_removeChild (this child : nat) (st : Store) :
  addChild this this st = st
  /\ (child ∉ children (st !!! this) -> removeChild this child st = st)
  /\ (child <> this -> (this < List.length st)%nat -> (child < List.length st)%nat ->
      children (addChild this child st !!! this) = children (st !!! this) ++ [child]
      /\ parent (addChild this child st !!! child) = Some this
      /\ (forall q, q <> this -> children (addChild this child st !!! q)
                                 = children (st !!! q))
      /\ (child ∉ children (st !!! this) -> parent (st !!! child) = None ->
          removeChild this child (addChild this child st) = st)).
Proof.
  split; [|split].
  - unfold addChild. now rewrite bool_decide_eq_false_2 by auto.
  - intros H. unfold removeChild. now rewrite indexOf_absent.
  - intros Hne Ht Hc.
    destruct (addChild_fields this child st Hne Ht Hc) as (Hthis & Hchild & Hother).
    split; [now rewrite Hthis|]. split; [now rewrite Hchild|]. split.
    + intros q Hq. destruct (decide (q = child)) as [-> | Hqc].
      * now rewrite Hchild.
      * now rewrite Hother.
    + intros Hnot Hpar. unfold removeChild.
      rewrite Hthis. cbn [children set_children].
      rewrite indexOf_last by exact Hnot.
      apply list_eq. intros k.
      assert (Hlen : List.length (addChild this child st) = List.length st).
      { unfold addChild. rewrite bool_decide_eq_true_2 by exact Hne.
        now rewrite !length_alter. }
      destruct (decide (k = child)) as [-> | Hkc].
      * rewrite list_lookup_alter_eq, list_lookup_alter_ne by congruence.
        rewrite (list_lookup_lookup_total_lt (addChild this child st) child)
          by (rewrite Hlen; exact Hc).
        rewrite (list_lookup_lookup_total_lt st child) by exact Hc.
        rewrite Hchild. cbn. f_equal.
        destruct (st !!! child). cbn in *. now subst.
      * rewrite list_lookup_alter_ne by congruence.
        destruct (decide (k = this)) as [-> | Hkt].
        -- rewrite list_lookup_alter_eq.
           rewrite (list_lookup_lookup_total_lt (addChild this child st) this)
             by (rewrite Hlen; exact Ht).
           rewrite (list_lookup_lookup_total_lt st this) by exact Ht.
           rewrite Hthis. cbn. f_equal. rewrite delete_last.
           now destruct (st !!! this).
        -- rewrite list_lookup_alter_ne by congruence.
           destruct (decide (k < List.length st)%nat) as [Hk | Hk].
           ++ rewrite (list_lookup_lookup_total_lt (addChild this child st) k)
                by (rewrite Hlen; exact Hk).
              rewrite (list_lookup_lookup_total_lt st k) by exact Hk.
              now rewrite Hother.
           ++ rewrite !lookup_ge_None_2 by lia. reflexivity.
Qed.

End Links.

(** ** solveCCD works on stale transforms *)

Section StaleCCD.
  Import Joint JointChain.

Variable this : JointChain.t.
Variable endEffector : nat.
Variable st : Store.

Abbreviation sameButTarget s :=
  (List.length s%list = List.length st
   /\ forall k : nat, set_targetAngle 0 (s%list !!! k) = set_targetAngle 0 (st !!! k)).

(** The vectors and the rotation of joint [j], read off the store at the
    call. *)
Abbreviation toEnd j :=
  (Vector2.subtract (getEndEffectorPosition (st !!! endEffector))
                    (getWorldPosition (st !!! j))).

Abbreviation toTarget j :=
  (Vector2.subtract (target this) (getWorldPosition (st !!! j))).

Abbreviation turn j :=
  ((Vector2.angle (toTarget j) - Vector2.angle (toEnd j)) * ikStrength this).

Lemma target_fields (a b : Joint.t) :
  set_targetAngle 0 a = set_targetAngle 0 b ->
  worldTransform a = worldTransform b /\ Joint.length a = Joint.length b
  /\ ikEnabled a = ikEnabled b /\ angleWrapping a = angleWrapping b.
Proof. destruct a, b. cbn. intros [= -> -> -> -> -> -> -> -> -> -> -> ->]. repeat split. Qed.

Lemma target_positions (a b : Joint.t) :
  set_targetAngle 0 a = set_targetAngle 0 b ->
  getWorldPosition a = getWorldPosition b
  /\ getEndEffectorPosition a = getEndEffectorPosition b.
Proof.
  intros H. destruct (target_fields _ _ H) as (Hw & Hl & _).
  unfold getWorldPosition, getEndEffectorPosition. now rewrite Hw, Hl.
Qed.

Lemma rotate_target d (j : Joint.t) : set_targetAngle 0 (rotate d j) = set_targetAngle 0 j.
Proof. reflexivity. Qed.

Lemma ccdJoint_stale (s : Store) (j : nat) :
  sameButTarget s ->
  sameButTarget (ccdJoint this endEffector s j)
  /\ (forall k, k <> j -> ccdJoint this endEffector s j !!! k = s !!! k)
  /\ ((j < List.length st)%nat -> ikEnabled (st !!! j) = true ->
      1 / 1000 < Vector2.magnitude (toEnd j) ->
      1 / 1000 < Vector2.magnitude (toTarget j) ->
      ccdJoint this endEffector s j !!! j = rotate (turn j) (s !!! j)).
Proof.
  intros [Hlen Hk]. unfold ccdJoint.
  destruct (target_fields _ _ (Hk j)) as (_ & _ & -> & _).
  destruct (target_positions _ _ (Hk j)) as [-> _].
  destruct (target_positions _ _ (Hk endEffector)) as [_ ->].
  destruct (ikEnabled (st !!! j)); cbn [negb].
  - destruct (JS.gtb (Vector2.magnitude (toEnd j)) (1 / 1000)) eqn:E1;
      [destruct (JS.gtb (Vector2.magnitude (toTarget j)) (1 / 1000)) eqn:E2|];
      cbn [andb].
    + split; [split; [now rewrite length_alter|]|].
      * intros k. rewrite <- Hk.
        apply (lookup_total_alter_field (fun x => set_targetAngle 0 x)).
        intros x. apply rotate_target.
      * split; [intros k Hne; now rewrite list_lookup_total_alter_ne by congruence|].
        intros Hj _ _ _. now rewrite list_lookup_total_alter_eq by (rewrite Hlen; exact Hj).
    + split; [now split|]. split; [reflexivity|].
      intros _ _ _ H2. apply gtb_false in E2. lra.
    + split; [now split|]. split; [reflexivity|].
      intros _ _ H1 _. apply gtb_false in E1. lra.
  - split; [now split|]. split; [reflexivity|]. discriminate.
Qed.

Lemma round_stale (j : nat) (L : list nat) : forall s : Store,
  sameButTarget s -> NoDup L ->
  sameButTarget (fold_left (ccdJoint this endEffector) L s)
  /\ ((j < List.length st)%nat -> ikEnabled (st !!! j) = true ->
      angleWrapping (st !!! j) = true ->
      1 / 1000 < Vector2.magnitude (toEnd j) ->
      1 / 1000 < Vector2.magnitude (toTarget j) -> j ∈ L ->
      targetAngle (fold_left (ccdJoint this endEffector) L s !!! j)
      = targetAngle (s !!! j) + turn j)
  /\ (j ∉ L -> fold_left (ccdJoint this endEffector) L s !!! j = s !!! j).
Proof.
  induction L as [|a L IH]; intros s Hs Hnd; simpl.
  - split; [exact Hs|]. split; [intros _ _ _ _ _ Hin; inversion Hin | reflexivity].
  - apply NoDup_cons in Hnd as [Ha Hnd].
    destruct (ccdJoint_stale s a Hs) as (Hs1 & Hother & Hmove).
    destruct (IH _ Hs1 Hnd) as (Hs2 & Hin & Hout).
    split; [exact Hs2|]. split.
    + intros Hj He Hw H1 H2 [-> | HjL]%elem_of_cons.
      * rewrite Hout by exact Ha. rewrite Hmove by assumption.
        unfold rotate.
        destruct (target_fields _ _ (proj2 Hs a)) as (_ & _ & _ & ->).
        now rewrite Hw.
      * rewrite Hin by assumption. f_equal. f_equal. apply Hother.
        intros ->. contradiction.
    + intros Hj. rewrite Hout by (intros Hx; apply Hj; now right).
      apply Hother. intros ->. apply Hj. left.
Qed.

Lemma ccdRounds_stale (joints : list nat) (j : nat) :
  NoDup joints ->
  forall todo (s : Store),
    sameButTarget s ->
    sameButTarget (ccdRounds this endEffector joints todo s)
    /\ (threshold this
        <= Vector2.distance (getEndEffectorPosition (st !!! endEffector)) (target this) ->
        (j < List.length st)%nat -> ikEnabled (st !!! j) = true ->
        angleWrapping (st !!! j) = true ->
        1 / 1000 < Vector2.magnitude (toEnd j) ->
        1 / 1000 < Vector2.magnitude (toTarget j) -> j ∈ joints ->
        targetAngle (ccdRounds this endEffector joints todo s !!! j)
        = targetAngle (s !!! j) + INR todo * turn j).
Proof.
  intros Hnd. induction todo as [|todo IH]; intros s Hs.
  - split; [exact Hs|]. intros. simpl. ring.
  - cbn [ccdRounds].
    assert (Hnd' : NoDup (rev joints))
      by (apply NoDup_ListNoDup, List.NoDup_rev, NoDup_ListNoDup; exact Hnd).
    destruct (round_stale j (rev joints) s Hs Hnd') as (Hs1 & Hin & _).
    destruct (IH _ Hs1) as (Hs2 & Hrest).
    destruct (target_positions _ _ (proj2 Hs1 endEffector)) as [_ ->].
    destruct (JS.ltb _ (threshold this)) eqn:E.
    + split; [exact Hs1|]. intros Hfar. apply ltb_true in E. lra.
    + split; [exact Hs2|]. intros Hfar Hj He Hw H1 H2 HjL.
      rewrite Hrest by assumption.
      rewrite Hin
        by (try assumption; apply list_elem_of_In, in_rev;
            rewrite rev_involutive; now apply list_elem_of_In).
      rewrite S_INR. ring.
Qed.

Lemma fold_same (L : list nat) : forall s : Store,
  sameButTarget s -> sameButTarget (fold_left (ccdJoint this endEffector) L s).
Proof.
  induction L as [|a L IHL]; intros s Hs; simpl; [exact Hs|].
  apply IHL. now destruct (ccdJoint_stale s a Hs).
Qed.

Lemma ccdRounds_same (joints : list nat) todo : forall s : Store,
  sameButTarget s -> sameButTarget (ccdRounds this endEffector joints todo s).
Proof.
  induction todo as [|todo IH]; intros s Hs; [exact Hs|].
  cbn [ccdRounds]. destruct (JS.ltb _ _); [now apply fold_same|].
  apply IH. now apply fold_same.
Qed.

(** X29: [solveCCD] never refreshes a transform, so it measures the same
    effector and the same joint positions in every pass.  It writes
    [targetAngle] and nothing else; its convergence test gives the same
    answer after every pass; and a joint that it rotates at all is rotated
    by the same amount in each of the [iterations] passes: with angle
    wrapping on, its [targetAngle] ends [iterations] times that rotation
    away from where it started. *)
Theorem solveCCD_repeats_one_rotation (fuel : nat) (st' : Store)
    (joints : list nat) (j : nat) :
  solveCCD fuel this endEffector st = Ret st' ->
  getAllJointsInOrder fuel this st = Ret joints ->
  List.length st' = List.length st
  /\ (forall k : nat,
        set_targetAngle 0 (st' !!! k) = set_targetAngle 0 (st !!! k)
        /\ getWorldPosition (st' !!! k) = getWorldPosition (st !!! k)
        /\ getEndEffectorPosition (st' !!! k) = getEndEffectorPosition (st !!! k))
  /\ (NoDup joints ->
      threshold this
      <= Vector2.distance (getEndEffectorPosition (st !!! endEffector)) (target this) ->
      j ∈ joints -> (j < List.length st)%nat ->
      ikEnabled (st !!! j) = true -> angleWrapping (st !!! j) = true ->
      1 / 1000 < Vector2.magnitude (toEnd j) ->
      1 / 1000 < Vector2.magnitude (toTarget j) ->
      targetAngle (st' !!! j)
      = targetAngle (st !!! j) + INR (iterations this) * turn j).
Proof.
  intros H Hjoints. unfold solveCCD in H. rewrite Hjoints in H.
  injection H as <-.
  assert (Hst : sameButTarget st) by (split; reflexivity).
  pose proof (ccdRounds_same joints (iterations this) st Hst) as Hsame.
  split; [exact (proj1 Hsame)|]. split.
  - intros k. split; [exact (proj2 Hsame k)|].
    exact (target_positions _ _ (proj2 Hsame k)).
  - intros Hnd Hfar Hj Hlt He Hw H1 H2.
    exact (proj2 (ccdRounds_stale joints j Hnd (iterations this) st Hst)
             Hfar Hlt He Hw H1 H2 Hj).
Qed.

End StaleCCD.

Section StaleCCDShipped.
  Import Joint JointChain.

Lemma magnitude_gt (a x y : R) :
  0 <= a -> a * a < x * x + y * y -> a < Vector2.magnitude (Vector2.mk x y).
Proof.
  intros Ha H. unfold Vector2.magnitude. cbn [Vector2.x Vector2.y].
  rewrite <- (sqrt_square a Ha). apply sqrt_lt_1_alt. split; [nra | exact H].
Qed.

(** The default chain before any transform is computed: Joint_1 is turned
    ten times by the angle between the root's segment end and the
    target. *)
Lemma solveCCD_repeats_one_rotation_witness :
  exists st',
    solveCCD 4 defaultChain 0 defaultStore = Ret st'
    /\ targetAngle (st' !!! 1%nat)
       = targetAngle (defaultStore !!! 1%nat)
         + INR 10 * ((Vector2.angle (Vector2.mk 600 300)
                      - Vector2.angle (Vector2.mk 60 0)) * 1).
Proof.
  assert (Hjoints : getAllJointsInOrder 4 defaultChain defaultStore
                    = Ret [0; 1; 2; 3]%nat) by reflexivity.
  assert (Hrun : solveCCD 4 defaultChain 0 defaultStore
                 = Ret (ccdRounds defaultChain 0 [0; 1; 2; 3]%nat 10 defaultStore)).
  { unfold solveCCD. now rewrite Hjoints. }
  eexists. split; [exact Hrun|].
  assert (Hend : getEndEffectorPosition (defaultStore !!! 0%nat) = Vector2.mk 60 0).
  { change (getEndEffectorPosition (defaultStore !!! 0%nat))
      with (Matrix3.transformPoint Matrix3.identity (Vector2.mk 60 0)).
    apply transformPoint_identity. }
  assert (Hpos : getWorldPosition (defaultStore !!! 1%nat) = Vector2.mk 0 0).
  { change (getWorldPosition (defaultStore !!! 1%nat))
      with (Matrix3.transformPoint Matrix3.identity (Vector2.mk 0 0)).
    apply transformPoint_identity. }
  assert (HtoEnd : Vector2.subtract (getEndEffectorPosition (defaultStore !!! 0%nat))
                     (getWorldPosition (defaultStore !!! 1%nat)) = Vector2.mk 60 0).
  { rewrite Hend, Hpos. apply Vector2_eq; simpl; ring. }
  assert (HtoTarget : Vector2.subtract (target defaultChain)
                        (getWorldPosition (defaultStore !!! 1%nat))
                      = Vector2.mk 600 300).
  { rewrite Hpos. apply Vector2_eq; simpl; ring. }
  pose proof (proj2 (proj2 (solveCCD_repeats_one_rotation defaultChain 0 defaultStore 4
                              _ [0; 1; 2; 3]%nat 1 Hrun Hjoints))) as Hall.
  rewrite HtoEnd, HtoTarget in Hall. apply Hall.
  - apply (bool_decide_unpack _). vm_compute. exact I.
  - rewrite Hend. unfold Vector2.distance.
    apply Rlt_le. apply magnitude_gt; cbn; lra.
  - right. left.
  - simpl. lia.
  - reflexivity.
  - reflexivity.
  - apply magnitude_gt; lra.
  - apply magnitude_gt; lra.
Defined.

End StaleCCDShipped.

(** ** reset *)

(** A joint with everything blanked that [reset] writes: the angles, the
    FK angle and the two transforms. *)
Abbreviation rested j := (Joint.set_fkAngle 0 (core j)).

Abbreviation sameRested s st :=
  (List.length s%list = List.length st%list
   /\ forall k : nat, rested (s%list !!! k) = rested (st%list !!! k)).

Section Reset.
  Import Joint JointChain.

Lemma rested_fields (a b : Joint.t) :
  rested a = rested b ->
  children a = children b /\ parent a = parent b
  /\ constraints a = constraints b /\ angleWrapping a = angleWrapping b
  /\ ikEnabled a = ikEnabled b /\ ikWeight a = ikWeight b
  /\ damping a = damping b /\ Joint.length a = Joint.length b
  /\ position a = position b.
Proof. destruct a, b. cbn. intros [= -> -> -> -> -> -> -> -> ->]. repeat split. Qed.

Lemma sameCore_rested (s st : Store) : sameCore s st -> sameRested s st.
Proof. intros [Hlen Hk]. split; [exact Hlen|]. intros k. now rewrite Hk. Qed.

Lemma sameRested_refl (st : Store) : sameRested st st.
Proof. split; reflexivity. Qed.

Lemma sameRested_trans (a b c : Store) :
  sameRested a b -> sameRested b c -> sameRested a c.
Proof. intros [H1 H2] [H3 H4]. split; [congruence|]. intros k. now rewrite H2. Qed.

Lemma alter_rested (f : Joint.t -> Joint.t) (c : nat) (s : Store) :
  (forall j, rested (f j) = rested j) -> sameRested (alter f c s) s.
Proof.
  intros Hf. split; [now rewrite length_alter|].
  intros k. apply (lookup_total_alter_field (fun j => rested j)). exact Hf.
Qed.

Lemma shallow_rested n (st : Store) : forall c (s : Store),
  sameRested s st -> shallow n s c = shallow n st c.
Proof.
  induction n as [|n IH]; intros c s Hs; [reflexivity|]. cbn [shallow].
  destruct (rested_fields _ _ (proj2 Hs c)) as (-> & _).
  apply forallb_pointwise. intros x. now apply IH.
Qed.

Lemma updateTransform_blank (st : Store) fuel : forall this (s s' : Store),
  updateTransform fuel this s = Ret s' ->
  (forall k : nat, blank (s !!! k) = blank (st !!! k)) ->
  forall k : nat, blank (s' !!! k) = blank (st !!! k).
Proof.
  induction fuel as [|fuel IH]; intros this s s' H Hs; simpl in H; [discriminate|].
  apply (foldM_preserves
           (fun x : Store => forall k : nat, blank (x !!! k) = blank (st !!! k))
           _ _ _ _ H).
  - intros k. rewrite <- Hs.
    apply (lookup_total_alter_field (fun j => blank j)). reflexivity.
  - intros s1 c s2 _ H1 Hstep. eapply IH; eauto.
Qed.

Lemma reset_rested (st : Store) fuel joint (s s' : Store) :
  Joint.reset fuel joint s = Ret s' -> sameRested s st -> sameRested s' st.
Proof.
  unfold Joint.reset. intros H Hs.
  set (s1 := alter (fun j => set_fkAngle 0 (set_targetAngle 0 (set_angle 0 j)))
                   joint s) in *.
  assert (H1 : sameRested s1 s) by (apply alter_rested; reflexivity).
  assert (H2 : sameRested s' s1).
  { apply sameCore_rested.
    eapply updateTransform_core; [exact H | apply sameCore_refl]. }
  exact (sameRested_trans _ _ _ H2 (sameRested_trans _ _ _ H1 Hs)).
Qed.

Lemma reset_angles fuel joint (s s' : Store) :
  Joint.reset fuel joint s = Ret s' ->
  ((joint < List.length s)%nat ->
   angle (s' !!! joint) = 0 /\ targetAngle (s' !!! joint) = 0
   /\ fkAngle (s' !!! joint) = 0)
  /\ forall k, k <> joint ->
       angle (s' !!! k) = angle (s !!! k)
       /\ targetAngle (s' !!! k) = targetAngle (s !!! k)
       /\ fkAngle (s' !!! k) = fkAngle (s !!! k).
Proof.
  unfold Joint.reset. intros H.
  pose proof (updateTransform_blank _ _ _ _ _ H (fun k => eq_refl)) as Hb.
  split.
  - intros Hlt. specialize (Hb joint).
    rewrite list_lookup_total_alter_eq in Hb by exact Hlt.
    destruct (s' !!! joint), (s !!! joint). cbn in Hb.
    injection Hb as -> -> -> -> -> -> -> -> -> -> -> ->. repeat split.
  - intros k Hk. specialize (Hb k).
    rewrite list_lookup_total_alter_ne in Hb by congruence.
    destruct (s' !!! k), (s !!! k). cbn in Hb.
    injection Hb as -> -> -> -> -> -> -> -> -> -> -> ->. repeat split.
Qed.

(** X30: the chain's [reset] leaves every joint of the tree with [angle],
    [targetAngle] and [fkAngle] at 0, and changes nothing of any joint
    but these three and its two transforms. *)
Theorem reset_zeroes_every_joint (fuel : nat) (this : JointChain.t)
    (st st' : Store) (joints : list nat) (j : nat) :
  JointChain.reset fuel this st = Ret st' ->
  getAllJoints fuel st (root this) = Ret joints ->
  List.length st' = List.length st
  /\ (forall k : nat,
        set_fkAngle 0 (core (st' !!! k)) = set_fkAngle 0 (core (st !!! k)))
  /\ (j ∈ joints -> (j < List.length st)%nat ->
      angle (st' !!! j) = 0 /\ targetAngle (st' !!! j) = 0
      /\ fkAngle (st' !!! j) = 0).
Proof.
  intros H Hjoints. unfold JointChain.reset in H. rewrite Hjoints in H.
  cbn [mbind outcome_bind] in H.
  assert (Hrest : sameRested st' st).
  { apply (foldM_preserves (fun s : Store => sameRested s st) _ _ _ _ H
             (sameRested_refl st)).
    intros s a s' _ Hs Hstep. eapply reset_rested; eauto. }
  split; [exact (proj1 Hrest)|]. split; [exact (proj2 Hrest)|].
  intros Hj Hlt.
  apply (foldM_establishes_inv
           (fun s : Store => sameRested s st)
           (fun s : Store => angle (s !!! j) = 0 /\ targetAngle (s !!! j) = 0
                             /\ fkAngle (s !!! j) = 0)
           _ _ _ _ _ H Hj (sameRested_refl st)).
  - intros s b s' Hs Hstep. eapply reset_rested; eauto.
  - intros s s' Hs Hstep.
    apply (proj1 (reset_angles _ _ _ _ Hstep)). rewrite (proj1 Hs). exact Hlt.
  - intros s b s' Hs Hp Hstep.
    destruct (decide (b = j)) as [-> | Hne].
    + apply (proj1 (reset_angles _ _ _ _ Hstep)). rewrite (proj1 Hs). exact Hlt.
    + destruct (proj2 (reset_angles _ _ _ _ Hstep) j) as (-> & -> & ->); [congruence|].
      exact Hp.
Qed.

Lemma reset_returns fuel (this : JointChain.t) (st : Store) :
  shallow fuel st (root this) = true ->
  exists st', JointChain.reset fuel this st = Ret st'.
Proof.
  intros Hsh. unfold JointChain.reset.
  destruct (getAllJoints_returns st fuel _ Hsh) as [joints Hjoints].
  rewrite Hjoints. cbn [mbind outcome_bind].
  destruct (foldM_returns (fun s : Store => sameRested s st)
              (fun x : nat => shallow fuel st x = true)
              (fun s joint => Joint.reset fuel joint s) joints st (sameRested_refl st))
    as (s1 & Hs1 & _).
  - apply Forall_forall. intros x Hx.
    exact (getAllJoints_shallow st fuel (root this) joints Hsh Hjoints x Hx).
  - intros s x Hs Hx.
    set (s0 := alter (fun j => set_fkAngle 0 (set_targetAngle 0 (set_angle 0 j))) x s).
    assert (Hs0 : sameRested s0 st).
    { apply (sameRested_trans _ s); [|exact Hs]. apply alter_rested. reflexivity. }
    destruct (updateTransform_returns s0 fuel x s0 (sameCore_refl s0)) as [s' Hs'].
    + now rewrite (shallow_rested fuel st x s0 Hs0).
    + exists s'. split; [exact Hs'|]. eapply reset_rested; eauto.
  - eauto.
Qed.

Lemma reset_zeroes_every_joint_witness :
  exists st',
    JointChain.reset 4 defaultChain defaultStore = Ret st'
    /\ angle (st' !!! 3%nat) = 0 /\ targetAngle (st' !!! 3%nat) = 0
    /\ fkAngle (st' !!! 3%nat) = 0.
Proof.
  destruct (reset_returns 4 defaultChain defaultStore eq_refl) as [st' H].
  exists st'. split; [exact H|].
  assert (Hj : getAllJoints 4 defaultStore (root defaultChain)
               = Ret [0; 1; 2; 3]%nat) by reflexivity.
  assert (Hin : 3%nat ∈ [0; 1; 2; 3]%nat) by (right; right; right; left).
  assert (Hlt : (3 < List.length defaultStore)%nat) by (simpl; lia).
  exact (proj2 (proj2 (reset_zeroes_every_joint 4 defaultChain defaultStore st'
                         [0; 1; 2; 3]%nat 3 H Hj)) Hin Hlt).
Defined.

End Reset.

(** ** Joint.updateIK: what one round does to a joint *)

(** *** The direction difference and the signed angle *)

Lemma atan2_range y x : - PI < JS.atan2 y x <= PI.
Proof.
  pose proof PI_RGT_0 as Hpi. unfold JS.atan2.
  destruct (Rlt_dec 0 x) as [Hx|Hx].
  { pose proof (atan_bound (y / x)). lra. }
  destruct (Rlt_dec x 0) as [Hx'|Hx'].
  - pose proof (atan_bound (y / x)) as Hb.
    destruct (Rle_dec 0 y) as [Hy|Hy].
    + assert (Hq : y / x <= 0).
      { unfold Rdiv. pose proof (Rinv_lt_0_compat _ Hx'). nra. }
      assert (Ha : atan (y / x) <= 0).
      { destruct Hq as [Hq | Hq]; [|rewrite Hq, atan_0; lra].
        left. rewrite <- atan_0. now apply atan_increasing. }
      lra.
    + assert (Hq : 0 < y / x).
      { unfold Rdiv. pose proof (Rinv_lt_0_compat _ Hx'). nra. }
      assert (Ha : 0 < atan (y / x)).
      { rewrite <- atan_0. now apply atan_increasing. }
      lra.
  - destruct (Rlt_dec 0 y); [lra|]. destruct (Rlt_dec y 0); lra.
Qed.

Lemma fromAngle_turns a m (k : Z) :
  Vector2.fromAngle (a + 2 * PI * IZR k) m = Vector2.fromAngle a m.
Proof. unfold Vector2.fromAngle. now rewrite cos_turns, sin_turns. Qed.

(** [angleTo] is the direction difference brought into (-PI, PI]. *)
Lemma angleTo_polar (a v : Vector2.t) :
  0 < Vector2.magnitude a -> 0 < Vector2.magnitude v ->
  Vector2.angleTo a v
  = Vector2.angle (Vector2.fromAngle (Vector2.angle v - Vector2.angle a)
                     (Vector2.magnitude a * Vector2.magnitude v)).
Proof.
  intros Ha Hv.
  pose proof (fromAngle_angle a) as Pa. pose proof (fromAngle_angle v) as Pv.
  set (al := Vector2.angle a) in *. set (be := Vector2.angle v) in *.
  set (ma := Vector2.magnitude a) in *. set (mv := Vector2.magnitude v) in *.
  unfold Vector2.angleTo, Vector2.angle at 1. f_equal.
  - rewrite <- Pa, <- Pv. unfold Vector2.cross, Vector2.fromAngle. simpl.
    rewrite sin_minus. ring.
  - rewrite <- Pa, <- Pv. unfold Vector2.dot, Vector2.fromAngle. simpl.
    rewrite cos_minus. ring.
Qed.

Lemma angleTo_difference (a v : Vector2.t) :
  0 < Vector2.magnitude a -> 0 < Vector2.magnitude v ->
  let turn := Vector2.angle v - Vector2.angle a in
  (- PI < turn <= PI -> turn = Vector2.angleTo a v)
  /\ (PI < turn -> turn = Vector2.angleTo a v + 2 * PI)
  /\ (turn <= - PI -> turn = Vector2.angleTo a v - 2 * PI).
Proof.
  intros Ha Hv turn. pose proof PI_RGT_0 as Hpi.
  pose proof (atan2_range (Vector2.y a) (Vector2.x a)) as Ra.
  pose proof (atan2_range (Vector2.y v) (Vector2.x v)) as Rv.
  fold (Vector2.angle a) in Ra. fold (Vector2.angle v) in Rv.
  assert (Hm : 0 < Vector2.magnitude a * Vector2.magnitude v)
    by (apply Rmult_lt_0_compat; assumption).
  rewrite (angleTo_polar a v Ha Hv). fold turn.
  split; [|split]; intros Ht.
  - now rewrite angle_fromAngle.
  - rewrite <- (fromAngle_turns turn _ (-1)).
    rewrite angle_fromAngle by (try exact Hm; unfold turn in *; lra). lra.
  - rewrite <- (fromAngle_turns turn _ 1).
    rewrite angle_fromAngle by (try exact Hm; unfold turn in *; lra). lra.
Qed.

(** *** The joints a sweep visits *)

Section Visited.
  Import Joint.

Variable st : Store.

Lemma rooted_mono n : forall cur, rooted n st cur = true -> rooted (S n) st cur = true.
Proof.
  induction n as [|n IH]; intros [c|] H; try reflexivity; try discriminate.
  cbn [rooted] in *. now apply IH.
Qed.

Lemma visited_rooted n : forall cur,
  rooted n st cur = true -> visited (S n) st cur = visited n st cur.
Proof.
  induction n as [|n IH]; intros [c|] H; try reflexivity; try discriminate.
  cbn [rooted] in H. cbn [visited]. f_equal. now apply IH.
Qed.

Lemma visited_in_rooted n : forall cur k,
  rooted n st cur = true -> k ∈ visited n st cur -> rooted n st (Some k) = true.
Proof.
  induction n as [|n IH]; intros [c|] k H Hk; try (now inversion Hk).
  cbn [visited] in Hk. apply elem_of_cons in Hk as [-> | Hk]; [exact H|].
  cbn [rooted] in H. apply rooted_mono. eapply IH; eauto.
Qed.

(** A walk that ends meets no joint twice. *)
Lemma visited_no_cycle n : forall c,
  rooted (S n) st (Some c) = true -> c ∉ visited n st (parent (st !!! c)).
Proof.
  induction n as [|n IH]; intros c H Hin.
  - destruct (parent (st !!! c)); inversion Hin.
  - cbn [rooted] in H.
    pose proof (visited_in_rooted (S n) _ c H Hin) as Hc.
    apply (IH c Hc). cbn [rooted] in Hc.
    now rewrite <- (visited_rooted n _ Hc).
Qed.

End Visited.

Section SweepOnce.
  Import Joint.

Variable this : nat.
Variables endEffector target : Vector2.t.

(** A joint with its two angles blanked: what the sweep leaves alone. *)
Abbreviation still j := (set_angle 0 (set_targetAngle 0 j)).

Abbreviation sameButAngles s st :=
  (List.length s%list = List.length st%list
   /\ forall k : nat, still (s%list !!! k) = still (st%list !!! k)).

Lemma visited_still n (st : Store) : forall cur (s : Store),
  sameButAngles s st -> visited n s cur = visited n st cur.
Proof.
  induction n as [|n IH]; intros cur s Hs; destruct cur as [c|]; try reflexivity.
  cbn [visited]. destruct (still_fields _ _ (proj2 Hs c)) as (_ & _ & _ & _ & -> & _).
  f_equal. now apply IH.
Qed.

Lemma sweep_rooted fuel : forall cur (s s' : Store),
  sweep fuel this endEffector target cur s = Ret s' -> rooted fuel s cur = true.
Proof.
  induction fuel as [|fuel IH]; intros [c|] s s' H; try reflexivity;
    [discriminate|].
  cbn [sweep rooted] in *.
  destruct (negb (ikEnabled (s !!! c))); [eauto|].
  apply IH in H.
  rewrite (lookup_total_alter_field parent) in H by apply ikStep_parent.
  rewrite (rooted_still fuel s) in H; [exact H|].
  apply alter_still; [apply ikStep_still | split; reflexivity].
Qed.

(** One sweep applies [ikStep] once to every joint with IK enabled that
    it visits, each time with the same effector position, and leaves the
    other joints alone. *)
Lemma sweep_once fuel : forall cur (s s' : Store),
  sweep fuel this endEffector target cur s = Ret s' ->
  (forall k, k ∈ visited fuel s cur -> (k < List.length s)%nat ->
             ikEnabled (s !!! k) = true ->
             s' !!! k = ikStep (ikWeight (s !!! this)) endEffector target (s !!! k))
  /\ (forall k, k ∈ visited fuel s cur -> ikEnabled (s !!! k) = false ->
                s' !!! k = s !!! k)
  /\ (forall k, k ∉ visited fuel s cur -> s' !!! k = s !!! k).
Proof.
  induction fuel as [|fuel IH]; intros cur s s' H.
  - destruct cur as [c|]; [discriminate|]. injection H as <-.
    repeat split; intros; try reflexivity; exfalso; eapply not_elem_of_nil; eauto.
  - destruct cur as [c|].
    2:{ injection H as <-.
        repeat split; intros; try reflexivity; exfalso; eapply not_elem_of_nil; eauto. }
    pose proof (sweep_rooted _ _ _ _ H) as Hroot.
    pose proof (visited_no_cycle s fuel c Hroot) as Hfresh.
    cbn [sweep visited] in *.
    destruct (ikEnabled (s !!! c)) eqn:He; cbn [negb] in H.
    + set (w := ikWeight (s !!! this)) in *.
      set (s1 := alter (ikStep w endEffector target) c s) in *.
      assert (Hs1 : sameButAngles s1 s)
        by (apply alter_still; [apply ikStep_still | split; reflexivity]).
      assert (Hw : ikWeight (s1 !!! this) = w).
      { unfold s1. now rewrite (lookup_total_alter_field ikWeight)
          by apply ikStep_ikWeight. }
      assert (Hpar : parent (s1 !!! c) = parent (s !!! c)).
      { unfold s1. now rewrite (lookup_total_alter_field parent)
          by apply ikStep_parent. }
      rewrite Hpar in H.
      destruct (IH _ _ _ H) as (Hon & Hoff & Hout).
      rewrite (visited_still fuel s _ s1 Hs1) in Hon, Hoff, Hout.
      rewrite Hw in Hon.
      assert (Hother : forall k, k <> c -> s1 !!! k = s !!! k).
      { intros k Hk. unfold s1. now rewrite list_lookup_total_alter_ne. }
      split; [|split].
      * intros k Hk Hlt Hen. apply elem_of_cons in Hk as [-> | Hk].
        -- rewrite (Hout c Hfresh). unfold s1.
           now rewrite list_lookup_total_alter_eq.
        -- assert (Hkc : k <> c) by (intros ->; contradiction).
           rewrite <- (Hother k Hkc). apply Hon; [exact Hk | |].
           ++ now rewrite (proj1 Hs1).
           ++ now rewrite (Hother k Hkc).
      * intros k Hk Hen. apply elem_of_cons in Hk as [-> | Hk]; [congruence|].
        assert (Hkc : k <> c) by (intros ->; contradiction).
        rewrite <- (Hother k Hkc). apply Hoff; [exact Hk|].
        now rewrite (Hother k Hkc).
      * intros k Hk. apply not_elem_of_cons in Hk as [Hkc Hk].
        rewrite (Hout k Hk). now apply Hother.
    + destruct (IH _ _ _ H) as (Hon & Hoff & Hout).
      split; [|split].
      * intros k Hk Hlt Hen. apply elem_of_cons in Hk as [-> | Hk]; [congruence|].
        now apply Hon.
      * intros k Hk Hen. apply elem_of_cons in Hk as [-> | Hk].
        -- now apply Hout.
        -- now apply Hoff.
      * intros k Hk. apply not_elem_of_cons in Hk as [Hkc Hk]. now apply Hout.
Qed.

(** A call with one iteration is one sweep from the joint itself. *)
Lemma updateIK_one_round fuel threshold (st st' : Store) :
  updateIK fuel this target 1 threshold st = Ret st' ->
  ikEnabled (st !!! this) = true -> is_Some (parent (st !!! this)) ->
  threshold <= Vector2.distance (getEndEffectorPosition (st !!! this)) target ->
  sweep fuel this (getEndEffectorPosition (st !!! this)) target (Some this) st
  = Ret st'.
Proof.
  unfold updateIK. intros H Hen Hp Hfar. rewrite Hen in H.
  rewrite (bool_decide_eq_true_2 _ Hp) in H. cbn [negb orb] in H.
  rewrite (proj2 (ltb_false _ _) Hfar) in H. cbn [ikRounds] in H.
  destruct (sweep _ _ _ _ _ _) as [s1| |]; cbn [mbind outcome_bind] in H;
    [|discriminate..].
  now destruct (JS.ltb _ _).
Qed.

End SweepOnce.

Section RoundOnJoint.
  Import Joint.

(** What one round leaves of a visited joint with IK enabled: the joint
    after one [ikStep], taken with the effector position and the weights
    the call started with. *)
Lemma updateIK_round_joint fuel this target threshold (st st' : Store) (c : nat) :
  updateIK fuel this target 1 threshold st = Ret st' ->
  ikEnabled (st !!! this) = true -> is_Some (parent (st !!! this)) ->
  threshold <= Vector2.distance (getEndEffectorPosition (st !!! this)) target ->
  c ∈ visited fuel st (Some this) -> (c < List.length st)%nat ->
  ikEnabled (st !!! c) = true ->
  st' !!! c
  = ikStep (ikWeight (st !!! this)) (getEndEffectorPosition (st !!! this)) target
           (st !!! c).
Proof.
  intros H Hen Hp Hfar Hc Hlt Hec.
  pose proof (updateIK_one_round _ _ _ _ _ _ H Hen Hp Hfar) as Hsw.
  now apply (proj1 (sweep_once _ _ _ _ _ _ _ Hsw)).
Qed.

(** C7, as the code has it.  In a call of [Joint.updateIK] with one
    iteration that gets past the entry checks, take a joint [c] that the
    sweep visits (the joint itself or one of its ancestors), with IK
    enabled and with nonzero vectors from it to the end effector and to
    the target.  The rotation starts as [turn], the direction of the
    target vector minus the direction of the effector vector, each an
    [atan2]: that is the signed angle from the effector vector to the
    target vector when it lies in (-PI, PI], and a full turn away from it
    otherwise.  With constraints enabled it is replaced by
    [clamp (angle + turn) minAngle maxAngle - angle], which puts
    [angle + rotation] within the range when the range is not empty.  It
    is multiplied by the joint's [ikWeight] times the effector's;
    [angle + rotation] becomes [targetAngle]; and [angle] moves toward
    that by linear interpolation with factor [1 - damping].  Nothing else
    of the joint changes. *)
Theorem updateIK_step_rotation fuel this target threshold (st st' : Store) (c : nat) :
  updateIK fuel this target 1 threshold st = Ret st' ->
  ikEnabled (st !!! this) = true -> is_Some (parent (st !!! this)) ->
  threshold <= Vector2.distance (getEndEffectorPosition (st !!! this)) target ->
  c ∈ visited fuel st (Some this) -> (c < List.length st)%nat ->
  ikEnabled (st !!! c) = true ->
  let current := st !!! c in
  let endEffector := getEndEffectorPosition (st !!! this) in
  let toEnd := Vector2.subtract endEffector (getWorldPosition current) in
  let toTarget := Vector2.subtract target (getWorldPosition current) in
  0 < Vector2.magnitude toEnd -> 0 < Vector2.magnitude toTarget ->
  let turn := Vector2.angle toTarget - Vector2.angle toEnd in
  let lo := minAngle (constraints current) in
  let hi := maxAngle (constraints current) in
  let rotation :=
    if enabled (constraints current)
    then Rmax lo (Rmin hi (angle current + turn)) - angle current
    else turn in
  let applied := rotation * (ikWeight current * ikWeight (st !!! this)) in
  (- PI < turn <= PI -> turn = Vector2.angleTo toEnd toTarget)
  /\ (PI < turn -> turn = Vector2.angleTo toEnd toTarget + 2 * PI)
  /\ (turn <= - PI -> turn = Vector2.angleTo toEnd toTarget - 2 * PI)
  /\ (enabled (constraints current) = true -> lo <= hi ->
      lo <= angle current + rotation <= hi)
  /\ (enabled (constraints current) = true -> lo <= angle current + turn <= hi ->
      rotation = turn)
  /\ targetAngle (st' !!! c) = angle current + applied
  /\ angle (st' !!! c) = angle current + applied * (1 - damping current)
  /\ set_angle 0 (set_targetAngle 0 (st' !!! c))
     = set_angle 0 (set_targetAngle 0 current).
Proof.
  intros H Hen Hp Hfar Hc Hlt Hec current endEffector toEnd toTarget H1 H2
         turn lo hi rotation applied.
  pose proof (updateIK_round_joint _ _ _ _ _ _ _ H Hen Hp Hfar Hc Hlt Hec) as Hstep.
  fold current endEffector in Hstep.
  rewrite (ikStep_moving _ endEffector target current H1 H2) in Hstep.
  fold toEnd toTarget turn in Hstep. unfold MathUtils.clamp in Hstep.
  fold lo hi rotation applied in Hstep.
  destruct (angleTo_difference toEnd toTarget H1 H2) as (Ha & Hb & Hc').
  fold turn in Ha, Hb, Hc'.
  split; [exact Ha|]. split; [exact Hb|]. split; [exact Hc'|].
  split; [|split].
  - unfold rotation. intros -> Hle.
    pose proof (clamp_range (angle current + turn) lo hi Hle) as Hr.
    unfold MathUtils.clamp in Hr. lra.
  - unfold rotation. intros -> Hin.
    pose proof (clamp_id (angle current + turn) lo hi Hin) as Hr.
    unfold MathUtils.clamp in Hr. lra.
  - rewrite Hstep. cbn [targetAngle angle set_angle set_targetAngle].
    split; [reflexivity|]. split; [unfold MathUtils.lerp; ring|].
    now destruct current.
Qed.

End RoundOnJoint.

(** *** The round at two concrete inputs *)

Section RoundExamples.
  Import Joint.

Lemma heavy_effector :
  getEndEffectorPosition (heavyStore !!! 1%nat) = Vector2.mk 50 0.
Proof.
  change (getEndEffectorPosition (heavyStore !!! 1%nat))
    with (Matrix3.transformPoint Matrix3.identity (Vector2.mk 50 0)).
  apply transformPoint_identity.
Qed.

Lemma heavy_far :
  1 / 10 <= Vector2.distance (getEndEffectorPosition (heavyStore !!! 1%nat))
              (Vector2.mk 0 5).
Proof. rewrite heavy_effector. apply ltb_false, heavy_distance. Qed.

(** Witness of C7: the child of [heavyStore] (range [-1, 1], weight 2,
    damping 0.1) reaching for (0, 5) with its effector at (50, 0).  For
    the child, the turn of a quarter is cut to 1, scaled by 2 * 2 to 4,
    and nine tenths of it are applied.  For its parent (no constraints,
    weight 1) the quarter turn is scaled by 1 * 2 to PI, and nine tenths
    of it are applied. *)
Lemma updateIK_step_rotation_witness :
  exists st',
    updateIK 5 1 (Vector2.mk 0 5) 1 (1 / 10) heavyStore = Ret st'
    /\ targetAngle (st' !!! 1%nat) = 4
    /\ angle (st' !!! 1%nat) = 18 / 5
    /\ targetAngle (st' !!! 0%nat) = PI
    /\ angle (st' !!! 0%nat) = 9 * PI / 10.
Proof.
  destruct (updateIK_returns 5 1 (Vector2.mk 0 5) 1 (1 / 10) heavyStore eq_refl)
    as [st' H].
  exists st'. split; [exact H|].
  assert (Hp : is_Some (parent (heavyStore !!! 1%nat))) by (exists 0%nat; reflexivity).
  assert (Hc : 1%nat ∈ visited 5 heavyStore (Some 1%nat)) by (cbn [visited]; left).
  assert (Hc0 : 0%nat ∈ visited 5 heavyStore (Some 1%nat))
    by (cbn [visited]; right; left).
  assert (Hlt : (1 < List.length heavyStore)%nat) by (simpl; lia).
  assert (Hlt0 : (0 < List.length heavyStore)%nat) by (simpl; lia).
  assert (H1 : 0 < Vector2.magnitude
                     (Vector2.subtract (getEndEffectorPosition (heavyStore !!! 1%nat))
                        (getWorldPosition (heavyStore !!! 1%nat))))
    by (rewrite heavy_effector; exact heavy_toEnd).
  destruct (updateIK_step_rotation 5 1 (Vector2.mk 0 5) (1 / 10) heavyStore st' 1
              H eq_refl Hp heavy_far Hc Hlt eq_refl H1 heavy_toTarget)
    as (_ & _ & _ & _ & _ & HT & HA & _).
  destruct (updateIK_step_rotation 5 1 (Vector2.mk 0 5) (1 / 10) heavyStore st' 0
              H eq_refl Hp heavy_far Hc0 Hlt0 eq_refl H1 heavy_toTarget)
    as (_ & _ & _ & _ & _ & HT0 & HA0 & _).
  rewrite heavy_effector in HT, HA, HT0, HA0.
  rewrite heavy_child_position in HT, HA.
  change (getWorldPosition (heavyStore !!! 0%nat))
    with (getWorldPosition (heavyStore !!! 1%nat)) in HT0, HA0.
  rewrite heavy_child_position in HT0, HA0.
  change (enabled (constraints (heavyStore !!! 1%nat))) with true in HT, HA.
  change (enabled (constraints (heavyStore !!! 0%nat))) with false in HT0, HA0.
  change (angle (heavyStore !!! 1%nat)) with 0 in HT, HA.
  change (angle (heavyStore !!! 0%nat)) with 0 in HT0, HA0.
  change (minAngle (constraints (heavyStore !!! 1%nat))) with (-1) in HT, HA.
  change (maxAngle (constraints (heavyStore !!! 1%nat))) with 1 in HT, HA.
  change (ikWeight (heavyStore !!! 1%nat)) with 2 in HT, HA, HT0, HA0.
  change (ikWeight (heavyStore !!! 0%nat)) with 1 in HT0, HA0.
  change (damping (heavyStore !!! 1%nat)) with (1 / 10) in HT, HA.
  change (damping (heavyStore !!! 0%nat)) with (1 / 10) in HT0, HA0.
  unfold Vector2.angle, Vector2.subtract in HT, HA, HT0, HA0.
  cbn [Vector2.x Vector2.y] in HT, HA, HT0, HA0.
  replace (5 - 0) with 5 in HT, HA, HT0, HA0 by ring.
  replace (0 - 0) with 0 in HT, HA, HT0, HA0 by ring.
  replace (50 - 0) with 50 in HT, HA, HT0, HA0 by ring.
  rewrite atan2_pos_y_axis, atan2_pos_x_axis in HT, HA, HT0, HA0 by lra.
  assert (Hcut : Rmax (-1) (Rmin 1 (0 + (PI / 2 - 0))) = 1).
  { pose proof PI2_1. rewrite Rmin_left by lra. apply Rmax_right. lra. }
  rewrite Hcut in HT, HA.
  split; [rewrite HT; lra|]. split; [rewrite HA; lra|].
  split; [rewrite HT0; lra | rewrite HA0; lra].
Defined.

Lemma atan2_neg_x_axis a : a < 0 -> JS.atan2 0 a = PI.
Proof.
  intros Ha. unfold JS.atan2.
  destruct (Rlt_dec 0 a) as [|_]; [lra|].
  destruct (Rlt_dec a 0) as [_|]; [|lra].
  destruct (Rle_dec 0 0) as [_|]; [|lra].
  unfold Rdiv. rewrite Rmult_0_l, atan_0. ring.
Qed.

Lemma atan2_neg_y_axis b : b < 0 -> JS.atan2 b 0 = - (PI / 2).
Proof.
  intros Hb. unfold JS.atan2.
  destruct (Rlt_dec 0 0) as [|_]; [lra|].
  destruct (Rlt_dec 0 b) as [|_]; [lra|].
  destruct (Rlt_dec b 0) as [_|]; [reflexivity | lra].
Qed.

(** C7, as stated, fails when the two directions lie on either side of the
    negative x axis.  The parent of [turnedStore] is turned by half a
    turn and sits at the origin, and the end effector of its child is at
    (-1, 0); the target is (0, -1).  For the parent, the signed angle from
    the effector vector to the target vector is a quarter turn, PI / 2.
    The round, with weights 1 and damping 0.1, takes the parent from PI to
    the target angle -PI / 2 and the angle -7 PI / 20: three quarters of a
    turn the other way, where the claim has PI + PI / 2 and
    PI + 9 PI / 20. *)
Lemma updateIK_turns_the_long_way :
  exists st0 st',
    updateTransform 3 0 turnedStore = Ret st0
    /\ updateIK 5 1 (Vector2.mk 0 (-1)) 1 (1 / 10) st0 = Ret st'
    /\ parent (st0 !!! 1%nat) = Some 0%nat
    /\ ikEnabled (st0 !!! 0%nat) = true
    /\ enabled (constraints (st0 !!! 0%nat)) = false
    /\ ikWeight (st0 !!! 0%nat) = 1
    /\ ikWeight (st0 !!! 1%nat) = 1
    /\ damping (st0 !!! 0%nat) = 1 / 10
    /\ angle (st0 !!! 0%nat) = PI
    /\ let toEnd := Vector2.subtract (getEndEffectorPosition (st0 !!! 1%nat))
                      (getWorldPosition (st0 !!! 0%nat)) in
       let toTarget := Vector2.subtract (Vector2.mk 0 (-1))
                         (getWorldPosition (st0 !!! 0%nat)) in
       let signed := Vector2.angleTo toEnd toTarget in
       toEnd = Vector2.mk (-1) 0
       /\ toTarget = Vector2.mk 0 (-1)
       /\ signed = PI / 2
       /\ targetAngle (st' !!! 0%nat) = - (PI / 2)
       /\ angle (st' !!! 0%nat) = - (7 * PI / 20)
       /\ targetAngle (st' !!! 0%nat) <> PI + signed * (1 * 1)
       /\ angle (st' !!! 0%nat) <> PI + signed * (1 * 1) * (1 - 1 / 10).
Proof.
  pose proof PI_RGT_0 as Hpi.
  set (j0 := set_angle PI (set_children [1%nat] (new (Vector2.mk 0 0) 50))).
  set (j1 := set_parent (Some 0%nat) (new (Vector2.mk 0 0) 1)).
  set (st0 := [set_transforms (localOf j0) (localOf j0) j0;
               set_transforms (localOf j1)
                 (Matrix3.multiply (localOf j0) (localOf j1)) j1]).
  assert (Hpos : getWorldPosition (st0 !!! 0%nat) = Vector2.mk 0 0).
  { unfold getWorldPosition, Matrix3.transformPoint. cbn.
    rewrite cos_PI, sin_PI. apply Vector2_eq; cbn; field. }
  assert (Heff : getEndEffectorPosition (st0 !!! 1%nat) = Vector2.mk (-1) 0).
  { unfold getEndEffectorPosition, Matrix3.transformPoint. cbn.
    rewrite cos_PI, sin_PI, cos_0, sin_0. apply Vector2_eq; cbn; field. }
  assert (HtoEnd : Vector2.subtract (getEndEffectorPosition (st0 !!! 1%nat))
                     (getWorldPosition (st0 !!! 0%nat)) = Vector2.mk (-1) 0).
  { rewrite Heff, Hpos. apply Vector2_eq; cbn; ring. }
  assert (HtoTarget : Vector2.subtract (Vector2.mk 0 (-1))
                        (getWorldPosition (st0 !!! 0%nat)) = Vector2.mk 0 (-1)).
  { rewrite Hpos. apply Vector2_eq; cbn; ring. }
  assert (Hm1 : Vector2.magnitude (Vector2.mk (-1) 0) = 1).
  { unfold Vector2.magnitude. cbn. apply sqrt_of_square; lra. }
  assert (Hm2 : Vector2.magnitude (Vector2.mk 0 (-1)) = 1).
  { unfold Vector2.magnitude. cbn. apply sqrt_of_square; lra. }
  assert (Hfar : 1 / 10 <= Vector2.distance (getEndEffectorPosition (st0 !!! 1%nat))
                             (Vector2.mk 0 (-1))).
  { rewrite Heff. unfold Vector2.distance, Vector2.magnitude, Vector2.subtract. cbn.
    rewrite <- (sqrt_square (1 / 10)) by lra. apply sqrt_le_1_alt. lra. }
  destruct (updateIK_returns 5 1 (Vector2.mk 0 (-1)) 1 (1 / 10) st0 eq_refl)
    as [st' H].
  assert (Hp : is_Some (parent (st0 !!! 1%nat))) by (exists 0%nat; reflexivity).
  assert (Hc : 0%nat ∈ visited 5 st0 (Some 1%nat)) by (cbn [visited]; right; left).
  assert (Hlt : (0 < List.length st0)%nat) by (simpl; lia).
  pose proof (updateIK_round_joint 5 1 (Vector2.mk 0 (-1)) (1 / 10) st0 st' 0
                H eq_refl Hp Hfar Hc Hlt eq_refl) as Hstep.
  rewrite ikStep_moving in Hstep by (rewrite ?HtoEnd, ?HtoTarget, ?Hm1, ?Hm2; lra).
  rewrite HtoEnd, HtoTarget in Hstep.
  change (enabled (constraints (st0 !!! 0%nat))) with false in Hstep.
  change (angle (st0 !!! 0%nat)) with PI in Hstep.
  change (ikWeight (st0 !!! 0%nat)) with 1 in Hstep.
  change (ikWeight (st0 !!! 1%nat)) with 1 in Hstep.
  change (damping (st0 !!! 0%nat)) with (1 / 10) in Hstep.
  unfold Vector2.angle in Hstep. cbn [Vector2.x Vector2.y] in Hstep.
  rewrite atan2_neg_y_axis, atan2_neg_x_axis in Hstep by lra.
  assert (Hsigned : Vector2.angleTo (Vector2.mk (-1) 0) (Vector2.mk 0 (-1)) = PI / 2).
  { unfold Vector2.angleTo, Vector2.cross, Vector2.dot. cbn [Vector2.x Vector2.y].
    replace (-1 * -1 - 0 * 0) with 1 by ring.
    replace (-1 * 0 + 0 * -1) with 0 by ring.
    apply atan2_pos_y_axis. lra. }
  exists st0, st'. split; [reflexivity|]. split; [exact H|].
  do 7 (split; [reflexivity|]).
  cbv zeta. rewrite HtoEnd, HtoTarget, Hsigned, Hstep.
  cbn [targetAngle angle set_angle set_targetAngle]. unfold MathUtils.lerp.
  repeat split; try reflexivity; lra.
Qed.

End RoundExamples.

(** ** solveIK_Advanced: where the frame breaks *)

Section FrameBreaks.
  Import Skeleton AdvancedIKSolver.

Lemma loopChain_resolvable : resolvable loopData 4 loopChain = true.
Proof. vm_compute. reflexivity. Qed.

(** C10, as stated, fails in two places.  On a chain that lists its last
    joint also as its first, the effector is written: with the rotation
    200 handed in for that joint, the map returned has a normalised
    angle, below 180, in its place.  And on an early return (here for a
    chain id the table does not have) the object returned is the
    argument itself, not a copy of it. *)
Lemma solveIK_Advanced_frame_fails :
  (IK_CHAINS loopData !! "loop" = Some loopChain
   /\ last (joints loopChain) = Some "a"
   /\ exists finalRots v,
        solveIK_Advanced loopData 4 (fun _ => 1 / 2) "loop" 30 0
          {["a" := 200]} (0, 0) = Ret finalRots
        /\ ({["a" := 200]} : gmap string R) !! "a" = Some 200
        /\ finalRots !! "a" = Some v
        /\ v < 180
        /\ finalRots !! "a" <> ({["a" := 200]} : gmap string R) !! "a")
  /\ solveIK_Advanced_object BITRUVIUS_DATA 8 (fun _ => 1 / 2) "tail_chain" 10 20
       initialRotations (400, 300) = Ret TheArgument.
Proof.
  split; [|reflexivity].
  split; [reflexivity|]. split; [reflexivity|].
  assert (Hknown : forall chainDef,
             IK_CHAINS loopData !! "loop" = Some chainDef ->
             resolvable loopData 4 chainDef = true).
  { intros chainDef [= <-]. exact loopChain_resolvable. }
  destruct (solveIK_Advanced_returns loopData 4 (fun _ => 1 / 2) "loop" 30 0
              {["a" := 200]} (0, 0) Hknown ltac:(discriminate)) as [finalRots H].
  pose proof H as Hrun.
  rewrite (solveIK_Advanced_known loopData 4 (fun _ => 1 / 2) "loop" loopChain)
    in Hrun by reflexivity.
  cbn [joints loopChain length Nat.ltb Nat.leb] in Hrun.
  apply bind_Ret_inv in Hrun as (su & _ & Hrun).
  apply bind_Ret_inv in Hrun as (s & _ & Hrun).
  destruct (extract_value loopData 4 _ _ _ _ _ 0 "a" Hrun) as (_ & a & Ha);
    [simpl; lia | reflexivity |].
  change (JOINT_LIMITS loopData !! "a") with (@None Limit) in Ha.
  exists finalRots, (normA a). split; [exact H|]. split; [reflexivity|].
  pose proof (normA_range a) as Hr.
  split; [exact Ha|]. split; [lra|].
  rewrite Ha. change (({["a" := 200]} : gmap string R) !! "a") with (Some 200).
  intros [= Heq]. lra.
Qed.

End FrameBreaks.
